(** * Morphlex: the tree-reconciliation engine of [src/morphlex.ts]

    The engine works on a host document: nodes with identity, parent and
    child links, an attribute list and a handful of stateful properties.
    The host is modelled as a store from node identities to node records;
    the engine's functions are transcribed over that store. *)

From Stdlib Require Import String Ascii List ZArith QArith Lia Bool.
From stdpp Require Import base strings option gmap list.

Close Scope Q_scope.
Open Scope string_scope.
Open Scope nat_scope.
Open Scope list_scope.

(** ** The host document *)

(** Node identity. Two node handles are [===] exactly when they are equal. *)
Abbreviation node := nat (only parsing).

Record NodeData := mkNodeData {
  nodeType : Z;                          (* 1 element, 3 text, 8 comment, 10 doctype, ... *)
  localName : string;
  attributes : list (string * string);  (* the NamedNodeMap, in order *)
  nodeValue : option string;             (* null for elements and doctypes *)
  parentNode : option node;
  childNodes : list node;
  (* stateful properties read or written by the engine *)
  value : string;
  defaultValue : string;
  checked : bool;
  disabled : bool;
  indeterminate : bool;
  selected : bool;
  type : string;
  name : string;
  ended : bool;
  paused : bool;
  currentTime : Q
}.

Definition with_attributes (d : NodeData) (a : list (string * string)) : NodeData :=
  mkNodeData (nodeType d) (localName d) a (nodeValue d) (parentNode d) (childNodes d)
    (value d) (defaultValue d) (checked d) (disabled d) (indeterminate d) (selected d)
    (type d) (name d) (ended d) (paused d) (currentTime d).

Definition with_nodeValue (d : NodeData) (v : option string) : NodeData :=
  mkNodeData (nodeType d) (localName d) (attributes d) v (parentNode d) (childNodes d)
    (value d) (defaultValue d) (checked d) (disabled d) (indeterminate d) (selected d)
    (type d) (name d) (ended d) (paused d) (currentTime d).

Definition with_parentNode (d : NodeData) (p : option node) : NodeData :=
  mkNodeData (nodeType d) (localName d) (attributes d) (nodeValue d) p (childNodes d)
    (value d) (defaultValue d) (checked d) (disabled d) (indeterminate d) (selected d)
    (type d) (name d) (ended d) (paused d) (currentTime d).

Definition with_childNodes (d : NodeData) (c : list node) : NodeData :=
  mkNodeData (nodeType d) (localName d) (attributes d) (nodeValue d) (parentNode d) c
    (value d) (defaultValue d) (checked d) (disabled d) (indeterminate d) (selected d)
    (type d) (name d) (ended d) (paused d) (currentTime d).

Definition with_value (d : NodeData) (v : string) : NodeData :=
  mkNodeData (nodeType d) (localName d) (attributes d) (nodeValue d) (parentNode d) (childNodes d)
    v (defaultValue d) (checked d) (disabled d) (indeterminate d) (selected d)
    (type d) (name d) (ended d) (paused d) (currentTime d).

Definition with_checked (d : NodeData) (b : bool) : NodeData :=
  mkNodeData (nodeType d) (localName d) (attributes d) (nodeValue d) (parentNode d) (childNodes d)
    (value d) (defaultValue d) b (disabled d) (indeterminate d) (selected d)
    (type d) (name d) (ended d) (paused d) (currentTime d).

Definition with_disabled (d : NodeData) (b : bool) : NodeData :=
  mkNodeData (nodeType d) (localName d) (attributes d) (nodeValue d) (parentNode d) (childNodes d)
    (value d) (defaultValue d) (checked d) b (indeterminate d) (selected d)
    (type d) (name d) (ended d) (paused d) (currentTime d).

Definition with_indeterminate (d : NodeData) (b : bool) : NodeData :=
  mkNodeData (nodeType d) (localName d) (attributes d) (nodeValue d) (parentNode d) (childNodes d)
    (value d) (defaultValue d) (checked d) (disabled d) b (selected d)
    (type d) (name d) (ended d) (paused d) (currentTime d).

Definition with_selected (d : NodeData) (b : bool) : NodeData :=
  mkNodeData (nodeType d) (localName d) (attributes d) (nodeValue d) (parentNode d) (childNodes d)
    (value d) (defaultValue d) (checked d) (disabled d) (indeterminate d) b
    (type d) (name d) (ended d) (paused d) (currentTime d).

(** The properties that go through [#updateProperty], and their values. *)
Inductive PropName :=
  | PChecked | PDisabled | PIndeterminate | PValue | PSelected | PNodeValue | PTextContent.

Inductive PropVal :=
  | VBool (b : bool)
  | VStr (s : string)
  | VNull.

Global Instance PropName_eq_dec : EqDecision PropName.
Proof. solve_decision. Defined.

Global Instance PropVal_eq_dec : EqDecision PropVal.
Proof. solve_decision. Defined.

(** Calls of the caller's hooks, in the order they are made. *)
Inductive HookCall :=
  | BeforeNodeMorphed (n r : node)
  | AfterNodeMorphed (n r : node)
  | BeforeNodeAdded (n : node)
  | AfterNodeAdded (n : node)
  | BeforeNodeRemoved (n : node)
  | AfterNodeRemoved (n : node)
  | BeforeAttributeUpdated (el : node) (attr : string) (newValue : option string)
  | AfterAttributeUpdated (el : node) (attr : string) (previousValue : option string)
  | BeforePropertyUpdated (n : node) (p : PropName) (newValue : PropVal)
  | AfterPropertyUpdated (n : node) (p : PropName) (previousValue : PropVal).

(** Mutating calls made on the host, in the order they are made (what a
    mutation watch on the document would see). *)
Inductive HostOp :=
  | OpRemoveAttribute (el : node) (attr : string)
  | OpSetAttribute (el : node) (attr v : string)
  | OpSetProperty (n : node) (p : PropName) (v : PropVal)
  | OpSetAriaBusy (n : node) (v : option string)
  | OpReplaceWith (n new : node)
  | OpInsertBefore (parent x : node) (before : option node)
  | OpAppendChild (parent x : node)
  | OpRemove (n : node).

Record World := mkWorld {
  nodes : gmap nat NodeData;
  activeElement : option node;     (* document.activeElement *)
  nextId : node;                   (* identity of the next node created *)
  calls : list HookCall;
  ops : list HostOp
}.

Definition with_nodes (w : World) (h : gmap nat NodeData) : World :=
  mkWorld h (activeElement w) (nextId w) (calls w) (ops w).
Definition with_activeElement (w : World) (a : option node) : World :=
  mkWorld (nodes w) a (nextId w) (calls w) (ops w).
Definition with_nextId (w : World) (i : node) : World :=
  mkWorld (nodes w) (activeElement w) i (calls w) (ops w).
Definition log_call (c : HookCall) (w : World) : World :=
  mkWorld (nodes w) (activeElement w) (nextId w) (calls w ++ [c]) (ops w).
Definition log_op (o : HostOp) (w : World) : World :=
  mkWorld (nodes w) (activeElement w) (nextId w) (calls w) (ops w ++ [o]).

(** *** Reading the document *)

Definition childNodesOf (w : World) (n : node) : list node :=
  match nodes w !! n with Some d => childNodes d | None => [] end.

Definition parentNodeOf (w : World) (n : node) : option node :=
  match nodes w !! n with Some d => parentNode d | None => None end.

Definition nodeTypeOf (w : World) (n : node) : Z :=
  match nodes w !! n with Some d => nodeType d | None => 0%Z end.

Definition localNameOf (w : World) (n : node) : string :=
  match nodes w !! n with Some d => localName d | None => "" end.

Definition attributesOf (w : World) (n : node) : list (string * string) :=
  match nodes w !! n with Some d => attributes d | None => [] end.

Definition nodeValueOf (w : World) (n : node) : option string :=
  match nodes w !! n with Some d => nodeValue d | None => None end.

Fixpoint assoc (k : string) (l : list (string * string)) : option string :=
  match l with
  | [] => None
  | (k', v) :: l' => if bool_decide (k' = k) then Some v else assoc k l'
  end.

Definition getAttribute (w : World) (el : node) (attr : string) : option string :=
  assoc attr (attributesOf w el).

Definition hasAttribute (w : World) (el : node) (attr : string) : bool :=
  bool_decide (is_Some (getAttribute w el attr)).

Definition hasAttributes (w : World) (el : node) : bool :=
  negb (bool_decide (attributesOf w el = [])).

Definition hasChildNodes (w : World) (n : node) : bool :=
  negb (bool_decide (childNodesOf w n = [])).

(** [element.id] reflects the [id] attribute; absent reads as the empty string. *)
Definition idOf (w : World) (el : node) : string :=
  default "" (getAttribute w el "id").

(** ** Type predicates (morphlex.ts, lines 362-408) *)

Definition isElement (w : World) (n : node) : bool :=
  bool_decide (nodeTypeOf w n = 1%Z).

Definition isMedia (w : World) (el : node) : bool :=
  bool_decide (localNameOf w el = "video") || bool_decide (localNameOf w el = "audio").

Definition isInput (w : World) (el : node) : bool :=
  bool_decide (localNameOf w el = "input").

Definition isOption (w : World) (el : node) : bool :=
  bool_decide (localNameOf w el = "option").

Definition isTextArea (w : World) (el : node) : bool :=
  bool_decide (localNameOf w el = "textarea").

Definition isHead (w : World) (el : node) : bool :=
  bool_decide (localNameOf w el = "head").

Definition parentNodeTypes : list Z := [1; 9; 11]%Z.

Definition isParentNode (w : World) (n : node) : bool :=
  bool_decide (nodeTypeOf w n ∈ parentNodeTypes).

(** *** Tree navigation *)

(** [parentElement]: the parent, when it is an element. *)
Definition parentElement (w : World) (n : node) : option node :=
  match parentNodeOf w n with
  | Some p => if isElement w p then Some p else None
  | None => None
  end.

(** Descendants in document order. The store is finite, so a walk deeper
    than its size can only happen in a store that is not a tree. *)
Fixpoint descendantsF (fuel : nat) (w : World) (n : node) : list node :=
  match fuel with
  | 0 => []
  | S k => flat_map (fun c => c :: descendantsF k w c) (childNodesOf w n)
  end.

Definition descendants (w : World) (n : node) : list node :=
  descendantsF (size (nodes w)) w n.

Inductive Selector :=
  | SelHasAttribute (attr : string)     (* "[attr]" *)
  | SelTypes (names : list string).     (* "a,b,c" *)

Definition matchesSelector (w : World) (sel : Selector) (el : node) : bool :=
  match sel with
  | SelHasAttribute a => hasAttribute w el a
  | SelTypes l => bool_decide (localNameOf w el ∈ l)
  end.

(** [node.querySelectorAll(sel)]: the matching element descendants of
    [node] (never [node] itself), in document order. *)
Definition querySelectorAll (w : World) (n : node) (sel : Selector) : list node :=
  List.filter (fun e => isElement w e && matchesSelector w sel e) (descendants w n).

(** ** The pre-passes (morphlex.ts, lines 99-146) *)

Definition valueOf (w : World) (n : node) : string :=
  match nodes w !! n with Some d => value d | None => "" end.
Definition defaultValueOf (w : World) (n : node) : string :=
  match nodes w !! n with Some d => defaultValue d | None => "" end.
Definition endedOf (w : World) (n : node) : bool :=
  match nodes w !! n with Some d => ended d | None => false end.
Definition pausedOf (w : World) (n : node) : bool :=
  match nodes w !! n with Some d => paused d | None => false end.
Definition currentTimeOf (w : World) (n : node) : Q :=
  match nodes w !! n with Some d => currentTime d | None => 0%Q end.

Definition sensitiveSelector : Selector :=
  SelTypes ["audio"; "canvas"; "embed"; "iframe"; "input"; "object"; "textarea"; "video"].

(** The body of the [for] loop of [#mapSensivity] up to the [while]: the
    score of one sensitive element. *)
Definition sensivityOf (w : World) (sensitiveElement : node) : nat :=
  if isInput w sensitiveElement || isTextArea w sensitiveElement then
    1 + (if bool_decide (valueOf w sensitiveElement <> defaultValueOf w sensitiveElement) then 1 else 0)
      + (if bool_decide (Some sensitiveElement = activeElement w) then 1 else 0)
  else
    3 + (if isMedia w sensitiveElement && negb (endedOf w sensitiveElement) then
           (if negb (pausedOf w sensitiveElement) then 1 else 0)
           + (if negb (Qle_bool (currentTimeOf w sensitiveElement) 0) then 1 else 0)
         else 0).

(** The shared shape of the two [while (current)] loops: visit [current],
    stop at the root, otherwise move to the parent element. *)
Fixpoint whileCurrent {A : Type} (fuel : nat) (w : World) (root : node)
    (visit : node -> A -> A) (current : node) (acc : A) : A :=
  match fuel with
  | 0 => acc
  | S k =>
      let acc' := visit current acc in
      if bool_decide (current = root) then acc'
      else match parentElement w current with
           | Some p => whileCurrent k w root visit p acc'
           | None => acc'
           end
  end.

Definition mapSensivity (w : World) (root : node) (sensivityMap : gmap nat nat) : gmap nat nat :=
  fold_left
    (fun m sensitiveElement =>
       let sensivity := sensivityOf w sensitiveElement in
       whileCurrent (S (size (nodes w))) w root
         (fun current m => <[current := default 0 (m !! current) + sensivity]> m)
         sensitiveElement m)
    (querySelectorAll w root sensitiveSelector)
    sensivityMap.

Definition mapIdSets (w : World) (root : node) (idMap : gmap nat (gset string)) : gmap nat (gset string) :=
  fold_left
    (fun m elementWithId =>
       let id := idOf w elementWithId in
       if bool_decide (id = "") then m
       else
         whileCurrent (S (size (nodes w))) w root
           (fun current m =>
              match m !! current with
              | Some idSet => <[current := idSet ∪ {[id]}]> m
              | None => <[current := {[id]}]> m
              end)
           elementWithId m)
    (querySelectorAll w root (SelHasAttribute "id"))
    idMap.

(** ** Well-formed subtrees *)

(** [tree k w n]: below [n] the store is a tree of height less than [k]:
    every child points back to its parent, and only elements have
    children. *)
Fixpoint tree (k : nat) (w : World) (n : node) : Prop :=
  match k with
  | 0 => False
  | S k' =>
      (childNodesOf w n <> [] -> isElement w n = true) /\
      Forall (fun c => parentNodeOf w c = Some n /\ tree k' w c) (childNodesOf w n)
  end.

(** The same check, executable. *)
Fixpoint treeb (k : nat) (w : World) (n : node) : bool :=
  match k with
  | 0 => false
  | S k' =>
      (bool_decide (childNodesOf w n = []) || isElement w n)
      && forallb (fun c => bool_decide (parentNodeOf w c = Some n) && treeb k' w c)
           (childNodesOf w n)
  end.

(** The nodes visited by [whileCurrent], as a relation. *)
Inductive Chain (w : World) (root : node) : node -> list node -> Prop :=
  | Chain_root : Chain w root root [root]
  | Chain_step cur p l :
      cur <> root -> parentElement w cur = Some p -> Chain w root p l ->
      Chain w root cur (cur :: l).

Definition occurrences (n : node) (l : list node) : nat :=
  length (List.filter (fun y => bool_decide (y = n)) l).

(** ** The pre-passes, in the words of the specification *)

(** Section 4.1: the score of one sensitive element. *)
Definition specScore (w : World) (e : node) : nat :=
  if bool_decide (localNameOf w e ∈ ["input"; "textarea"]) then
    1 + (if bool_decide (valueOf w e = defaultValueOf w e) then 0 else 1)
      + (if bool_decide (activeElement w = Some e) then 1 else 0)
  else
    3 + (if bool_decide (localNameOf w e ∈ ["audio"; "video"]) then
           if endedOf w e then 0
           else (if pausedOf w e then 0 else 1)
                + (if Qlt_le_dec 0 (currentTimeOf w e) then 1 else 0)
         else 0).

(** Section 4.1: the kinds of element that count as sensitive. *)
Definition sensitiveKinds : list string :=
  ["input"; "textarea"; "audio"; "canvas"; "embed"; "iframe"; "object"; "video"].

(** An element of one of the sensitive kinds. *)
Definition isSensitive (w : World) (e : node) : bool :=
  isElement w e && bool_decide (localNameOf w e ∈ sensitiveKinds).

(** The sensitive descendants of [root] that lie in the subtree of [n],
    in document order. *)
Definition sensitiveBelow (w : World) (root n : node) : list node :=
  List.filter (fun e => isSensitive w e && bool_decide (e ∈ n :: descendants w n))
    (descendants w root).

(** The non-empty ids carried by the elements of a list of nodes. *)
Definition nonEmptyIds (w : World) (l : list node) : gset string :=
  list_to_set
    (List.filter (fun i => negb (bool_decide (i = "")))
       (map (idOf w) (List.filter (isElement w) l))).

(** Section 4.2 as written: a node with an id at or below it is mapped to
    the ids of itself and of its descendants. *)
Definition idSetAsSpecified (w : World) (root n : node) : Prop :=
  nonEmptyIds w (n :: descendants w n) <> ∅ ->
  mapIdSets w root ∅ !! n = Some (nonEmptyIds w (n :: descendants w n)).

(** One visit of the [while] loop of [#mapIdSets]. *)
Definition addId (id : string) (current : node) (m : gmap nat (gset string)) : gmap nat (gset string) :=
  match m !! current with
  | Some idSet => <[current := idSet ∪ {[id]}]> m
  | None => <[current := {[id]}]> m
  end.

(** The non-empty ids of the members of [L] selected by [inSub]. *)
Definition idsAmong (w : World) (inSub : node -> bool) (L : list node) : gset string :=
  list_to_set
    (List.filter (fun i => negb (bool_decide (i = ""))) (map (idOf w) (List.filter inSub L))).

(** ** Small documents used as concrete inputs *)

Definition elementNode (tag : string) (attrs : list (string * string))
    (parent : option node) (children : list node) : NodeData :=
  mkNodeData 1 tag attrs None parent children "" "" false false false false "" "" false true 0%Q.

Definition textNode (data : string) (parent : option node) : NodeData :=
  mkNodeData 3 "" [] (Some data) parent [] "" "" false false false false "" "" false true 0%Q.

Definition worldOf (l : list (nat * NodeData)) (next : node) : World :=
  mkWorld (list_to_map l) None next [] [].

(** [<div id="a"></div>] *)
Definition loneDiv : World :=
  worldOf [(1, elementNode "div" [("id", "a")] None [])] 2.

(** [<div id="a"><p id="b"><input></p><span>x</span></div>], the input focused. *)
Definition smallTree : World :=
  with_activeElement
    (worldOf
       [(1, elementNode "div" [("id", "a")] None [2; 4]);
        (2, elementNode "p" [("id", "b")] (Some 1) [3]);
        (3, elementNode "input" [] (Some 2) []);
        (4, elementNode "span" [] (Some 1) [5]);
        (5, textNode "x" (Some 4))] 6)
    (Some 3).

(** ** Effects: the engine as a state-passing computation

    A run either finishes, throws, or is cut off when its step budget
    runs out; in each case the document reached so far is kept. *)

Inductive Res (A : Type) : Type :=
  | Ok (a : A) (w : World)
  | Throw (msg : string) (w : World)
  | Timeout (w : World).
Arguments Ok {A} a w.
Arguments Throw {A} msg w.
Arguments Timeout {A} w.

Definition M (A : Type) : Type := World -> Res A.

Definition ret {A : Type} (a : A) : M A := fun w => Ok a w.

Definition bind {A B : Type} (m : M A) (f : A -> M B) : M B :=
  fun w =>
    match m w with
    | Ok a w' => f a w'
    | Throw msg w' => Throw msg w'
    | Timeout w' => Timeout w'
    end.

Declare Scope morph_scope.
Delimit Scope morph_scope with morph.
Notation "'do' x <- m ;; k" := (bind m (fun x => k))
  (at level 200, x name, m at level 99, k at level 200) : morph_scope.
Notation "m ;; k" := (bind m (fun _ => k))
  (at level 100, k at level 200, right associativity) : morph_scope.
Open Scope morph_scope.

Definition read {A : Type} (f : World -> A) : M A := fun w => Ok (f w) w.
Definition modify (f : World -> World) : M unit := fun w => Ok tt (f w).
Definition throw {A : Type} (msg : string) : M A := fun w => Throw msg w.
Definition timeout {A : Type} : M A := fun w => Timeout w.

Definition finalWorld {A : Type} (r : Res A) : World :=
  match r with Ok _ w => w | Throw _ w => w | Timeout w => w end.

(** ** The host's mutating operations *)

Definition blankData : NodeData :=
  mkNodeData 0 "" [] None None [] "" "" false false false false "" "" false true 0%Q.

Definition updateNode (n : node) (f : NodeData -> NodeData) (w : World) : World :=
  with_nodes w (alter f n (nodes w)).

Fixpoint after (x : node) (l : list node) : option node :=
  match l with
  | [] => None
  | y :: l' => if bool_decide (y = x) then head l' else after x l'
  end.

Fixpoint before (x : node) (l : list node) : option node :=
  match l with
  | [] => None
  | y :: l' =>
      if bool_decide (y = x) then None
      else match l' with
           | z :: _ => if bool_decide (z = x) then Some y else before x l'
           | [] => None
           end
  end.

Definition nextSiblingOf (w : World) (x : node) : option node :=
  match parentNodeOf w x with
  | Some p => after x (childNodesOf w p)
  | None => None
  end.

Definition previousSiblingOf (w : World) (x : node) : option node :=
  match parentNodeOf w x with
  | Some p => before x (childNodesOf w p)
  | None => None
  end.

Definition lastChildOf (w : World) (n : node) : option node := last (childNodesOf w n).

(** [element.children]: the element children. *)
Definition childrenOf (w : World) (n : node) : list node :=
  List.filter (isElement w) (childNodesOf w n).

Definition firstElementChildOf (w : World) (n : node) : option node := head (childrenOf w n).

Fixpoint removeAssoc (k : string) (l : list (string * string)) : list (string * string) :=
  match l with
  | [] => []
  | (k', v) :: l' => if bool_decide (k' = k) then l' else (k', v) :: removeAssoc k l'
  end.

Fixpoint setAssoc (k v : string) (l : list (string * string)) : list (string * string) :=
  match l with
  | [] => [(k, v)]
  | (k', v') :: l' => if bool_decide (k' = k) then (k, v) :: l' else (k', v') :: setAssoc k v l'
  end.

Definition removeAttribute (el : node) (attr : string) : M unit :=
  modify (fun w =>
    log_op (OpRemoveAttribute el attr)
      (updateNode el (fun d => with_attributes d (removeAssoc attr (attributes d))) w)).

Definition setAttribute (el : node) (attr v : string) : M unit :=
  modify (fun w =>
    log_op (OpSetAttribute el attr v)
      (updateNode el (fun d => with_attributes d (setAssoc attr v (attributes d))) w)).

(** Taking a node out of its parent. A focused element that leaves the
    document loses focus. *)
Definition detach (x : node) (w : World) : World :=
  match parentNodeOf w x with
  | None => w
  | Some p =>
      let w1 := updateNode p
                  (fun d => with_childNodes d
                     (List.filter (fun y => negb (bool_decide (y = x))) (childNodes d))) w in
      let w2 := updateNode x (fun d => with_parentNode d None) w1 in
      match activeElement w with
      | Some a => if bool_decide (a ∈ x :: descendants w x)
                  then with_activeElement w2 None else w2
      | None => w2
      end
  end.

Fixpoint insertAt (x : node) (b : node) (l : list node) : list node :=
  match l with
  | [] => [x]
  | y :: l' => if bool_decide (y = b) then x :: y :: l' else y :: insertAt x b l'
  end.

(** Put [x] into [parent], before [b] or at the end. *)
Definition attach (parent x : node) (b : option node) (w : World) : World :=
  let w1 := detach x w in
  let place l := match b with Some b' => insertAt x b' l | None => l ++ [x] end in
  let w2 := updateNode parent (fun d => with_childNodes d (place (childNodes d))) w1 in
  updateNode x (fun d => with_parentNode d (Some parent)) w2.

(** [parent.insertBefore(x, b)]. A reference child that is not a child of
    [parent] is an error; inserting a node before itself means before its
    next sibling. *)
Definition hostInsertBefore (parent x : node) (b : option node) : M unit :=
  fun w =>
    let w0 := log_op (OpInsertBefore parent x b) w in
    match b with
    | Some b' =>
        if bool_decide (parentNodeOf w b' = Some parent) then
          let b'' := if bool_decide (b' = x) then nextSiblingOf w x else Some b' in
          Ok tt (attach parent x b'' w0)
        else Throw "NotFoundError" w0
    | None => Ok tt (attach parent x None w0)
    end.

(** [parent.appendChild(x)] *)
Definition hostAppendChild (parent x : node) : M unit :=
  modify (fun w => attach parent x None (log_op (OpAppendChild parent x) w)).

(** [x.remove()] *)
Definition hostRemove (x : node) : M unit :=
  modify (fun w => detach x (log_op (OpRemove x) w)).

Fixpoint replaceIn (x new : node) (l : list node) : list node :=
  match l with
  | [] => []
  | y :: l' => if bool_decide (y = x) then new :: l' else y :: replaceIn x new l'
  end.

(** [x.replaceWith(new)]: nothing happens when [x] has no parent. *)
Definition hostReplaceWith (x new : node) : M unit :=
  modify (fun w =>
    let w0 := log_op (OpReplaceWith x new) w in
    match parentNodeOf w x with
    | None => w0
    | Some p =>
        if bool_decide (x = new) then w0
        else
          let w1 := detach new w0 in
          let w2 := updateNode p (fun d => with_childNodes d (replaceIn x new (childNodes d))) w1 in
          let w3 := updateNode new (fun d => with_parentNode d (Some p)) w2 in
          let w4 := updateNode x (fun d => with_parentNode d None) w3 in
          match activeElement w with
          | Some a => if bool_decide (a ∈ x :: descendants w x)
                      then with_activeElement w4 None else w4
          | None => w4
          end
    end).

(** [src.cloneNode(true)]: a deep copy made of fresh nodes, without a
    parent. The copy starts out in the state of a newly created element as
    far as playback goes. *)
Definition cloneData (d : NodeData) (parent : option node) (kids : list node) : NodeData :=
  mkNodeData (nodeType d) (localName d) (attributes d) (nodeValue d) parent kids
    (value d) (defaultValue d) (checked d) (disabled d) false (selected d)
    (type d) (name d) false true 0%Q.

Fixpoint cloneF (fuel : nat) (src : node) (parent : option node) (w : World) : node * World :=
  let id := nextId w in
  let w0 := with_nextId w (S id) in
  let d := default blankData (nodes w !! src) in
  let '(kids, w1) :=
    match fuel with
    | 0 => ([], w0)
    | S k =>
        fold_left
          (fun '(acc, w') c => let '(c', w'') := cloneF k c (Some id) w' in (acc ++ [c'], w''))
          (childNodes d) ([], w0)
    end in
  (id, with_nodes w1 (<[id := cloneData d parent kids]> (nodes w1))).

Definition cloneNode (src : node) : M node :=
  fun w => let '(c, w') := cloneF (size (nodes w)) src None w in Ok c w'.

(** *** Serialisation and text content *)

Definition dquote : string := String (ascii_of_nat 34) EmptyString.

Fixpoint escapeText (s : string) : string :=
  match s with
  | EmptyString => EmptyString
  | String c s' =>
      ((if bool_decide (c = "&"%char) then "&amp;"
        else if bool_decide (c = "<"%char) then "&lt;"
        else if bool_decide (c = ">"%char) then "&gt;"
        else String c EmptyString) ++ escapeText s')%string
  end.

Fixpoint escapeAttribute (s : string) : string :=
  match s with
  | EmptyString => EmptyString
  | String c s' =>
      ((if bool_decide (c = "&"%char) then "&amp;"
        else if bool_decide (c = ascii_of_nat 34) then "&quot;"
        else String c EmptyString) ++ escapeAttribute s')%string
  end.

Definition voidElements : list string :=
  ["area"; "base"; "br"; "col"; "embed"; "hr"; "img"; "input"; "link"; "meta";
   "source"; "track"; "wbr"].

Definition rawTextElements : list string :=
  ["style"; "script"; "xmp"; "iframe"; "noembed"; "noframes"; "plaintext"].

Definition serializeAttributes (l : list (string * string)) : string :=
  String.concat ""
    (map (fun '(k, v) => (" " ++ k ++ "=" ++ dquote ++ escapeAttribute v ++ dquote)%string) l).

(** The markup of a node; [raw] tells whether its parent holds raw text. *)
Fixpoint serializeF (fuel : nat) (w : World) (raw : bool) (n : node) : string :=
  match fuel with
  | 0 => ""
  | S k =>
      if bool_decide (nodeTypeOf w n = 1%Z) then
        ("<" ++ localNameOf w n ++ serializeAttributes (attributesOf w n) ++ ">"
         ++ (if bool_decide (localNameOf w n ∈ voidElements) then ""
             else String.concat ""
                    (map (serializeF k w (bool_decide (localNameOf w n ∈ rawTextElements)))
                       (childNodesOf w n))
                  ++ "</" ++ localNameOf w n ++ ">"))%string
      else if bool_decide (nodeTypeOf w n = 3%Z) then
        (if raw then default "" (nodeValueOf w n) else escapeText (default "" (nodeValueOf w n)))
      else if bool_decide (nodeTypeOf w n = 8%Z) then
        ("<!--" ++ default "" (nodeValueOf w n) ++ "-->")%string
      else ""
  end.

Definition outerHTML (w : World) (n : node) : string :=
  serializeF (S (size (nodes w))) w false n.

Definition isCharacterData (w : World) (n : node) : bool :=
  bool_decide (nodeTypeOf w n ∈ [3; 4; 7; 8]%Z).

Definition isText (w : World) (n : node) : bool :=
  bool_decide (nodeTypeOf w n ∈ [3; 4]%Z).

(** [n.textContent]: the text below an element, the data of a text or
    comment node, null otherwise. *)
Definition textContentOf (w : World) (n : node) : option string :=
  if bool_decide (nodeTypeOf w n ∈ [1; 11]%Z) then
    Some (String.concat ""
            (map (fun t => default "" (nodeValueOf w t)) (List.filter (isText w) (descendants w n))))
  else if isCharacterData w n then Some (default "" (nodeValueOf w n))
  else None.

(** [n.textContent = s]: the children of an element are replaced by one
    text node (by none when [s] is empty). *)
Definition setTextContent (n : node) (s : string) (w : World) : World :=
  if bool_decide (nodeTypeOf w n ∈ [1; 11]%Z) then
    let kids := childNodesOf w n in
    let w1 := fold_left (fun w' c => updateNode c (fun d => with_parentNode d None) w') kids w in
    let w2 := match activeElement w with
              | Some a => if bool_decide (a ∈ descendants w n)
                          then with_activeElement w1 None else w1
              | None => w1
              end in
    if bool_decide (s = "") then updateNode n (fun d => with_childNodes d []) w2
    else
      let id := nextId w2 in
      let w3 := with_nodes (with_nextId w2 (S id)) (<[id := textNode s (Some n)]> (nodes w2)) in
      updateNode n (fun d => with_childNodes d [id]) w3
  else if isCharacterData w n then updateNode n (fun d => with_nodeValue d (Some s)) w
  else w.

(** *** Properties: [node[propertyName]] and [node[propertyName] = v] *)

Definition optionVal (o : option string) : PropVal :=
  match o with Some s => VStr s | None => VNull end.

Definition getProperty (w : World) (n : node) (p : PropName) : PropVal :=
  match nodes w !! n with
  | None => VNull
  | Some d =>
      match p with
      | PChecked => VBool (checked d)
      | PDisabled => VBool (disabled d)
      | PIndeterminate => VBool (indeterminate d)
      | PValue => VStr (value d)
      | PSelected => VBool (selected d)
      | PNodeValue => optionVal (nodeValue d)
      | PTextContent => optionVal (textContentOf w n)
      end
  end.

(** Assigning one of the plain state properties. *)
Definition setField (p : PropName) (v : PropVal) (d : NodeData) : NodeData :=
  match p, v with
  | PChecked, VBool b => with_checked d b
  | PDisabled, VBool b => with_disabled d b
  | PIndeterminate, VBool b => with_indeterminate d b
  | PValue, VStr s => with_value d s
  | PSelected, VBool b => with_selected d b
  | _, _ => d
  end.

Definition setProperty (n : node) (p : PropName) (v : PropVal) (w : World) : World :=
  let w0 := log_op (OpSetProperty n p v) w in
  match p, v with
  | PNodeValue, VStr s =>
      if isCharacterData w n then updateNode n (fun d => with_nodeValue d (Some s)) w0 else w0
  | PNodeValue, _ => w0
  | PTextContent, VStr s => setTextContent n s w0
  | PTextContent, VNull => setTextContent n "" w0
  | PTextContent, _ => w0
  | _, _ => updateNode n (setField p v) w0
  end.

Definition typeOf (w : World) (n : node) : string :=
  match nodes w !! n with Some d => type d | None => "" end.
Definition nameOf (w : World) (n : node) : string :=
  match nodes w !! n with Some d => name d | None => "" end.

(** ** Options and hooks (morphlex.ts, lines 31-49)

    A [before] hook is a predicate that may look at the document and at
    the calls made so far; an [after] hook returns nothing, so only its
    presence matters. An absent [before] hook permits. *)
Record Options := mkOptions {
  ignoreActiveValue : bool;
  preserveModifiedValues : bool;
  beforeNodeMorphed : option (World -> node -> node -> bool);
  afterNodeMorphed : bool;
  beforeNodeAdded : option (World -> node -> bool);
  afterNodeAdded : bool;
  beforeNodeRemoved : option (World -> node -> bool);
  afterNodeRemoved : bool;
  beforeAttributeUpdated : option (World -> node -> string -> option string -> bool);
  afterAttributeUpdated : bool;
  beforePropertyUpdated : option (World -> node -> PropName -> PropVal -> bool);
  afterPropertyUpdated : bool
}.

(** [hook?.(args) ?? true] *)
Definition callBefore (h : option (World -> bool)) (c : HookCall) : M bool :=
  match h with
  | Some f => fun w => Ok (f w) (log_call c w)
  | None => ret true
  end.

(** [hook?.(args)] *)
Definition callAfter (present : bool) (c : HookCall) : M unit :=
  if present then modify (log_call c) else ret tt.

Definition noHooks : Options :=
  mkOptions false false None false None false None false None false None false.

(** Every hook supplied, every [before] hook permitting. *)
Definition allHooks : Options :=
  mkOptions false false (Some (fun _ _ _ => true)) true (Some (fun _ _ => true)) true
    (Some (fun _ _ => true)) true (Some (fun _ _ _ _ => true)) true
    (Some (fun _ _ _ _ => true)) true.

Record Morph := mkMorph {
  options : Options;
  idMap : gmap nat (gset string);
  sensivityMap : gmap nat nat
}.

(** ** The reconciler (morphlex.ts, lines 149-359) *)

Section Engine.
Variable m : Morph.

Local Abbreviation o := (options m).

(** [#updateProperty] *)
Definition updateProperty (n : node) (propertyName : PropName) (newValue : PropVal) : M unit :=
  do previousValue <- read (fun w => getProperty w n propertyName);;
  if bool_decide (previousValue <> newValue) then
    do ok <- callBefore (option_map (fun f w => f w n propertyName newValue) (beforePropertyUpdated o))
               (BeforePropertyUpdated n propertyName newValue);;
    if ok then
      modify (setProperty n propertyName newValue);;
      callAfter (afterPropertyUpdated o) (AfterPropertyUpdated n propertyName previousValue)
    else ret tt
  else ret tt.

(** [#replaceNode] *)
Definition replaceNode (n newNode : node) : M unit :=
  do ok <- callBefore (option_map (fun f w => f w n) (beforeNodeRemoved o)) (BeforeNodeRemoved n);;
  if ok then
    do ok' <- callBefore (option_map (fun f w => f w newNode) (beforeNodeAdded o))
                (BeforeNodeAdded newNode);;
    if ok' then
      hostReplaceWith n newNode;;
      callAfter (afterNodeAdded o) (AfterNodeAdded newNode);;
      callAfter (afterNodeRemoved o) (AfterNodeRemoved n)
    else ret tt
  else ret tt.

(** The [while (previousNode)] loop of [#insertBefore]. The result tells
    whether the function returned from inside the loop. *)
Fixpoint insertBefore_while (fuel : nat) (parent n insertionPoint : node) (sensitivity : nat)
    (previousNode : option node) : M bool :=
  match previousNode with
  | None => ret false
  | Some previous =>
      match fuel with
      | 0 => timeout
      | S k =>
          let previousNodeSensitivity := default 0 (sensivityMap m !! previous) in
          if previousNodeSensitivity <? sensitivity then
            do next <- read (fun w => nextSiblingOf w n);;
            hostInsertBefore parent previous next;;
            if bool_decide (previous = insertionPoint) then ret true
            else
              do previousNode' <- read (fun w => previousSiblingOf w n);;
              insertBefore_while k parent n insertionPoint sensitivity previousNode'
          else ret false
      end
  end.

(** [#insertBefore] *)
Definition insertBefore (fuel : nat) (parent n insertionPoint : node) : M unit :=
  if bool_decide (n = insertionPoint) then ret tt
  else
    do isEl <- read (fun w => isElement w n);;
    do returned <-
      (if isEl then
         let sensitivity := default 0 (sensivityMap m !! n) in
         if 0 <? sensitivity then
           do previousNode <- read (fun w => previousSiblingOf w n);;
           insertBefore_while fuel parent n insertionPoint sensitivity previousNode
         else ret false
       else ret false);;
    if returned then ret tt
    else hostInsertBefore parent n (Some insertionPoint).

(** [#appendChild] *)
Definition appendChild (n newNode : node) : M unit :=
  do ok <- callBefore (option_map (fun f w => f w newNode) (beforeNodeAdded o))
             (BeforeNodeAdded newNode);;
  if ok then
    hostAppendChild n newNode;;
    callAfter (afterNodeAdded o) (AfterNodeAdded newNode)
  else ret tt.

(** [#removeNode] *)
Definition removeNode (n : node) : M unit :=
  do ok <- callBefore (option_map (fun f w => f w n) (beforeNodeRemoved o)) (BeforeNodeRemoved n);;
  if ok then
    hostRemove n;;
    callAfter (afterNodeRemoved o) (AfterNodeRemoved n)
  else ret tt.

(** [#morphAttributes], first loop: [for (const { name, value } of
    element.attributes)]. The attribute list is live: the iterator reads
    entry [i] of the list as it is when it gets there. *)
Fixpoint morphAttributes_excess (fuel : nat) (element ref : node) (i : nat) : M unit :=
  match fuel with
  | 0 => timeout
  | S k =>
      do entry <- read (fun w => attributesOf w element !! i);;
      match entry with
      | None => ret tt
      | Some (attr, v) =>
          do present <- read (fun w => hasAttribute w ref attr);;
          (if negb present then
             do ok <- callBefore
                        (option_map (fun f w => f w element attr None) (beforeAttributeUpdated o))
                        (BeforeAttributeUpdated element attr None);;
             if ok then
               removeAttribute element attr;;
               callAfter (afterAttributeUpdated o) (AfterAttributeUpdated element attr (Some v))
             else ret tt
           else ret tt);;
          morphAttributes_excess k element ref (S i)
      end
  end.

(** Second loop: [for (const { name, value } of ref.attributes)]. *)
Fixpoint morphAttributes_copy (fuel : nat) (element ref : node) (i : nat) : M unit :=
  match fuel with
  | 0 => timeout
  | S k =>
      do entry <- read (fun w => attributesOf w ref !! i);;
      match entry with
      | None => ret tt
      | Some (attr, v) =>
          do previousValue <- read (fun w => getAttribute w element attr);;
          (if bool_decide (previousValue <> Some v) then
             do ok <- callBefore
                        (option_map (fun f w => f w element attr (Some v)) (beforeAttributeUpdated o))
                        (BeforeAttributeUpdated element attr (Some v));;
             if ok then
               setAttribute element attr v;;
               callAfter (afterAttributeUpdated o) (AfterAttributeUpdated element attr previousValue)
             else ret tt
           else ret tt);;
          morphAttributes_copy k element ref (S i)
      end
  end.

(** The condition under which an input's [value] is synchronised
    (lines 210-212). *)
Definition inputValueGate (w : World) (element ref : node) : bool :=
  negb (bool_decide (typeOf w element = "file"))
  && negb (ignoreActiveValue o && bool_decide (activeElement w = Some element))
  && negb (preserveModifiedValues o
           && bool_decide (nameOf w element = nameOf w ref)
           && negb (bool_decide (valueOf w element = defaultValueOf w element))).

(** The last part of [#morphAttributes] (lines 205-221): the state of
    inputs, options and textareas. *)
Definition morphAttributes_state (element ref : node) : M unit :=
  do bothInputs <- read (fun w => isInput w element && isInput w ref);;
  if bothInputs then
    (do v <- read (fun w => getProperty w ref PChecked);; updateProperty element PChecked v);;
    (do v <- read (fun w => getProperty w ref PDisabled);; updateProperty element PDisabled v);;
    (do v <- read (fun w => getProperty w ref PIndeterminate);;
     updateProperty element PIndeterminate v);;
    do gate <- read (fun w => inputValueGate w element ref);;
    if gate then
      do v <- read (fun w => getProperty w ref PValue);; updateProperty element PValue v
    else ret tt
  else
    do bothOptions <- read (fun w => isOption w element && isOption w ref);;
    if bothOptions then
      do v <- read (fun w => getProperty w ref PSelected);; updateProperty element PSelected v
    else
      do bothTextAreas <- read (fun w => isTextArea w element && isTextArea w ref);;
      if bothTextAreas then
        (do v <- read (fun w => getProperty w ref PValue);; updateProperty element PValue v);;
        do text <- read (fun w => firstElementChildOf w element);;
        match text with
        | Some t => do v <- read (fun w => getProperty w ref PValue);; updateProperty t PTextContent v
        | None => ret tt
        end
      else ret tt.

(** [#morphAttributes]. Neither loop can take more steps than there are
    attributes when it starts. *)
Definition morphAttributes (element ref : node) : M unit :=
  (do n <- read (fun w => length (attributesOf w element));;
   morphAttributes_excess (S n) element ref 0);;
  (do n <- read (fun w => length (attributesOf w ref));;
   morphAttributes_copy (S n) element ref 0);;
  morphAttributes_state element ref.

(** The [Map] of [#morphHead]: keys keep the position of their first
    insertion. *)
Fixpoint mapSet (k : string) (v : node) (l : list (string * node)) : list (string * node) :=
  match l with
  | [] => [(k, v)]
  | (k', v') :: l' => if bool_decide (k' = k) then (k', v) :: l' else (k', v') :: mapSet k v l'
  end.

Fixpoint mapGet (k : string) (l : list (string * node)) : option node :=
  match l with
  | [] => None
  | (k', v) :: l' => if bool_decide (k' = k) then Some v else mapGet k l'
  end.

Fixpoint mapDelete (k : string) (l : list (string * node)) : list (string * node) :=
  match l with
  | [] => []
  | (k', v) :: l' => if bool_decide (k' = k) then l' else (k', v) :: mapDelete k l'
  end.

(** [#morphHead], second loop: [for (const child of node.children)],
    over the live collection. *)
Fixpoint morphHead_live (fuel : nat) (n : node) (i : nat)
    (refChildNodesMap : list (string * node)) : M (list (string * node)) :=
  match fuel with
  | 0 => timeout
  | S k =>
      do entry <- read (fun w => childrenOf w n !! i);;
      match entry with
      | None => ret refChildNodesMap
      | Some child =>
          do key <- read (fun w => outerHTML w child);;
          match mapGet key refChildNodesMap with
          | Some _ => morphHead_live k n (S i) (mapDelete key refChildNodesMap)
          | None => removeNode child;; morphHead_live k n (S i) refChildNodesMap
          end
      end
  end.

Fixpoint morphHead_append (n : node) (pending : list node) : M unit :=
  match pending with
  | [] => ret tt
  | refChild :: rest =>
      (do c <- cloneNode refChild;; appendChild n c);;
      morphHead_append n rest
  end.

(** [#morphHead] *)
Definition morphHead (n reference : node) : M unit :=
  do refChildNodesMap <-
    read (fun w => fold_left (fun acc child => mapSet (outerHTML w child) child acc)
                     (childrenOf w reference) []);;
  do count <- read (fun w => length (childrenOf w n));;
  do remaining <- morphHead_live (S count) n 0 refChildNodesMap;;
  morphHead_append n (map snd remaining).

(** [#morphChildElement], the [while (currentNode)] loop. [None] means the
    function returned from inside the loop; otherwise the loop ended and
    hands over [nextMatchByTagName]. *)
Fixpoint morphChildElement_while (fuel : nat) (self : node -> node -> M unit)
    (child ref parent : node) (refSetArray : list string)
    (currentNode : option node) (nextMatchByTagName : option node) : M (option (option node)) :=
  match currentNode with
  | None => ret (Some nextMatchByTagName)
  | Some current =>
      match fuel with
      | 0 => timeout
      | S k =>
          let continue nm :=
            (do next <- read (fun w => nextSiblingOf w current);;
             morphChildElement_while k self child ref parent refSetArray next nm) in
          do isEl <- read (fun w => isElement w current);;
          if isEl then
            do id <- read (fun w => idOf w current);;
            do sameName <- read (fun w => bool_decide (localNameOf w current = localNameOf w ref));;
            let nm := match nextMatchByTagName with
                      | None => if sameName then Some current else None
                      | Some x => Some x
                      end in
            if negb (bool_decide (id = "")) then
              do refId <- read (fun w => idOf w ref);;
              if bool_decide (id = refId) then
                insertBefore fuel parent current child;;
                self current ref;;
                ret None
              else
                match idMap m !! current with
                | Some currentIdSet =>
                    if existsb (fun it => bool_decide (it ∈ currentIdSet)) refSetArray then
                      insertBefore fuel parent current child;;
                      self current ref;;
                      ret None
                    else continue nm
                | None => continue nm
                end
            else continue nm
          else continue nextMatchByTagName
      end
  end.

(** [#morphChildElement] *)
Definition morphChildElement (fuel : nat) (self : node -> node -> M unit)
    (child ref parent : node) : M unit :=
  do ok <- callBefore (option_map (fun f w => f w child ref) (beforeNodeMorphed o))
             (BeforeNodeMorphed child ref);;
  if negb ok then ret tt
  else
    let refSetArray := match idMap m !! ref with
                       | Some refIdSet => elements refIdSet
                       | None => []
                       end in
    do outcome <- morphChildElement_while fuel self child ref parent refSetArray (Some child) None;;
    match outcome with
    | None => ret tt
    | Some nextMatchByTagName =>
        match nextMatchByTagName with
        | Some nm =>
            insertBefore fuel parent nm child;;
            self nm ref
        | None =>
            do newNode <- cloneNode ref;;
            do ok' <- callBefore (option_map (fun f w => f w newNode) (beforeNodeAdded o))
                        (BeforeNodeAdded newNode);;
            if ok' then
              insertBefore fuel parent newNode child;;
              callAfter (afterNodeAdded o) (AfterNodeAdded newNode)
            else ret tt
        end;;
        callAfter (afterNodeMorphed o) (AfterNodeMorphed child ref)
    end.

(** [#morphChildNodes], the [for] loop. Both child lists are live. *)
Fixpoint morphChildNodes_for (fuel : nat) (self : node -> node -> M unit)
    (element ref : node) (i : nat) : M unit :=
  match fuel with
  | 0 => timeout
  | S k =>
      do len <- read (fun w => length (childNodesOf w ref));;
      if i <? len then
        do child <- read (fun w => childNodesOf w element !! i);;
        do refChild <- read (fun w => childNodesOf w ref !! i);;
        match child, refChild with
        | Some c, Some rc =>
            do sameElement <-
              read (fun w => isElement w c && isElement w rc
                             && bool_decide (localNameOf w c = localNameOf w rc));;
            if sameElement then
              do head <- read (fun w => isHead w c);;
              if head then morphHead c rc
              else morphChildElement k self c rc element
            else self c rc
        | None, Some rc => do c <- cloneNode rc;; appendChild element c
        | Some c, None => removeNode c
        | None, None => ret tt
        end;;
        morphChildNodes_for k self element ref (S i)
      else ret tt
  end.

(** [#morphChildNodes], the clean-up [while] loop. *)
Fixpoint morphChildNodes_while (fuel : nat) (element ref : node) : M unit :=
  match fuel with
  | 0 => timeout
  | S k =>
      do excess <- read (fun w => length (childNodesOf w ref) <? length (childNodesOf w element));;
      if excess then
        do child <- read (fun w => lastChildOf w element);;
        match child with
        | Some c => removeNode c
        | None => ret tt
        end;;
        morphChildNodes_while k element ref
      else ret tt
  end.

(** [#morphChildNodes] *)
Definition morphChildNodes (fuel : nat) (self : node -> node -> M unit)
    (element ref : node) : M unit :=
  morphChildNodes_for fuel self element ref 0;;
  morphChildNodes_while fuel element ref.

(** [#morphNode] *)
Fixpoint morphNode (fuel : nat) (n ref : node) : M unit :=
  match fuel with
  | 0 => timeout
  | S k =>
      do ok <- callBefore (option_map (fun f w => f w n ref) (beforeNodeMorphed o))
                 (BeforeNodeMorphed n ref);;
      if negb ok then ret tt
      else
        do sameElement <-
          read (fun w => isElement w n && isElement w ref
                         && bool_decide (localNameOf w n = localNameOf w ref));;
        (if sameElement then
           (do attrs <- read (fun w => hasAttributes w n || hasAttributes w ref);;
            if attrs then morphAttributes n ref else ret tt);;
           do head <- read (fun w => isHead w n);;
           if head then morphHead n ref
           else
             do kids <- read (fun w => hasChildNodes w n || hasChildNodes w ref);;
             if kids then morphChildNodes k (morphNode k) n ref else ret tt
         else
           do textual <-
             read (fun w => bool_decide (nodeTypeOf w n = nodeTypeOf w ref)
                            && bool_decide (is_Some (nodeValueOf w n))
                            && bool_decide (is_Some (nodeValueOf w ref)));;
           if textual then
             do v <- read (fun w => getProperty w ref PNodeValue);;
             updateProperty n PNodeValue v
           else
             do c <- cloneNode ref;;
             replaceNode n c);;
        callAfter (afterNodeMorphed o) (AfterNodeMorphed n ref)
  end.

End Engine.

(** ** The entry points (morphlex.ts, lines 51-97) *)

(** What [requestAnimationFrame] is given: the callback closes over the
    engine and the two nodes. *)
Record Frame := mkFrame {
  frameMorph : Morph;
  frameNode : node;
  frameReference : node
}.

(** Running the scheduled callback. *)
Definition runFrame (fuel : nat) (f : Frame) : M unit :=
  morphNode (frameMorph f) fuel (frameNode f) (frameReference f).

(** [Morph.morph]: the pre-passes, then the mutation pass is scheduled. *)
Definition Morph_morph (o : Options) (n reference : node) : M Frame :=
  do maps <- read (fun w =>
    if isParentNode w n && isParentNode w reference then
      (mapIdSets w reference (mapIdSets w n ∅), mapSensivity w n ∅)
    else (∅, ∅));;
  ret (mkFrame (mkMorph o (fst maps) (snd maps)) n reference).

(** Strings hold UTF-8. The white space and line terminators of the
    language: the six single-byte ones; U+00A0; and, in three bytes,
    U+1680, U+2000 to U+200A, U+2028, U+2029, U+202F, U+205F, U+3000 and
    U+FEFF. *)
Definition isWhiteSpace (c : ascii) : bool :=
  bool_decide (nat_of_ascii c ∈ [9; 10; 11; 12; 13; 32]).

Definition isWhiteSpace2 (c1 c2 : ascii) : bool :=
  (nat_of_ascii c1 =? 194) && (nat_of_ascii c2 =? 160).

Definition isWhiteSpace3 (c1 c2 c3 : ascii) : bool :=
  let b1 := nat_of_ascii c1 in
  let b2 := nat_of_ascii c2 in
  let b3 := nat_of_ascii c3 in
  ((b1 =? 225) && (b2 =? 154) && (b3 =? 128))
  || ((b1 =? 226) && (b2 =? 128)
      && (((128 <=? b3) && (b3 <=? 138)) || bool_decide (b3 ∈ [168; 169; 175])))
  || ((b1 =? 226) && (b2 =? 129) && (b3 =? 159))
  || ((b1 =? 227) && (b2 =? 128) && (b3 =? 128))
  || ((b1 =? 239) && (b2 =? 187) && (b3 =? 191)).

Fixpoint trimStart (s : string) : string :=
  match s with
  | EmptyString => EmptyString
  | String c1 s1 =>
      if isWhiteSpace c1 then trimStart s1
      else
        match s1 with
        | EmptyString => s
        | String c2 s2 =>
            if isWhiteSpace2 c1 c2 then trimStart s2
            else
              match s2 with
              | EmptyString => s
              | String c3 s3 => if isWhiteSpace3 c1 c2 c3 then trimStart s3 else s
              end
        end
  end.

(** The same scan from the end: over the reversed string, where the
    bytes of a character come last byte first. *)
Fixpoint trimStartReversed (s : string) : string :=
  match s with
  | EmptyString => EmptyString
  | String c1 s1 =>
      if isWhiteSpace c1 then trimStartReversed s1
      else
        match s1 with
        | EmptyString => s
        | String c2 s2 =>
            if isWhiteSpace2 c2 c1 then trimStartReversed s2
            else
              match s2 with
              | EmptyString => s
              | String c3 s3 => if isWhiteSpace3 c3 c2 c1 then trimStartReversed s3 else s
              end
        end
  end.

Definition trimEnd (s : string) : string :=
  String.rev (trimStartReversed (String.rev s)).

(** [String.prototype.trim] *)
Definition trim (s : string) : string := trimEnd (trimStart s).

Definition setAriaBusy (n : node) (v : option string) : M unit :=
  modify (fun w =>
    log_op (OpSetAriaBusy n v)
      (updateNode n
         (fun d => with_attributes d
            (match v with
             | Some s => setAssoc "aria-busy" s (attributes d)
             | None => removeAssoc "aria-busy" (attributes d)
             end)) w)).

Section Entry.
(** The host's markup parser: [template.innerHTML = markup] followed by
    reading [template.content.childNodes]. It is outside the repository. *)
Variable parseFragment : string -> M (list node).

(** [morph] *)
Definition morph (n : node) (reference : node + string) (o : Options) : M Frame :=
  do reference' <-
    match reference with
    | inr markup =>
        do content <- parseFragment (trim markup);;
        match head content with
        | Some firstChild => ret firstChild
        | None => throw "The provided string did not contain any nodes."
        end
    | inl r => ret r
    end;;
  do isEl <- read (fun w => isElement w n);;
  if isEl then
    setAriaBusy n (Some "true");;
    do f <- Morph_morph o n reference';;
    setAriaBusy n None;;
    ret f
  else Morph_morph o n reference'.

End Entry.

(** The pre-passes followed at once by the scheduled mutation pass. *)
Definition morphThenFrame (fuel : nat) (o : Options) (n reference : node) : M unit :=
  do f <- Morph_morph o n reference;;
  runFrame fuel f.

(** The engine as [Morph.morph] sets it up on a given document. *)
Definition prepared (o : Options) (w : World) (n reference : node) : Morph :=
  match Morph_morph o n reference w with
  | Ok f _ => frameMorph f
  | _ => mkMorph o ∅ ∅
  end.

(** ** More concrete inputs *)

Definition controlNode (tag : string) (attrs : list (string * string))
    (parent : option node) (children : list node) (v dv : string) : NodeData :=
  mkNodeData 1 tag attrs None parent children v dv false false false false "" "" false true 0%Q.

(** Live [<h1><div></div></h1>] (node 1) and reference [<h1></h1>] (node 3). *)
Definition excessChild : World :=
  worldOf
    [(1, elementNode "h1" [] None [2]);
     (2, elementNode "div" [] (Some 1) []);
     (3, elementNode "h1" [] None [])] 4.

(** Live [<ul><li id="a"></li><li id="b"></li></ul>] (node 1) and
    reference [<ul><li id="b"></li><li id="a"></li></ul>] (node 11). *)
Definition swappedList : World :=
  worldOf
    [(1, elementNode "ul" [] None [2; 3]);
     (2, elementNode "li" [("id", "a")] (Some 1) []);
     (3, elementNode "li" [("id", "b")] (Some 1) []);
     (11, elementNode "ul" [] None [12; 13]);
     (12, elementNode "li" [("id", "b")] (Some 11) []);
     (13, elementNode "li" [("id", "a")] (Some 11) [])] 20.

(** Live [<textarea rows="2">a</textarea>] (node 1, text child 2) and a
    reference [<textarea rows="2">b</textarea>] (node 3, text child 4)
    whose value has been set to "c". *)
Definition textareaPair : World :=
  worldOf
    [(1, controlNode "textarea" [("rows", "2")] None [2] "a" "a");
     (2, textNode "a" (Some 1));
     (3, controlNode "textarea" [("rows", "2")] None [4] "c" "b");
     (4, textNode "b" (Some 3))] 5.

(** A hook set whose before-node-removed hook always refuses. *)
Definition vetoRemoval : Options :=
  mkOptions false false None false None false (Some (fun _ _ => false)) true
    None false None false.

(** ** Input state, in the words of the specification *)



(** The before-property-updated hook, if any, never refuses. *)
Definition propertyHookPermits (o : Options) : Prop :=
  forall f, beforePropertyUpdated o = Some f -> forall w n p v, f w n p v = true.

(** Reading one field of a node, with a default for a missing node. *)
Definition readNode {A : Type} (r : NodeData -> A) (dflt : A) (w : World) (n : node) : A :=
  match nodes w !! n with Some d => r d | None => dflt end.


(** What [node[p]] reads for a plain state property. *)
Definition plainProp (p : PropName) (d : NodeData) : PropVal :=
  match p with
  | PChecked => VBool (checked d)
  | PDisabled => VBool (disabled d)
  | PIndeterminate => VBool (indeterminate d)
  | PValue => VStr (value d)
  | PSelected => VBool (selected d)
  | _ => VNull
  end.

Definition isPlain (p : PropName) : Prop :=
  match p with PNodeValue | PTextContent => False | _ => True end.


(** ** Sensitivity-aware insertion, on lists of siblings *)

(** The backward scan of section 4.9 over the preceding siblings of the
    node, nearest first: the siblings it relocates, nearest first, and
    whether the scan ended by relocating the insertion point. *)
Fixpoint scanBack (sens : node -> nat) (s : nat) (insertionPoint : node)
    (preceding : list node) : list node * bool :=
  match preceding with
  | [] => ([], false)
  | x :: rest =>
      if sens x <? s then
        if bool_decide (x = insertionPoint) then ([x], true)
        else let '(r, hit) := scanBack sens s insertionPoint rest in (x :: r, hit)
      else ([], false)
  end.

(** The host calls that relocate these siblings: each goes before what is
    then the node's next sibling. *)
Fixpoint relocationOps (parent : node) (relocated : list node) (next : option node)
    : list HostOp :=
  match relocated with
  | [] => []
  | x :: rest => OpInsertBefore parent x next :: relocationOps parent rest (Some x)
  end.

(** [l] is the child list of [parent], each child pointing back to it. *)
Definition siblingsOf (w : World) (parent : node) (l : list node) : Prop :=
  childNodesOf w parent = l /\ NoDup l /\ parent ∉ l
  /\ forall c, c ∈ l -> parentNodeOf w c = Some parent.

(** Where [parent.insertBefore(x, b)] puts [x] among the other children. *)
Definition placeBefore (x : node) (b : option node) (l : list node) : list node :=
  match b with Some b' => insertAt x b' l | None => l ++ [x] end.

(** Section 4.9 as written: whenever the node is sensitive, the call ends
    with the ordinary insert of the node before the insertion point. *)
Definition insertEndsWithOrdinaryInsert (m : Morph) (parent n insertionPoint : node)
    (w : World) : Prop :=
  0 < default 0 (sensivityMap m !! n) ->
  forall fuel w', insertBefore m fuel parent n insertionPoint w = Ok tt w' ->
    last (ops w') = Some (OpInsertBefore parent n (Some insertionPoint)).

(** [<div><p></p><input></div>]: a paragraph (node 2) followed by an
    input (node 3). *)
Definition besideInput : World :=
  worldOf
    [(1, elementNode "div" [] None [2; 3]);
     (2, elementNode "p" [] (Some 1) []);
     (3, elementNode "input" [] (Some 1) [])] 4.

(** [<div><p></p><input><span></span><input></div>], nodes 2 to 5. *)
Definition twoInputs : World :=
  worldOf
    [(1, elementNode "div" [] None [2; 3; 4; 5]);
     (2, elementNode "p" [] (Some 1) []);
     (3, elementNode "input" [] (Some 1) []);
     (4, elementNode "span" [] (Some 1) []);
     (5, elementNode "input" [] (Some 1) [])] 6.

(** ** Equal trees, and the documents on which morphing is silent *)

(** Two node records agree on everything but their links. *)
Definition sameData (d r : NodeData) : Prop :=
  with_parentNode (with_childNodes d []) None = with_parentNode (with_childNodes r []) None.

(** [sameTree k w n r]: the subtree at [n] equals the subtree at [r],
    node for node (both of height less than [k]). *)
Fixpoint sameTree (k : nat) (w : World) (n r : node) : Prop :=
  match k with
  | 0 => False
  | S k' =>
      exists d dr,
        nodes w !! n = Some d /\ nodes w !! r = Some dr /\ sameData d dr
        /\ Forall2 (sameTree k' w) (childNodes d) (childNodes dr)
  end.

Global Instance Q_eq_dec : EqDecision Q.
Proof. solve_decision. Defined.

Global Instance NodeData_eq_dec : EqDecision NodeData.
Proof. solve_decision. Defined.

Global Instance sameData_dec d r : Decision (sameData d r).
Proof. unfold sameData. apply _. Defined.

Fixpoint forall2b {A B : Type} (f : A -> B -> bool) (l1 : list A) (l2 : list B) : bool :=
  match l1, l2 with
  | [], [] => true
  | a :: l1', b :: l2' => f a b && forall2b f l1' l2'
  | _, _ => false
  end.

(** The same comparison, executable. *)
Fixpoint sameTreeb (k : nat) (w : World) (n r : node) : bool :=
  match k with
  | 0 => false
  | S k' =>
      match nodes w !! n, nodes w !! r with
      | Some d, Some dr =>
          bool_decide (sameData d dr)
          && forall2b (sameTreeb k' w) (childNodes d) (childNodes dr)
      | _, _ => false
      end
  end.

(** The local conditions under which a node is morphed without a trace:
    attribute names are not repeated; a node that is not an element
    carries text; a textarea has no element child; the element children
    of a head-like container have pairwise different markup. *)
Definition plainNode (w : World) (x : node) : Prop :=
  NoDup (map fst (attributesOf w x))
  /\ (isElement w x = false -> is_Some (nodeValueOf w x))
  /\ (isTextArea w x = true -> firstElementChildOf w x = None)
  /\ (isHead w x = true -> NoDup (map (outerHTML w) (childrenOf w x))).

Global Instance plainNode_dec w x : Decision (plainNode w x).
Proof. unfold plainNode. apply _. Defined.

(** No two elements of [l] share a non-empty id. *)
Definition uniqueIds (w : World) (l : list node) : Prop :=
  Forall (fun e1 =>
    Forall (fun e2 =>
      isElement w e1 = true -> isElement w e2 = true ->
      idOf w e1 = idOf w e2 -> idOf w e1 <> "" -> e1 = e2) l) l.

Global Instance uniqueIds_dec w l : Decision (uniqueIds w l).
Proof. unfold uniqueIds. apply _. Defined.

Definition isMorphedCall (c : HookCall) : Prop :=
  match c with
  | BeforeNodeMorphed _ _ | AfterNodeMorphed _ _ => True
  | _ => False
  end.

(** Section 8, idempotence, as written: morphing a tree against an equal
    reference changes no node and calls only the morphed hooks. *)
Definition idempotentAsSpecified (o : Options) (w : World) (n r : node) : Prop :=
  (exists k, sameTree k w n r) ->
  forall fuel w', morphThenFrame fuel o n r w = Ok tt w' ->
    nodes w' = nodes w /\ Forall isMorphedCall (calls w').

(** The document with another call log. *)
Definition withCalls (w : World) (cs : list HookCall) : World :=
  mkWorld (nodes w) (activeElement w) (nextId w) cs (ops w).

(** A computation that, started in [w] with any call log, finishes with
    a result satisfying [P], having only called morphed hooks and changed
    nothing else. *)
Definition quiet {A : Type} (w : World) (c : M A) (P : A -> Prop) : Prop :=
  forall cs, exists a cs',
    c (withCalls w cs) = Ok a (withCalls w (cs ++ cs'))
    /\ Forall isMorphedCall cs' /\ P a.

(** A live head (node 1) holding the same [<meta>] twice, and an equal
    reference (node 11). *)
Definition duplicateHead : World :=
  worldOf
    [(1, elementNode "head" [] None [2; 3]);
     (2, elementNode "meta" [("name", "a")] (Some 1) []);
     (3, elementNode "meta" [("name", "a")] (Some 1) []);
     (11, elementNode "head" [] None [12; 13]);
     (12, elementNode "meta" [("name", "a")] (Some 11) []);
     (13, elementNode "meta" [("name", "a")] (Some 11) [])] 20.

(** Live [<div class="c"><p id="x">t</p><input type="text"></div>]
    (node 1) and an equal reference (node 11). *)
Definition equalPair : World :=
  worldOf
    [(1, elementNode "div" [("class", "c")] None [2; 4]);
     (2, elementNode "p" [("id", "x")] (Some 1) [3]);
     (3, textNode "t" (Some 2));
     (4, controlNode "input" [("type", "text")] (Some 1) [] "v" "v");
     (11, elementNode "div" [("class", "c")] None [12; 14]);
     (12, elementNode "p" [("id", "x")] (Some 11) [13]);
     (13, textNode "t" (Some 12));
     (14, controlNode "input" [("type", "text")] (Some 11) [] "v" "v")] 20.

(** Every id recorded for a node is the non-empty id of an element at or
    below that node. *)
Definition idsSound (w : World) (im : gmap nat (gset string)) : Prop :=
  forall x ids i, im !! x = Some ids -> i ∈ ids ->
    exists e, e ∈ x :: descendants w x /\ isElement w e = true /\ idOf w e = i /\ i <> "".

(** ** What the engine may write to

    [zone] is a zone of the document the engine must stay out of, closed
    under parent links; [kept] is the part of it that must not change at
    all. The invariant below holds of the start document [w0] and is kept
    by every step of the engine. *)
Record Inv (w0 : World) (zone kept : nat -> Prop) (w : World) : Prop := mkInv {
  inv_parent : forall p c, c ∈ childNodesOf w p -> parentNodeOf w c = Some p;
  inv_nodup : forall p, NoDup (childNodesOf w p);
  inv_fresh : forall x, nextId w <= x -> nodes w !! x = None;
  inv_zone_old : forall x, zone x -> x < nextId w;
  inv_zone_closed : forall x p, zone x -> parentNodeOf w x = Some p -> zone p;
  inv_guard : forall x p, parentNodeOf w x = Some p -> kept p -> zone x;
  inv_frame : forall x, kept x -> nodes w !! x = nodes w0 !! x
}.

(** The parent of [x], if any, lies outside the zone. *)
Definition deep (zone : nat -> Prop) (w : World) (x : node) : Prop :=
  forall p, parentNodeOf w x = Some p -> ~ zone p.

(** Started in [w], the computation keeps the invariant whatever its
    outcome, and a result it returns satisfies [Q]. *)
Definition keeps {A : Type} (w0 : World) (zone kept : nat -> Prop) (c : M A) (w : World)
    (Q : A -> World -> Prop) : Prop :=
  Inv w0 zone kept w ->
  Inv w0 zone kept (finalWorld (c w)) /\ forall a w', c w = Ok a w' -> Q a w'.

(** The record of a node after [x] has been taken out of its parent. *)
Definition detachData (x y : node) (d : NodeData) : NodeData :=
  let d1 := with_childNodes d
              (List.filter (fun c => negb (bool_decide (c = x))) (childNodes d)) in
  if bool_decide (y = x) then with_parentNode d1 None else d1.

(** The record of a node after [x] has been put into [parent]. *)
Definition attachData (parent x : node) (b : option node) (y : node) (d : NodeData)
    : NodeData :=
  let cs := List.filter (fun c => negb (bool_decide (c = x))) (childNodes d) in
  let d1 := with_childNodes d (if bool_decide (y = parent) then placeBefore x b cs else cs) in
  if bool_decide (y = x) then with_parentNode d1 (Some parent) else d1.

(** ** Documents

    A store is a document when child lists and parent links agree, no
    child list repeats a node, and every node is older than the next
    identity. *)
Definition linked (w : World) (x : node) (d : NodeData) : Prop :=
  x < nextId w
  /\ NoDup (childNodes d)
  /\ Forall (fun c => parentNodeOf w c = Some x) (childNodes d)
  /\ from_option (fun p => x ∈ childNodesOf w p) True (parentNode d).

Definition document (w : World) : Prop := map_Forall (linked w) (nodes w).

#[global] Instance linked_dec w x d : Decision (linked w x d).
Proof. unfold linked. destruct (parentNode d); simpl; apply _. Defined.

#[global] Instance document_dec w : Decision (document w).
Proof. unfold document. apply _. Defined.

(** [ancestor w a x]: following parent links from [x] leads to [a]. *)
Inductive ancestor (w : World) (a : node) : node -> Prop :=
  | ancestor_self : ancestor w a a
  | ancestor_up x p : parentNodeOf w x = Some p -> ancestor w a p -> ancestor w a x.

(** The scheduled pass as the entry point starts it, the reference being
    a node. *)
Definition morphEntryThenFrame (parseFragment : string -> M (list node)) (fuel : nat)
    (o : Options) (n reference : node) : M unit :=
  do f <- morph parseFragment n (inl reference) o;;
  runFrame fuel f.

(** The before-node-removed hook, if any, never refuses. *)
Definition removalHookPermits (o : Options) : Prop :=
  forall f, beforeNodeRemoved o = Some f -> forall w n, f w n = true.

(** The before-attribute-updated hook, if any, never refuses. *)
Definition attributeHookPermits (o : Options) : Prop :=
  forall f, beforeAttributeUpdated o = Some f -> forall w n a v, f w n a v = true.

(** The before-node-morphed hook, if any, never refuses. *)
Definition morphHookPermits (o : Options) : Prop :=
  forall f, beforeNodeMorphed o = Some f -> forall w n r, f w n r = true.

(** Every second entry of a list, starting with the second. *)
Fixpoint everySecond {A : Type} (l : list A) : list A :=
  match l with
  | _ :: b :: l' => b :: everySecond l'
  | _ => []
  end.

(** [<div aria-busy="true" id="a"></div>] (node 1) beside a reference
    [<div id="a"></div>] (node 2). *)
Definition busyDiv : World :=
  worldOf
    [(1, elementNode "div" [("aria-busy", "true"); ("id", "a")] None []);
     (2, elementNode "div" [("id", "a")] None [])] 3.

(** Live [<div a="1" b="2" c="3"></div>] (node 1) and reference
    [<div d="4" a="5"></div>] (node 2). *)
Definition strayAttributes : World :=
  worldOf
    [(1, elementNode "div" [("a", "1"); ("b", "2"); ("c", "3")] None []);
     (2, elementNode "div" [("d", "4"); ("a", "5")] None [])] 3.

(** Live [<div a="1" b="2" c="3"></div>] (node 1) and reference
    [<div></div>] (node 2). *)
Definition onlyExcessAttributes : World :=
  worldOf
    [(1, elementNode "div" [("a", "1"); ("b", "2"); ("c", "3")] None []);
     (2, elementNode "div" [] None [])] 3.

(** ** Hook sets that refuse every change *)

(** The four hooks that gate a change are supplied and always refuse. *)
Definition refusesEveryChange (o : Options) : Prop :=
  (exists f, beforeNodeAdded o = Some f /\ forall w n, f w n = false)
  /\ (exists f, beforeNodeRemoved o = Some f /\ forall w n, f w n = false)
  /\ (exists f, beforeAttributeUpdated o = Some f /\ forall w n a v, f w n a v = false)
  /\ (exists f, beforePropertyUpdated o = Some f /\ forall w n p v, f w n p v = false).

(** A host call that moves a node among siblings. *)
Definition isRelocation (op : HostOp) : Prop :=
  match op with OpInsertBefore _ _ _ => True | _ => False end.

(** From [w] to [w'] the host was only asked to relocate nodes. *)
Definition onlyRelocations (w w' : World) : Prop :=
  exists l, ops w' = ops w ++ l /\ Forall isRelocation l.

(** Whatever its outcome, the computation asks the host for relocations only. *)
Definition relocates {A : Type} (c : M A) (w : World) : Prop :=
  onlyRelocations w (finalWorld (c w)).

(** Every change refused, the morphed hooks permitting. *)
Definition refuseChanges : Options :=
  mkOptions false false None false (Some (fun _ _ => false)) true
    (Some (fun _ _ => false)) true (Some (fun _ _ _ _ => false)) true
    (Some (fun _ _ _ _ => false)) true.

(** A live head (node 1) with three children, [<meta>], [<title>] and
    [<link>], and an empty reference head (node 11). *)
Definition crowdedHead : World :=
  worldOf
    [(1, elementNode "head" [] None [2; 3; 4]);
     (2, elementNode "meta" [("name", "a")] (Some 1) []);
     (3, elementNode "title" [] (Some 1) []);
     (4, elementNode "link" [("rel", "x")] (Some 1) []);
     (11, elementNode "head" [] None [])] 20.

(** The before-node-added hook, if any, never refuses. *)
Definition additionHookPermits (o : Options) : Prop :=
  forall f, beforeNodeAdded o = Some f -> forall w n, f w n = true.

(** Live [<div><span></span><p></p></div>] (node 1) and reference
    [<div><em class="x"></em></div>] (node 11). *)
Definition unlikeChild : World :=
  worldOf
    [(1, elementNode "div" [] None [2; 3]);
     (2, elementNode "span" [] (Some 1) []);
     (3, elementNode "p" [] (Some 1) []);
     (11, elementNode "div" [] None [12]);
     (12, elementNode "em" [("class", "x")] (Some 11) [])] 20.

(** [c] in [w'] has the kind, name, attributes and data of [src] in [w]. *)
Definition copies (w' : World) (c : node) (w : World) (src : node) : Prop :=
  nodeTypeOf w' c = nodeTypeOf w src
  /\ localNameOf w' c = localNameOf w src
  /\ attributesOf w' c = attributesOf w src
  /\ nodeValueOf w' c = nodeValueOf w src.

(** ** Siblings the best-match search passes over

    A sibling is passed over by the id search of [#morphChildElement] when
    it is not an element, has no id, or has an id that is not the
    reference's while its id set, if any, shares nothing with the
    reference's. *)
Definition passedOver (m : Morph) (w : World) (ref : node) (y : node) : Prop :=
  isElement w y = false
  \/ idOf w y = ""
  \/ (idOf w y <> idOf w ref
      /\ from_option
           (fun currentIdSet : gset string =>
              existsb (fun it => bool_decide (it ∈ currentIdSet))
                match idMap m !! ref with
                | Some refIdSet => elements refIdSet
                | None => []
                end = false)
           True (idMap m !! y)).

#[global] Instance passedOver_dec m w ref y : Decision (passedOver m w ref y).
Proof. unfold passedOver. destruct (idMap m !! y); simpl; apply _. Defined.

(** An element with the reference's tag name: what the best-match search
    remembers as [nextMatchByTagName]. *)
Definition sameTagElement (w : World) (ref : node) (y : node) : bool :=
  isElement w y && bool_decide (localNameOf w y = localNameOf w ref).

(** Live [<ul><li id="a"></li><p></p><li id="b"></li></ul>] (node 1) and
    reference [<ul><li id="c"></li></ul>] (node 11). *)
Definition tagAhead : World :=
  worldOf
    [(1, elementNode "ul" [] None [2; 3; 4]);
     (2, elementNode "li" [("id", "a")] (Some 1) []);
     (3, elementNode "p" [] (Some 1) []);
     (4, elementNode "li" [("id", "b")] (Some 1) []);
     (11, elementNode "ul" [] None [12]);
     (12, elementNode "li" [("id", "c")] (Some 11) [])] 20.

(** ** What the attribute loops leave alone *)

(** A node's record without its attribute list. *)
Definition stateOf (w : World) (x : node) : option NodeData :=
  (fun d => with_attributes d []) <$> nodes w !! x.






(** Live [<div aria-busy="true" class="c"></div>] (node 1) and an equal
    reference (node 11). *)
Definition busyEqual : World :=
  worldOf
    [(1, elementNode "div" [("aria-busy", "true"); ("class", "c")] None []);
     (11, elementNode "div" [("aria-busy", "true"); ("class", "c")] None [])] 20.

(** The host writes the entry point makes around [Morph.morph]. *)
Definition busyMarkerOps (w : World) (n : node) : list HostOp :=
  if isElement w n then [OpSetAriaBusy n (Some "true"); OpSetAriaBusy n None] else [].

(** The document with another log of host calls. *)
Definition withOps (w : World) (os : list HostOp) : World :=
  mkWorld (nodes w) (activeElement w) (nextId w) (calls w) os.

(** * Properties

    Everything above transcribes the source. What follows states and
    proves what the engine does. *)

Section Subtrees.
Variable w : World.
Variable F : nat.

Local Abbreviation D := (descendantsF F w).

Lemma treeb_sound k n : treeb k w n = true -> tree k w n.
Proof.
  revert n. induction k as [|k IH]; intros n H; [discriminate|].
  simpl in H. apply andb_true_iff in H. destruct H as [H1 H2]. split.
  - intros Hne. apply orb_true_iff in H1. destruct H1 as [H1|H1]; [|exact H1].
    apply bool_decide_eq_true in H1. contradiction.
  - rewrite forallb_forall in H2. apply Forall_forall. intros c Hc.
    apply list_elem_of_In in Hc. specialize (H2 c Hc).
    apply andb_true_iff in H2. destruct H2 as [H2 H3].
    apply bool_decide_eq_true in H2. split; [exact H2|by apply IH].
Qed.

Lemma tree_mono k k' n : tree k w n -> k <= k' -> tree k' w n.
Proof.
  revert k' n. induction k as [|k IH]; intros k' n Ht Hle; [destruct Ht|].
  destruct k' as [|k']; [lia|]. destruct Ht as [He Hc]. split; [exact He|].
  eapply Forall_impl; [exact Hc|]. intros c [Hp Hc']. split; [exact Hp|].
  apply IH; [exact Hc'|lia].
Qed.

Lemma descendantsF_stable k n :
  tree k w n -> forall f, k <= f -> descendantsF f w n = descendantsF k w n.
Proof.
  revert n. induction k as [|k IH]; intros n Ht f Hle; [destruct Ht|].
  destruct f as [|f]; [lia|]. destruct Ht as [_ Hc]. simpl.
  induction Hc as [|c l [_ Hc'] _ IHl]; [reflexivity|].
  simpl. rewrite IHl. rewrite (IH c Hc' f) by lia. reflexivity.
Qed.

Lemma descendants_unfold k n :
  tree k w n -> k <= F ->
  D n = flat_map (fun c => c :: D c) (childNodesOf w n).
Proof.
  intros Ht Hle. destruct k as [|k]; [destruct Ht|].
  rewrite (descendantsF_stable (S k) n Ht F Hle). cbn [descendantsF].
  destruct Ht as [_ Hc].
  induction Hc as [|c l [_ Hc'] _ IHl]; [reflexivity|].
  simpl. rewrite IHl. rewrite (descendantsF_stable k c Hc' F) by lia. reflexivity.
Qed.

Lemma tree_child k n c :
  tree (S k) w n -> c ∈ childNodesOf w n -> parentNodeOf w c = Some n /\ tree k w c.
Proof.
  intros [_ Hc] Hin. rewrite Forall_forall in Hc. exact (Hc c Hin).
Qed.

Lemma elem_of_flat_map_sub (g : node -> list node) (l : list node) (e : node) :
  e ∈ flat_map g l <-> exists c, c ∈ l /\ e ∈ g c.
Proof.
  rewrite list_elem_of_In, in_flat_map. split; intros [c [H1 H2]]; exists c;
    rewrite ?list_elem_of_In in *; auto.
Qed.

Lemma descendants_inv k n e :
  tree (S k) w n -> S k <= F -> e ∈ D n ->
  exists c, c ∈ childNodesOf w n /\ (e = c \/ e ∈ D c).
Proof.
  intros Ht Hle He. rewrite (descendants_unfold _ _ Ht Hle) in He.
  apply elem_of_flat_map_sub in He. destruct He as [c [Hc He]].
  exists c. split; [exact Hc|]. apply elem_of_cons in He. exact He.
Qed.

Lemma descendants_child k n c :
  tree k w n -> k <= F -> c ∈ childNodesOf w n -> c ∈ D n /\ D c ⊆ D n.
Proof.
  intros Ht Hle Hc. rewrite (descendants_unfold _ _ Ht Hle). split.
  - apply elem_of_flat_map_sub. exists c. split; [exact Hc|]. left.
  - intros e He. apply elem_of_flat_map_sub. exists c. split; [exact Hc|]. by right.
Qed.

Lemma descendants_trans k x n :
  tree k w x -> k <= F -> n ∈ D x -> D n ⊆ D x.
Proof.
  revert x n. induction k as [|k IH]; intros x n Ht Hle Hn; [destruct Ht|].
  destruct (descendants_inv _ _ _ Ht Hle Hn) as [c [Hc Hn']].
  destruct (descendants_child _ _ _ Ht Hle Hc) as [_ Hsub].
  destruct (tree_child _ _ _ Ht Hc) as [_ Htc].
  destruct Hn' as [->|Hn']; [exact Hsub|].
  intros e He. apply Hsub. eapply (IH c n); [exact Htc|lia|exact Hn'|exact He].
Qed.

Lemma tree_descendant k x n :
  tree k w x -> k <= F -> n ∈ D x -> tree k w n.
Proof.
  revert x n. induction k as [|k IH]; intros x n Ht Hle Hn; [destruct Ht|].
  destruct (descendants_inv _ _ _ Ht Hle Hn) as [c [Hc Hn']].
  destruct (tree_child _ _ _ Ht Hc) as [_ Htc].
  destruct Hn' as [->|Hn'].
  - eapply tree_mono; [exact Htc|lia].
  - eapply tree_mono; [eapply (IH c n); [exact Htc|lia|exact Hn']|lia].
Qed.

Lemma NoDup_flat_map_part (g : node -> list node) (l : list node) (c : node) :
  NoDup (flat_map g l) -> c ∈ l -> NoDup (g c).
Proof.
  induction l as [|a l IH]; intros Hnd Hc; [by apply elem_of_nil in Hc|].
  simpl in Hnd. apply NoDup_app in Hnd. destruct Hnd as [Ha [_ Hl]].
  apply elem_of_cons in Hc. destruct Hc as [->|Hc]; [exact Ha|by apply IH].
Qed.

Lemma NoDup_flat_map_disjoint (g : node -> list node) (l : list node) (c c' e : node) :
  NoDup (flat_map g l) -> c ∈ l -> c' ∈ l -> e ∈ g c -> e ∈ g c' -> c = c'.
Proof.
  induction l as [|a l IH]; intros Hnd Hc Hc' He He'; [by apply elem_of_nil in Hc|].
  simpl in Hnd. apply NoDup_app in Hnd. destruct Hnd as [_ [Hdis Hl]].
  apply elem_of_cons in Hc. apply elem_of_cons in Hc'.
  destruct Hc as [->|Hc], Hc' as [->|Hc'].
  - reflexivity.
  - exfalso. apply (Hdis e He). apply elem_of_flat_map_sub. by exists c'.
  - exfalso. apply (Hdis e He'). apply elem_of_flat_map_sub. by exists c.
  - by apply IH.
Qed.

Lemma occurrences_app n l1 l2 :
  occurrences n (l1 ++ l2) = occurrences n l1 + occurrences n l2.
Proof. unfold occurrences. rewrite List.filter_app, length_app. reflexivity. Qed.

Lemma occurrences_notin n l : n ∉ l -> occurrences n l = 0.
Proof.
  induction l as [|a l IH]; intros Hn; [reflexivity|].
  apply not_elem_of_cons in Hn. destruct Hn as [Hna Hn].
  unfold occurrences in *. simpl. rewrite bool_decide_eq_false_2 by congruence.
  by apply IH.
Qed.

Lemma occurrences_pos n l : occurrences n l <> 0 -> n ∈ l.
Proof.
  intros H. destruct (decide (n ∈ l)) as [Hin|Hin]; [exact Hin|].
  by rewrite occurrences_notin in H.
Qed.

Lemma occurrences_in n l : n ∈ l -> occurrences n l <> 0.
Proof.
  induction 1 as [y l'|y z l' Hin IH]; unfold occurrences in *; simpl.
  - by rewrite bool_decide_eq_true_2.
  - destruct (bool_decide (z = y)); simpl; [discriminate|exact IH].
Qed.

Lemma occurrences_single n x :
  occurrences n [x] = if bool_decide (x = n) then 1 else 0.
Proof. unfold occurrences. simpl. by destruct (bool_decide (x = n)). Qed.

Lemma Chain_extend c x e l :
  Chain w c e l -> x ∉ l -> parentElement w c = Some x -> Chain w x e (l ++ [x]).
Proof.
  induction 1 as [|cur p l Hne Hp Hch IH]; intros Hx Hpar.
  - simpl. apply (Chain_step w x c x [x]); [|exact Hpar|apply Chain_root].
    intros ->. apply Hx. left.
  - apply not_elem_of_cons in Hx. destruct Hx as [Hxc Hxl].
    simpl. apply (Chain_step w x cur p); [congruence|exact Hp|by apply IH].
Qed.

Lemma Chain_run {A : Type} root e l (visit : node -> A -> A) :
  Chain w root e l -> forall fuel acc, length l <= fuel ->
  whileCurrent fuel w root visit e acc = fold_left (fun a cur => visit cur a) l acc.
Proof.
  induction 1 as [|cur p l Hne Hp Hch IH]; intros fuel acc Hlen.
  - destruct fuel as [|fuel]; [simpl in Hlen; lia|].
    simpl. by rewrite bool_decide_eq_true_2.
  - destruct fuel as [|fuel]; [simpl in Hlen; lia|].
    simpl. rewrite bool_decide_eq_false_2 by exact Hne. rewrite Hp.
    apply IH. simpl in Hlen. lia.
Qed.

(** From any node of a well-formed subtree the walk reaches the root,
    and it visits exactly the inclusive ancestors of the start, once each. *)
Lemma chain_of_descendant k x e :
  tree k w x -> k <= F -> NoDup (x :: D x) -> e ∈ x :: D x ->
  exists l, Chain w x e l /\ length l <= k /\
    (forall y, y ∈ l -> y ∈ x :: D x) /\
    (forall n, n ∈ x :: D x ->
       occurrences n l = if bool_decide (e ∈ n :: D n) then 1 else 0).
Proof.
  revert x e. induction k as [|k IH]; intros x e Ht Hle Hnd He; [destruct Ht|].
  apply NoDup_cons in Hnd. destruct Hnd as [Hx Hnd].
  destruct (decide (e = x)) as [->|Hex].
  { exists [x]. split; [apply Chain_root|]. split; [simpl; lia|]. split.
    - intros y Hy. apply list_elem_of_singleton in Hy. subst y. left.
    - intros n Hn. rewrite occurrences_single.
      destruct (decide (x = n)) as [<-|Hxn].
      + rewrite !bool_decide_eq_true_2; [reflexivity|left|reflexivity].
      + rewrite !bool_decide_eq_false_2; [reflexivity| |exact Hxn].
        intros Hin. apply elem_of_cons in Hin. destruct Hin as [Heq|Hin]; [congruence|].
        apply elem_of_cons in Hn. destruct Hn as [Heq|Hn]; [congruence|].
        apply Hx. eapply descendants_trans; [exact Ht|exact Hle|exact Hn|exact Hin]. }
  apply elem_of_cons in He. destruct He as [He|He]; [congruence|].
  destruct (descendants_inv _ _ _ Ht Hle He) as [c [Hc Hec]].
  destruct (tree_child _ _ _ Ht Hc) as [Hpar Htc].
  destruct (descendants_child _ _ _ Ht Hle Hc) as [HcD HsubD].
  assert (Hsub : forall y, y ∈ c :: D c -> y ∈ D x).
  { intros y Hy. apply elem_of_cons in Hy. destruct Hy as [->|Hy]; [exact HcD|by apply HsubD]. }
  assert (Hndc : NoDup (c :: D c)).
  { rewrite (descendants_unfold _ _ Ht Hle) in Hnd.
    exact (NoDup_flat_map_part (fun c => c :: D c) _ c Hnd Hc). }
  assert (Hec' : e ∈ c :: D c).
  { apply elem_of_cons. exact Hec. }
  destruct (IH c e Htc ltac:(lia) Hndc Hec') as [l [Hch [Hlen [Hmem Hocc]]]].
  assert (Hxl : x ∉ l).
  { intros Hin. apply Hx. apply Hsub. by apply Hmem. }
  assert (Hpe : parentElement w c = Some x).
  { unfold parentElement. rewrite Hpar. destruct Ht as [Hel _].
    rewrite Hel; [reflexivity|]. intros Hnil. rewrite Hnil in Hc. by apply elem_of_nil in Hc. }
  exists (l ++ [x]). split; [by apply (Chain_extend c)|].
  split; [rewrite length_app; simpl; lia|]. split.
  - intros y Hy. apply elem_of_app in Hy. destruct Hy as [Hy|Hy].
    + right. apply Hsub. by apply Hmem.
    + apply list_elem_of_singleton in Hy. subst y. left.
  - intros n Hn. rewrite occurrences_app, occurrences_single.
    destruct (decide (x = n)) as [<-|Hxn].
    + rewrite (occurrences_notin _ _ Hxl). rewrite !bool_decide_eq_true_2; [reflexivity| |reflexivity].
      right. exact He.
    + rewrite (bool_decide_eq_false_2 (x = n)) by exact Hxn. rewrite Nat.add_0_r.
      apply elem_of_cons in Hn. destruct Hn as [Heq|Hn]; [congruence|].
      destruct (decide (n ∈ c :: D c)) as [Hnc|Hnc]; [by apply Hocc|].
      rewrite occurrences_notin by (intros Hin; apply Hnc; by apply Hmem).
      rewrite bool_decide_eq_false_2; [reflexivity|]. intros Hen.
      destruct (descendants_inv _ _ _ Ht Hle Hn) as [c' [Hc' Hnc']].
      destruct (tree_child _ _ _ Ht Hc') as [_ Htc'].
      assert (He' : e ∈ c' :: D c').
      { apply elem_of_cons in Hen. destruct Hen as [->|Hen]; [by apply elem_of_cons|].
        right. destruct Hnc' as [->|Hnc']; [exact Hen|].
        eapply descendants_trans; [exact Htc'|lia|exact Hnc'|exact Hen]. }
      rewrite (descendants_unfold _ _ Ht Hle) in Hnd.
      assert (c = c') by exact (NoDup_flat_map_disjoint (fun c => c :: D c) _ c c' e Hnd Hc Hc' Hec' He').
      subst c'. apply Hnc. by apply elem_of_cons.
Qed.

End Subtrees.

(** ** The sensitivity pre-pass *)

Lemma bool_decide_elem_of_pair (x a b : string) :
  bool_decide (x ∈ [a; b]) = bool_decide (x = a) || bool_decide (x = b).
Proof.
  destruct (decide (x = a)) as [->|Ha].
  { rewrite (bool_decide_eq_true_2 (a ∈ [a; b])) by left.
    by rewrite (bool_decide_eq_true_2 (a = a)). }
  rewrite (bool_decide_eq_false_2 (x = a)) by exact Ha. simpl.
  destruct (decide (x = b)) as [->|Hb].
  { rewrite (bool_decide_eq_true_2 (b ∈ [a; b])) by (right; left).
    by rewrite (bool_decide_eq_true_2 (b = b)). }
  rewrite !bool_decide_eq_false_2; [reflexivity|exact Hb|].
  intros Hin. apply elem_of_cons in Hin. destruct Hin as [?|Hin]; [done|].
  apply list_elem_of_singleton in Hin. done.
Qed.

Lemma positive_time_flag (q : Q) :
  (if negb (Qle_bool q 0) then 1 else 0) = (if Qlt_le_dec 0 q then 1 else 0).
Proof.
  destruct (Qlt_le_dec 0 q) as [Hlt|Hle]; destruct (Qle_bool q 0) eqn:Hb; simpl; try reflexivity.
  - apply Qle_bool_iff in Hb. exfalso. exact (Qlt_not_le _ _ Hlt Hb).
  - apply Qle_bool_iff in Hle. congruence.
Qed.

Lemma sensivityOf_specScore w e : sensivityOf w e = specScore w e.
Proof.
  unfold sensivityOf, specScore, isInput, isTextArea, isMedia.
  rewrite bool_decide_elem_of_pair.
  rewrite (bool_decide_elem_of_pair (localNameOf w e) "audio" "video").
  rewrite positive_time_flag.
  rewrite (orb_comm (bool_decide (localNameOf w e = "video"))).
  destruct (bool_decide (localNameOf w e = "input") || bool_decide (localNameOf w e = "textarea")).
  - f_equal; [f_equal|]; repeat case_bool_decide; congruence.
  - f_equal.
    destruct (bool_decide (localNameOf w e = "audio") || bool_decide (localNameOf w e = "video"));
      [|reflexivity].
    destruct (endedOf w e), (pausedOf w e); reflexivity.
Qed.

Lemma add_walk w root e l fuel (s : nat) (m : gmap nat nat) n :
  Chain w root e l -> length l <= fuel ->
  default 0 (whileCurrent fuel w root
               (fun current m => <[current := default 0 (m !! current) + s]> m) e m !! n)
  = default 0 (m !! n) + occurrences n l * s.
Proof.
  intros Hch Hlen. rewrite (Chain_run w root e l _ Hch fuel m Hlen).
  clear Hch Hlen. revert m. induction l as [|a l IH]; intros m.
  - simpl. lia.
  - simpl fold_left. rewrite IH. change (a :: l) with ([a] ++ l).
    rewrite occurrences_app, occurrences_single.
    destruct (decide (a = n)) as [->|Hne].
    + rewrite lookup_insert_eq, bool_decide_eq_true_2 by reflexivity. simpl. lia.
    + rewrite lookup_insert_ne, bool_decide_eq_false_2 by congruence. simpl. lia.
Qed.

Lemma add_fold w root fuel (score : node -> nat) (T : node -> Prop) (inSub : node -> node -> bool)
    (L : list node) :
  (forall e, e ∈ L -> exists l, Chain w root e l /\ length l <= fuel /\
      forall n, T n -> occurrences n l = if inSub n e then 1 else 0) ->
  forall (m : gmap nat nat) n, T n ->
  default 0 (fold_left
               (fun m e => whileCurrent fuel w root
                  (fun current m => <[current := default 0 (m !! current) + score e]> m) e m)
               L m !! n)
  = default 0 (m !! n) + sum_list (map score (List.filter (inSub n) L)).
Proof.
  induction L as [|e L IH]; intros HL m n Hn.
  - simpl. lia.
  - simpl fold_left. rewrite IH; [|intros e' He'; apply HL; by right|exact Hn].
    destruct (HL e ltac:(left)) as [l [Hch [Hlen Hocc]]].
    rewrite (add_walk w root e l fuel (score e) m n Hch Hlen), (Hocc n Hn).
    simpl. destruct (inSub n e); simpl; lia.
Qed.

Lemma querySelectorAll_descendant w root sel e :
  e ∈ querySelectorAll w root sel -> e ∈ descendants w root.
Proof.
  unfold querySelectorAll. rewrite list_elem_of_In, filter_In, <- list_elem_of_In. tauto.
Qed.

(** The elements the pre-pass selects are the sensitive descendants. *)
Lemma sensitiveSelector_kinds w e :
  matchesSelector w sensitiveSelector e = bool_decide (localNameOf w e ∈ sensitiveKinds).
Proof.
  unfold matchesSelector, sensitiveSelector, sensitiveKinds.
  apply bool_decide_ext. rewrite !elem_of_cons. tauto.
Qed.

Lemma filter_filter_andb {A : Type} (f g : A -> bool) (l : list A) :
  List.filter g (List.filter f l) = List.filter (fun x => f x && g x) l.
Proof.
  induction l as [|x l IH]; [reflexivity|]. simpl.
  destruct (f x); simpl; [destruct (g x)|]; by rewrite IH.
Qed.

Lemma sensitiveBelow_selected w root n :
  sensitiveBelow w root n
  = List.filter (fun e => bool_decide (e ∈ n :: descendants w n))
      (querySelectorAll w root sensitiveSelector).
Proof.
  unfold sensitiveBelow, querySelectorAll. rewrite filter_filter_andb.
  apply filter_ext. intros e. unfold isSensitive. by rewrite sensitiveSelector_kinds.
Qed.

(** C1. After the sensitivity pre-pass over a well-formed subtree, every
    node of the subtree holds the sum of the scores of the sensitive
    descendants of the root that lie at or below it. The sensitive
    descendants are the elements below the root named input, textarea,
    audio, canvas, embed, iframe, object or video, and a score is the one
    of section 4.1: each sensitive element's score has been added once to
    each of its inclusive ancestors up to the root. *)
Theorem mapSensivity_accumulates (w : World) (root : node) (k : nat) :
  tree k w root -> k <= size (nodes w) -> NoDup (root :: descendants w root) ->
  forall n, n ∈ root :: descendants w root ->
    default 0 (mapSensivity w root ∅ !! n)
    = sum_list (map (specScore w) (sensitiveBelow w root n)).
Proof.
  intros Ht Hk Hnd n Hn. rewrite sensitiveBelow_selected. unfold mapSensivity.
  rewrite (add_fold w root (S (size (nodes w))) (sensivityOf w)
             (fun n => n ∈ root :: descendants w root)
             (fun n e => bool_decide (e ∈ n :: descendants w n))).
  - rewrite lookup_empty. simpl. f_equal. apply map_ext. intros e. apply sensivityOf_specScore.
  - intros e He. apply querySelectorAll_descendant in He.
    destruct (chain_of_descendant w (size (nodes w)) k root e Ht Hk Hnd ltac:(by right))
      as [l [Hch [Hlen [_ Hocc]]]].
    exists l. split; [exact Hch|]. split; [lia|]. intros n' Hn'. by apply Hocc.
  - exact Hn.
Qed.

(** ** The id-set pre-pass *)

Lemma addId_lookup id current m n :
  addId id current m !! n
  = if bool_decide (current = n) then Some (default ∅ (m !! n) ∪ {[id]}) else m !! n.
Proof.
  unfold addId. case_bool_decide as Hc.
  - subst n. destruct (m !! current) as [s|]; rewrite lookup_insert_eq; simpl; f_equal. set_solver.
  - destruct (m !! current) as [s|]; by rewrite lookup_insert_ne.
Qed.

Lemma id_walk w root e l fuel (id : string) (m : gmap nat (gset string)) n :
  Chain w root e l -> length l <= fuel ->
  whileCurrent fuel w root (addId id) e m !! n
  = if bool_decide (n ∈ l) then Some (default ∅ (m !! n) ∪ {[id]}) else m !! n.
Proof.
  intros Hch Hlen. rewrite (Chain_run w root e l _ Hch fuel m Hlen).
  clear Hch Hlen. revert m. induction l as [|a l IH]; intros m.
  - cbn [fold_left]. rewrite bool_decide_eq_false_2; [reflexivity|]. apply not_elem_of_nil.
  - simpl fold_left. rewrite IH, addId_lookup.
    destruct (decide (a = n)) as [->|Hne].
    + rewrite (bool_decide_eq_true_2 (n = n)) by reflexivity.
      rewrite (bool_decide_eq_true_2 (n ∈ n :: l)) by left.
      case_bool_decide; simpl; f_equal. set_solver.
    + rewrite (bool_decide_eq_false_2 (a = n)) by exact Hne.
      destruct (decide (n ∈ l)) as [Hin|Hin].
      * rewrite !bool_decide_eq_true_2; [reflexivity|by right|exact Hin].
      * rewrite !bool_decide_eq_false_2; [reflexivity| |exact Hin].
        intros H. apply elem_of_cons in H. destruct H; congruence.
Qed.

Lemma elem_of_idsAmong w inSub L i :
  i ∈ idsAmong w inSub L <-> exists e, e ∈ L /\ inSub e = true /\ idOf w e = i /\ i <> "".
Proof.
  unfold idsAmong. rewrite elem_of_list_to_set, list_elem_of_In, filter_In, in_map_iff.
  split.
  - intros [[e [He Hin]] Hne]. apply filter_In in Hin. destruct Hin as [Hin Hs].
    exists e. rewrite list_elem_of_In. repeat split; try assumption.
    apply negb_true_iff, bool_decide_eq_false in Hne. exact Hne.
  - intros [e [He [Hs [Hid Hne]]]]. split.
    + exists e. split; [exact Hid|]. apply filter_In. by rewrite <- list_elem_of_In.
    + apply negb_true_iff, bool_decide_eq_false. exact Hne.
Qed.

Lemma idsAmong_cons w inSub e L :
  idsAmong w inSub (e :: L)
  = (if inSub e && negb (bool_decide (idOf w e = "")) then {[idOf w e]} else ∅)
    ∪ idsAmong w inSub L.
Proof.
  unfold idsAmong. simpl. destruct (inSub e); simpl; [|set_solver].
  destruct (bool_decide (idOf w e = "")); simpl; set_solver.
Qed.

Lemma id_fold w root fuel (T : node -> Prop) (inSub : node -> node -> bool) (L : list node) :
  (forall e, e ∈ L -> exists l, Chain w root e l /\ length l <= fuel /\
      forall n, T n -> (n ∈ l <-> inSub n e = true)) ->
  forall (m : gmap nat (gset string)) n, T n ->
  fold_left
    (fun m e => if bool_decide (idOf w e = "") then m
                else whileCurrent fuel w root (addId (idOf w e)) e m)
    L m !! n
  = if bool_decide (idsAmong w (inSub n) L = ∅) then m !! n
    else Some (default ∅ (m !! n) ∪ idsAmong w (inSub n) L).
Proof.
  induction L as [|e L IH]; intros HL m n Hn.
  - simpl. rewrite bool_decide_eq_true_2; [reflexivity|]. reflexivity.
  - simpl fold_left. rewrite IH; [|intros e' He'; apply HL; by right|exact Hn].
    destruct (HL e ltac:(left)) as [l [Hch [Hlen Hmem]]].
    rewrite idsAmong_cons.
    destruct (decide (idOf w e = "")) as [Hid|Hid].
    { rewrite (bool_decide_eq_true_2 _ Hid), andb_false_r. simpl.
      rewrite (left_id_L ∅ (∪)). reflexivity. }
    rewrite (bool_decide_eq_false_2 _ Hid), andb_true_r. simpl.
    rewrite (id_walk w root e l fuel (idOf w e) m n Hch Hlen).
    destruct (inSub n e) eqn:Hs.
    + rewrite (bool_decide_eq_true_2 (n ∈ l)) by (by apply Hmem).
      rewrite (bool_decide_eq_false_2 (_ ∪ _ = ∅)) by set_solver.
      case_bool_decide as He; simpl; f_equal; set_solver.
    + rewrite (bool_decide_eq_false_2 (n ∈ l)) by (rewrite (Hmem n Hn); congruence).
      rewrite (left_id_L ∅ (∪)). reflexivity.
Qed.

Lemma mapIdSets_fold w root m :
  mapIdSets w root m
  = fold_left
      (fun m e => if bool_decide (idOf w e = "") then m
                  else whileCurrent (S (size (nodes w))) w root (addId (idOf w e)) e m)
      (querySelectorAll w root (SelHasAttribute "id")) m.
Proof. reflexivity. Qed.

(** What the pre-pass leaves at a node of a well-formed subtree: the ids
    of the selected elements at or below it, or nothing when there are none. *)
Lemma mapIdSets_lookup (w : World) (root : node) (k : nat) n :
  tree k w root -> k <= size (nodes w) -> NoDup (root :: descendants w root) ->
  n ∈ root :: descendants w root ->
  let ids := idsAmong w (fun e => bool_decide (e ∈ n :: descendants w n))
               (querySelectorAll w root (SelHasAttribute "id")) in
  mapIdSets w root ∅ !! n = if bool_decide (ids = ∅) then None else Some ids.
Proof.
  intros Ht Hk Hnd Hn ids. rewrite mapIdSets_fold.
  rewrite (id_fold w root (S (size (nodes w)))
             (fun n => n ∈ root :: descendants w root)
             (fun n e => bool_decide (e ∈ n :: descendants w n))).
  - rewrite lookup_empty. simpl. fold ids. rewrite (left_id_L ∅ (∪)). reflexivity.
  - intros e He. apply querySelectorAll_descendant in He.
    destruct (chain_of_descendant w (size (nodes w)) k root e Ht Hk Hnd ltac:(by right))
      as [l [Hch [Hlen [_ Hocc]]]].
    exists l. split; [exact Hch|]. split; [lia|]. intros n' Hn'.
    specialize (Hocc n' Hn'). split.
    + intros Hin. apply occurrences_in in Hin. unfold descendants.
      destruct (bool_decide (e ∈ n' :: descendantsF (size (nodes w)) w n'));
        [reflexivity|congruence].
    + intros Hb. unfold descendants in Hb. rewrite Hb in Hocc.
      apply occurrences_pos. lia.
  - exact Hn.
Qed.

Lemma elem_of_nonEmptyIds w l i :
  i ∈ nonEmptyIds w l <-> exists e, e ∈ l /\ isElement w e = true /\ idOf w e = i /\ i <> "".
Proof.
  unfold nonEmptyIds. rewrite elem_of_list_to_set, list_elem_of_In, filter_In, in_map_iff.
  split.
  - intros [[e [He Hin]] Hne]. apply filter_In in Hin. destruct Hin as [Hin Hs].
    exists e. rewrite list_elem_of_In. repeat split; try assumption.
    apply negb_true_iff, bool_decide_eq_false in Hne. exact Hne.
  - intros [e [He [Hs [Hid Hne]]]]. split.
    + exists e. split; [exact Hid|]. apply filter_In. by rewrite <- list_elem_of_In.
    + apply negb_true_iff, bool_decide_eq_false. exact Hne.
Qed.

Lemma idOf_hasAttribute w e : idOf w e <> "" -> hasAttribute w e "id" = true.
Proof.
  unfold idOf, hasAttribute. intros H. apply bool_decide_eq_true_2.
  destruct (getAttribute w e "id") as [v|]; [by exists v|]. by simpl in H.
Qed.

Lemma elem_of_querySelectorAll w root sel e :
  e ∈ querySelectorAll w root sel <->
  e ∈ descendants w root /\ isElement w e = true /\ matchesSelector w sel e = true.
Proof.
  unfold querySelectorAll. rewrite list_elem_of_In, filter_In, <- list_elem_of_In.
  rewrite andb_true_iff. reflexivity.
Qed.

(** C2, as the code has it. After the id-set pre-pass over a well-formed
    subtree, every proper descendant of the root is mapped to the set of
    the non-empty ids of itself and of its descendants (and is left
    unmapped when there is none); the root is mapped to the non-empty ids
    of its proper descendants only, its own id is not collected. *)
Theorem mapIdSets_descendant_ids (w : World) (root : node) (k : nat) :
  tree k w root -> k <= size (nodes w) -> NoDup (root :: descendants w root) ->
  (forall n, n ∈ descendants w root ->
     mapIdSets w root ∅ !! n
     = if bool_decide (nonEmptyIds w (n :: descendants w n) = ∅) then None
       else Some (nonEmptyIds w (n :: descendants w n)))
  /\ mapIdSets w root ∅ !! root
     = if bool_decide (nonEmptyIds w (descendants w root) = ∅) then None
       else Some (nonEmptyIds w (descendants w root)).
Proof.
  intros Ht Hk Hnd. split.
  - intros n Hn.
    rewrite (mapIdSets_lookup w root k n Ht Hk Hnd ltac:(by right)). cbv zeta.
    assert (Heq : idsAmong w (fun e => bool_decide (e ∈ n :: descendants w n))
                    (querySelectorAll w root (SelHasAttribute "id"))
                  = nonEmptyIds w (n :: descendants w n)).
    { apply set_eq. intros i. rewrite elem_of_idsAmong, elem_of_nonEmptyIds.
      split.
      - intros [e [He [Hs [Hid Hne]]]]. apply elem_of_querySelectorAll in He.
        destruct He as [_ [Hel _]]. apply bool_decide_eq_true in Hs. by exists e.
      - intros [e [He [Hel [Hid Hne]]]]. exists e. split.
        + apply elem_of_querySelectorAll. split; [|split; [exact Hel|]].
          * apply elem_of_cons in He. destruct He as [->|He]; [exact Hn|].
            eapply (descendants_trans w (size (nodes w)) k root n); eassumption.
          * simpl. apply idOf_hasAttribute. congruence.
        + split; [by apply bool_decide_eq_true_2|by split]. }
    rewrite Heq. reflexivity.
  - rewrite (mapIdSets_lookup w root k root Ht Hk Hnd ltac:(left)). cbv zeta.
    assert (Heq : idsAmong w (fun e => bool_decide (e ∈ root :: descendants w root))
                    (querySelectorAll w root (SelHasAttribute "id"))
                  = nonEmptyIds w (descendants w root)).
    { apply set_eq. intros i. rewrite elem_of_idsAmong, elem_of_nonEmptyIds.
      split.
      - intros [e [He [Hs [Hid Hne]]]]. apply elem_of_querySelectorAll in He.
        destruct He as [He [Hel _]]. by exists e.
      - intros [e [He [Hel [Hid Hne]]]]. exists e. split.
        + apply elem_of_querySelectorAll. split; [exact He|split; [exact Hel|]].
          simpl. apply idOf_hasAttribute. congruence.
        + split; [apply bool_decide_eq_true_2; by right|by split]. }
    rewrite Heq. reflexivity.
Qed.

Lemma mapIdSets_descendant_ids_witness :
  (forall n, n ∈ descendants smallTree 1 ->
     mapIdSets smallTree 1 ∅ !! n
     = if bool_decide (nonEmptyIds smallTree (n :: descendants smallTree n) = ∅) then None
       else Some (nonEmptyIds smallTree (n :: descendants smallTree n)))
  /\ mapIdSets smallTree 1 ∅ !! 1
     = if bool_decide (nonEmptyIds smallTree (descendants smallTree 1) = ∅) then None
       else Some (nonEmptyIds smallTree (descendants smallTree 1)).
Proof.
  apply (mapIdSets_descendant_ids smallTree 1 3).
  - apply treeb_sound. vm_compute. reflexivity.
  - vm_compute. lia.
  - apply (bool_decide_unpack _). vm_compute. exact I.
Defined.

(** C2 as written fails at the root: a root that carries an id and has no
    descendant with one is left unmapped. *)
Lemma mapIdSets_root_id_not_collected :
  tree 1 loneDiv 1 /\ NoDup (1 :: descendants loneDiv 1) /\ ~ idSetAsSpecified loneDiv 1 1.
Proof.
  split; [|split].
  - apply treeb_sound. vm_compute. reflexivity.
  - apply (bool_decide_unpack _). vm_compute. exact I.
  - unfold idSetAsSpecified. intros H.
    assert (Hne : nonEmptyIds loneDiv (1 :: descendants loneDiv 1) <> ∅).
    { intros Heq. assert (Hin : "a" ∈ nonEmptyIds loneDiv (1 :: descendants loneDiv 1)).
      { apply elem_of_nonEmptyIds. exists 1. split; [left|]. by vm_compute. }
      rewrite Heq in Hin. by apply not_elem_of_empty in Hin. }
    specialize (H Hne). vm_compute in H. discriminate H.
Qed.

Lemma mapSensivity_accumulates_witness :
  default 0 (mapSensivity smallTree 1 ∅ !! 2)
  = sum_list (map (specScore smallTree) (sensitiveBelow smallTree 1 2)).
Proof.
  apply (mapSensivity_accumulates smallTree 1 3).
  - apply treeb_sound. vm_compute. reflexivity.
  - vm_compute. lia.
  - apply (bool_decide_unpack _). vm_compute. exact I.
  - apply (bool_decide_unpack _). vm_compute. exact I.
Defined.

Example smallTree_sensitivity :
  mapSensivity smallTree 1 ∅ !! 1 = Some 2
  /\ mapSensivity smallTree 1 ∅ !! 3 = Some 2
  /\ mapSensivity smallTree 1 ∅ !! 4 = None.
Proof. vm_compute. auto. Qed.

(** ** The entry point *)

(** [trim] strips white space of one, two and three bytes at both ends
    and leaves the white space inside alone. *)
Example trim_strips_white_space :
  let nbsp := String (ascii_of_nat 194) (String (ascii_of_nat 160) EmptyString) in
  let lineSeparator :=
    String (ascii_of_nat 226) (String (ascii_of_nat 128) (String (ascii_of_nat 168) EmptyString)) in
  trim (" " ++ nbsp ++ "a b" ++ lineSeparator ++ nbsp ++ " ")%string = "a b"
  /\ trim ("a" ++ nbsp ++ "b")%string = ("a" ++ nbsp ++ "b")%string
  /\ trim "  " = EmptyString.
Proof. vm_compute. auto. Qed.

(** C7. When the reference is a markup string that parses to no node,
    [morph] throws at once: no frame is scheduled, and the document is
    exactly as the parser left it, the engine has touched nothing. *)
Theorem morph_empty_markup_throws
    (parseFragment : string -> M (list node)) (n : node) (markup : string)
    (o : Options) (w w' : World) :
  parseFragment (trim markup) w = Ok [] w' ->
  morph parseFragment n (inr markup) o w
  = Throw "The provided string did not contain any nodes." w'.
Proof.
  intros Hparse. unfold morph, bind. rewrite Hparse. reflexivity.
Qed.

Lemma morph_empty_markup_throws_witness :
  morph (fun _ => ret []) 1 (inr "  ") allHooks loneDiv
  = Throw "The provided string did not contain any nodes." loneDiv.
Proof.
  apply (morph_empty_markup_throws (fun _ => ret []) 1 "  " allHooks loneDiv loneDiv).
  reflexivity.
Defined.

(** ** The best-match child search *)

(** C3 fails on the code. Live [<ul><li id="a"><li id="b"></ul>] against
    [<ul><li id="b"><li id="a"></ul>], every hook supplied: at index 0 the
    before-morphed hook is called for the child [li#a] and the reference
    [li#b], the sibling [li#b] is found by its id, moved and morphed, and
    the function returns from inside the loop; the after-morphed hook for
    the original child is never called. *)
Theorem morphChildElement_id_match_skips_after_hook :
  let m := prepared allHooks swappedList 1 11 in
  exists w',
    morphChildElement m 5 (morphNode m 5) 2 12 1 swappedList = Ok tt w'
    /\ calls w' = [BeforeNodeMorphed 2 12; BeforeNodeMorphed 3 12; AfterNodeMorphed 3 12]
    /\ childNodesOf w' 1 = [3; 2].
Proof.
  eexists. split; [vm_compute; reflexivity|]. split; vm_compute; reflexivity.
Qed.

(** ** Textareas *)

(** C6 fails on the code. A live textarea whose first child is a text
    node gets its value synchronised, but the text child is left alone:
    the code looks for the first element child, which a text node never is. *)
Theorem morphAttributes_textarea_text_child_untouched :
  let m := prepared allHooks textareaPair 1 3 in
  exists w',
    morphAttributes m 1 3 textareaPair = Ok tt w'
    /\ valueOf w' 1 = "c"
    /\ head (childNodesOf w' 1) = Some 2
    /\ nodeValueOf w' 2 = Some "a"
    /\ calls w' = [BeforePropertyUpdated 1 PValue (VStr "c");
                   AfterPropertyUpdated 1 PValue (VStr "a")]
    /\ ops w' = [OpSetProperty 1 PValue (VStr "c")].
Proof.
  eexists. split; [vm_compute; reflexivity|]. repeat split; vm_compute; reflexivity.
Qed.

(** ** The clean-up loop *)

Lemma childNodesOf_nodes w w' n : nodes w = nodes w' -> childNodesOf w n = childNodesOf w' n.
Proof. unfold childNodesOf. by intros ->. Qed.

(** With a before-node-removed hook that always refuses, the clean-up
    loop makes no progress: whatever the budget, it is still running when
    the budget ends. *)
Lemma cleanup_never_ends (m : Morph) (element ref : node) (f : World -> node -> bool) :
  beforeNodeRemoved (options m) = Some f -> (forall w n, f w n = false) ->
  forall fuel w,
    length (childNodesOf w ref) < length (childNodesOf w element) ->
    exists w', morphChildNodes_while m fuel element ref w = Timeout w' /\ nodes w' = nodes w.
Proof.
  intros Hh Hf. induction fuel as [|k IH]; intros w Hlen.
  - exists w. split; reflexivity.
  - cbn [morphChildNodes_while]. unfold bind at 1. unfold read at 1.
    apply Nat.ltb_lt in Hlen as Hb. rewrite Hb.
    unfold bind at 1. unfold bind at 1. unfold read at 1.
    destruct (lastChildOf w element) as [c|].
    + unfold removeNode. rewrite Hh. unfold bind at 1. simpl. rewrite Hf. unfold ret.
      destruct (IH (log_call (BeforeNodeRemoved c) w)) as [w' [Hrun Hn]].
      { rewrite <- !(childNodesOf_nodes w) by reflexivity. exact Hlen. }
      exists w'. split; [exact Hrun|exact Hn].
    + unfold ret. destruct (IH w Hlen) as [w' [Hrun Hn]]. by exists w'.
Qed.

(** C10 fails on the code. Live [<h1><div></div></h1>], reference
    [<h1></h1>], and a before-node-removed hook that refuses: for every
    budget the child-list reconciliation is cut off inside the clean-up
    loop, with the excess child still in place. *)
Theorem morphChildNodes_cleanup_diverges_on_veto :
  let m := mkMorph vetoRemoval ∅ ∅ in
  forall fuel, exists w',
    morphChildNodes m fuel (morphNode m fuel) 1 3 excessChild = Timeout w'
    /\ childNodesOf w' 1 = [2].
Proof.
  intros m fuel. unfold morphChildNodes. destruct fuel as [|k].
  - exists excessChild. split; reflexivity.
  - unfold bind at 1. cbn [morphChildNodes_for]. unfold bind at 1. unfold read at 1.
    replace (0 <? length (childNodesOf excessChild 3)) with false by reflexivity.
    unfold ret.
    destruct (cleanup_never_ends m 1 3 (fun _ _ => false) eq_refl (fun _ _ => eq_refl)
                (S k) excessChild) as [w' [Hrun Hn]].
    { vm_compute. lia. }
    exists w'. split; [exact Hrun|].
    rewrite <- (childNodesOf_nodes excessChild w' 1) by (symmetry; exact Hn). reflexivity.
Qed.

(** ** The state of inputs *)






Lemma readNode_setField_eq {A : Type} (r : NodeData -> A) dflt w w' n p v d :
  nodes w' = <[n := setField p v d]> (nodes w) ->
  readNode r dflt w' n = r (setField p v d).
Proof. intros Hn. unfold readNode. by rewrite Hn, lookup_insert_eq. Qed.

Lemma getProperty_plain w n d p :
  nodes w !! n = Some d ->
  match p with PNodeValue | PTextContent => False | _ => True end ->
  getProperty w n p
  = match p with
    | PChecked => VBool (checked d) | PDisabled => VBool (disabled d)
    | PIndeterminate => VBool (indeterminate d) | PValue => VStr (value d)
    | _ => VBool (selected d)
    end.
Proof. intros Hd Hp. unfold getProperty. rewrite Hd. by destruct p. Qed.


Lemma bind_Ok {A B : Type} (c : M A) (f : A -> M B) w a w' :
  c w = Ok a w' -> bind c f w = f a w'.
Proof. unfold bind. by intros ->. Qed.

Lemma bind_read {A B : Type} (g : World -> A) (f : A -> M B) w :
  bind (read g) f w = f (g w) w.
Proof. reflexivity. Qed.

Lemma getProperty_readNode w x q :
  isPlain q -> getProperty w x q = readNode (plainProp q) VNull w x.
Proof. intros Hq. unfold getProperty, readNode. destruct (nodes w !! x); by destruct q. Qed.




(** ** Sensitivity-aware insertion *)

Lemma before_here x l : before x (x :: l) = None.
Proof. simpl. by rewrite bool_decide_eq_true_2. Qed.

Lemma before_cons x a b (l : list node) :
  a <> x -> before x (a :: b :: l) = if bool_decide (b = x) then Some a else before x (b :: l).
Proof. intros Ha. cbn [before]. by rewrite (bool_decide_eq_false_2 (a = x)). Qed.

Lemma before_middle x y (l1 l2 : list node) :
  x ∉ l1 -> x <> y -> before x (l1 ++ y :: x :: l2) = Some y.
Proof.
  induction l1 as [|a l1 IH]; intros Hx Hxy.
  - simpl app. rewrite before_cons by congruence. by rewrite bool_decide_eq_true_2.
  - apply not_elem_of_cons in Hx. destruct Hx as [Hxa Hx].
    destruct l1 as [|b l1].
    + simpl app. rewrite before_cons by congruence.
      rewrite (bool_decide_eq_false_2 (y = x)) by congruence.
      rewrite before_cons by congruence. by rewrite bool_decide_eq_true_2.
    + change ((a :: b :: l1) ++ y :: x :: l2) with (a :: b :: (l1 ++ y :: x :: l2)).
      rewrite before_cons by congruence.
      apply not_elem_of_cons in Hx as Hx'. destruct Hx' as [Hxb _].
      rewrite (bool_decide_eq_false_2 (b = x)) by congruence.
      change (b :: (l1 ++ y :: x :: l2)) with ((b :: l1) ++ y :: x :: l2). by apply IH.
Qed.

Lemma after_middle x (l1 l2 : list node) :
  x ∉ l1 -> after x (l1 ++ x :: l2) = head l2.
Proof.
  induction l1 as [|a l1 IH]; intros Hx.
  - simpl. by rewrite bool_decide_eq_true_2.
  - apply not_elem_of_cons in Hx. destruct Hx as [Hxa Hx].
    simpl. rewrite bool_decide_eq_false_2 by congruence. by apply IH.
Qed.

Lemma filter_out_notin x (l : list node) :
  x ∉ l -> List.filter (fun y => negb (bool_decide (y = x))) l = l.
Proof.
  induction l as [|a l IH]; intros Hx; [reflexivity|].
  apply not_elem_of_cons in Hx. destruct Hx as [Hxa Hx].
  simpl. rewrite bool_decide_eq_false_2 by congruence. simpl. by rewrite IH.
Qed.

Lemma filter_out_middle x (l1 l2 : list node) :
  x ∉ l1 -> x ∉ l2 ->
  List.filter (fun y => negb (bool_decide (y = x))) (l1 ++ x :: l2) = l1 ++ l2.
Proof.
  intros H1 H2. rewrite List.filter_app. simpl.
  rewrite bool_decide_eq_true_2 by reflexivity. simpl.
  by rewrite !filter_out_notin.
Qed.

Lemma insertAt_middle x b (l1 l2 : list node) :
  b ∉ l1 -> insertAt x b (l1 ++ b :: l2) = l1 ++ x :: b :: l2.
Proof.
  induction l1 as [|a l1 IH]; intros Hb.
  - simpl. by rewrite bool_decide_eq_true_2.
  - apply not_elem_of_cons in Hb. destruct Hb as [Hba Hb].
    simpl. rewrite bool_decide_eq_false_2 by congruence. by rewrite IH.
Qed.

(** *** The store after [updateNode] *)

Lemma nodes_updateNode n f w : nodes (updateNode n f w) = alter f n (nodes w).
Proof. reflexivity. Qed.

Lemma childNodesOf_updateNode_eq n f w :
  childNodesOf (updateNode n f w) n
  = match nodes w !! n with Some d => childNodes (f d) | None => [] end.
Proof.
  unfold childNodesOf. rewrite nodes_updateNode, lookup_alter_eq.
  by destruct (nodes w !! n).
Qed.

Lemma childNodesOf_updateNode_ne n f w x :
  n <> x -> childNodesOf (updateNode n f w) x = childNodesOf w x.
Proof. intros Hne. unfold childNodesOf. by rewrite nodes_updateNode, lookup_alter_ne. Qed.

Lemma parentNodeOf_updateNode_ne n f w x :
  n <> x -> parentNodeOf (updateNode n f w) x = parentNodeOf w x.
Proof. intros Hne. unfold parentNodeOf. by rewrite nodes_updateNode, lookup_alter_ne. Qed.

Lemma parentNodeOf_updateNode_eq n f w :
  parentNodeOf (updateNode n f w) n
  = match nodes w !! n with Some d => parentNode (f d) | None => None end.
Proof.
  unfold parentNodeOf. rewrite nodes_updateNode, lookup_alter_eq.
  by destruct (nodes w !! n).
Qed.

Lemma nodes_detach x w :
  nodes (detach x w)
  = match parentNodeOf w x with
    | None => nodes w
    | Some p =>
        alter (fun d => with_parentNode d None) x
          (alter (fun d => with_childNodes d
                    (List.filter (fun y => negb (bool_decide (y = x))) (childNodes d))) p
             (nodes w))
    end.
Proof.
  unfold detach. destruct (parentNodeOf w x) as [p|]; [|reflexivity].
  destruct (activeElement w) as [a|]; [|reflexivity].
  by destruct (bool_decide (a ∈ x :: descendants w x)).
Qed.

Lemma ops_detach x w : ops (detach x w) = ops w.
Proof.
  unfold detach. destruct (parentNodeOf w x) as [p|]; [|reflexivity].
  destruct (activeElement w) as [a|]; [|reflexivity].
  by destruct (bool_decide (a ∈ x :: descendants w x)).
Qed.

Lemma calls_detach x w : calls (detach x w) = calls w.
Proof.
  unfold detach. destruct (parentNodeOf w x) as [p|]; [|reflexivity].
  destruct (activeElement w) as [a|]; [|reflexivity].
  by destruct (bool_decide (a ∈ x :: descendants w x)).
Qed.

Lemma elem_of_insertAt x b (l : list node) y : y ∈ insertAt x b l <-> y = x \/ y ∈ l.
Proof.
  induction l as [|a l IH]; simpl.
  - rewrite list_elem_of_singleton, elem_of_nil. tauto.
  - case_bool_decide; rewrite !elem_of_cons; [tauto|]. rewrite IH. tauto.
Qed.

Lemma NoDup_insertAt x b (l : list node) : x ∉ l -> NoDup l -> NoDup (insertAt x b l).
Proof.
  induction l as [|a l IH]; intros Hx Hnd; simpl.
  - apply NoDup_singleton.
  - case_bool_decide; [by apply NoDup_cons|].
    apply not_elem_of_cons in Hx. destruct Hx as [Hxa Hx].
    apply NoDup_cons in Hnd. destruct Hnd as [Ha Hnd].
    apply NoDup_cons. split; [|by apply IH].
    rewrite elem_of_insertAt. intros [->|Hin]; [congruence|contradiction].
Qed.

Lemma elem_of_placeBefore x b (l : list node) y : y ∈ placeBefore x b l <-> y = x \/ y ∈ l.
Proof.
  destruct b as [b'|]; simpl; [apply elem_of_insertAt|].
  rewrite elem_of_app, list_elem_of_singleton. tauto.
Qed.

Lemma NoDup_placeBefore x b (l : list node) : x ∉ l -> NoDup l -> NoDup (placeBefore x b l).
Proof.
  destruct b as [b'|]; simpl; [apply NoDup_insertAt|].
  intros Hx Hnd. apply NoDup_app. split; [exact Hnd|]. split; [|apply NoDup_singleton].
  intros y Hy Hyx. apply list_elem_of_singleton in Hyx. by subst y.
Qed.

Lemma nodeTypeOf_updateNode n f w y :
  (forall d, nodeType (f d) = nodeType d) ->
  nodeTypeOf (updateNode n f w) y = nodeTypeOf w y.
Proof.
  intros Hf. unfold nodeTypeOf. rewrite nodes_updateNode.
  destruct (decide (n = y)) as [->|Hne].
  - rewrite lookup_alter_eq. destruct (nodes w !! y); simpl; [apply Hf|reflexivity].
  - by rewrite lookup_alter_ne.
Qed.

(** Moving a child of [parent] to another place among its siblings. *)
Lemma hostInsertBefore_sibling w parent x b (l1 l2 : list node) :
  siblingsOf w parent (l1 ++ x :: l2) ->
  (forall b', b = Some b' -> b' ∈ l1 ++ l2) ->
  exists w',
    hostInsertBefore parent x b w = Ok tt w'
    /\ siblingsOf w' parent (placeBefore x b (l1 ++ l2))
    /\ ops w' = ops w ++ [OpInsertBefore parent x b]
    /\ calls w' = calls w
    /\ (forall y, nodeTypeOf w' y = nodeTypeOf w y).
Proof.
  intros [Hch [Hnd [Hpar Hptr]]] Hb.
  assert (Hx1 : x ∉ l1 /\ x ∉ l2).
  { apply NoDup_app in Hnd. destruct Hnd as [_ [Hdis Hnd2]].
    apply NoDup_cons in Hnd2. destruct Hnd2 as [Hx2 _]. split; [|exact Hx2].
    intros Hin. apply (Hdis x Hin). left. }
  destruct Hx1 as [Hx1 Hx2].
  assert (Hxin : x ∈ l1 ++ x :: l2) by (apply elem_of_app; right; left).
  assert (Hpx : parentNodeOf w x = Some parent) by (by apply Hptr).
  assert (Hne : parent <> x) by (intros ->; contradiction).
  assert (Hnd' : NoDup (l1 ++ l2)).
  { apply NoDup_app in Hnd. destruct Hnd as [Hnd1 [Hdis Hnd2]].
    apply NoDup_cons in Hnd2. destruct Hnd2 as [_ Hnd2].
    apply NoDup_app. split; [exact Hnd1|]. split; [|exact Hnd2].
    intros y Hy Hy2. apply (Hdis y Hy). by right. }
  assert (Hxn : x ∉ l1 ++ l2) by (rewrite elem_of_app; tauto).
  destruct (nodes w !! parent) as [dp|] eqn:Hdp.
  2: { unfold childNodesOf in Hch. rewrite Hdp in Hch. by destruct l1. }
  destruct (nodes w !! x) as [dx|] eqn:Hdx.
  2: { unfold parentNodeOf in Hpx. by rewrite Hdx in Hpx. }
  assert (Hcd : childNodes dp = l1 ++ x :: l2).
  { unfold childNodesOf in Hch. by rewrite Hdp in Hch. }
  (* the host call comes down to one [attach] *)
  assert (Hrun : hostInsertBefore parent x b w
                 = Ok tt (attach parent x b (log_op (OpInsertBefore parent x b) w))).
  { unfold hostInsertBefore. destruct b as [b'|]; [|reflexivity].
    assert (Hb' : b' ∈ l1 ++ l2) by (by apply Hb).
    rewrite bool_decide_eq_true_2.
    2: { apply Hptr. apply elem_of_app in Hb'. apply elem_of_app.
         destruct Hb' as [?|?]; [by left|right; by right]. }
    rewrite bool_decide_eq_false_2; [reflexivity|]. intros ->. contradiction. }
  eexists. split; [exact Hrun|].
  set (w0 := log_op (OpInsertBefore parent x b) w).
  assert (Hn : nodes (attach parent x b w0)
               = <[x := with_parentNode dx (Some parent)]>
                   (<[parent := with_childNodes dp (placeBefore x b (l1 ++ l2))]> (nodes w))).
  { unfold attach. rewrite !nodes_updateNode, nodes_detach.
    change (parentNodeOf w0 x) with (parentNodeOf w x). rewrite Hpx.
    change (nodes w0) with (nodes w).
    apply map_eq. intros y.
    destruct (decide (x = y)) as [<-|Hxy].
    - rewrite lookup_alter_eq, lookup_alter_ne, lookup_alter_eq, lookup_alter_ne by congruence.
      rewrite Hdx, lookup_insert_eq. simpl. by destruct dx.
    - rewrite lookup_alter_ne, lookup_insert_ne by exact Hxy.
      destruct (decide (parent = y)) as [<-|Hpy].
      + rewrite lookup_alter_eq, lookup_alter_ne, lookup_alter_eq, lookup_insert_eq by congruence.
        rewrite Hdp. simpl. rewrite Hcd, filter_out_middle by assumption.
        destruct dp; simpl. destruct b; reflexivity.
      + rewrite !lookup_alter_ne, lookup_insert_ne by congruence. reflexivity. }
  split; [|split; [|split]].
  - unfold siblingsOf, childNodesOf, parentNodeOf. rewrite Hn.
    rewrite lookup_insert_ne, lookup_insert_eq by congruence. simpl.
    split; [reflexivity|]. split; [by apply NoDup_placeBefore|]. split.
    + rewrite elem_of_placeBefore. intros [Heq|Hin]; [congruence|].
      apply Hpar. apply elem_of_app in Hin. apply elem_of_app.
      destruct Hin as [?|?]; [by left|right; by right].
    + intros c Hc. apply elem_of_placeBefore in Hc.
      destruct (decide (x = c)) as [<-|Hxc]; [by rewrite lookup_insert_eq|].
      destruct Hc as [Heq|Hc]; [congruence|].
      assert (Hc' : c ∈ l1 ++ x :: l2).
      { apply elem_of_app in Hc. apply elem_of_app.
        destruct Hc as [?|?]; [by left|right; by right]. }
      rewrite lookup_insert_ne by exact Hxc.
      rewrite lookup_insert_ne by (intros ->; contradiction).
      specialize (Hptr c Hc'). unfold parentNodeOf in Hptr. exact Hptr.
  - unfold attach. simpl. by rewrite ops_detach.
  - unfold attach. simpl. by rewrite calls_detach.
  - intros y. unfold nodeTypeOf. rewrite Hn.
    destruct (decide (x = y)) as [<-|Hxy]; [by rewrite lookup_insert_eq, Hdx|].
    rewrite lookup_insert_ne by exact Hxy.
    destruct (decide (parent = y)) as [<-|Hpy]; [by rewrite lookup_insert_eq, Hdp|].
    by rewrite lookup_insert_ne.
Qed.

Lemma elem_of_rev (x : node) (l : list node) : x ∈ rev l <-> x ∈ l.
Proof. rewrite !list_elem_of_In. symmetry. apply in_rev. Qed.

Lemma before_rev_head n (l post : list node) :
  n ∉ l -> before n (rev l ++ n :: post) = head l.
Proof.
  intros Hn. destruct l as [|y l]; [apply before_here|].
  apply not_elem_of_cons in Hn. destruct Hn as [Hny Hn].
  simpl rev. rewrite <- app_assoc. simpl app.
  apply before_middle; [|exact Hny]. by rewrite elem_of_rev.
Qed.

Lemma siblingsOf_middle w parent (l1 l2 : list node) n :
  siblingsOf w parent (l1 ++ n :: l2) ->
  parentNodeOf w n = Some parent /\ n ∉ l1 /\ n ∉ l2.
Proof.
  intros [Hch [Hnd [Hpar Hptr]]]. split.
  - apply Hptr. apply elem_of_app. right. left.
  - apply NoDup_app in Hnd. destruct Hnd as [_ [Hdis Hnd2]].
    apply NoDup_cons in Hnd2. destruct Hnd2 as [Hx2 _]. split; [|exact Hx2].
    intros Hin. apply (Hdis n Hin). left.
Qed.

(** The loop of [#insertBefore] does what the backward scan says. *)
Lemma insertBefore_while_scan (m : Morph) parent n ip s :
  forall (preceding post : list node) fuel w,
    siblingsOf w parent (rev preceding ++ n :: post) ->
    length preceding < fuel ->
    let scan := scanBack (fun y => default 0 (sensivityMap m !! y)) s ip preceding in
    exists w',
      insertBefore_while m fuel parent n ip s (head preceding) w = Ok (snd scan) w'
      /\ siblingsOf w' parent
           (rev (drop (length (fst scan)) preceding) ++ n :: rev (fst scan) ++ post)
      /\ ops w' = ops w ++ relocationOps parent (fst scan) (head post)
      /\ calls w' = calls w
      /\ (forall y, nodeTypeOf w' y = nodeTypeOf w y).
Proof.
  induction preceding as [|x rest IH]; intros post fuel w Hsib Hfuel scan.
  { destruct fuel as [|k]; [simpl in Hfuel; lia|].
    exists w. subst scan. simpl. rewrite app_nil_r.
    split; [reflexivity|]. split; [exact Hsib|]. by repeat split. }
  destruct fuel as [|k]; [simpl in Hfuel; lia|].
  subst scan. cbn [head insertBefore_while scanBack].
  destruct (default 0 (sensivityMap m !! x) <? s) eqn:Hlow.
  2: { exists w. simpl. rewrite app_nil_r.
       split; [reflexivity|]. split; [exact Hsib|]. by repeat split. }
  destruct (siblingsOf_middle _ _ _ _ _ Hsib) as [Hpn [Hn1 Hn2]].
  assert (Hlist : rev (x :: rest) ++ n :: post = rev rest ++ x :: n :: post).
  { simpl rev. by rewrite <- app_assoc. }
  rewrite bind_read.
  assert (Hnext : nextSiblingOf w n = head post).
  { unfold nextSiblingOf. rewrite Hpn. destruct Hsib as [Hch _]. rewrite Hch.
    by apply after_middle. }
  rewrite Hnext.
  rewrite Hlist in Hsib.
  destruct (hostInsertBefore_sibling w parent x (head post) (rev rest) (n :: post) Hsib)
    as [w1 [Hrun [Hsib1 [Hops1 [Hcalls1 Htypes1]]]]].
  { intros b' Hb'. apply elem_of_app. right. right. destruct post; simpl in Hb'; [discriminate|].
    injection Hb' as ->. left. }
  rewrite (bind_Ok _ _ w tt w1 Hrun).
  assert (Hplace : placeBefore x (head post) (rev rest ++ n :: post)
                   = rev rest ++ n :: x :: post).
  { destruct post as [|b' post']; simpl.
    - by rewrite <- app_assoc.
    - change (rev rest ++ n :: b' :: post') with (rev rest ++ [n] ++ b' :: post').
      rewrite app_assoc, insertAt_middle; [by rewrite <- app_assoc|].
      destruct Hsib as [_ [Hnd _]].
      apply NoDup_app in Hnd. destruct Hnd as [_ [Hdis Hnd2]].
      apply NoDup_cons in Hnd2. destruct Hnd2 as [_ Hnd2].
      apply NoDup_cons in Hnd2. destruct Hnd2 as [Hnb Hnd2].
      apply NoDup_cons in Hnd2. destruct Hnd2 as [Hb _].
      rewrite elem_of_app, list_elem_of_singleton. intros [Hin | ->].
      + apply (Hdis b' Hin). right. right. left.
      + apply Hnb. left. }
  rewrite Hplace in Hsib1.
  destruct (decide (x = ip)) as [Hxi|Hxi].
  { rewrite !(bool_decide_eq_true_2 _ Hxi). exists w1. simpl.
    split; [reflexivity|]. split; [by rewrite drop_0|].
    split; [by rewrite Hops1|]. split; assumption. }
  rewrite !(bool_decide_eq_false_2 _ Hxi). rewrite bind_read.
  assert (Hn1' : n ∉ rest).
  { intros Hin. apply Hn1. rewrite elem_of_rev. by right. }
  assert (Hprev : previousSiblingOf w1 n = head rest).
  { unfold previousSiblingOf.
    destruct (siblingsOf_middle _ _ _ _ _ Hsib1) as [Hpn1 _]. rewrite Hpn1.
    destruct Hsib1 as [Hch1 _]. rewrite Hch1. by apply before_rev_head. }
  rewrite Hprev.
  destruct (IH (x :: post) k w1 Hsib1 ltac:(simpl in Hfuel; lia))
    as [w2 [Hrun2 [Hsib2 [Hops2 [Hcalls2 Htypes2]]]]].
  destruct (scanBack (fun y => default 0 (sensivityMap m !! y)) s ip rest) as [r hit] eqn:Hscan.
  simpl in *. exists w2. split; [exact Hrun2|]. split.
  { by rewrite <- app_assoc. }
  split; [rewrite Hops2, Hops1, <- app_assoc; reflexivity|].
  split; [congruence|]. intros y. by rewrite Htypes2.
Qed.

Lemma scanBack_prefix sens s ip (l : list node) :
  fst (scanBack sens s ip l) = take (length (fst (scanBack sens s ip l))) l.
Proof.
  induction l as [|x rest IH]; [reflexivity|].
  simpl. destruct (sens x <? s); [|reflexivity].
  case_bool_decide; [reflexivity|].
  destruct (scanBack sens s ip rest) as [r hit]. simpl in *. by rewrite <- IH.
Qed.

Lemma scanBack_lower sens s ip (l : list node) :
  Forall (fun x => sens x < s) (fst (scanBack sens s ip l)).
Proof.
  induction l as [|x rest IH]; [constructor|].
  simpl. destruct (sens x <? s) eqn:Hlow; [|constructor].
  apply Nat.ltb_lt in Hlow.
  case_bool_decide; [by repeat constructor|].
  destruct (scanBack sens s ip rest) as [r hit]. simpl in *. by constructor.
Qed.

(** C4, as the code has it. Inserting a sensitive element before another
    of its siblings: the backward scan relocates, one by one, the
    preceding siblings of strictly lower sensitivity, each to just after
    the node, and stops at a sibling that is not lower, at the start of
    the list, or once it has relocated the insertion point. In the last
    case the function returns there: the node is not moved and no
    ordinary insert is made. Otherwise the ordinary insert follows. *)
Theorem insertBefore_relocates (m : Morph) (parent n insertionPoint : node)
    (pre post : list node) (fuel : nat) (w : World) :
  siblingsOf w parent (pre ++ n :: post) ->
  isElement w n = true ->
  0 < default 0 (sensivityMap m !! n) ->
  n <> insertionPoint ->
  insertionPoint ∈ pre ++ post ->
  length pre < fuel ->
  let sens := fun y => default 0 (sensivityMap m !! y) in
  let scan := scanBack sens (sens n) insertionPoint (rev pre) in
  let kept := rev (drop (length (fst scan)) (rev pre)) in
  Forall (fun x => sens x < sens n) (fst scan)
  /\ exists w',
       insertBefore m fuel parent n insertionPoint w = Ok tt w'
       /\ (if snd scan then
             childNodesOf w' parent = kept ++ n :: rev (fst scan) ++ post
             /\ ops w' = ops w ++ relocationOps parent (fst scan) (head post)
           else
             childNodesOf w' parent
             = insertAt n insertionPoint (kept ++ rev (fst scan) ++ post)
             /\ ops w' = ops w ++ relocationOps parent (fst scan) (head post)
                         ++ [OpInsertBefore parent n (Some insertionPoint)]).
Proof.
  intros Hsib Hel Hs Hne Hip Hfuel sens scan kept.
  split; [apply scanBack_lower|].
  unfold insertBefore. rewrite (bool_decide_eq_false_2 _ Hne).
  rewrite bind_read, Hel.
  apply Nat.ltb_lt in Hs as Hs'. rewrite Hs'.
  destruct (siblingsOf_middle _ _ _ _ _ Hsib) as [Hpn [Hn1 Hn2]].
  rewrite <- (rev_involutive pre) in Hsib.
  assert (Hprev : previousSiblingOf w n = head (rev pre)).
  { unfold previousSiblingOf. rewrite Hpn. destruct Hsib as [Hch _]. rewrite Hch.
    apply before_rev_head. by rewrite elem_of_rev. }
  destruct (insertBefore_while_scan m parent n insertionPoint (sens n) (rev pre) post fuel w
              Hsib ltac:(by rewrite length_rev))
    as [w1 [Hrun [Hsib1 [Hops1 [Hcalls1 Htypes1]]]]].
  fold sens in Hrun, Hsib1, Hops1. fold scan in Hrun, Hsib1, Hops1. fold kept in Hsib1.
  rewrite (bind_Ok _ _ w (snd scan) w1).
  2: { rewrite bind_read, Hprev. exact Hrun. }
  destruct (snd scan) eqn:Hhit.
  - exists w1. split; [reflexivity|]. split; [apply Hsib1|exact Hops1].
  - assert (Hip' : insertionPoint ∈ kept ++ rev (fst scan) ++ post).
    { apply elem_of_app in Hip. rewrite app_assoc. apply elem_of_app.
      destruct Hip as [Hip|Hip]; [left|by right].
      unfold kept. rewrite <- rev_app_distr, elem_of_rev.
      pose proof (scanBack_prefix sens (sens n) insertionPoint (rev pre)) as Hpre.
      fold scan in Hpre. rewrite Hpre at 1. rewrite take_drop. by rewrite elem_of_rev. }
    destruct (hostInsertBefore_sibling w1 parent n (Some insertionPoint) kept
                (rev (fst scan) ++ post) Hsib1) as [w2 [Hrun2 [Hsib2 [Hops2 _]]]].
    { intros b' Hb'. injection Hb' as <-. exact Hip'. }
    exists w2. split; [exact Hrun2|]. split; [apply Hsib2|].
    by rewrite Hops2, Hops1, <- app_assoc.
Qed.

Lemma insertBefore_relocates_witness :
  let m := mkMorph noHooks ∅ (mapSensivity twoInputs 1 ∅) in
  let sens := fun y => default 0 (sensivityMap m !! y) in
  let scan := scanBack sens (sens 5) 2 (rev [2; 3; 4]) in
  let kept := rev (drop (length (fst scan)) (rev [2; 3; 4])) in
  Forall (fun x => sens x < sens 5) (fst scan)
  /\ exists w',
       insertBefore m 4 1 5 2 twoInputs = Ok tt w'
       /\ (if snd scan then
             childNodesOf w' 1 = kept ++ 5 :: rev (fst scan) ++ []
             /\ ops w' = ops twoInputs ++ relocationOps 1 (fst scan) (head [])
           else
             childNodesOf w' 1 = insertAt 5 2 (kept ++ rev (fst scan) ++ [])
             /\ ops w' = ops twoInputs ++ relocationOps 1 (fst scan) (head [])
                         ++ [OpInsertBefore 1 5 (Some 2)]).
Proof.
  apply (insertBefore_relocates (mkMorph noHooks ∅ (mapSensivity twoInputs 1 ∅))
           1 5 2 [2; 3; 4] [] 4 twoInputs).
  - unfold siblingsOf. split; [vm_compute; reflexivity|].
    split; [apply (bool_decide_unpack _); vm_compute; exact I|].
    split; [apply (bool_decide_unpack _); vm_compute; exact I|].
    intros c Hc. simpl in Hc.
    repeat (apply elem_of_cons in Hc; destruct Hc as [->|Hc]; [vm_compute; reflexivity|]).
    by apply elem_of_nil in Hc.
  - vm_compute. reflexivity.
  - vm_compute. lia.
  - lia.
  - apply (bool_decide_unpack _). vm_compute. exact I.
  - simpl. lia.
Defined.

Example twoInputs_insert :
  let m := mkMorph noHooks ∅ (mapSensivity twoInputs 1 ∅) in
  exists w', insertBefore m 4 1 5 2 twoInputs = Ok tt w'
    /\ childNodesOf w' 1 = [5; 2; 3; 4]
    /\ ops w' = [OpInsertBefore 1 4 None; OpInsertBefore 1 5 (Some 2)].
Proof. eexists. split; [vm_compute; reflexivity|]. split; vm_compute; reflexivity. Qed.

(** C4 as written fails: with [<div><p></p><input></div>], moving the
    input before the paragraph relocates the paragraph behind the input
    and returns; the only host call is that relocation, the ordinary
    insert of the input is never made. *)
Lemma insertBefore_returns_without_insert :
  let m := mkMorph noHooks ∅ (mapSensivity besideInput 1 ∅) in
  (exists w', insertBefore m 3 1 3 2 besideInput = Ok tt w'
     /\ ops w' = [OpInsertBefore 1 2 None] /\ childNodesOf w' 1 = [3; 2])
  /\ ~ insertEndsWithOrdinaryInsert m 1 3 2 besideInput.
Proof.
  split.
  - eexists. split; [vm_compute; reflexivity|]. split; vm_compute; reflexivity.
  - intros H. unfold insertEndsWithOrdinaryInsert in H.
    assert (Hs : 0 < default 0 (mapSensivity besideInput 1 ∅ !! 3)) by (vm_compute; lia).
    specialize (H Hs 3 _ eq_refl). vm_compute in H. discriminate H.
Qed.

(** ** Idempotence *)

(** C8 as written fails: a head that holds the same element twice loses
    the second copy when morphed against an equal reference, because the
    reference's children are keyed by their markup. *)
Lemma morph_equal_head_duplicate_removed :
  sameTree 2 duplicateHead 1 11
  /\ (exists w', morphThenFrame 5 allHooks 1 11 duplicateHead = Ok tt w'
        /\ childNodesOf w' 1 = [2]
        /\ calls w' = [BeforeNodeMorphed 1 11; BeforeNodeRemoved 3; AfterNodeRemoved 3;
                       AfterNodeMorphed 1 11]
        /\ ops w' = [OpRemove 3])
  /\ ~ idempotentAsSpecified allHooks duplicateHead 1 11.
Proof.
  assert (Hsame : sameTree 2 duplicateHead 1 11).
  { simpl. eexists _, _. split; [vm_compute; reflexivity|]. split; [vm_compute; reflexivity|].
    split; [reflexivity|].
    repeat (constructor; [eexists _, _; split; [vm_compute; reflexivity|];
                          split; [vm_compute; reflexivity|]; split; [reflexivity|constructor]|]).
    constructor. }
  split; [exact Hsame|]. split.
  - eexists. split; [vm_compute; reflexivity|]. repeat split; vm_compute; reflexivity.
  - intros H. destruct (H (ex_intro _ 2 Hsame) 5 _ eq_refl) as [_ Hcalls].
    vm_compute in Hcalls. inversion Hcalls as [|? ? _ Hrest]. inversion Hrest as [|? ? Hbad _].
    exact Hbad.
Qed.

(** *** Silent computations *)

Lemma quiet_ret {A : Type} w (a : A) (P : A -> Prop) : P a -> quiet w (ret a) P.
Proof.
  intros HP cs. exists a, []. rewrite app_nil_r. split; [reflexivity|]. split; [constructor|exact HP].
Qed.

Lemma quiet_bind {A B : Type} w (c : M A) (f : A -> M B) (P : A -> Prop) (Q : B -> Prop) :
  quiet w c P -> (forall a, P a -> quiet w (f a) Q) -> quiet w (bind c f) Q.
Proof.
  intros Hc Hf cs. destruct (Hc cs) as [a [cs1 [Hrun [Hcs1 HP]]]].
  destruct (Hf a HP (cs ++ cs1)) as [b [cs2 [Hrun2 [Hcs2 HQ]]]].
  exists b, (cs1 ++ cs2). unfold bind. rewrite Hrun, Hrun2, app_assoc.
  split; [reflexivity|]. split; [|exact HQ]. apply Forall_app. by split.
Qed.

Lemma quiet_read {A : Type} w (f : World -> A) :
  (forall cs, f (withCalls w cs) = f w) -> quiet w (read f) (fun a => a = f w).
Proof.
  intros Hf cs. exists (f w), []. rewrite app_nil_r. unfold read. rewrite Hf.
  split; [reflexivity|]. split; [constructor|reflexivity].
Qed.

Lemma quiet_weaken {A : Type} w (c : M A) (P Q : A -> Prop) :
  quiet w c P -> (forall a, P a -> Q a) -> quiet w c Q.
Proof.
  intros Hc HPQ cs. destruct (Hc cs) as [a [cs1 [Hrun [Hcs1 HP]]]].
  exists a, cs1. split; [exact Hrun|]. split; [exact Hcs1|by apply HPQ].
Qed.

Lemma quiet_callBefore w h c :
  isMorphedCall c -> quiet w (callBefore h c) (fun _ => True).
Proof.
  intros Hc cs. destruct h as [f|]; simpl.
  - exists (f (withCalls w cs)), [c]. split; [reflexivity|]. split; [by constructor|exact I].
  - exists true, []. rewrite app_nil_r. split; [reflexivity|]. split; [constructor|exact I].
Qed.

Lemma quiet_callAfter w present c :
  isMorphedCall c -> quiet w (callAfter present c) (fun _ => True).
Proof.
  intros Hc cs. destruct present; simpl.
  - exists tt, [c]. split; [reflexivity|]. split; [by constructor|exact I].
  - exists tt, []. rewrite app_nil_r. split; [reflexivity|]. split; [constructor|exact I].
Qed.

(** Reading a value that does not depend on the call log, then going on. *)
Ltac qread :=
  eapply quiet_bind;
  [ apply quiet_read; intros; reflexivity
  | let a := fresh "a" in let Ha := fresh "Ha" in
    intros a Ha; cbv beta in Ha; subst a; cbv beta ].

Lemma descendantsF_withCalls k w cs n :
  descendantsF k (withCalls w cs) n = descendantsF k w n.
Proof.
  revert n. induction k as [|k IH]; intros n; [reflexivity|].
  simpl. change (childNodesOf (withCalls w cs) n) with (childNodesOf w n).
  induction (childNodesOf w n) as [|c l IHl]; [reflexivity|].
  simpl. by rewrite IH, IHl.
Qed.

Lemma descendants_withCalls w cs n : descendants (withCalls w cs) n = descendants w n.
Proof. unfold descendants. apply descendantsF_withCalls. Qed.

Lemma serializeF_withCalls k w cs raw n :
  serializeF k (withCalls w cs) raw n = serializeF k w raw n.
Proof.
  revert raw n. induction k as [|k IH]; intros raw n; [reflexivity|].
  cbn [serializeF].
  change (nodeTypeOf (withCalls w cs) n) with (nodeTypeOf w n).
  change (localNameOf (withCalls w cs) n) with (localNameOf w n).
  change (attributesOf (withCalls w cs) n) with (attributesOf w n).
  change (nodeValueOf (withCalls w cs) n) with (nodeValueOf w n).
  change (childNodesOf (withCalls w cs) n) with (childNodesOf w n).
  rewrite (map_ext (serializeF k (withCalls w cs) (bool_decide (localNameOf w n ∈ rawTextElements)))
             (serializeF k w (bool_decide (localNameOf w n ∈ rawTextElements))))
    by (intros c; apply IH).
  reflexivity.
Qed.

Lemma outerHTML_withCalls w cs n : outerHTML (withCalls w cs) n = outerHTML w n.
Proof. unfold outerHTML. apply serializeF_withCalls. Qed.

Lemma textContentOf_withCalls w cs n : textContentOf (withCalls w cs) n = textContentOf w n.
Proof.
  unfold textContentOf.
  change (nodeTypeOf (withCalls w cs) n) with (nodeTypeOf w n).
  change (isCharacterData (withCalls w cs) n) with (isCharacterData w n).
  change (nodeValueOf (withCalls w cs) n) with (nodeValueOf w n).
  rewrite descendants_withCalls. reflexivity.
Qed.

Lemma getProperty_withCalls w cs n p : getProperty (withCalls w cs) n p = getProperty w n p.
Proof.
  unfold getProperty. change (nodes (withCalls w cs)) with (nodes w).
  destruct (nodes w !! n); [|reflexivity]. destruct p; try reflexivity.
  by rewrite textContentOf_withCalls.
Qed.

Lemma updateProperty_quiet (m : Morph) w n p v :
  getProperty w n p = v -> quiet w (updateProperty m n p v) (fun _ => True).
Proof.
  intros Hv. unfold updateProperty.
  eapply quiet_bind; [apply quiet_read; intros; apply getProperty_withCalls|].
  intros a ->. rewrite bool_decide_eq_false_2 by (intros H; apply H; exact Hv).
  apply quiet_ret; exact I.
Qed.

(** *** Attributes of equal elements *)

Lemma assoc_is_Some a v (l : list (string * string)) : (a, v) ∈ l -> is_Some (assoc a l).
Proof.
  induction l as [|[a' v'] l IH]; intros Hin; [by apply elem_of_nil in Hin|].
  simpl. case_bool_decide; [eauto|].
  apply elem_of_cons in Hin. destruct Hin as [Heq|Hin]; [congruence|by apply IH].
Qed.

Lemma assoc_unique a v (l : list (string * string)) :
  NoDup (map fst l) -> (a, v) ∈ l -> assoc a l = Some v.
Proof.
  induction l as [|[a' v'] l IH]; intros Hnd Hin; [by apply elem_of_nil in Hin|].
  simpl in *. apply NoDup_cons in Hnd. destruct Hnd as [Ha' Hnd].
  apply elem_of_cons in Hin. destruct Hin as [Heq|Hin].
  - injection Heq as -> ->. by rewrite bool_decide_eq_true_2.
  - rewrite bool_decide_eq_false_2; [by apply IH|].
    intros ->. apply Ha'. apply list_elem_of_In, in_map_iff. exists (a, v).
    split; [reflexivity|]. by apply list_elem_of_In.
Qed.

Lemma sameData_fields d dr :
  sameData d dr ->
  nodeType d = nodeType dr /\ localName d = localName dr /\ attributes d = attributes dr
  /\ nodeValue d = nodeValue dr /\ (forall p, plainProp p d = plainProp p dr).
Proof.
  unfold sameData. destruct d, dr. simpl. intros H. injection H as -> -> -> -> -> -> -> ->.
  intros. subst. repeat split; try (intros p; by destruct p).
Qed.

Lemma morphAttributes_excess_quiet (m : Morph) w n r :
  (forall a v, (a, v) ∈ attributesOf w n -> hasAttribute w r a = true) ->
  forall fuel i, length (attributesOf w n) - i < fuel ->
    quiet w (morphAttributes_excess m fuel n r i) (fun _ => True).
Proof.
  intros Hhas. induction fuel as [|k IH]; intros i Hfuel; [lia|].
  cbn [morphAttributes_excess]. qread.
  destruct (attributesOf w n !! i) as [[a v]|] eqn:Hi; [|apply quiet_ret; exact I].
  qread. rewrite (Hhas a v) by (eapply list_elem_of_lookup_2; exact Hi). simpl.
  eapply quiet_bind; [apply (quiet_ret _ _ (fun _ => True) I)|]. intros _ _.
  apply IH. apply lookup_lt_Some in Hi. lia.
Qed.

Lemma morphAttributes_copy_quiet (m : Morph) w n r :
  (forall a v, (a, v) ∈ attributesOf w r -> getAttribute w n a = Some v) ->
  forall fuel i, length (attributesOf w r) - i < fuel ->
    quiet w (morphAttributes_copy m fuel n r i) (fun _ => True).
Proof.
  intros Hget. induction fuel as [|k IH]; intros i Hfuel; [lia|].
  cbn [morphAttributes_copy]. qread.
  destruct (attributesOf w r !! i) as [[a v]|] eqn:Hi; [|apply quiet_ret; exact I].
  qread. rewrite (Hget a v) by (eapply list_elem_of_lookup_2; exact Hi).
  rewrite bool_decide_eq_false_2 by (intros H; by apply H).
  eapply quiet_bind; [apply (quiet_ret _ _ (fun _ => True) I)|]. intros _ _.
  apply IH. apply lookup_lt_Some in Hi. lia.
Qed.

Lemma morphAttributes_state_quiet (m : Morph) w n r d dr :
  nodes w !! n = Some d -> nodes w !! r = Some dr -> sameData d dr ->
  (isTextArea w n = true -> firstElementChildOf w n = None) ->
  quiet w (morphAttributes_state m n r) (fun _ => True).
Proof.
  intros Hd Hdr Hsame Htext.
  destruct (sameData_fields d dr Hsame) as [_ [_ [_ [_ Hprops]]]].
  assert (Hp : forall p, isPlain p -> getProperty w n p = getProperty w r p).
  { intros p Hp. rewrite !getProperty_readNode by exact Hp. unfold readNode.
    rewrite Hd, Hdr. apply Hprops. }
  assert (Hup : forall p, isPlain p ->
            quiet w (do v <- read (fun w0 => getProperty w0 r p);; updateProperty m n p v)
              (fun _ => True)).
  { intros p Hpl. eapply quiet_bind; [apply quiet_read; intros; apply getProperty_withCalls|].
    intros a ->. apply updateProperty_quiet. by apply Hp. }
  unfold morphAttributes_state. qread.
  destruct (isInput w n && isInput w r).
  { eapply quiet_bind; [apply (Hup PChecked I)|]. intros _ _.
    eapply quiet_bind; [apply (Hup PDisabled I)|]. intros _ _.
    eapply quiet_bind; [apply (Hup PIndeterminate I)|]. intros _ _.
    qread. destruct (inputValueGate m w n r); [apply (Hup PValue I)|apply quiet_ret; exact I]. }
  qread. destruct (isOption w n && isOption w r); [apply (Hup PSelected I)|].
  qread. destruct (isTextArea w n && isTextArea w r) eqn:Hta; [|apply quiet_ret; exact I].
  eapply quiet_bind; [apply (Hup PValue I)|]. intros _ _.
  qread. apply andb_true_iff in Hta. destruct Hta as [Hta _].
  rewrite (Htext Hta). apply quiet_ret; exact I.
Qed.

Lemma morphAttributes_quiet (m : Morph) w n r d dr :
  nodes w !! n = Some d -> nodes w !! r = Some dr -> sameData d dr ->
  plainNode w n ->
  quiet w (morphAttributes m n r) (fun _ => True).
Proof.
  intros Hd Hdr Hsame [Hnd [_ [Htext _]]].
  destruct (sameData_fields d dr Hsame) as [_ [_ [Hattrs _]]].
  assert (Han : attributesOf w n = attributes d) by (unfold attributesOf; by rewrite Hd).
  assert (Har : attributesOf w r = attributes d) by (unfold attributesOf; by rewrite Hdr, Hattrs).
  unfold morphAttributes.
  eapply quiet_bind.
  { qread. apply morphAttributes_excess_quiet; [|lia].
    intros a v Hin. unfold hasAttribute, getAttribute. rewrite Har, <- Han.
    apply bool_decide_eq_true_2. by apply (assoc_is_Some a v). }
  intros _ _. eapply quiet_bind.
  { qread. apply morphAttributes_copy_quiet; [|lia].
    intros a v Hin. unfold getAttribute. rewrite Har, <- Han in Hin.
    apply assoc_unique; assumption. }
  intros _ _. by apply (morphAttributes_state_quiet m w n r d dr).
Qed.

(** *** Head-like containers with children of pairwise different markup *)

Lemma mapSet_fresh k v (l : list (string * nat)) :
  k ∉ map fst l -> mapSet k v l = l ++ [(k, v)].
Proof.
  induction l as [|[k' v'] l IH]; intros Hk; [reflexivity|].
  simpl in *. apply not_elem_of_cons in Hk. destruct Hk as [Hne Hk].
  rewrite bool_decide_eq_false_2 by congruence. by rewrite IH.
Qed.

Lemma refMap_keys (key : nat -> string) (l : list nat) (acc : list (string * nat)) :
  NoDup (map fst acc ++ map key l) ->
  map fst (fold_left (fun acc child => mapSet (key child) child acc) l acc)
  = map fst acc ++ map key l.
Proof.
  revert acc. induction l as [|c l IH]; intros acc Hnd; simpl.
  - by rewrite app_nil_r.
  - assert (Hfresh : key c ∉ map fst acc).
    { apply NoDup_app in Hnd. destruct Hnd as [_ [Hdis _]].
      intros Hin. apply (Hdis _ Hin). left. }
    rewrite (mapSet_fresh _ _ _ Hfresh). rewrite IH.
    + rewrite map_app. simpl. by rewrite <- app_assoc.
    + rewrite map_app. simpl. by rewrite <- app_assoc.
Qed.

Lemma refMap_withCalls w cs (l : list nat) (acc : list (string * nat)) :
  fold_left (fun acc child => mapSet (outerHTML (withCalls w cs) child) child acc) l acc
  = fold_left (fun acc child => mapSet (outerHTML w child) child acc) l acc.
Proof.
  revert acc. induction l as [|c l IH]; intros acc; [reflexivity|].
  simpl. by rewrite outerHTML_withCalls, IH.
Qed.

Lemma lookup_map {A B : Type} (f : A -> B) (l : list A) i :
  map f l !! i = option_map f (l !! i).
Proof.
  revert i. induction l as [|a l IH]; intros [|i]; simpl; try reflexivity. apply IH.
Qed.

Lemma morphHead_live_quiet (m : Morph) w n :
  NoDup (map (outerHTML w) (childrenOf w n)) ->
  forall fuel i (mp : list (string * nat)),
    map fst mp = drop i (map (outerHTML w) (childrenOf w n)) ->
    length (childrenOf w n) - i < fuel ->
    quiet w (morphHead_live m fuel n i mp) (fun remaining => remaining = []).
Proof.
  intros Hnd. induction fuel as [|k IH]; intros i mp Hkeys Hfuel; [lia|].
  cbn [morphHead_live]. qread.
  destruct (childrenOf w n !! i) as [child|] eqn:Hi.
  - eapply quiet_bind; [apply quiet_read; intros; apply outerHTML_withCalls|].
    intros key Hkey. cbv beta in Hkey. subst key.
    assert (Hk : map (outerHTML w) (childrenOf w n) !! i = Some (outerHTML w child)).
    { by rewrite lookup_map, Hi. }
    rewrite (drop_S _ _ _ Hk) in Hkeys.
    destruct mp as [|[k0 v0] mp']; [discriminate|]. simpl in Hkeys.
    injection Hkeys as -> Hkeys'. simpl.
    rewrite bool_decide_eq_true_2 by reflexivity.
    apply IH; [exact Hkeys'|]. apply lookup_lt_Some in Hi. lia.
  - apply quiet_ret. apply lookup_ge_None in Hi.
    rewrite drop_ge in Hkeys by (rewrite length_map; lia). by destruct mp.
Qed.

Lemma morphHead_quiet (m : Morph) w n r :
  NoDup (map (outerHTML w) (childrenOf w n)) ->
  map (outerHTML w) (childrenOf w r) = map (outerHTML w) (childrenOf w n) ->
  quiet w (morphHead m n r) (fun _ => True).
Proof.
  intros Hnd Hsame. unfold morphHead.
  eapply quiet_bind.
  { apply quiet_read. intros cs.
    change (childrenOf (withCalls w cs) r) with (childrenOf w r). apply refMap_withCalls. }
  intros mp Hmp. cbv beta in Hmp. qread.
  eapply quiet_bind.
  { apply (morphHead_live_quiet m w n Hnd (S (length (childrenOf w n))) 0 mp); [|lia].
    subst mp. rewrite refMap_keys; simpl; rewrite Hsame; [by rewrite drop_0|exact Hnd]. }
  intros remaining ->. simpl. apply quiet_ret. exact I.
Qed.

(** *** The id sets only hold ids found below *)

Lemma idsSound_walk w root e l fuel id (im : gmap nat (gset string)) :
  idsSound w im -> Chain w root e l -> length l <= fuel ->
  (forall y, y ∈ l -> e ∈ y :: descendants w y) ->
  isElement w e = true -> idOf w e = id -> id <> "" ->
  idsSound w (whileCurrent fuel w root (addId id) e im).
Proof.
  intros Hs Hch Hlen Hsub Hel Hid Hne x S i Hx Hi.
  rewrite (id_walk w root e l fuel id im x Hch Hlen) in Hx.
  case_bool_decide as Hin.
  - injection Hx as <-. apply elem_of_union in Hi. destruct Hi as [Hi|Hi].
    + destruct (im !! x) as [S0|] eqn:Hx0; simpl in Hi; [by apply (Hs x S0)|].
      by apply not_elem_of_empty in Hi.
    + apply elem_of_singleton in Hi. subst i. exists e. split; [by apply Hsub|]. by repeat split.
  - by apply (Hs x S).
Qed.

Lemma idsSound_mapIdSets w root k (im : gmap nat (gset string)) :
  tree k w root -> k <= size (nodes w) -> NoDup (root :: descendants w root) ->
  idsSound w im -> idsSound w (mapIdSets w root im).
Proof.
  intros Ht Hk Hnd Hs. rewrite mapIdSets_fold.
  assert (HL : Forall (fun e => e ∈ descendants w root /\ isElement w e = true)
                 (querySelectorAll w root (SelHasAttribute "id"))).
  { apply Forall_forall. intros e He. apply elem_of_querySelectorAll in He. tauto. }
  revert im Hs. induction HL as [|e L [He Hel] _ IH]; intros im Hs; [exact Hs|].
  simpl fold_left. apply IH. case_bool_decide as Hid; [exact Hs|].
  destruct (chain_of_descendant w (size (nodes w)) k root e Ht Hk Hnd ltac:(by right))
    as [l [Hch [Hlen [Hmem Hocc]]]].
  apply (idsSound_walk w root e l (S (size (nodes w))) (idOf w e) im Hs Hch);
    [lia| |exact Hel|reflexivity|exact Hid].
  intros y Hy. specialize (Hocc y (Hmem y Hy)).
  apply occurrences_in in Hy. unfold descendants.
  destruct (bool_decide (e ∈ y :: descendantsF (size (nodes w)) w y)) eqn:Hb;
    [by apply bool_decide_eq_true in Hb|congruence].
Qed.

Lemma idsSound_empty w : idsSound w ∅.
Proof. intros x S i Hx. by rewrite lookup_empty in Hx. Qed.

(** *** Equal trees *)

Lemma sameTree_data k w n r :
  sameTree k w n r ->
  nodeTypeOf w n = nodeTypeOf w r /\ localNameOf w n = localNameOf w r
  /\ attributesOf w n = attributesOf w r /\ nodeValueOf w n = nodeValueOf w r.
Proof.
  destruct k as [|k]; [intros []|]. intros [d [dr [Hd [Hdr [Hsame _]]]]].
  destruct (sameData_fields d dr Hsame) as [H1 [H2 [H3 [H4 _]]]].
  unfold nodeTypeOf, localNameOf, attributesOf, nodeValueOf. rewrite Hd, Hdr. tauto.
Qed.

Lemma sameTree_children k w n r :
  sameTree (S k) w n r -> Forall2 (sameTree k w) (childNodesOf w n) (childNodesOf w r).
Proof.
  intros [d [dr [Hd [Hdr [_ Hch]]]]]. unfold childNodesOf. by rewrite Hd, Hdr.
Qed.

Lemma sameTree_isElement k w n r : sameTree k w n r -> isElement w n = isElement w r.
Proof. intros H. unfold isElement. by destruct (sameTree_data k w n r H) as [-> _]. Qed.

Lemma sameTree_idOf k w n r : sameTree k w n r -> idOf w n = idOf w r.
Proof.
  intros H. unfold idOf, getAttribute. by destruct (sameTree_data k w n r H) as [_ [_ [-> _]]].
Qed.

Lemma sameTree_serialize w fuel :
  forall k raw n r, sameTree k w n r -> serializeF fuel w raw n = serializeF fuel w raw r.
Proof.
  induction fuel as [|f IH]; intros k raw n r Hs; [reflexivity|].
  destruct (sameTree_data k w n r Hs) as [Ht [Hl [Ha Hv]]].
  cbn [serializeF]. rewrite Ht, Hl, Ha, Hv.
  destruct k as [|k]; [destruct Hs|].
  pose proof (sameTree_children k w n r Hs) as Hch.
  assert (Hmap : forall b, map (serializeF f w b) (childNodesOf w n)
                           = map (serializeF f w b) (childNodesOf w r)).
  { intros b. induction Hch as [|c rc cs rcs Hc _ IHc]; [reflexivity|].
    simpl. by rewrite (IH k b c rc Hc), IHc. }
  by rewrite Hmap.
Qed.

Lemma sameTree_children_markup k w (cs rcs : list nat) :
  Forall2 (sameTree k w) cs rcs ->
  map (outerHTML w) (List.filter (isElement w) rcs)
  = map (outerHTML w) (List.filter (isElement w) cs).
Proof.
  induction 1 as [|c rc cs rcs Hc _ IH]; [reflexivity|].
  simpl. rewrite (sameTree_isElement k w c rc Hc).
  destruct (isElement w rc); [|exact IH].
  simpl. unfold outerHTML at 1 3. by rewrite (sameTree_serialize w _ k false c rc Hc), IH.
Qed.

(** An id found in the reference subtree is found in the live one. *)
Lemma sameTree_transfer_id w k :
  forall n r, sameTree k w n r -> tree k w n -> tree k w r -> k <= size (nodes w) ->
  forall e, e ∈ r :: descendants w r -> isElement w e = true ->
  exists e', e' ∈ n :: descendants w n /\ isElement w e' = true /\ idOf w e' = idOf w e.
Proof.
  induction k as [|k IH]; intros n r Hs Htn Htr Hk e He Hel; [destruct Hs|].
  apply elem_of_cons in He. destruct He as [->|He].
  { exists n. split; [left|]. split; [by rewrite (sameTree_isElement _ _ _ _ Hs)|].
    by apply (sameTree_idOf (S k)). }
  unfold descendants in *.
  destruct (descendants_inv w _ k r e Htr Hk He) as [rc [Hrc Herc]].
  pose proof (sameTree_children k w n r Hs) as Hch.
  apply list_elem_of_lookup in Hrc. destruct Hrc as [j Hj].
  destruct (Forall2_lookup_r _ _ _ _ _ Hch Hj) as [c [Hcj Hsc]].
  assert (Hcin : c ∈ childNodesOf w n) by (eapply list_elem_of_lookup_2; exact Hcj).
  assert (Hrcin : rc ∈ childNodesOf w r) by (eapply list_elem_of_lookup_2; exact Hj).
  destruct (tree_child w k n c Htn Hcin) as [_ Htc].
  destruct (tree_child w k r rc Htr Hrcin) as [_ Htrc].
  destruct (IH c rc Hsc Htc Htrc ltac:(lia) e) as [e' [He' [Hel' Hid']]].
  { apply elem_of_cons. exact Herc. }
  { exact Hel. }
  exists e'. split; [|by split]. right.
  destruct (descendants_child w _ (S k) n c Htn Hk Hcin) as [Hc1 Hc2].
  apply elem_of_cons in He'. destruct He' as [->|He']; [exact Hc1|by apply Hc2].
Qed.

(** *** The child search on equal children *)

Lemma after_lookup x (l : list nat) j :
  NoDup l -> l !! j = Some x -> after x l = l !! (S j).
Proof.
  revert j. induction l as [|y l IH]; intros j Hnd Hj; [discriminate|].
  apply NoDup_cons in Hnd. destruct Hnd as [Hy Hnd].
  destruct j as [|j]; simpl in Hj.
  - injection Hj as ->. simpl. rewrite bool_decide_eq_true_2 by reflexivity. by destruct l.
  - simpl. rewrite bool_decide_eq_false_2.
    + by apply IH.
    + intros ->. apply Hy. eapply list_elem_of_lookup_2. exact Hj.
Qed.

Lemma insertBefore_self_quiet (m : Morph) w fuel parent c :
  quiet w (insertBefore m fuel parent c c) (fun _ => True).
Proof.
  unfold insertBefore. rewrite bool_decide_eq_true_2 by reflexivity. apply quiet_ret. exact I.
Qed.

Lemma scan_rest_quiet (m : Morph) w (self : nat -> nat -> M unit) c rc n
    (refSetArray : list string) (cs : list nat) :
  childNodesOf w n = cs -> NoDup cs ->
  (forall x, x ∈ cs -> parentNodeOf w x = Some n) ->
  idOf w rc = "" ->
  (forall x, x ∈ cs -> x <> c -> isElement w x = true -> idOf w x <> "" ->
     forall ids, idMap m !! x = Some ids ->
       existsb (fun it => bool_decide (it ∈ ids)) refSetArray = false) ->
  forall fuel j,
    (forall j', j <= j' -> cs !! j' <> Some c) ->
    length cs - j <= fuel ->
    quiet w (morphChildElement_while m fuel self c rc n refSetArray (cs !! j) (Some c))
      (fun out => out = Some (Some c)).
Proof.
  intros Hcs Hnd Hpar Hrid Hnc. induction fuel as [|k IH]; intros j Hafter Hfuel.
  { rewrite (proj2 (lookup_ge_None cs j)) by lia. apply quiet_ret. reflexivity. }
  destruct (cs !! j) as [x|] eqn:Hj; [|apply quiet_ret; reflexivity].
  assert (Hxin : x ∈ cs) by (eapply list_elem_of_lookup_2; exact Hj).
  assert (Hxc : x <> c) by (intros ->; by apply (Hafter j)).
  assert (Hcont : forall nm, nm = Some c ->
            quiet w (do next <- read (fun w0 => nextSiblingOf w0 x);;
                     morphChildElement_while m k self c rc n refSetArray next nm)
              (fun out => out = Some (Some c))).
  { intros nm ->. qread.
    assert (Hnext : nextSiblingOf w x = cs !! (S j)).
    { unfold nextSiblingOf. rewrite (Hpar x Hxin), Hcs. by apply after_lookup. }
    rewrite Hnext. apply IH; [|apply lookup_lt_Some in Hj; lia].
    intros j' Hj'. apply Hafter. lia. }
  cbn [morphChildElement_while]. qread.
  destruct (isElement w x) eqn:Hel; [|by apply Hcont].
  qread. qread.
  destruct (decide (idOf w x = "")) as [Hid|Hid].
  { rewrite (bool_decide_eq_true_2 _ Hid). simpl. by apply Hcont. }
  rewrite (bool_decide_eq_false_2 _ Hid). simpl. qread.
  rewrite Hrid. rewrite (bool_decide_eq_false_2 _ Hid).
  destruct (idMap m !! x) as [ids|] eqn:Hids; [|by apply Hcont].
  rewrite (Hnc x Hxin Hxc Hel Hid ids Hids). by apply Hcont.
Qed.

Lemma morphChildElement_quiet (m : Morph) w (self : nat -> nat -> M unit) c rc n
    (cs : list nat) i fuel :
  childNodesOf w n = cs -> NoDup cs ->
  (forall x, x ∈ cs -> parentNodeOf w x = Some n) ->
  cs !! i = Some c ->
  isElement w c = true -> localNameOf w c = localNameOf w rc -> idOf w c = idOf w rc ->
  quiet w (self c rc) (fun _ => True) ->
  (forall x, x ∈ cs -> x <> c -> isElement w x = true -> idOf w x <> "" ->
     forall ids, idMap m !! x = Some ids ->
       existsb (fun it => bool_decide (it ∈ ids))
         (match idMap m !! rc with Some refIdSet => elements refIdSet | None => [] end)
       = false) ->
  length cs - i <= fuel ->
  quiet w (morphChildElement m fuel self c rc n) (fun _ => True).
Proof.
  intros Hcs Hnd Hpar Hi Hel Hname Hid Hself Hnc Hfuel.
  assert (Hlt : i < length cs) by (by apply lookup_lt_Some in Hi).
  destruct fuel as [|k]; [lia|].
  unfold morphChildElement.
  eapply quiet_bind; [by apply quiet_callBefore|]. intros ok _.
  destruct ok; simpl; [|apply quiet_ret; exact I].
  assert (Hfinish : quiet w
            (insertBefore m (S k) n c c;; self c rc;;
             callAfter (afterNodeMorphed (options m)) (AfterNodeMorphed c rc))
            (fun _ => True)).
  { eapply quiet_bind; [apply insertBefore_self_quiet|]. intros _ _.
    eapply quiet_bind; [exact Hself|]. intros _ _. by apply quiet_callAfter. }
  eapply quiet_bind with
    (P := fun out => out = None \/ out = Some (Some c)).
  2: { intros out [->| ->]; [apply quiet_ret; exact I|].
       eapply quiet_bind; [|intros _ _; by apply quiet_callAfter].
       eapply quiet_bind; [apply insertBefore_self_quiet|]. intros _ _. exact Hself. }
  cbn [morphChildElement_while]. qread. rewrite Hel. qread. qread.
  rewrite (bool_decide_eq_true_2 _ Hname).
  destruct (decide (idOf w c = "")) as [Hempty|Hempty].
  - rewrite (bool_decide_eq_true_2 _ Hempty). simpl. qread.
    assert (Hnext : nextSiblingOf w c = cs !! (S i)).
    { unfold nextSiblingOf. rewrite (Hpar c) by (eapply list_elem_of_lookup_2; exact Hi).
      rewrite Hcs. by apply after_lookup. }
    rewrite Hnext. eapply quiet_weaken.
    + apply (scan_rest_quiet m w self c rc n _ cs Hcs Hnd Hpar); [congruence|exact Hnc| |lia].
      intros j' Hj' Hc'. pose proof (NoDup_lookup _ _ _ _ Hnd Hi Hc'). lia.
    + intros out ->. by right.
  - rewrite (bool_decide_eq_false_2 _ Hempty). simpl. qread.
    rewrite (bool_decide_eq_true_2 _ Hid).
    eapply quiet_bind; [apply insertBefore_self_quiet|]. intros _ _.
    eapply quiet_bind; [exact Hself|]. intros _ _.
    apply quiet_ret. by left.
Qed.

Lemma NoDup_subtree w k n x :
  tree k w n -> k <= size (nodes w) -> NoDup (n :: descendants w n) ->
  x ∈ n :: descendants w n -> NoDup (x :: descendants w x).
Proof.
  revert n. induction k as [|k IH]; intros n Ht Hk Hnd Hx; [destruct Ht|].
  apply elem_of_cons in Hx. destruct Hx as [->|Hx]; [exact Hnd|].
  unfold descendants in *.
  destruct (descendants_inv w _ k n x Ht Hk Hx) as [c [Hc Hxc]].
  destruct (tree_child w k n c Ht Hc) as [_ Htc].
  apply NoDup_cons in Hnd. destruct Hnd as [_ Hnd].
  rewrite (descendants_unfold w _ (S k) n Ht Hk) in Hnd.
  pose proof (NoDup_flat_map_part (fun c => c :: descendantsF (size (nodes w)) w c) _ c Hnd Hc)
    as Hndc.
  apply (IH c Htc ltac:(lia) Hndc). apply elem_of_cons. exact Hxc.
Qed.

Lemma NoDup_flat_map_heads (g : nat -> list nat) (l : list nat) :
  NoDup (flat_map (fun c => c :: g c) l) -> NoDup l.
Proof.
  induction l as [|a l IH]; intros Hnd; [constructor|].
  simpl in Hnd. apply NoDup_cons in Hnd. destruct Hnd as [Ha Hnd].
  apply NoDup_app in Hnd. destruct Hnd as [_ [_ Hnd]].
  apply NoDup_cons. split; [|by apply IH].
  intros Hin. apply Ha. apply elem_of_app. right.
  apply elem_of_flat_map_sub. exists a. split; [exact Hin|left].
Qed.

Lemma tree_children_NoDup w k n :
  tree k w n -> k <= size (nodes w) -> NoDup (n :: descendants w n) ->
  NoDup (childNodesOf w n).
Proof.
  intros Ht Hk Hnd. apply NoDup_cons in Hnd. destruct Hnd as [_ Hnd].
  unfold descendants in Hnd. rewrite (descendants_unfold w _ k n Ht Hk) in Hnd.
  by apply NoDup_flat_map_heads in Hnd.
Qed.

Lemma children_le_size w k n :
  tree k w n -> k <= size (nodes w) -> NoDup (n :: descendants w n) ->
  length (childNodesOf w n) <= size (nodes w).
Proof.
  intros Ht Hk Hnd.
  pose proof (tree_children_NoDup w k n Ht Hk Hnd) as Hcs.
  rewrite <- size_dom. unfold size at 1, set_size. simpl.
  apply submseteq_length, NoDup_submseteq; [exact Hcs|].
  intros c Hc. apply elem_of_elements, elem_of_dom.
  destruct k as [|k]; [destruct Ht|].
  destruct (tree_child w k n c Ht Hc) as [Hp _].
  unfold parentNodeOf in Hp. destruct (nodes w !! c); [eauto|discriminate].
Qed.

Lemma uniqueIds_subset w (l l' : list nat) :
  (forall x, x ∈ l' -> x ∈ l) -> uniqueIds w l -> uniqueIds w l'.
Proof.
  unfold uniqueIds. rewrite !Forall_forall. intros Hsub H e1 He1.
  rewrite Forall_forall. intros e2 He2.
  specialize (H e1 (Hsub e1 He1)). rewrite Forall_forall in H. by apply H, Hsub.
Qed.

(** Under unique ids, no later sibling is matched by association. *)
Lemma no_conflict (m : Morph) w k n r c rc i x :
  idsSound w (idMap m) ->
  tree (S k) w n -> tree (S k) w r -> S k <= size (nodes w) ->
  NoDup (n :: descendants w n) -> uniqueIds w (descendants w n) ->
  childNodesOf w n !! i = Some c -> childNodesOf w r !! i = Some rc ->
  sameTree k w c rc ->
  x ∈ childNodesOf w n -> x <> c ->
  forall ids, idMap m !! x = Some ids ->
    existsb (fun it => bool_decide (it ∈ ids))
      (match idMap m !! rc with Some refIdSet => elements refIdSet | None => [] end)
    = false.
Proof.
  intros Hsound Htn Htr Hk Hnd Huniq Hc Hrc Hsame Hx Hxc ids Hids.
  destruct (existsb _ _) eqn:Hex; [exfalso|reflexivity].
  apply existsb_exists in Hex. destruct Hex as [it [Hit Hin]].
  apply bool_decide_eq_true in Hin.
  destruct (idMap m !! rc) as [refIdSet|] eqn:Hrids; [|destruct Hit].
  apply list_elem_of_In, elem_of_elements in Hit.
  destruct (Hsound rc refIdSet it Hrids Hit) as [e1 [He1 [Hel1 [Hid1 Hne]]]].
  destruct (Hsound x ids it Hids Hin) as [e2 [He2 [Hel2 [Hid2 _]]]].
  assert (Hcin : c ∈ childNodesOf w n) by (eapply list_elem_of_lookup_2; exact Hc).
  assert (Hrcin : rc ∈ childNodesOf w r) by (eapply list_elem_of_lookup_2; exact Hrc).
  destruct (tree_child w k n c Htn Hcin) as [_ Htc].
  destruct (tree_child w k r rc Htr Hrcin) as [_ Htrc].
  destruct (sameTree_transfer_id w k c rc Hsame Htc Htrc ltac:(lia) e1 He1 Hel1)
    as [e1' [He1' [Hel1' Hid1']]].
  unfold descendants in *.
  destruct (descendants_child w _ (S k) n c Htn Hk Hcin) as [Hc1 Hc2].
  destruct (descendants_child w _ (S k) n x Htn Hk Hx) as [Hx1 Hx2].
  assert (Ha : e1' ∈ descendantsF (size (nodes w)) w n).
  { apply elem_of_cons in He1'. destruct He1' as [->|?]; [exact Hc1|by apply Hc2]. }
  assert (Hb : e2 ∈ descendantsF (size (nodes w)) w n).
  { apply elem_of_cons in He2. destruct He2 as [->|?]; [exact Hx1|by apply Hx2]. }
  assert (Heq : e1' = e2).
  { unfold uniqueIds in Huniq. rewrite Forall_forall in Huniq.
    specialize (Huniq e1' Ha). rewrite Forall_forall in Huniq.
    apply (Huniq e2 Hb Hel1' Hel2); congruence. }
  subst e2. apply Hxc.
  apply NoDup_cons in Hnd. destruct Hnd as [_ Hnd].
  rewrite (descendants_unfold w _ (S k) n Htn Hk) in Hnd.
  exact (NoDup_flat_map_disjoint (fun c => c :: descendantsF (size (nodes w)) w c)
           _ x c e1' Hnd Hx Hcin He2 He1').
Qed.

(** *** The child-list pass on equal children *)

Lemma morphChildNodes_for_quiet (m : Morph) w (self : nat -> nat -> M unit) n r k
    (cs rcs : list nat) :
  childNodesOf w n = cs -> childNodesOf w r = rcs ->
  Forall2 (sameTree k w) cs rcs -> NoDup cs ->
  (forall x, x ∈ cs -> parentNodeOf w x = Some n) ->
  (forall c rc j, cs !! j = Some c -> rcs !! j = Some rc ->
     quiet w (self c rc) (fun _ => True)) ->
  (forall c, c ∈ cs -> plainNode w c) ->
  (forall c rc j x, cs !! j = Some c -> rcs !! j = Some rc -> x ∈ cs -> x <> c ->
     forall ids, idMap m !! x = Some ids ->
       existsb (fun it => bool_decide (it ∈ ids))
         (match idMap m !! rc with Some refIdSet => elements refIdSet | None => [] end)
       = false) ->
  forall fuel i, length cs - i < fuel ->
    quiet w (morphChildNodes_for m fuel self n r i) (fun _ => True).
Proof.
  intros Hcs Hrcs Hsame Hnd Hpar Hself Hplain Hnc.
  pose proof (Forall2_length _ _ _ Hsame) as Hlen.
  induction fuel as [|f IH]; intros i Hfuel; [lia|].
  cbn [morphChildNodes_for]. qread. rewrite Hrcs, <- Hlen.
  destruct (i <? length cs) eqn:Hi; [|apply quiet_ret; exact I].
  apply Nat.ltb_lt in Hi.
  qread. qread. rewrite Hcs, Hrcs.
  destruct (lookup_lt_is_Some_2 cs i Hi) as [c Hc].
  destruct (lookup_lt_is_Some_2 rcs i ltac:(lia)) as [rc Hrc].
  rewrite Hc, Hrc.
  pose proof (Forall2_lookup_lr _ _ _ _ _ _ Hsame Hc Hrc) as Hsc.
  destruct (sameTree_data k w c rc Hsc) as [Htype [Hname _]].
  assert (Hcin : c ∈ cs) by (eapply list_elem_of_lookup_2; exact Hc).
  eapply quiet_bind; [|intros _ _; apply IH; lia].
  qread. rewrite <- (sameTree_isElement k w c rc Hsc), andb_diag.
  rewrite (bool_decide_eq_true_2 _ Hname), andb_true_r.
  destruct (isElement w c) eqn:Hel; [|by apply (Hself c rc i)].
  qread. destruct (isHead w c) eqn:Hhead.
  - destruct (Hplain c Hcin) as [_ [_ [_ Hmark]]].
    apply morphHead_quiet; [by apply Hmark|].
    destruct k as [|k']; [destruct Hsc|].
    apply (sameTree_children_markup k'). by apply sameTree_children.
  - apply (morphChildElement_quiet m w self c rc n cs i f Hcs Hnd Hpar Hc Hel Hname).
    + by apply (sameTree_idOf k).
    + by apply (Hself c rc i).
    + intros x Hx Hxc _ _ ids Hids. by apply (Hnc c rc i x).
    + lia.
Qed.

Lemma morphChildNodes_while_quiet (m : Morph) w n r fuel :
  length (childNodesOf w n) = length (childNodesOf w r) -> 0 < fuel ->
  quiet w (morphChildNodes_while m fuel n r) (fun _ => True).
Proof.
  intros Hlen Hfuel. destruct fuel as [|f]; [lia|].
  cbn [morphChildNodes_while]. qread. rewrite Hlen, Nat.ltb_irrefl. apply quiet_ret. exact I.
Qed.

(** *** Morphing equal trees *)

Lemma morphNode_quiet (m : Morph) w (W : nat) :
  idsSound w (idMap m) ->
  forall k n r,
    sameTree k w n r -> tree k w n -> tree k w r -> k <= size (nodes w) ->
    NoDup (n :: descendants w n) ->
    (forall x, x ∈ n :: descendants w n ->
       plainNode w x /\ length (childNodesOf w x) <= W) ->
    uniqueIds w (descendants w n) ->
    forall fuel, k + W + 1 <= fuel ->
      quiet w (morphNode m fuel n r) (fun _ => True).
Proof.
  intros Hsound. induction k as [|k IH]; intros n r Hsame Htn Htr Hk Hnd Hplain Huniq fuel Hfuel;
    [destruct Hsame|].
  destruct fuel as [|f]; [lia|].
  destruct (Hplain n ltac:(left)) as [Hpn Hwn].
  pose proof Hsame as [d [dr [Hd [Hdr [Hsd _]]]]].
  destruct (sameTree_data _ w n r Hsame) as [Htype [Hname [Hattrs Hvalue]]].
  pose proof (sameTree_children k w n r Hsame) as Hch.
  cbn [morphNode].
  eapply quiet_bind; [by apply quiet_callBefore|]. intros ok _.
  destruct ok; simpl; [|apply quiet_ret; exact I].
  qread. eapply quiet_bind; [|intros _ _; by apply quiet_callAfter].
  rewrite <- (sameTree_isElement _ w n r Hsame), andb_diag.
  rewrite (bool_decide_eq_true_2 _ Hname), andb_true_r.
  destruct (isElement w n) eqn:Hel.
  - (* two elements of the same name *)
    eapply quiet_bind with (P := fun _ => True).
    { qread. destruct (hasAttributes w n || hasAttributes w r); [|apply quiet_ret; exact I].
      by apply (morphAttributes_quiet m w n r d dr). }
    intros _ _. qread. destruct (isHead w n) eqn:Hhead.
    { destruct Hpn as [_ [_ [_ Hmark]]].
      apply morphHead_quiet; [by apply Hmark|]. by apply (sameTree_children_markup k). }
    qread. destruct (hasChildNodes w n || hasChildNodes w r); [|apply quiet_ret; exact I].
    unfold morphChildNodes.
    pose proof (tree_children_NoDup w _ n Htn Hk Hnd) as Hcnd.
    assert (Hsub : forall c, c ∈ childNodesOf w n ->
              forall x, x ∈ c :: descendants w c -> x ∈ descendants w n).
    { intros c Hc x Hx. unfold descendants in *.
      destruct (descendants_child w _ (S k) n c Htn Hk Hc) as [Hc1 Hc2].
      apply elem_of_cons in Hx. destruct Hx as [->|Hx]; [exact Hc1|by apply Hc2]. }
    eapply quiet_bind.
    + apply (morphChildNodes_for_quiet m w (morphNode m f) n r k
               (childNodesOf w n) (childNodesOf w r) eq_refl eq_refl Hch Hcnd).
      * intros x Hx. by destruct (tree_child w k n x Htn Hx).
      * intros c rc j Hc Hrc.
        assert (Hcin : c ∈ childNodesOf w n) by (eapply list_elem_of_lookup_2; exact Hc).
        assert (Hrcin : rc ∈ childNodesOf w r) by (eapply list_elem_of_lookup_2; exact Hrc).
        destruct (tree_child w k n c Htn Hcin) as [_ Htc].
        destruct (tree_child w k r rc Htr Hrcin) as [_ Htrc].
        apply IH.
        -- exact (Forall2_lookup_lr _ _ _ _ _ _ Hch Hc Hrc).
        -- exact Htc.
        -- exact Htrc.
        -- lia.
        -- apply (NoDup_subtree w (S k) n c Htn Hk Hnd). right. apply (Hsub c Hcin). left.
        -- intros x Hx. apply Hplain. right. by apply (Hsub c Hcin).
        -- apply (uniqueIds_subset w (descendants w n)); [|exact Huniq].
           intros x Hx. apply (Hsub c Hcin). by right.
        -- lia.
      * intros c Hc. apply Hplain. right. apply (Hsub c Hc). left.
      * intros c rc j x Hc Hrc Hx Hxc ids Hids.
        apply (no_conflict m w k n r c rc j x Hsound Htn Htr Hk Hnd Huniq Hc Hrc); try assumption.
        exact (Forall2_lookup_lr _ _ _ _ _ _ Hch Hc Hrc).
      * lia.
    + intros _ _. apply morphChildNodes_while_quiet; [|lia].
      by apply (Forall2_length _ _ _ Hch).
  - (* two nodes that carry text *)
    qread. destruct Hpn as [_ [Htext _]].
    rewrite (bool_decide_eq_true_2 _ Htype).
    rewrite <- Hvalue, (bool_decide_eq_true_2 _ (Htext Hel)). simpl.
    qread. apply updateProperty_quiet.
    unfold getProperty. rewrite Hd, Hdr.
    destruct (sameData_fields d dr Hsd) as [_ [_ [_ [Hv _]]]]. by rewrite Hv.
Qed.

Lemma withCalls_self w : withCalls w (calls w) = w.
Proof. by destruct w. Qed.

Lemma forall2b_Forall2 {A B : Type} (f : A -> B -> bool) (P : A -> B -> Prop) l1 l2 :
  (forall a b, f a b = true -> P a b) -> forall2b f l1 l2 = true -> Forall2 P l1 l2.
Proof.
  intros Hf. revert l2. induction l1 as [|a l1 IH]; intros [|b l2] H; simpl in H;
    try discriminate; [constructor|].
  apply andb_true_iff in H. destruct H as [H1 H2]. constructor; [by apply Hf|by apply IH].
Qed.

Lemma sameTreeb_sound k w n r : sameTreeb k w n r = true -> sameTree k w n r.
Proof.
  revert n r. induction k as [|k IH]; intros n r H; [discriminate|].
  simpl in H. simpl.
  destruct (nodes w !! n) as [d|]; [|discriminate].
  destruct (nodes w !! r) as [dr|]; [|discriminate].
  apply andb_true_iff in H. destruct H as [H1 H2].
  exists d, dr. split; [reflexivity|]. split; [reflexivity|].
  split; [by apply bool_decide_eq_true in H1|].
  by apply (forall2b_Forall2 (sameTreeb k w)).
Qed.

(** The pre-passes and the mutation pass on a tree and an equal
    reference: the pass finishes, leaves every node and the focus as they
    were, makes no host call, and calls only the before- and after-morphed
    hooks. *)
Lemma morphThenFrame_equal_quiet (o : Options) (w : World) (n r : node) (k : nat) :
  sameTree k w n r -> tree k w n -> tree k w r -> k <= size (nodes w) ->
  NoDup (n :: descendants w n) -> NoDup (r :: descendants w r) ->
  Forall (plainNode w) (n :: descendants w n) ->
  uniqueIds w (descendants w n) ->
  forall fuel, 2 * size (nodes w) + 1 <= fuel ->
  exists w' cs,
    morphThenFrame fuel o n r w = Ok tt w'
    /\ nodes w' = nodes w /\ activeElement w' = activeElement w /\ ops w' = ops w
    /\ calls w' = calls w ++ cs /\ Forall isMorphedCall cs.
Proof.
  intros Hsame Htn Htr Hk Hndn Hndr Hplain Huniq fuel Hfuel.
  set (maps := if isParentNode w n && isParentNode w r
               then (mapIdSets w r (mapIdSets w n ∅), mapSensivity w n ∅)
               else (∅, ∅)).
  set (m := mkMorph o (fst maps) (snd maps)).
  assert (Hrun : morphThenFrame fuel o n r w = morphNode m fuel n r w) by reflexivity.
  assert (Hsound : idsSound w (idMap m)).
  { simpl. unfold maps. destruct (isParentNode w n && isParentNode w r); simpl.
    - apply (idsSound_mapIdSets w r k); try assumption.
      apply (idsSound_mapIdSets w n k); try assumption. apply idsSound_empty.
    - apply idsSound_empty. }
  destruct (morphNode_quiet m w (size (nodes w)) Hsound k n r Hsame Htn Htr Hk Hndn) with
    (fuel := fuel) (cs := calls w) as [a [cs [Hq [Hcs _]]]].
  - intros x Hx. rewrite Forall_forall in Hplain. split; [by apply Hplain|].
    apply (children_le_size w k x); [|exact Hk|by apply (NoDup_subtree w k n x)].
    apply elem_of_cons in Hx. destruct Hx as [->|Hx]; [exact Htn|].
    by apply (tree_descendant w (size (nodes w)) k n x).
  - exact Huniq.
  - lia.
  - rewrite withCalls_self in Hq. destruct a.
    exists (withCalls w (calls w ++ cs)), cs. rewrite Hrun, Hq. by repeat split.
Qed.

Example equalPair_calls :
  calls (finalWorld (morphThenFrame 17 allHooks 1 11 equalPair))
  = [BeforeNodeMorphed 1 11; BeforeNodeMorphed 2 12; BeforeNodeMorphed 2 12;
     BeforeNodeMorphed 3 13; AfterNodeMorphed 3 13; AfterNodeMorphed 2 12;
     BeforeNodeMorphed 4 14; BeforeNodeMorphed 4 14; AfterNodeMorphed 4 14;
     AfterNodeMorphed 4 14; AfterNodeMorphed 1 11].
Proof. vm_compute. reflexivity. Qed.

(** ** The reference is never written to *)

Lemma with_childNodes_same d : with_childNodes d (childNodes d) = d.
Proof. by destruct d. Qed.

Lemma with_parentNode_same d : with_parentNode d (parentNode d) = d.
Proof. by destruct d. Qed.

Lemma elem_of_filter_out x (l : list nat) c :
  c ∈ List.filter (fun y => negb (bool_decide (y = x))) l <-> c ∈ l /\ c <> x.
Proof.
  rewrite !list_elem_of_In, filter_In, negb_true_iff, bool_decide_eq_false. reflexivity.
Qed.

Lemma NoDup_filter_out x (l : list nat) :
  NoDup l -> NoDup (List.filter (fun y => negb (bool_decide (y = x))) l).
Proof.
  induction 1 as [|a l Ha Hnd IH]; simpl; [constructor|].
  destruct (negb (bool_decide (a = x))); [|exact IH].
  apply NoDup_cons. split; [|exact IH]. rewrite elem_of_filter_out. tauto.
Qed.

Lemma lookup_updateNode x f w y :
  nodes (updateNode x f w) !! y
  = if bool_decide (x = y) then f <$> nodes w !! y else nodes w !! y.
Proof.
  rewrite nodes_updateNode. case_bool_decide as H.
  - subst y. apply lookup_alter_eq.
  - by apply lookup_alter_ne.
Qed.

Section Frame.
Variable w0 : World.
Variables zone kept : nat -> Prop.
Hypothesis kept_zone : forall x, kept x -> zone x.

Local Abbreviation INV := (Inv w0 zone kept).
Local Abbreviation KEEPS := (keeps w0 zone kept).

(** *** The rules *)

Lemma keeps_ret {A : Type} (a : A) w (Q : A -> World -> Prop) : Q a w -> KEEPS (ret a) w Q.
Proof. intros HQ Hinv. split; [exact Hinv|]. intros a' w' H. injection H as <- <-. exact HQ. Qed.

Lemma keeps_bind {A B : Type} (c : M A) (f : A -> M B) w
    (Q : A -> World -> Prop) (Q' : B -> World -> Prop) :
  KEEPS c w Q ->
  (forall a w', INV w' -> Q a w' -> KEEPS (f a) w' Q') ->
  KEEPS (bind c f) w Q'.
Proof.
  intros Hc Hf Hinv. destruct (Hc Hinv) as [Hfin HQ]. unfold bind.
  destruct (c w) as [a w1|msg w1|w1]; simpl in Hfin.
  - apply (Hf a w1 Hfin (HQ a w1 eq_refl) Hfin).
  - split; [exact Hfin|]. intros a w' H. discriminate H.
  - split; [exact Hfin|]. intros a w' H. discriminate H.
Qed.

Lemma keeps_read {A : Type} (g : World -> A) w :
  KEEPS (read g) w (fun a w' => w' = w /\ a = g w).
Proof. intros Hinv. split; [exact Hinv|]. intros a w' H. injection H as <- <-. by split. Qed.

Lemma keeps_weaken {A : Type} (c : M A) w (Q Q' : A -> World -> Prop) :
  KEEPS c w Q -> (forall a w', INV w' -> Q a w' -> Q' a w') -> KEEPS c w Q'.
Proof.
  intros Hc HQ Hinv. destruct (Hc Hinv) as [Hfin Hq]. split; [exact Hfin|].
  intros a w' Hrun. apply HQ; [|by apply Hq]. by rewrite Hrun in Hfin.
Qed.

Lemma keeps_timeout {A : Type} w (Q : A -> World -> Prop) : KEEPS timeout w Q.
Proof. intros Hinv. split; [exact Hinv|]. intros a w' H. discriminate H. Qed.

(** The invariant looks at the store and at the next identity only. *)
Lemma Inv_ext w w' : nodes w' = nodes w -> nextId w' = nextId w -> INV w -> INV w'.
Proof.
  intros Hn Hi [H1 H2 H3 H4 H5 H6 H7].
  assert (Hc : forall p, childNodesOf w' p = childNodesOf w p)
    by (intros p; unfold childNodesOf; by rewrite Hn).
  assert (Hp : forall p, parentNodeOf w' p = parentNodeOf w p)
    by (intros p; unfold parentNodeOf; by rewrite Hn).
  constructor.
  - intros p c. rewrite Hc, Hp. apply H1.
  - intros p. rewrite Hc. apply H2.
  - intros x. rewrite Hi, Hn. apply H3.
  - intros x. rewrite Hi. apply H4.
  - intros x p. rewrite Hp. apply H5.
  - intros x p. rewrite Hp. apply H6.
  - intros x. rewrite Hn. apply H7.
Qed.

Lemma keeps_modify_log (f : World -> World) w :
  (forall w, nodes (f w) = nodes w) -> (forall w, nextId (f w) = nextId w) ->
  KEEPS (modify f) w (fun _ w' => w' = f w).
Proof.
  intros Hn Hi Hinv. split.
  - simpl. by apply (Inv_ext w).
  - intros a w' H. by injection H as <- <-.
Qed.

Lemma keeps_callBefore h c w :
  KEEPS (callBefore h c) w (fun _ w' => nodes w' = nodes w /\ nextId w' = nextId w).
Proof.
  intros Hinv. destruct h as [f|]; simpl.
  - split; [by apply (Inv_ext w)|]. intros a w' H. by injection H as <- <-.
  - split; [exact Hinv|]. intros a w' H. by injection H as <- <-.
Qed.

Lemma keeps_callAfter present c w :
  KEEPS (callAfter present c) w (fun _ w' => nodes w' = nodes w /\ nextId w' = nextId w).
Proof.
  intros Hinv. destruct present; simpl.
  - split; [by apply (Inv_ext w)|]. intros a w' H. by injection H as <- <-.
  - split; [exact Hinv|]. intros a w' H. by injection H as <- <-.
Qed.

(** *** Navigation stays outside the zone *)

Lemma child_outside w p c :
  INV w -> ~ zone p -> c ∈ childNodesOf w p ->
  ~ zone c /\ parentNodeOf w c = Some p /\ is_Some (nodes w !! c).
Proof.
  intros Hinv Hp Hc. pose proof (inv_parent _ _ _ _ Hinv p c Hc) as Hpc.
  split; [|split; [exact Hpc|]].
  - intros Hz. apply Hp. by apply (inv_zone_closed _ _ _ _ Hinv c p).
  - unfold parentNodeOf in Hpc. destruct (nodes w !! c); [eauto|discriminate].
Qed.

Lemma elem_of_after x (l : list nat) s : after x l = Some s -> s ∈ l.
Proof.
  induction l as [|y l IH]; simpl; [discriminate|].
  case_bool_decide.
  - destruct l as [|z l']; simpl; [discriminate|]. intros E. injection E as ->. right. left.
  - intros E. right. by apply IH.
Qed.

Lemma elem_of_before x (l : list nat) s : before x l = Some s -> s ∈ l.
Proof.
  induction l as [|y l IH]; [discriminate|].
  cbn [before]. case_bool_decide; [discriminate|].
  destruct l as [|z l']; [discriminate|].
  case_bool_decide.
  - intros E. injection E as ->. left.
  - intros E. right. by apply IH.
Qed.

Lemma sibling_outside w x s :
  INV w -> deep zone w x ->
  nextSiblingOf w x = Some s \/ previousSiblingOf w x = Some s ->
  ~ zone s /\ deep zone w s /\ is_Some (nodes w !! s).
Proof.
  intros Hinv Hdeep Hs. unfold nextSiblingOf, previousSiblingOf in Hs.
  destruct (parentNodeOf w x) as [p|] eqn:Hp; [|by destruct Hs].
  assert (Hin : s ∈ childNodesOf w p).
  { destruct Hs as [Hs|Hs]; [by apply elem_of_after in Hs|by apply elem_of_before in Hs]. }
  destruct (child_outside w p s Hinv (Hdeep p Hp) Hin) as [Hz [Hps Hst]].
  split; [exact Hz|]. split; [|exact Hst].
  intros p' Hp'. rewrite Hps in Hp'. injection Hp' as <-. by apply Hdeep.
Qed.

(** *** The host's operations *)

Lemma Inv_updateNode w x f :
  (forall d, parentNode (f d) = parentNode d) ->
  (forall d, childNodes (f d) = childNodes d) ->
  ~ kept x -> INV w -> INV (updateNode x f w).
Proof.
  intros Hfp Hfc Hx [H1 H2 H3 H4 H5 H6 H7].
  assert (Hc : forall p, childNodesOf (updateNode x f w) p = childNodesOf w p).
  { intros p. unfold childNodesOf. rewrite lookup_updateNode.
    case_bool_decide; [|reflexivity]. destruct (nodes w !! p); simpl; [apply Hfc|reflexivity]. }
  assert (Hp : forall p, parentNodeOf (updateNode x f w) p = parentNodeOf w p).
  { intros p. unfold parentNodeOf. rewrite lookup_updateNode.
    case_bool_decide; [|reflexivity]. destruct (nodes w !! p); simpl; [apply Hfp|reflexivity]. }
  constructor.
  - intros p c. rewrite Hc, Hp. apply H1.
  - intros p. rewrite Hc. apply H2.
  - intros y Hy. rewrite lookup_updateNode. simpl in Hy.
    case_bool_decide; [|by apply H3]. by rewrite (H3 y Hy).
  - exact H4.
  - intros y p. rewrite Hp. apply H5.
  - intros y p. rewrite Hp. apply H6.
  - intros y Hy. rewrite lookup_updateNode.
    case_bool_decide as E; [subst y; contradiction|by apply H7].
Qed.

Lemma detach_lookup w x y :
  INV w -> nodes (detach x w) !! y = detachData x y <$> nodes w !! y.
Proof.
  intros Hinv. rewrite nodes_detach.
  assert (Hnot : forall d, nodes w !! y = Some d -> parentNodeOf w x <> Some y ->
                 List.filter (fun c => negb (bool_decide (c = x))) (childNodes d) = childNodes d).
  { intros d Hd Hne. apply filter_out_notin. intros Hin. apply Hne.
    apply (inv_parent _ _ _ _ Hinv). unfold childNodesOf. by rewrite Hd. }
  destruct (parentNodeOf w x) as [p|] eqn:Hp.
  - rewrite <- !nodes_updateNode, !lookup_updateNode.
    destruct (nodes w !! y) as [d|] eqn:Hd; simpl.
    + unfold detachData. repeat case_bool_decide; subst; simpl; try congruence.
      * rewrite Hnot by congruence. reflexivity.
      * rewrite Hnot by congruence. by rewrite with_childNodes_same.
    + by repeat case_bool_decide.
  - destruct (nodes w !! y) as [d|] eqn:Hd; simpl; [|reflexivity].
    unfold detachData. rewrite Hnot by (exact Hd || congruence).
    rewrite with_childNodes_same. case_bool_decide; [|reflexivity]. subst y.
    unfold parentNodeOf in Hp. rewrite Hd in Hp. rewrite <- Hp. by rewrite with_parentNode_same.
Qed.

Lemma nextId_detach x w : nextId (detach x w) = nextId w.
Proof.
  unfold detach. destruct (parentNodeOf w x) as [p|]; [|reflexivity].
  destruct (activeElement w) as [a|]; [|reflexivity].
  by destruct (bool_decide (a ∈ x :: descendants w x)).
Qed.

Lemma detach_children w x y :
  INV w ->
  childNodesOf (detach x w) y
  = List.filter (fun c => negb (bool_decide (c = x))) (childNodesOf w y).
Proof.
  intros Hinv. unfold childNodesOf. rewrite detach_lookup by exact Hinv.
  destruct (nodes w !! y) as [d|]; simpl; [|reflexivity].
  unfold detachData. by case_bool_decide.
Qed.

Lemma detach_parent w x y :
  INV w ->
  parentNodeOf (detach x w) y = if bool_decide (y = x) then None else parentNodeOf w y.
Proof.
  intros Hinv. unfold parentNodeOf. rewrite detach_lookup by exact Hinv.
  destruct (nodes w !! y) as [d|]; simpl; [|by case_bool_decide].
  unfold detachData. by case_bool_decide.
Qed.

Lemma parent_not_kept w x p : INV w -> ~ zone x -> parentNodeOf w x = Some p -> ~ kept p.
Proof. intros Hinv Hx Hp Hk. apply Hx. by apply (inv_guard _ _ _ _ Hinv x p). Qed.

Lemma not_child_of_kept w x y :
  INV w -> ~ zone x -> kept y -> x ∉ childNodesOf w y.
Proof.
  intros Hinv Hx Hy Hin. apply (parent_not_kept w x y Hinv Hx); [|exact Hy].
  by apply (inv_parent _ _ _ _ Hinv).
Qed.

Lemma Inv_detach w x : ~ zone x -> INV w -> INV (detach x w).
Proof.
  intros Hx Hinv. constructor.
  - intros p c. rewrite detach_children, detach_parent by exact Hinv.
    rewrite elem_of_filter_out. intros [Hc Hne].
    rewrite bool_decide_eq_false_2 by exact Hne. by apply (inv_parent _ _ _ _ Hinv).
  - intros p. rewrite detach_children by exact Hinv. apply NoDup_filter_out.
    apply (inv_nodup _ _ _ _ Hinv).
  - intros y Hy. rewrite nextId_detach in Hy. rewrite detach_lookup by exact Hinv.
    by rewrite (inv_fresh _ _ _ _ Hinv y Hy).
  - intros y Hy. rewrite nextId_detach. by apply (inv_zone_old _ _ _ _ Hinv).
  - intros y p Hy. rewrite detach_parent by exact Hinv.
    case_bool_decide; [discriminate|]. by apply (inv_zone_closed _ _ _ _ Hinv).
  - intros y p. rewrite detach_parent by exact Hinv.
    case_bool_decide; [discriminate|]. apply (inv_guard _ _ _ _ Hinv).
  - intros y Hy. rewrite detach_lookup by exact Hinv.
    rewrite <- (inv_frame _ _ _ _ Hinv y Hy).
    destruct (nodes w !! y) as [d|] eqn:Hd; simpl; [|reflexivity]. f_equal.
    unfold detachData. rewrite bool_decide_eq_false_2.
    + rewrite filter_out_notin; [apply with_childNodes_same|].
      pose proof (not_child_of_kept w x y Hinv Hx Hy) as Hn.
      unfold childNodesOf in Hn. by rewrite Hd in Hn.
    + intros ->. apply Hx. by apply kept_zone.
Qed.

Lemma attach_lookup w parent x b y :
  INV w -> nodes (attach parent x b w) !! y = attachData parent x b y <$> nodes w !! y.
Proof.
  intros Hinv. unfold attach. rewrite !lookup_updateNode, detach_lookup by exact Hinv.
  destruct (nodes w !! y) as [d|]; simpl; [|by repeat case_bool_decide].
  unfold attachData, detachData, placeBefore.
  repeat case_bool_decide; subst; simpl; try reflexivity; congruence.
Qed.

Lemma nextId_attach parent x b w : nextId (attach parent x b w) = nextId w.
Proof. unfold attach. simpl. apply nextId_detach. Qed.

Lemma attach_children w parent x b y c :
  INV w -> c ∈ childNodesOf (attach parent x b w) y ->
  (c = x /\ y = parent) \/ (c ∈ childNodesOf w y /\ c <> x).
Proof.
  intros Hinv. unfold childNodesOf. rewrite attach_lookup by exact Hinv.
  destruct (nodes w !! y) as [d|]; simpl; [|by rewrite elem_of_nil].
  unfold attachData.
  assert (E : forall d' : NodeData,
             childNodes (if bool_decide (y = x) then with_parentNode d' (Some parent) else d')
             = childNodes d') by (intros d'; by case_bool_decide).
  rewrite E. clear E. unfold with_childNodes. cbn [childNodes]. case_bool_decide.
  - rewrite elem_of_placeBefore, elem_of_filter_out. tauto.
  - rewrite elem_of_filter_out. tauto.
Qed.

Lemma attach_children_NoDup w parent x b y :
  INV w -> NoDup (childNodesOf (attach parent x b w) y).
Proof.
  intros Hinv. unfold childNodesOf. rewrite attach_lookup by exact Hinv.
  pose proof (inv_nodup _ _ _ _ Hinv y) as Hnd. unfold childNodesOf in Hnd.
  destruct (nodes w !! y) as [d|]; simpl; [|constructor].
  unfold attachData.
  assert (E : forall d' : NodeData,
             childNodes (if bool_decide (y = x) then with_parentNode d' (Some parent) else d')
             = childNodes d') by (intros d'; by case_bool_decide).
  rewrite E. clear E. unfold with_childNodes. cbn [childNodes]. case_bool_decide.
  - apply NoDup_placeBefore; [|by apply NoDup_filter_out].
    rewrite elem_of_filter_out. tauto.
  - by apply NoDup_filter_out.
Qed.

Lemma attach_parent w parent x b y :
  INV w ->
  parentNodeOf (attach parent x b w) y
  = if bool_decide (y = x) then (if nodes w !! x then Some parent else None)
    else parentNodeOf w y.
Proof.
  intros Hinv. unfold parentNodeOf. rewrite attach_lookup by exact Hinv.
  case_bool_decide as E.
  - subst y. destruct (nodes w !! x) as [d|]; simpl; [|reflexivity].
    unfold attachData. by rewrite bool_decide_eq_true_2.
  - destruct (nodes w !! y) as [d|]; simpl; [|reflexivity].
    unfold attachData. by rewrite (bool_decide_eq_false_2 (y = x)).
Qed.

Lemma Inv_attach w parent x b :
  ~ zone x -> ~ kept parent -> is_Some (nodes w !! x) -> INV w -> INV (attach parent x b w).
Proof.
  intros Hx Hparent [dx Hdx] Hinv. constructor.
  - intros p c Hc. rewrite attach_parent by exact Hinv.
    apply attach_children in Hc; [|exact Hinv].
    destruct Hc as [[-> ->]|[Hc Hne]].
    + rewrite bool_decide_eq_true_2 by reflexivity. by rewrite Hdx.
    + rewrite bool_decide_eq_false_2 by exact Hne. by apply (inv_parent _ _ _ _ Hinv).
  - intros p. by apply attach_children_NoDup.
  - intros y Hy. rewrite nextId_attach in Hy. rewrite attach_lookup by exact Hinv.
    by rewrite (inv_fresh _ _ _ _ Hinv y Hy).
  - intros y Hy. rewrite nextId_attach. by apply (inv_zone_old _ _ _ _ Hinv).
  - intros y p Hy. rewrite attach_parent by exact Hinv.
    rewrite bool_decide_eq_false_2 by (intros ->; contradiction).
    by apply (inv_zone_closed _ _ _ _ Hinv).
  - intros y p. rewrite attach_parent by exact Hinv. case_bool_decide as E.
    + rewrite Hdx. intros Hp Hk. injection Hp as <-. contradiction.
    + apply (inv_guard _ _ _ _ Hinv).
  - intros y Hy. rewrite attach_lookup by exact Hinv.
    rewrite <- (inv_frame _ _ _ _ Hinv y Hy).
    destruct (nodes w !! y) as [d|] eqn:Hd; simpl; [|reflexivity]. f_equal.
    unfold attachData.
    rewrite (bool_decide_eq_false_2 (y = x)) by (intros ->; apply Hx; by apply kept_zone).
    rewrite (bool_decide_eq_false_2 (y = parent)) by (intros ->; contradiction).
    rewrite filter_out_notin; [apply with_childNodes_same|].
    pose proof (not_child_of_kept w x y Hinv Hx Hy) as Hn.
    unfold childNodesOf in Hn. by rewrite Hd in Hn.
Qed.

Lemma attach_store w parent x b y :
  INV w -> is_Some (nodes w !! y) -> is_Some (nodes (attach parent x b w) !! y).
Proof.
  intros Hinv [d Hd]. rewrite attach_lookup by exact Hinv. rewrite Hd. simpl. eauto.
Qed.

Lemma Inv_log_op w op : INV w -> INV (log_op op w).
Proof. by apply Inv_ext. Qed.

Lemma keeps_hostInsertBefore parent x b w :
  ~ zone x -> ~ kept parent -> is_Some (nodes w !! x) ->
  KEEPS (hostInsertBefore parent x b) w
    (fun _ w' => forall y, y <> x ->
       parentNodeOf w' y = parentNodeOf w y
       /\ (is_Some (nodes w !! y) -> is_Some (nodes w' !! y))).
Proof.
  intros Hx Hparent Hst Hinv. unfold hostInsertBefore.
  assert (Hinv0 : INV (log_op (OpInsertBefore parent x b) w)) by by apply Inv_log_op.
  assert (Hpost : forall b' a w',
            Ok tt (attach parent x b' (log_op (OpInsertBefore parent x b) w)) = Ok a w' ->
            forall y, y <> x ->
              parentNodeOf w' y = parentNodeOf w y
              /\ (is_Some (nodes w !! y) -> is_Some (nodes w' !! y))).
  { intros b' a w' E y Hy. injection E as <- <-. split.
    - rewrite attach_parent by exact Hinv0. by rewrite bool_decide_eq_false_2.
    - intros Hs. by apply attach_store. }
  destruct b as [b'|].
  - case_bool_decide.
    + split; [simpl; by apply Inv_attach|]. apply Hpost.
    + split; [exact Hinv0|]. intros a w' E. discriminate E.
  - split; [simpl; by apply Inv_attach|]. apply Hpost.
Qed.

Lemma keeps_hostAppendChild parent x w :
  ~ zone x -> ~ kept parent -> is_Some (nodes w !! x) ->
  KEEPS (hostAppendChild parent x) w (fun _ _ => True).
Proof.
  intros Hx Hparent Hst Hinv. split; [|done].
  simpl. apply Inv_attach; try done. by apply Inv_log_op.
Qed.

Lemma keeps_hostRemove x w : ~ zone x -> KEEPS (hostRemove x) w (fun _ _ => True).
Proof.
  intros Hx Hinv. split; [|done]. simpl. apply Inv_detach; [exact Hx|]. by apply Inv_log_op.
Qed.

Lemma elem_of_replaceIn x new (l : list nat) c :
  NoDup l -> c ∈ replaceIn x new l -> c = new \/ (c ∈ l /\ c <> x).
Proof.
  induction l as [|y l IH]; simpl; intros Hnd Hc; [by apply elem_of_nil in Hc|].
  apply NoDup_cons in Hnd. destruct Hnd as [Hy Hnd].
  case_bool_decide as E.
  - subst y. apply elem_of_cons in Hc. destruct Hc as [->|Hc]; [by left|].
    right. split; [by right|]. intros ->. contradiction.
  - apply elem_of_cons in Hc. destruct Hc as [->|Hc].
    + right. split; [left|exact E].
    + destruct (IH Hnd Hc) as [->|[Hin Hne]]; [by left|]. right. split; [by right|exact Hne].
Qed.

Lemma NoDup_replaceIn x new (l : list nat) : NoDup l -> new ∉ l -> NoDup (replaceIn x new l).
Proof.
  induction l as [|y l IH]; simpl; intros Hnd Hnew; [constructor|].
  apply NoDup_cons in Hnd. destruct Hnd as [Hy Hnd].
  apply not_elem_of_cons in Hnew. destruct Hnew as [Hne Hnew].
  case_bool_decide as E.
  - apply NoDup_cons. by split.
  - apply NoDup_cons. split; [|by apply IH].
    intros Hin. apply elem_of_replaceIn in Hin; [|exact Hnd].
    destruct Hin as [->|[Hin _]]; [by apply Hne|contradiction].
Qed.

Lemma in_store_of_parent w x p : parentNodeOf w x = Some p -> is_Some (nodes w !! x).
Proof. unfold parentNodeOf. destruct (nodes w !! x); [eauto|discriminate]. Qed.

Lemma Inv_replace w x new p :
  ~ zone x -> ~ zone new -> is_Some (nodes w !! new) -> parentNodeOf w new = None ->
  parentNodeOf w x = Some p -> x <> new ->
  INV w ->
  INV (updateNode x (fun d => with_parentNode d None)
         (updateNode new (fun d => with_parentNode d (Some p))
            (updateNode p (fun d => with_childNodes d (replaceIn x new (childNodes d))) w))).
Proof.
  intros Hx Hnew [dn Hdn] Hpn Hpx Hne Hinv.
  set (W := updateNode x _ _).
  assert (Hlook : forall y, nodes W !! y
            = (fun d =>
                 let d1 := if bool_decide (p = y)
                           then with_childNodes d (replaceIn x new (childNodes d)) else d in
                 let d2 := if bool_decide (new = y) then with_parentNode d1 (Some p) else d1 in
                 if bool_decide (x = y) then with_parentNode d2 None else d2)
              <$> nodes w !! y).
  { intros y. unfold W. rewrite !lookup_updateNode.
    destruct (nodes w !! y) as [d|]; simpl; by repeat case_bool_decide. }
  assert (Hc : forall y, childNodesOf W y
            = if bool_decide (p = y) then replaceIn x new (childNodesOf w y)
              else childNodesOf w y).
  { intros y. unfold childNodesOf. rewrite Hlook.
    destruct (nodes w !! y) as [d|]; simpl; by repeat case_bool_decide. }
  assert (Hp : forall y, parentNodeOf W y
            = if bool_decide (x = y) then None
              else if bool_decide (new = y) then Some p else parentNodeOf w y).
  { intros y. unfold parentNodeOf. rewrite Hlook.
    destruct (nodes w !! y) as [d|] eqn:Hd; simpl; repeat case_bool_decide; subst;
      try reflexivity; congruence. }
  assert (Hnewin : forall q, new ∉ childNodesOf w q).
  { intros q Hin. apply (inv_parent _ _ _ _ Hinv) in Hin. congruence. }
  assert (Hpk : ~ kept p) by by apply (parent_not_kept w x p).
  constructor.
  - intros q c. rewrite Hc, Hp. case_bool_decide as E.
    + subst q. intros Hin. apply elem_of_replaceIn in Hin; [|apply (inv_nodup _ _ _ _ Hinv)].
      destruct Hin as [->|[Hin Hcx]].
      * rewrite bool_decide_eq_false_2 by exact Hne. by rewrite bool_decide_eq_true_2.
      * rewrite bool_decide_eq_false_2 by congruence.
        rewrite bool_decide_eq_false_2 by (intros <-; by apply (Hnewin p)).
        by apply (inv_parent _ _ _ _ Hinv).
    + intros Hin. pose proof (inv_parent _ _ _ _ Hinv q c Hin) as Hq.
      rewrite bool_decide_eq_false_2 by (intros <-; congruence).
      rewrite bool_decide_eq_false_2 by (intros <-; by apply (Hnewin q)).
      exact Hq.
  - intros q. rewrite Hc. case_bool_decide; [|apply (inv_nodup _ _ _ _ Hinv)].
    apply NoDup_replaceIn; [apply (inv_nodup _ _ _ _ Hinv)|apply Hnewin].
  - intros y Hy. rewrite Hlook. change (nextId W) with (nextId w) in Hy.
    by rewrite (inv_fresh _ _ _ _ Hinv y Hy).
  - intros y Hy. change (nextId W) with (nextId w). by apply (inv_zone_old _ _ _ _ Hinv).
  - intros y q Hy. rewrite Hp.
    rewrite bool_decide_eq_false_2 by (intros <-; contradiction).
    rewrite bool_decide_eq_false_2 by (intros <-; contradiction).
    by apply (inv_zone_closed _ _ _ _ Hinv).
  - intros y q. rewrite Hp. case_bool_decide; [discriminate|].
    case_bool_decide.
    + intros E Hk. injection E as <-. contradiction.
    + apply (inv_guard _ _ _ _ Hinv).
  - intros y Hy. rewrite Hlook. rewrite <- (inv_frame _ _ _ _ Hinv y Hy).
    rewrite (bool_decide_eq_false_2 (p = y)) by (intros <-; contradiction).
    rewrite (bool_decide_eq_false_2 (new = y)) by (intros <-; apply Hnew; by apply kept_zone).
    rewrite (bool_decide_eq_false_2 (x = y)) by (intros <-; apply Hx; by apply kept_zone).
    by destruct (nodes w !! y).
Qed.

Lemma keeps_hostReplaceWith x new w :
  ~ zone x -> ~ zone new -> is_Some (nodes w !! new) -> parentNodeOf w new = None ->
  KEEPS (hostReplaceWith x new) w (fun _ _ => True).
Proof.
  intros Hx Hnew Hst Hpn Hinv. split; [|done]. simpl.
  destruct (parentNodeOf w x) as [p|] eqn:Hpx; [|by apply Inv_log_op].
  case_bool_decide as Hne; [by apply Inv_log_op|].
  set (w1 := log_op (OpReplaceWith x new) w).
  assert (Hd : detach new w1 = w1).
  { unfold detach. change (parentNodeOf w1 new) with (parentNodeOf w new). by rewrite Hpn. }
  rewrite Hd.
  assert (Hgoal : INV (updateNode x (fun d => with_parentNode d None)
         (updateNode new (fun d => with_parentNode d (Some p))
            (updateNode p (fun d => with_childNodes d (replaceIn x new (childNodes d))) w1)))).
  { apply Inv_replace; try done. by apply Inv_log_op. }
  destruct (activeElement w) as [a|]; [|exact Hgoal].
  destruct (bool_decide (a ∈ x :: descendants w x)); [|exact Hgoal].
  revert Hgoal. by apply Inv_ext.
Qed.

(** *** Deep copies are made of new nodes *)

Local Abbreviation cloned w parent r :=
  (INV (snd r) /\ fst r = nextId w /\ nextId w < nextId (snd r)
   /\ parentNodeOf (snd r) (fst r) = parent /\ is_Some (nodes (snd r) !! fst r)
   /\ forall y, y < nextId w -> nodes (snd r) !! y = nodes w !! y).

Lemma Inv_with_nextId w k : nextId w <= k -> INV w -> INV (with_nextId w k).
Proof.
  intros Hk [H1 H2 H3 H4 H5 H6 H7]. constructor; try assumption.
  - intros y Hy. apply H3. simpl in Hy. lia.
  - intros y Hy. simpl. specialize (H4 y Hy). lia.
Qed.

Lemma clone_finish w w1 d parent kids :
  INV w -> INV w1 -> nextId w < nextId w1 ->
  (forall y, y < S (nextId w) -> nodes w1 !! y = nodes (with_nextId w (S (nextId w))) !! y) ->
  (forall c, c ∈ kids -> parentNodeOf w1 c = Some (nextId w)) ->
  NoDup kids ->
  (forall p, parent = Some p -> ~ kept p) ->
  cloned w parent
    (nextId w, with_nodes w1 (<[nextId w := cloneData d parent kids]> (nodes w1))).
Proof.
  intros Hinv Hinv1 Hlt Hold Hkids Hnd Hparent.
  set (id := nextId w) in *.
  set (W := with_nodes w1 _).
  assert (Hid : nodes w1 !! id = None).
  { rewrite Hold by lia. simpl. apply (inv_fresh _ _ _ _ Hinv). unfold id. lia. }
  assert (Hzid : ~ zone id).
  { intros Hz. apply (inv_zone_old _ _ _ _ Hinv) in Hz. unfold id in Hz. lia. }
  assert (Hlook : forall y, y <> id -> nodes W !! y = nodes w1 !! y).
  { intros y Hy. unfold W. simpl. by rewrite lookup_insert_ne. }
  assert (Hlid : nodes W !! id = Some (cloneData d parent kids)).
  { unfold W. simpl. by rewrite lookup_insert_eq. }
  assert (Hc : forall y, y <> id -> childNodesOf W y = childNodesOf w1 y).
  { intros y Hy. unfold childNodesOf. by rewrite Hlook. }
  assert (Hp : forall y, y <> id -> parentNodeOf W y = parentNodeOf w1 y).
  { intros y Hy. unfold parentNodeOf. by rewrite Hlook. }
  assert (Hcid : childNodesOf W id = kids) by (unfold childNodesOf; by rewrite Hlid).
  assert (Hpid : parentNodeOf W id = parent) by (unfold parentNodeOf; by rewrite Hlid).
  assert (Hhas : forall c q, parentNodeOf w1 c = Some q -> c <> id).
  { intros c q Hq ->. unfold parentNodeOf in Hq. by rewrite Hid in Hq. }
  split; [|split; [reflexivity|split; [exact Hlt|split; [exact Hpid|split; [cbn [fst snd]; rewrite Hlid; eauto|]]]]].
  - cbn [snd]. constructor.
    + intros q c. destruct (decide (q = id)) as [->|Hq].
      * rewrite Hcid. intros Hin. specialize (Hkids c Hin).
        rewrite Hp by by apply (Hhas c id). exact Hkids.
      * rewrite Hc by exact Hq. intros Hin.
        pose proof (inv_parent _ _ _ _ Hinv1 q c Hin) as Hcq.
        rewrite Hp by by apply (Hhas c q). exact Hcq.
    + intros q. destruct (decide (q = id)) as [->|Hq].
      * by rewrite Hcid.
      * rewrite Hc by exact Hq. apply (inv_nodup _ _ _ _ Hinv1).
    + intros y Hy. change (nextId W) with (nextId w1) in Hy.
      rewrite Hlook by lia. by apply (inv_fresh _ _ _ _ Hinv1).
    + intros y Hy. change (nextId W) with (nextId w1). by apply (inv_zone_old _ _ _ _ Hinv1).
    + intros y q Hy. rewrite Hp by (intros ->; contradiction).
      by apply (inv_zone_closed _ _ _ _ Hinv1).
    + intros y q. destruct (decide (y = id)) as [->|Hy].
      * rewrite Hpid. intros E Hk. exfalso. by apply (Hparent q E).
      * rewrite Hp by exact Hy. apply (inv_guard _ _ _ _ Hinv1).
    + intros y Hy. rewrite Hlook by (intros ->; apply Hzid; by apply kept_zone).
      by apply (inv_frame _ _ _ _ Hinv1).
  - intros y Hy. cbn [snd]. rewrite Hlook by (unfold id; lia). rewrite Hold by lia. reflexivity.
Qed.

Lemma clone_kids k id l :
  (forall src parent w, INV w -> (forall p, parent = Some p -> ~ kept p) ->
     cloned w parent (cloneF k src parent w)) ->
  ~ kept id ->
  forall acc wc,
    INV wc -> NoDup acc ->
    (forall c, c ∈ acc -> parentNodeOf wc c = Some id /\ c < nextId wc) ->
    let r := fold_left
               (fun '(acc, w') c => let '(c', w'') := cloneF k c (Some id) w' in (acc ++ [c'], w''))
               l (acc, wc) in
    INV (snd r) /\ nextId wc <= nextId (snd r)
    /\ (forall y, y < nextId wc -> nodes (snd r) !! y = nodes wc !! y)
    /\ (forall c, c ∈ fst r -> parentNodeOf (snd r) c = Some id)
    /\ NoDup (fst r).
Proof.
  intros IHk Hid. induction l as [|c l IH]; intros acc wc Hinv Hnd Hacc; simpl.
  - split; [exact Hinv|]. split; [lia|]. split; [done|]. split; [|exact Hnd].
    intros c Hc. by apply Hacc.
  - destruct (cloneF k c (Some id) wc) as [c' wc'] eqn:E.
    destruct (IHk c (Some id) wc Hinv) as (Hinv' & Hc' & Hlt & Hpc' & _ & Hold).
    { intros p Hp. by injection Hp as <-. }
    rewrite E in *. simpl in *.
    destruct (IH (acc ++ [c']) wc' Hinv') as (H1 & H2 & H3 & H4 & H5).
    + apply NoDup_app. split; [exact Hnd|]. split; [|apply NoDup_singleton].
      intros y Hy Hy'. apply list_elem_of_singleton in Hy'. subst y.
      destruct (Hacc _ Hy) as [_ Hlt']. lia.
    + intros y Hy. apply elem_of_app in Hy. destruct Hy as [Hy|Hy].
      * destruct (Hacc y Hy) as [Hpy Hlty]. split; [|lia].
        unfold parentNodeOf. rewrite Hold by exact Hlty. exact Hpy.
      * apply list_elem_of_singleton in Hy. subst y. split; [exact Hpc'|lia].
    + split; [exact H1|]. split; [lia|]. split; [|by split].
      intros y Hy. rewrite H3 by lia. by apply Hold.
Qed.

Lemma cloneF_cloned fuel :
  forall src parent w,
    INV w -> (forall p, parent = Some p -> ~ kept p) ->
    cloned w parent (cloneF fuel src parent w).
Proof.
  induction fuel as [|k IH]; intros src parent w Hinv Hparent.
  - cbn [cloneF]. apply clone_finish; try done.
    + apply Inv_with_nextId; [lia|exact Hinv].
    + simpl. lia.
    + intros c Hc. by apply elem_of_nil in Hc.
    + constructor.
  - cbn [cloneF].
    assert (Hk : ~ kept (nextId w)).
    { intros Hk. apply kept_zone in Hk. apply (inv_zone_old _ _ _ _ Hinv) in Hk. lia. }
    pose proof (clone_kids k (nextId w)
                  (childNodes (default blankData (nodes w !! src))) IH Hk
                  [] (with_nextId w (S (nextId w)))) as Hfold.
    destruct (fold_left _ _ _) as [kids w1].
    destruct Hfold as (H1 & H2 & H3 & H4 & H5).
    + apply Inv_with_nextId; [lia|exact Hinv].
    + constructor.
    + intros c Hc. by apply elem_of_nil in Hc.
    + simpl in *. apply clone_finish; try done; lia.
Qed.

Lemma keeps_cloneNode src w :
  KEEPS (cloneNode src) w
    (fun c w' => ~ zone c /\ is_Some (nodes w' !! c) /\ parentNodeOf w' c = None).
Proof.
  intros Hinv. unfold cloneNode.
  pose proof (cloneF_cloned (size (nodes w)) src None w Hinv) as H.
  destruct (cloneF _ _ _ _) as [c w'].
  destruct H as (H1 & H2 & H3 & H4 & H5 & H6); [discriminate|]. simpl in *.
  split; [exact H1|]. intros a w'' E. injection E as <- <-.
  split; [|by split]. intros Hz. apply (inv_zone_old _ _ _ _ Hinv) in Hz. lia.
Qed.

(** *** Replacing the text below an element *)

Lemma orphan_lookup (kids : list nat) : forall w y,
  nodes (fold_left (fun w' c => updateNode c (fun d => with_parentNode d None) w') kids w) !! y
  = if bool_decide (y ∈ kids) then (fun d => with_parentNode d None) <$> nodes w !! y
    else nodes w !! y.
Proof.
  induction kids as [|c kids IH]; intros w y; [reflexivity|].
  cbn [fold_left]. rewrite IH, lookup_updateNode.
  destruct (decide (c = y)) as [->|Hne].
  - rewrite (bool_decide_eq_true_2 (y = y)) by reflexivity.
    rewrite (bool_decide_eq_true_2 (y ∈ y :: kids)) by left.
    case_bool_decide; [|reflexivity]. by destruct (nodes w !! y).
  - rewrite (bool_decide_eq_false_2 (c = y)) by exact Hne.
    destruct (decide (y ∈ kids)) as [Hin|Hnin].
    + rewrite (bool_decide_eq_true_2 (y ∈ kids)) by exact Hin.
      by rewrite (bool_decide_eq_true_2 (y ∈ c :: kids)) by by right.
    + rewrite (bool_decide_eq_false_2 (y ∈ kids)) by exact Hnin.
      rewrite (bool_decide_eq_false_2 (y ∈ c :: kids)); [reflexivity|].
      rewrite elem_of_cons. intros [->|?]; contradiction.
Qed.

Lemma orphan_nextId (kids : list nat) : forall w,
  nextId (fold_left (fun w' c => updateNode c (fun d => with_parentNode d None) w') kids w)
  = nextId w.
Proof. induction kids as [|c kids IH]; intros w; [reflexivity|]. cbn [fold_left]. by rewrite IH. Qed.

Lemma Inv_retext w W n ks :
  INV w -> ~ zone n ->
  (forall y, childNodesOf W y
     = if bool_decide (n = y) then ks
       else if bool_decide (y ∈ ks) then [] else childNodesOf w y) ->
  (forall y, parentNodeOf W y
     = if bool_decide (y ∈ ks) then Some n
       else if bool_decide (y ∈ childNodesOf w n) then None else parentNodeOf w y) ->
  (forall y, y <> n -> y ∉ ks -> y ∉ childNodesOf w n -> nodes W !! y = nodes w !! y) ->
  nextId w <= nextId W ->
  (forall y, nextId W <= y -> nodes W !! y = None) ->
  NoDup ks -> (forall c, c ∈ ks -> nextId w <= c) ->
  INV W.
Proof.
  intros Hinv Hn Hc Hp Hl Hle Hfresh Hnd Hks.
  assert (Hold : forall c q, parentNodeOf w c = Some q -> c ∉ ks).
  { intros c q Hq Hin. apply Hks in Hin. apply (inv_fresh _ _ _ _ Hinv) in Hin.
    unfold parentNodeOf in Hq. by rewrite Hin in Hq. }
  assert (Hzks : forall y, zone y -> y ∉ ks).
  { intros y Hy Hin. apply Hks in Hin. apply (inv_zone_old _ _ _ _ Hinv) in Hy. lia. }
  assert (Hzkids : forall y, zone y -> y ∉ childNodesOf w n).
  { intros y Hy Hin. by destruct (child_outside w n y Hinv Hn Hin) as [Hz _]. }
  constructor.
  - intros q c. rewrite Hc, Hp. case_bool_decide as E.
    + subst q. intros Hin. by rewrite bool_decide_eq_true_2.
    + case_bool_decide; [by rewrite elem_of_nil|]. intros Hin.
      pose proof (inv_parent _ _ _ _ Hinv q c Hin) as Hq.
      rewrite bool_decide_eq_false_2 by by apply (Hold c q).
      rewrite bool_decide_eq_false_2; [exact Hq|].
      intros Hin'. apply (inv_parent _ _ _ _ Hinv) in Hin'. congruence.
  - intros q. rewrite Hc. case_bool_decide; [exact Hnd|].
    case_bool_decide; [constructor|apply (inv_nodup _ _ _ _ Hinv)].
  - exact Hfresh.
  - intros y Hy. apply (inv_zone_old _ _ _ _ Hinv) in Hy. lia.
  - intros y q Hy. rewrite Hp.
    rewrite bool_decide_eq_false_2 by by apply Hzks.
    rewrite bool_decide_eq_false_2 by by apply Hzkids.
    by apply (inv_zone_closed _ _ _ _ Hinv).
  - intros y q. rewrite Hp. case_bool_decide.
    + intros E Hk. injection E as <-. exfalso. apply Hn. by apply kept_zone.
    + case_bool_decide; [discriminate|]. apply (inv_guard _ _ _ _ Hinv).
  - intros y Hy. rewrite Hl; [by apply (inv_frame _ _ _ _ Hinv)| | |].
    + intros ->. apply Hn. by apply kept_zone.
    + apply Hzks. by apply kept_zone.
    + apply Hzkids. by apply kept_zone.
Qed.

Lemma Inv_retext_empty w w2 n :
  INV w -> ~ zone n ->
  (forall y, nodes w2 !! y
     = if bool_decide (y ∈ childNodesOf w n)
       then (fun d => with_parentNode d None) <$> nodes w !! y else nodes w !! y) ->
  nextId w2 = nextId w ->
  INV (updateNode n (fun d => with_childNodes d []) w2).
Proof.
  intros Hinv Hn Hw2 Hi2.
  assert (Hlook : forall y, nodes (updateNode n (fun d => with_childNodes d []) w2) !! y
            = (fun d =>
                 let d1 := if bool_decide (y ∈ childNodesOf w n)
                           then with_parentNode d None else d in
                 if bool_decide (n = y) then with_childNodes d1 [] else d1)
              <$> nodes w !! y).
  { intros y. rewrite lookup_updateNode, Hw2.
    destruct (nodes w !! y) as [d|]; simpl; by repeat case_bool_decide. }
  apply (Inv_retext w _ n []); try done.
  - intros y. unfold childNodesOf at 1. rewrite Hlook.
    rewrite (bool_decide_eq_false_2 (y ∈ [])) by apply not_elem_of_nil.
    unfold childNodesOf.
    destruct (nodes w !! y) as [d|]; simpl; by repeat case_bool_decide.
  - intros y. unfold parentNodeOf at 1. rewrite Hlook.
    rewrite (bool_decide_eq_false_2 (y ∈ [])) by apply not_elem_of_nil.
    unfold parentNodeOf.
    destruct (nodes w !! y) as [d|]; simpl; by repeat case_bool_decide.
  - intros y Hy _ Hkids. rewrite Hlook.
    rewrite (bool_decide_eq_false_2 (y ∈ childNodesOf w n)) by exact Hkids.
    rewrite (bool_decide_eq_false_2 (n = y)) by congruence.
    by destruct (nodes w !! y).
  - simpl. lia.
  - intros y Hy. rewrite Hlook. simpl in Hy. rewrite Hi2 in Hy.
    by rewrite (inv_fresh _ _ _ _ Hinv y Hy).
  - constructor.
  - intros c Hc. by apply elem_of_nil in Hc.
Qed.

Lemma Inv_retext_text w w2 n s :
  INV w -> ~ zone n -> is_Some (nodes w !! n) ->
  (forall y, nodes w2 !! y
     = if bool_decide (y ∈ childNodesOf w n)
       then (fun d => with_parentNode d None) <$> nodes w !! y else nodes w !! y) ->
  nextId w2 = nextId w ->
  INV (updateNode n (fun d => with_childNodes d [nextId w2])
         (with_nodes (with_nextId w2 (S (nextId w2)))
            (<[nextId w2 := textNode s (Some n)]> (nodes w2)))).
Proof.
  intros Hinv Hn [dn Hdn] Hw2 Hi2. rewrite Hi2.
  set (id := nextId w). set (W := updateNode n _ _).
  assert (Hid : nodes w !! id = None) by (apply (inv_fresh _ _ _ _ Hinv); unfold id; lia).
  assert (Hnid : n <> id) by congruence.
  assert (Hkid : id ∉ childNodesOf w n).
  { intros Hin. apply (inv_parent _ _ _ _ Hinv) in Hin.
    unfold parentNodeOf in Hin. by rewrite Hid in Hin. }
  assert (Hlid : nodes W !! id = Some (textNode s (Some n))).
  { unfold W. rewrite lookup_updateNode. rewrite bool_decide_eq_false_2 by exact Hnid.
    simpl. by rewrite lookup_insert_eq. }
  assert (Hlook : forall y, y <> id -> nodes W !! y
            = (fun d =>
                 let d1 := if bool_decide (y ∈ childNodesOf w n)
                           then with_parentNode d None else d in
                 if bool_decide (n = y) then with_childNodes d1 [id] else d1)
              <$> nodes w !! y).
  { intros y Hy. unfold W. rewrite lookup_updateNode. simpl.
    rewrite lookup_insert_ne by congruence. rewrite Hw2.
    destruct (nodes w !! y) as [d|]; simpl; by repeat case_bool_decide. }
  apply (Inv_retext w _ n [id]); try done.
  - intros y. unfold childNodesOf at 1. destruct (decide (y = id)) as [->|Hy].
    + rewrite Hlid. rewrite bool_decide_eq_false_2 by exact Hnid.
      rewrite (bool_decide_eq_true_2 (id ∈ [id])) by left. reflexivity.
    + rewrite Hlook by exact Hy.
      rewrite (bool_decide_eq_false_2 (y ∈ [id])) by by rewrite list_elem_of_singleton.
      destruct (decide (n = y)) as [<-|E].
      * rewrite Hdn. simpl. rewrite (bool_decide_eq_true_2 (n = n)) by reflexivity.
        by case_bool_decide.
      * rewrite !(bool_decide_eq_false_2 (n = y)) by exact E.
        unfold childNodesOf. destruct (nodes w !! y) as [d|]; simpl; by repeat case_bool_decide.
  - intros y. unfold parentNodeOf at 1. destruct (decide (y = id)) as [->|Hy].
    + rewrite Hlid. rewrite (bool_decide_eq_true_2 (id ∈ [id])) by left. reflexivity.
    + rewrite Hlook by exact Hy.
      rewrite (bool_decide_eq_false_2 (y ∈ [id])) by by rewrite list_elem_of_singleton.
      unfold parentNodeOf.
      destruct (nodes w !! y) as [d|]; simpl; by repeat case_bool_decide.
  - intros y Hy Hks Hkids. rewrite Hlook by by rewrite list_elem_of_singleton in Hks.
    rewrite (bool_decide_eq_false_2 (y ∈ childNodesOf w n)) by exact Hkids.
    rewrite (bool_decide_eq_false_2 (n = y)) by congruence.
    by destruct (nodes w !! y).
  - simpl. lia.
  - intros y Hy. simpl in Hy. rewrite Hlook by (unfold id; lia).
    rewrite (inv_fresh _ _ _ _ Hinv y); [reflexivity|]. unfold id in Hy. lia.
  - apply NoDup_singleton.
  - intros c Hc. apply list_elem_of_singleton in Hc. subst c. unfold id. lia.
Qed.

Lemma Inv_setTextContent w n s : ~ zone n -> INV w -> INV (setTextContent n s w).
Proof.
  intros Hn Hinv. unfold setTextContent. case_bool_decide as Ht.
  - assert (Hst : is_Some (nodes w !! n)).
    { unfold nodeTypeOf in Ht. destruct (nodes w !! n); [eauto|].
      exfalso. revert Ht. rewrite !elem_of_cons, elem_of_nil. lia. }
    set (w1 := fold_left _ (childNodesOf w n) w).
    set (w2 := match activeElement w with
               | Some a => if bool_decide (a ∈ descendants w n)
                           then with_activeElement w1 None else w1
               | None => w1
               end).
    assert (Hn2 : nodes w2 = nodes w1 /\ nextId w2 = nextId w1).
    { unfold w2. destruct (activeElement w); [|done]. by case_bool_decide. }
    destruct Hn2 as [Hn2 Hi2].
    assert (Hw2 : forall y, nodes w2 !! y
              = if bool_decide (y ∈ childNodesOf w n)
                then (fun d => with_parentNode d None) <$> nodes w !! y else nodes w !! y).
    { intros y. rewrite Hn2. apply orphan_lookup. }
    assert (Hi : nextId w2 = nextId w) by (rewrite Hi2; apply orphan_nextId).
    case_bool_decide.
    + by apply (Inv_retext_empty w).
    + by apply (Inv_retext_text w).
  - destruct (isCharacterData w n); [|exact Hinv].
    apply Inv_updateNode; try done. intros Hk. apply Hn. by apply kept_zone.
Qed.

Lemma setField_parentNode p v d : parentNode (setField p v d) = parentNode d.
Proof. by destruct p, v. Qed.

Lemma setField_childNodes p v d : childNodes (setField p v d) = childNodes d.
Proof. by destruct p, v. Qed.

Lemma Inv_setProperty w n p v : ~ zone n -> INV w -> INV (setProperty n p v w).
Proof.
  intros Hn Hinv.
  assert (Hk : ~ kept n) by (intros Hk; apply Hn; by apply kept_zone).
  assert (Hinv0 : INV (log_op (OpSetProperty n p v) w)) by by apply Inv_log_op.
  assert (Hplain : INV (updateNode n (setField p v) (log_op (OpSetProperty n p v) w))).
  { apply Inv_updateNode; try done.
    - apply setField_parentNode.
    - apply setField_childNodes. }
  unfold setProperty. destruct p; try exact Hplain.
  - destruct v; try exact Hinv0.
    destruct (isCharacterData w n); [|exact Hinv0]. by apply Inv_updateNode.
  - destruct v; try exact Hinv0; by apply Inv_setTextContent.
Qed.

(** *** The engine *)

Variable m : Morph.

Local Abbreviation quietly c w := (KEEPS c w (fun _ _ => True)).

Lemma keeps_modify (f : World -> World) w : (INV w -> INV (f w)) -> quietly (modify f) w.
Proof. intros Hf Hinv. split; [by apply Hf|done]. Qed.

Lemma keeps_forget {A : Type} (c : M A) w (Q : A -> World -> Prop) :
  KEEPS c w Q -> quietly c w.
Proof. intros Hc. apply (keeps_weaken c w Q); [exact Hc|done]. Qed.

Lemma keeps_seq {A B : Type} (c : M A) (f : A -> M B) w (Q' : B -> World -> Prop) :
  quietly c w -> (forall a w', INV w' -> KEEPS (f a) w' Q') -> KEEPS (bind c f) w Q'.
Proof. intros Hc Hf. apply (keeps_bind c f w (fun _ _ => True)); [exact Hc|]. intros. by apply Hf. Qed.

Lemma keeps_after {A B : Type} (g : World -> A) (f : A -> M B) w (Q : B -> World -> Prop) :
  KEEPS (f (g w)) w Q -> KEEPS (bind (read g) f) w Q.
Proof.
  intros Hf. apply (keeps_bind _ _ _ _ _ (keeps_read g w)).
  intros a w' _ [-> ->]. exact Hf.
Qed.

Lemma same_nodes_parent w w' x : nodes w' = nodes w -> parentNodeOf w' x = parentNodeOf w x.
Proof. intros E. unfold parentNodeOf. by rewrite E. Qed.

Lemma same_nodes_deep w w' x : nodes w' = nodes w -> deep zone w x -> deep zone w' x.
Proof. intros E Hd p. rewrite (same_nodes_parent w w' x E). apply Hd. Qed.

Lemma keeps_updateProperty n p v w : ~ zone n -> quietly (updateProperty m n p v) w.
Proof.
  intros Hn. unfold updateProperty. apply keeps_after.
  case_bool_decide; [|by apply keeps_ret].
  eapply keeps_bind; [apply keeps_callBefore|]. intros ok w1 _ _.
  destruct ok; [|by apply keeps_ret].
  apply keeps_seq.
  - apply keeps_modify. by apply Inv_setProperty.
  - intros _ w2 _. eapply keeps_forget. apply keeps_callAfter.
Qed.

Lemma keeps_replaceNode n c w :
  ~ zone n -> ~ zone c -> is_Some (nodes w !! c) -> parentNodeOf w c = None ->
  quietly (replaceNode m n c) w.
Proof.
  intros Hn Hc Hst Hp. unfold replaceNode.
  eapply keeps_bind; [apply keeps_callBefore|]. intros ok w1 _ [E1 _].
  destruct ok; [|by apply keeps_ret].
  eapply keeps_bind; [apply keeps_callBefore|]. intros ok' w2 _ [E2 _].
  destruct ok'; [|by apply keeps_ret].
  apply keeps_seq.
  - apply keeps_hostReplaceWith; try done.
    + by rewrite E2, E1.
    + by rewrite (same_nodes_parent w1 w2), (same_nodes_parent w w1).
  - intros _ w3 _. apply keeps_seq; [eapply keeps_forget; apply keeps_callAfter|].
    intros _ w4 _. eapply keeps_forget. apply keeps_callAfter.
Qed.

Lemma before_ne x (l : list nat) s : before x l = Some s -> s <> x.
Proof.
  induction l as [|y l IH]; [discriminate|].
  cbn [before]. case_bool_decide as E; [discriminate|].
  destruct l as [|z l']; [discriminate|].
  case_bool_decide.
  - intros E'. injection E' as <-. exact E.
  - exact IH.
Qed.

Lemma keeps_insertBefore_while fuel :
  forall parent n insertionPoint sensitivity previousNode w,
    ~ zone parent -> deep zone w n -> is_Some (nodes w !! n) ->
    (forall p, previousNode = Some p -> ~ zone p /\ is_Some (nodes w !! p) /\ p <> n) ->
    KEEPS (insertBefore_while m fuel parent n insertionPoint sensitivity previousNode) w
      (fun _ w' => is_Some (nodes w' !! n)).
Proof.
  induction fuel as [|k IH]; intros parent n ip sens prev w Hparent Hdeep Hst Hprev;
    destruct prev as [previous|]; cbn [insertBefore_while];
    try (by apply keeps_ret); try apply keeps_timeout.
  destruct (Hprev previous eq_refl) as (Hz & Hs & Hne).
  destruct (_ <? _); [|by apply keeps_ret].
  apply keeps_after.
  eapply keeps_bind.
  { apply keeps_hostInsertBefore; [exact Hz| |exact Hs].
    intros Hk. apply Hparent. by apply kept_zone. }
  intros u w1 Hinv1 Hpost. cbv beta in Hpost.
  destruct (Hpost n (not_eq_sym Hne)) as [Hpn Hsn].
  case_bool_decide; [apply keeps_ret; by apply Hsn|].
  apply keeps_after. apply IH; try done.
  - intros p. rewrite Hpn. apply Hdeep.
  - by apply Hsn.
  - intros p Hp.
    assert (Hd1 : deep zone w1 n) by (intros q; rewrite Hpn; apply Hdeep).
    destruct (sibling_outside w1 n p Hinv1 Hd1 (or_intror Hp)) as (H1 & _ & H3).
    split; [exact H1|]. split; [exact H3|].
    unfold previousSiblingOf in Hp. destruct (parentNodeOf w1 n); [|discriminate].
    by apply before_ne in Hp.
Qed.

Lemma keeps_inv {A : Type} (c : M A) w (Q : A -> World -> Prop) :
  (INV w -> KEEPS c w Q) -> KEEPS c w Q.
Proof. intros H Hinv. exact (H Hinv Hinv). Qed.

Lemma keeps_insertBefore fuel parent n insertionPoint w :
  ~ zone parent -> ~ zone n -> deep zone w n -> is_Some (nodes w !! n) ->
  quietly (insertBefore m fuel parent n insertionPoint) w.
Proof.
  intros Hparent Hn Hdeep Hst. apply keeps_inv. intros Hinv. unfold insertBefore.
  case_bool_decide; [by apply keeps_ret|].
  apply keeps_after.
  eapply (keeps_bind _ _ _ (fun _ w' => is_Some (nodes w' !! n))).
  - destruct (isElement w n); [|by apply keeps_ret].
    destruct (0 <? _); [|by apply keeps_ret].
    apply keeps_after. apply keeps_insertBefore_while; try done.
    intros p Hp.
    destruct (sibling_outside w n p Hinv Hdeep (or_intror Hp)) as (H1 & _ & H3).
    split; [exact H1|]. split; [exact H3|].
    unfold previousSiblingOf in Hp. destruct (parentNodeOf w n); [|discriminate].
    by apply before_ne in Hp.
  - intros returned w1 _ Hs. destruct returned; [by apply keeps_ret|].
    eapply keeps_forget. apply keeps_hostInsertBefore; try done.
    intros Hk. apply Hparent. by apply kept_zone.
Qed.

Lemma keeps_appendChild n c w :
  ~ zone n -> ~ zone c -> is_Some (nodes w !! c) -> quietly (appendChild m n c) w.
Proof.
  intros Hn Hc Hst. unfold appendChild.
  eapply keeps_bind; [apply keeps_callBefore|]. intros ok w1 _ [E1 _].
  destruct ok; [|by apply keeps_ret].
  apply keeps_seq.
  - apply keeps_hostAppendChild; try done.
    + intros Hk. apply Hn. by apply kept_zone.
    + by rewrite E1.
  - intros _ w2 _. eapply keeps_forget. apply keeps_callAfter.
Qed.

Lemma keeps_removeNode n w : ~ zone n -> quietly (removeNode m n) w.
Proof.
  intros Hn. unfold removeNode.
  eapply keeps_bind; [apply keeps_callBefore|]. intros ok w1 _ _.
  destruct ok; [|by apply keeps_ret].
  apply keeps_seq; [by apply keeps_hostRemove|].
  intros _ w2 _. eapply keeps_forget. apply keeps_callAfter.
Qed.

Lemma keeps_removeAttribute el attr w : ~ zone el -> quietly (removeAttribute el attr) w.
Proof.
  intros Hn. apply keeps_modify. intros Hinv. apply Inv_log_op.
  apply Inv_updateNode; try done. intros Hk. apply Hn. by apply kept_zone.
Qed.

Lemma keeps_setAttribute el attr v w : ~ zone el -> quietly (setAttribute el attr v) w.
Proof.
  intros Hn. apply keeps_modify. intros Hinv. apply Inv_log_op.
  apply Inv_updateNode; try done. intros Hk. apply Hn. by apply kept_zone.
Qed.

Lemma keeps_morphAttributes_excess fuel :
  forall element ref i w, ~ zone element ->
    quietly (morphAttributes_excess m fuel element ref i) w.
Proof.
  induction fuel as [|k IH]; intros element ref i w Hn; cbn [morphAttributes_excess];
    [apply keeps_timeout|].
  apply keeps_after. destruct (attributesOf w element !! i) as [[attr v]|];
    [|by apply keeps_ret].
  apply keeps_after. apply keeps_seq; [|intros; by apply IH].
  destruct (negb _); [|by apply keeps_ret].
  eapply keeps_bind; [apply keeps_callBefore|]. intros ok w1 _ _.
  destruct ok; [|by apply keeps_ret].
  apply keeps_seq; [by apply keeps_removeAttribute|].
  intros _ w2 _. eapply keeps_forget. apply keeps_callAfter.
Qed.

Lemma keeps_morphAttributes_copy fuel :
  forall element ref i w, ~ zone element ->
    quietly (morphAttributes_copy m fuel element ref i) w.
Proof.
  induction fuel as [|k IH]; intros element ref i w Hn; cbn [morphAttributes_copy];
    [apply keeps_timeout|].
  apply keeps_after. destruct (attributesOf w ref !! i) as [[attr v]|];
    [|by apply keeps_ret].
  apply keeps_after. apply keeps_seq; [|intros; by apply IH].
  case_bool_decide; [|by apply keeps_ret].
  eapply keeps_bind; [apply keeps_callBefore|]. intros ok w1 _ _.
  destruct ok; [|by apply keeps_ret].
  apply keeps_seq; [by apply keeps_setAttribute|].
  intros _ w2 _. eapply keeps_forget. apply keeps_callAfter.
Qed.

Lemma keeps_sync element ref p w :
  ~ zone element ->
  quietly (do v <- read (fun w => getProperty w ref p);; updateProperty m element p v) w.
Proof. intros Hn. apply keeps_after. by apply keeps_updateProperty. Qed.

Lemma firstElementChild_outside w n t :
  INV w -> ~ zone n -> firstElementChildOf w n = Some t -> ~ zone t.
Proof.
  intros Hinv Hn Ht. unfold firstElementChildOf, childrenOf in Ht.
  assert (Hin : t ∈ childNodesOf w n).
  { destruct (List.filter _ _) as [|t' l] eqn:E; [discriminate|]. injection Ht as ->.
    assert (Hin : In t (List.filter (isElement w) (childNodesOf w n))) by (rewrite E; by left).
    apply filter_In in Hin. apply list_elem_of_In. tauto. }
  by destruct (child_outside w n t Hinv Hn Hin).
Qed.

Lemma keeps_morphAttributes_state element ref w :
  ~ zone element -> quietly (morphAttributes_state m element ref) w.
Proof.
  intros Hn. unfold morphAttributes_state. apply keeps_after.
  destruct (_ && _).
  - apply keeps_seq; [by apply keeps_sync|]. intros _ w1 _.
    apply keeps_seq; [by apply keeps_sync|]. intros _ w2 _.
    apply keeps_seq; [by apply keeps_sync|]. intros _ w3 _.
    apply keeps_after. destruct (inputValueGate _ _ _ _); [|by apply keeps_ret].
    by apply keeps_sync.
  - apply keeps_after. destruct (_ && _); [by apply keeps_sync|].
    apply keeps_after. destruct (_ && _); [|by apply keeps_ret].
    apply keeps_seq; [by apply keeps_sync|]. intros _ w1 Hinv1.
    apply keeps_after. destruct (firstElementChildOf w1 element) as [t|] eqn:Ht;
      [|by apply keeps_ret].
    apply keeps_after. apply keeps_updateProperty.
    by apply (firstElementChild_outside w1 element).
Qed.

Lemma keeps_morphAttributes element ref w :
  ~ zone element -> quietly (morphAttributes m element ref) w.
Proof.
  intros Hn. unfold morphAttributes.
  apply keeps_seq; [apply keeps_after; by apply keeps_morphAttributes_excess|].
  intros _ w1 _.
  apply keeps_seq; [apply keeps_after; by apply keeps_morphAttributes_copy|].
  intros _ w2 _. by apply keeps_morphAttributes_state.
Qed.

Local Abbreviation good w x := (~ zone x /\ deep zone w x /\ is_Some (nodes w !! x)).

Lemma child_good w p c : INV w -> ~ zone p -> c ∈ childNodesOf w p -> good w c.
Proof.
  intros Hinv Hp Hc. destruct (child_outside w p c Hinv Hp Hc) as (H1 & H2 & H3).
  split; [exact H1|]. split; [|exact H3]. intros q Hq. congruence.
Qed.

Lemma same_nodes_good w w' x : nodes w' = nodes w -> good w x -> good w' x.
Proof.
  intros E (H1 & H2 & H3). split; [exact H1|]. split; [by apply (same_nodes_deep w)|].
  by rewrite E.
Qed.

Lemma children_lookup_child w n i c : childrenOf w n !! i = Some c -> c ∈ childNodesOf w n.
Proof.
  intros Hc. apply list_elem_of_lookup_2 in Hc. unfold childrenOf in Hc.
  apply list_elem_of_In in Hc. apply filter_In in Hc. apply list_elem_of_In. tauto.
Qed.

Lemma keeps_morphHead_live fuel :
  forall n i pending w, ~ zone n -> quietly (morphHead_live m fuel n i pending) w.
Proof.
  induction fuel as [|k IH]; intros n i pending w Hn; cbn [morphHead_live];
    [apply keeps_timeout|].
  apply keeps_inv. intros Hinv.
  apply keeps_after. destruct (childrenOf w n !! i) as [child|] eqn:Hc;
    [|by apply keeps_ret].
  apply keeps_after. destruct (mapGet _ _); [by apply IH|].
  apply keeps_seq; [|intros; by apply IH].
  apply keeps_removeNode. apply children_lookup_child in Hc.
  by destruct (child_outside w n child Hinv Hn Hc).
Qed.

Lemma keeps_clone_append n src w :
  ~ zone n -> quietly (do c <- cloneNode src;; appendChild m n c) w.
Proof.
  intros Hn. eapply keeps_bind; [apply keeps_cloneNode|].
  intros c w1 _ (H1 & H2 & H3). by apply keeps_appendChild.
Qed.

Lemma keeps_morphHead_append n pending :
  forall w, ~ zone n -> quietly (morphHead_append m n pending) w.
Proof.
  induction pending as [|refChild rest IH]; intros w Hn; cbn [morphHead_append];
    [by apply keeps_ret|].
  apply keeps_seq; [by apply keeps_clone_append|]. intros; by apply IH.
Qed.

Lemma keeps_morphHead n ref w : ~ zone n -> quietly (morphHead m n ref) w.
Proof.
  intros Hn. unfold morphHead. apply keeps_after. apply keeps_after.
  apply keeps_seq; [by apply keeps_morphHead_live|].
  intros remaining w1 _. by apply keeps_morphHead_append.
Qed.

Lemma keeps_morphChildElement_while fuel (self : node -> node -> M unit) :
  (forall a b w, ~ zone a -> quietly (self a b) w) ->
  forall child ref parent refSetArray currentNode nextMatchByTagName w,
    ~ zone parent -> good w child ->
    (forall c, currentNode = Some c -> good w c) ->
    (forall x, nextMatchByTagName = Some x -> good w x) ->
    KEEPS (morphChildElement_while m fuel self child ref parent refSetArray
             currentNode nextMatchByTagName) w
      (fun out w' => forall nm, out = Some nm ->
         w' = w /\ forall x, nm = Some x -> good w x).
Proof.
  intros Hself.
  induction fuel as [|k IH]; intros child ref parent arr current nmt w Hparent Hchild Hcur Hnm;
    destruct current as [current|]; cbn [morphChildElement_while];
    try apply keeps_timeout;
    try (apply keeps_ret; intros nm E; injection E as <-; by split).
  apply keeps_inv. intros Hinv.
  destruct (Hcur current eq_refl) as (Hz & Hd & Hs).
  assert (Hcontinue : forall nm, (forall x, nm = Some x -> good w x) ->
    KEEPS (do next <- read (fun w => nextSiblingOf w current);;
           morphChildElement_while m k self child ref parent arr next nm) w
      (fun out w' => forall nm, out = Some nm ->
         w' = w /\ forall x, nm = Some x -> good w x)).
  { intros nm Hnm'. apply keeps_after. apply IH; try done.
    intros c Hc. destruct (sibling_outside w current c Hinv Hd (or_introl Hc)) as (H1 & H2 & H3).
    by split. }
  assert (Hmatch : KEEPS (insertBefore m (S k) parent current child;;
                          self current ref;; ret (@None (option node))) w
      (fun out w' => forall nm, out = Some nm ->
         w' = w /\ forall x, nm = Some x -> good w x)).
  { apply keeps_seq; [by apply keeps_insertBefore|]. intros _ w1 _.
    apply keeps_seq; [by apply Hself|]. intros _ w2 _.
    apply keeps_ret. intros nm E. discriminate E. }
  apply keeps_after. destruct (isElement w current); [|by apply Hcontinue].
  apply keeps_after. apply keeps_after.
  set (nm := match nmt with
             | None => if bool_decide (localNameOf w current = localNameOf w ref)
                       then Some current else None
             | Some x => Some x
             end).
  assert (Hnm' : forall x, nm = Some x -> good w x).
  { intros x. unfold nm. destruct nmt as [y|]; [by apply Hnm|].
    case_bool_decide; [|discriminate]. intros E. injection E as <-. by split. }
  destruct (negb _); [|by apply Hcontinue].
  apply keeps_after. case_bool_decide; [exact Hmatch|].
  destruct (idMap m !! current); [|by apply Hcontinue].
  destruct (existsb _ _); [exact Hmatch|by apply Hcontinue].
Qed.

Lemma keeps_morphChildElement fuel (self : node -> node -> M unit) child ref parent w :
  (forall a b w, ~ zone a -> quietly (self a b) w) ->
  ~ zone parent -> good w child ->
  quietly (morphChildElement m fuel self child ref parent) w.
Proof.
  intros Hself Hparent Hchild. unfold morphChildElement.
  eapply keeps_bind; [apply keeps_callBefore|]. intros ok w1 _ [E1 _].
  destruct ok; [|by apply keeps_ret]. cbn [negb].
  assert (Hchild1 : good w1 child) by by apply (same_nodes_good w).
  eapply keeps_bind.
  { apply keeps_morphChildElement_while; try done. intros c E. by injection E as <-. }
  intros outcome w2 _ Hout. cbv beta in Hout.
  destruct outcome as [nm|]; [|by apply keeps_ret].
  destruct (Hout nm eq_refl) as [-> Hnm].
  apply keeps_seq; [|intros; eapply keeps_forget; apply keeps_callAfter].
  destruct nm as [nm|].
  - destruct (Hnm nm eq_refl) as (H1 & H2 & H3).
    apply keeps_seq; [by apply keeps_insertBefore|]. intros; by apply Hself.
  - eapply keeps_bind; [apply keeps_cloneNode|].
    intros c w3 _ (H1 & H2 & H3).
    eapply keeps_bind; [apply keeps_callBefore|]. intros ok' w4 _ [E4 _].
    destruct ok'; [|by apply keeps_ret].
    apply keeps_seq; [|intros; eapply keeps_forget; apply keeps_callAfter].
    apply keeps_insertBefore; try done.
    + intros p. rewrite (same_nodes_parent w3 w4 c E4), H3. discriminate.
    + by rewrite E4.
Qed.

Lemma last_elem_of (l : list nat) c : last l = Some c -> c ∈ l.
Proof.
  induction l as [|a l IH]; [discriminate|].
  destruct l as [|b l']; simpl.
  - intros E. injection E as <-. left.
  - intros E. right. by apply IH.
Qed.

Lemma keeps_morphChildNodes_for fuel (self : node -> node -> M unit) :
  (forall a b w, ~ zone a -> quietly (self a b) w) ->
  forall element ref i w, ~ zone element ->
    quietly (morphChildNodes_for m fuel self element ref i) w.
Proof.
  intros Hself.
  induction fuel as [|k IH]; intros element ref i w Hn; cbn [morphChildNodes_for];
    [apply keeps_timeout|].
  apply keeps_inv. intros Hinv.
  apply keeps_after. destruct (_ <? _); [|by apply keeps_ret].
  apply keeps_after. apply keeps_after.
  apply keeps_seq; [|intros; by apply IH].
  destruct (childNodesOf w element !! i) as [c|] eqn:Hc.
  - apply list_elem_of_lookup_2 in Hc.
    pose proof (child_good w element c Hinv Hn Hc) as Hgood.
    destruct (childNodesOf w ref !! i) as [rc|]; [|apply keeps_removeNode; tauto].
    apply keeps_after. destruct (_ && _); [|apply Hself; tauto].
    apply keeps_after. destruct (isHead w c); [apply keeps_morphHead; tauto|].
    by apply keeps_morphChildElement.
  - destruct (childNodesOf w ref !! i) as [rc|]; [|by apply keeps_ret].
    by apply keeps_clone_append.
Qed.

Lemma keeps_morphChildNodes_while fuel :
  forall element ref w, ~ zone element ->
    quietly (morphChildNodes_while m fuel element ref) w.
Proof.
  induction fuel as [|k IH]; intros element ref w Hn; cbn [morphChildNodes_while];
    [apply keeps_timeout|].
  apply keeps_inv. intros Hinv.
  apply keeps_after. destruct (_ <? _); [|by apply keeps_ret].
  apply keeps_after. apply keeps_seq; [|intros; by apply IH].
  destruct (lastChildOf w element) as [c|] eqn:Hc; [|by apply keeps_ret].
  apply keeps_removeNode. apply last_elem_of in Hc.
  by destruct (child_outside w element c Hinv Hn Hc).
Qed.

Lemma keeps_morphNode fuel :
  forall n ref w, ~ zone n -> quietly (morphNode m fuel n ref) w.
Proof.
  induction fuel as [|k IH]; intros n ref w Hn; cbn [morphNode]; [apply keeps_timeout|].
  eapply keeps_bind; [apply keeps_callBefore|]. intros ok w1 _ _.
  destruct ok; [|by apply keeps_ret]. cbn [negb].
  apply keeps_after.
  apply keeps_seq; [|intros; eapply keeps_forget; apply keeps_callAfter].
  destruct (_ && _).
  - apply keeps_seq.
    { apply keeps_after. destruct (_ || _); [by apply keeps_morphAttributes|by apply keeps_ret]. }
    intros _ w2 _. apply keeps_after. destruct (isHead w2 n); [by apply keeps_morphHead|].
    apply keeps_after. destruct (_ || _); [|by apply keeps_ret].
    unfold morphChildNodes. apply keeps_seq.
    + apply keeps_morphChildNodes_for; [|exact Hn]. intros a b w' Ha. by apply IH.
    + intros _ w3 _. by apply keeps_morphChildNodes_while.
  - apply keeps_after. destruct (_ && _).
    + apply keeps_after. by apply keeps_updateProperty.
    + eapply keeps_bind; [apply keeps_cloneNode|].
      intros c w2 _ (H1 & H2 & H3). by apply keeps_replaceNode.
Qed.

Lemma keeps_setAriaBusy n v w : ~ zone n -> quietly (setAriaBusy n v) w.
Proof.
  intros Hn. apply keeps_modify. intros Hinv. apply Inv_log_op.
  apply Inv_updateNode; try done. intros Hk. apply Hn. by apply kept_zone.
Qed.

Lemma keeps_Morph_morph o n r w :
  KEEPS (Morph_morph o n r) w (fun f _ => frameNode f = n).
Proof. unfold Morph_morph. apply keeps_after. by apply keeps_ret. Qed.

Lemma keeps_morph parseFragment o n r w :
  ~ zone n -> KEEPS (morph parseFragment n (inl r) o) w (fun f _ => frameNode f = n).
Proof.
  intros Hn. unfold morph.
  eapply keeps_bind; [by apply (keeps_ret r w (fun a _ => a = r))|].
  intros r' w1 _ ->. apply keeps_after.
  destruct (isElement w1 n); [|apply keeps_Morph_morph].
  apply keeps_seq; [by apply keeps_setAriaBusy|]. intros _ w2 _.
  eapply keeps_bind; [apply keeps_Morph_morph|]. intros f w3 _ Hf.
  apply keeps_seq; [by apply keeps_setAriaBusy|]. intros _ w4 _.
  by apply keeps_ret.
Qed.

End Frame.

Lemma keeps_runFrame w0 (zone kept : nat -> Prop) fuel f w :
  (forall x, kept x -> zone x) -> ~ zone (frameNode f) ->
  keeps w0 zone kept (runFrame fuel f) w (fun _ _ => True).
Proof. intros Hkz Hn. unfold runFrame. by apply keeps_morphNode. Qed.

Lemma keeps_morphThenFrame w0 (zone kept : nat -> Prop) fuel o n r w :
  (forall x, kept x -> zone x) -> ~ zone n ->
  keeps w0 zone kept (morphThenFrame fuel o n r) w (fun _ _ => True).
Proof.
  intros Hkz Hn. unfold morphThenFrame.
  eapply keeps_bind; [apply keeps_Morph_morph|].
  intros f w1 _ Hf. apply keeps_runFrame; [exact Hkz|]. by rewrite Hf.
Qed.

Lemma keeps_morphEntryThenFrame w0 (zone kept : nat -> Prop) parseFragment fuel o n r w :
  (forall x, kept x -> zone x) -> ~ zone n ->
  keeps w0 zone kept (morphEntryThenFrame parseFragment fuel o n r) w (fun _ _ => True).
Proof.
  intros Hkz Hn. unfold morphEntryThenFrame.
  eapply keeps_bind; [by apply keeps_morph|].
  intros f w1 _ Hf. apply keeps_runFrame; [exact Hkz|]. by rewrite Hf.
Qed.

(** *** Documents and their trees *)

Lemma document_child w p c :
  document w -> c ∈ childNodesOf w p -> parentNodeOf w c = Some p.
Proof.
  intros Hdoc Hc. unfold childNodesOf in Hc.
  destruct (nodes w !! p) as [d|] eqn:Hd; [|by apply elem_of_nil in Hc].
  destruct (Hdoc p d Hd) as (_ & _ & Hall & _).
  rewrite Forall_forall in Hall. by apply Hall.
Qed.

Lemma document_parent w x p :
  document w -> parentNodeOf w x = Some p -> x ∈ childNodesOf w p.
Proof.
  intros Hdoc Hp. unfold parentNodeOf in Hp.
  destruct (nodes w !! x) as [d|] eqn:Hd; [|discriminate].
  destruct (Hdoc x d Hd) as (_ & _ & _ & Hpar). by rewrite Hp in Hpar.
Qed.

Lemma document_NoDup w p : document w -> NoDup (childNodesOf w p).
Proof.
  intros Hdoc. unfold childNodesOf. destruct (nodes w !! p) as [d|] eqn:Hd; [|constructor].
  by destruct (Hdoc p d Hd) as (_ & Hnd & _).
Qed.

Lemma document_old w x : document w -> is_Some (nodes w !! x) -> x < nextId w.
Proof. intros Hdoc [d Hd]. by destruct (Hdoc x d Hd) as (Hlt & _). Qed.

Lemma stored_parent w x : document w -> (exists c, parentNodeOf w c = Some x) ->
  is_Some (nodes w !! x).
Proof.
  intros Hdoc [c Hc]. apply (document_parent w c x Hdoc) in Hc.
  unfold childNodesOf in Hc. destruct (nodes w !! x); [eauto|by apply elem_of_nil in Hc].
Qed.

Lemma ancestor_top w a a' x :
  ancestor w a x -> parentNodeOf w a = Some a' -> ancestor w a' x.
Proof.
  intros Hanc Hp. induction Hanc as [|x p Hx _ IH].
  - by apply (ancestor_up w a' a a' Hp), ancestor_self.
  - by apply (ancestor_up w a' x p).
Qed.

Lemma ancestor_is_parent w a x :
  ancestor w a x -> a = x \/ exists c, parentNodeOf w c = Some a.
Proof.
  induction 1 as [|x p Hx Hanc IH]; [by left|]. right.
  destruct IH as [->|IH]; [by exists x|exact IH].
Qed.

Lemma tree_contains_child w k a p x :
  document w -> tree k w a -> k <= size (nodes w) ->
  p ∈ a :: descendants w a -> parentNodeOf w x = Some p -> x ∈ descendants w a.
Proof.
  intros Hdoc Ht Hk Hp Hx. apply (document_parent w x p Hdoc) in Hx.
  apply elem_of_cons in Hp. destruct Hp as [->|Hp].
  - by destruct (descendants_child w (size (nodes w)) k a x Ht Hk Hx).
  - assert (Htp : tree k w p) by by apply (tree_descendant w (size (nodes w)) k a p).
    destruct (descendants_child w (size (nodes w)) k p x Htp Hk Hx) as [Hxp _].
    by apply (descendants_trans w (size (nodes w)) k a p Ht Hk Hp).
Qed.

Lemma ancestor_in_tree w k a x :
  document w -> tree k w a -> k <= size (nodes w) ->
  ancestor w a x -> x ∈ a :: descendants w a.
Proof.
  intros Hdoc Ht Hk. induction 1 as [|x p Hx _ IH]; [left|].
  right. by apply (tree_contains_child w k a p x).
Qed.

Lemma descendant_has_parent w k r x :
  document w -> tree k w r -> k <= size (nodes w) -> x ∈ descendants w r ->
  exists y, y ∈ r :: descendants w r /\ parentNodeOf w x = Some y.
Proof.
  intros Hdoc. revert r. induction k as [|k IH]; intros r Ht Hk Hx; [destruct Ht|].
  destruct (descendants_inv w (size (nodes w)) k r x Ht Hk Hx) as [c [Hc Hxc]].
  destruct (descendants_child w (size (nodes w)) (S k) r c Ht Hk Hc) as [Hcr Hsub].
  destruct Hxc as [->|Hxc].
  - exists r. split; [left|by apply document_child].
  - destruct (tree_child w k r c Ht Hc) as [_ Htc].
    destruct (IH c Htc) as [y [Hy Hxy]]; [lia|exact Hxc|].
    exists y. split; [|exact Hxy]. right.
    apply elem_of_cons in Hy. destruct Hy as [->|Hy]; [exact Hcr|by apply Hsub].
Qed.

Lemma climbing_out w k r y x :
  document w -> tree k w r -> k <= size (nodes w) ->
  y ∈ r :: descendants w r -> ancestor w x y ->
  x ∈ r :: descendants w r \/ ancestor w x r.
Proof.
  intros Hdoc Ht Hk Hy Hanc. revert Hy. induction Hanc as [|y p Hp Hanc IH]; intros Hy.
  - by left.
  - apply elem_of_cons in Hy. destruct Hy as [->|Hy].
    + right. by apply (ancestor_up w x r p).
    + destruct (descendant_has_parent w k r y Hdoc Ht Hk Hy) as [q [Hq Hyq]].
      apply IH. congruence.
Qed.

(** A document satisfies the invariant for the zone made of a tree and of
    everything above it. *)
Lemma Inv_start w k r :
  document w -> is_Some (nodes w !! r) -> tree k w r -> k <= size (nodes w) ->
  Inv w (fun x => exists y, y ∈ r :: descendants w r /\ ancestor w x y)
    (fun x => x ∈ r :: descendants w r) w.
Proof.
  intros Hdoc Hr Ht Hk. constructor.
  - intros p c. by apply document_child.
  - intros p. by apply document_NoDup.
  - intros x Hx. destruct (nodes w !! x) as [d|] eqn:Hd; [|reflexivity].
    assert (x < nextId w) by (apply document_old; eauto). lia.
  - intros x [y [Hy Hanc]]. apply document_old; [exact Hdoc|].
    destruct (ancestor_is_parent w x y Hanc) as [->|Hc]; [|by apply stored_parent].
    apply elem_of_cons in Hy. destruct Hy as [->|Hy]; [exact Hr|].
    destruct (descendant_has_parent w k r y Hdoc Ht Hk Hy) as [q [_ Hq]].
    by apply (in_store_of_parent w y q).
  - intros x p [y [Hy Hanc]] Hp. exists y. split; [exact Hy|].
    by apply (ancestor_top w x p y).
  - intros x p Hp Hk'. exists x. split; [|apply ancestor_self].
    right. by apply (tree_contains_child w k r p x).
  - reflexivity.
Qed.

(** C9. The reference tree is never written to. In a document, let the
    reference [r] be a node and the root of a well-formed tree, let the
    live node [n] be the root of a well-formed tree, and let neither root
    lie in the other's tree. Then, for every set of hooks and options and
    every budget, the pre-passes followed by the mutation pass leave the
    record of every node of the reference tree (its kind, attributes,
    properties, text, parent and child list) exactly as it was, whether
    the run finishes, throws or runs out of budget; the same holds when
    the run starts at the entry point, which also marks the live node
    busy. *)
Theorem morph_never_writes_reference (o : Options) (w : World) (n r : node) (k k' : nat) :
  document w -> is_Some (nodes w !! r) ->
  tree k w r -> k <= size (nodes w) ->
  tree k' w n -> k' <= size (nodes w) ->
  n ∉ r :: descendants w r -> r ∉ descendants w n ->
  forall (fuel : nat) (parseFragment : string -> M (list node)) (x : node),
    x ∈ r :: descendants w r ->
    nodes (finalWorld (morphThenFrame fuel o n r w)) !! x = nodes w !! x
    /\ nodes (finalWorld (morphEntryThenFrame parseFragment fuel o n r w)) !! x
       = nodes w !! x.
Proof.
  intros Hdoc Hr Ht Hk Htn Hkn Hnr Hrn fuel parseFragment x Hx.
  set (zone := fun x => exists y, y ∈ r :: descendants w r /\ ancestor w x y).
  set (kept := fun x => x ∈ r :: descendants w r).
  assert (Hinv : Inv w zone kept w) by by apply (Inv_start w k r).
  assert (Hkz : forall y, kept y -> zone y).
  { intros y Hy. exists y. split; [exact Hy|apply ancestor_self]. }
  assert (Hn : ~ zone n).
  { intros [y [Hy Hanc]].
    destruct (climbing_out w k r y n Hdoc Ht Hk Hy Hanc) as [Hin|Hup]; [contradiction|].
    apply (ancestor_in_tree w k' n r Hdoc Htn Hkn) in Hup.
    apply elem_of_cons in Hup. destruct Hup as [->|Hup]; [|contradiction].
    apply Hnr. left. }
  split.
  - destruct (keeps_morphThenFrame w zone kept fuel o n r w Hkz Hn Hinv) as [Hfin _].
    by apply (inv_frame _ _ _ _ Hfin x).
  - destruct (keeps_morphEntryThenFrame w zone kept parseFragment fuel o n r w Hkz Hn Hinv)
      as [Hfin _].
    by apply (inv_frame _ _ _ _ Hfin x).
Qed.

Lemma morph_never_writes_reference_witness :
  nodes (finalWorld (morphThenFrame 20 allHooks 1 11 swappedList)) !! 12
  = nodes swappedList !! 12
  /\ nodes (finalWorld (morphEntryThenFrame (fun _ => ret []) 20 allHooks 1 11 swappedList))
       !! 12
     = nodes swappedList !! 12.
Proof.
  apply (morph_never_writes_reference allHooks swappedList 1 11 3 3).
  - apply (bool_decide_unpack _). vm_compute. exact I.
  - apply (bool_decide_unpack _). vm_compute. exact I.
  - apply treeb_sound. vm_compute. reflexivity.
  - apply (bool_decide_unpack _). vm_compute. exact I.
  - apply treeb_sound. vm_compute. reflexivity.
  - apply (bool_decide_unpack _). vm_compute. exact I.
  - apply (bool_decide_unpack _). vm_compute. exact I.
  - apply (bool_decide_unpack _). vm_compute. exact I.
  - apply (bool_decide_unpack _). vm_compute. exact I.
Defined.

(** ** What the engine writes to, in general *)

(** A document satisfies the invariant for the zone made of every stored
    node outside a given tree; all of it is kept but the parent of the
    tree's root. *)
Lemma Inv_start_outside w k n :
  document w -> tree k w n -> k <= size (nodes w) ->
  Inv w (fun x => is_Some (nodes w !! x) /\ x ∉ n :: descendants w n)
    (fun x => (is_Some (nodes w !! x) /\ x ∉ n :: descendants w n)
              /\ parentNodeOf w n <> Some x) w.
Proof.
  intros Hdoc Ht Hk. constructor.
  - intros p c. by apply document_child.
  - intros p. by apply document_NoDup.
  - intros x Hx. destruct (nodes w !! x) as [d|] eqn:Hd; [|reflexivity].
    assert (x < nextId w) by (apply document_old; eauto). lia.
  - intros x [Hx _]. by apply document_old.
  - intros x p [Hx Hout] Hp. split.
    + apply stored_parent; [exact Hdoc|]. by exists x.
    + intros Hin. apply Hout. right. by apply (tree_contains_child w k n p x).
  - intros x p Hp [[Hs Hout] Hnp]. split; [by apply (in_store_of_parent w x p)|].
    intros Hin. apply elem_of_cons in Hin. destruct Hin as [->|Hin]; [contradiction|].
    destruct (descendant_has_parent w k n x Hdoc Ht Hk Hin) as [y [Hy Hxy]].
    apply Hout. congruence.
  - reflexivity.
Qed.

(** X1. The engine writes only to the live tree, to the child list of the
    live node's parent, and to nodes it creates. In a document where the
    live node [n] is the root of a well-formed tree, the record of every
    other stored node that is neither in that tree nor the parent of [n]
    is the same after the pre-passes and the mutation pass as before,
    for every reference, hook set and budget, and whether the run
    finishes, throws or runs out of budget. *)
Theorem morph_writes_only_live_tree (o : Options) (w : World) (n r : node) (k : nat) :
  document w -> tree k w n -> k <= size (nodes w) ->
  forall (fuel : nat) (parseFragment : string -> M (list node)) (x : node),
    is_Some (nodes w !! x) -> x ∉ n :: descendants w n -> parentNodeOf w n <> Some x ->
    nodes (finalWorld (morphThenFrame fuel o n r w)) !! x = nodes w !! x
    /\ nodes (finalWorld (morphEntryThenFrame parseFragment fuel o n r w)) !! x
       = nodes w !! x.
Proof.
  intros Hdoc Ht Hk fuel parseFragment x Hs Hout Hnp.
  set (zone := fun x => is_Some (nodes w !! x) /\ x ∉ n :: descendants w n).
  set (kept := fun x => zone x /\ parentNodeOf w n <> Some x).
  assert (Hinv : Inv w zone kept w) by by apply (Inv_start_outside w k n).
  assert (Hkz : forall y, kept y -> zone y) by (by intros y [Hy _]).
  assert (Hn : ~ zone n) by (intros [_ Hn]; apply Hn; left).
  assert (Hx : kept x) by (split; [by split|exact Hnp]).
  split.
  - destruct (keeps_morphThenFrame w zone kept fuel o n r w Hkz Hn Hinv) as [Hfin _].
    by apply (inv_frame _ _ _ _ Hfin x).
  - destruct (keeps_morphEntryThenFrame w zone kept parseFragment fuel o n r w Hkz Hn Hinv)
      as [Hfin _].
    by apply (inv_frame _ _ _ _ Hfin x).
Qed.

Lemma morph_writes_only_live_tree_witness :
  nodes (finalWorld (morphThenFrame 20 allHooks 2 13 swappedList)) !! 3
  = nodes swappedList !! 3
  /\ nodes (finalWorld (morphEntryThenFrame (fun _ => ret []) 20 allHooks 2 13 swappedList))
       !! 3
     = nodes swappedList !! 3.
Proof.
  apply (morph_writes_only_live_tree allHooks swappedList 2 13 2).
  - apply (bool_decide_unpack _). vm_compute. exact I.
  - apply treeb_sound. vm_compute. reflexivity.
  - apply (bool_decide_unpack _). vm_compute. exact I.
  - apply (bool_decide_unpack _). vm_compute. exact I.
  - apply (bool_decide_unpack _). vm_compute. exact I.
  - apply (bool_decide_unpack _). vm_compute. exact I.
Defined.

(** ** The clean-up loop when removal is permitted *)

Lemma parentNodeOf_nodes w w' n : nodes w = nodes w' -> parentNodeOf w n = parentNodeOf w' n.
Proof. unfold parentNodeOf. by intros ->. Qed.

Lemma detach_children_under w x p y :
  parentNodeOf w x = Some p ->
  childNodesOf (detach x w) y
  = if bool_decide (y = p)
    then List.filter (fun c => negb (bool_decide (c = x))) (childNodesOf w y)
    else childNodesOf w y.
Proof.
  intros Hp. unfold childNodesOf. rewrite nodes_detach, Hp.
  rewrite <- !nodes_updateNode, !lookup_updateNode.
  destruct (nodes w !! y) as [d|]; simpl; repeat case_bool_decide; subst; try reflexivity;
    congruence.
Qed.

Lemma detach_parent_under w x p y :
  parentNodeOf w x = Some p -> y <> x ->
  parentNodeOf (detach x w) y = parentNodeOf w y.
Proof.
  intros Hp Hy. unfold parentNodeOf. rewrite nodes_detach. fold (parentNodeOf w x). rewrite Hp.
  rewrite <- !nodes_updateNode, !lookup_updateNode.
  destruct (nodes w !! y) as [d|]; simpl; repeat case_bool_decide; subst; try reflexivity;
    congruence.
Qed.

Lemma removeNode_permitted (m : Morph) (c : node) (w : World) :
  removalHookPermits (options m) ->
  exists w1, removeNode m c w = Ok tt w1 /\ nodes w1 = nodes (detach c w).
Proof.
  intros Hperm. unfold removeNode.
  destruct (beforeNodeRemoved (options m)) as [f|] eqn:Hf; simpl.
  - unfold bind at 1. rewrite (Hperm f Hf).
    destruct (afterNodeRemoved (options m)); simpl; eexists; (split; [reflexivity|]);
      simpl; by rewrite !nodes_detach.
  - destruct (afterNodeRemoved (options m)); simpl; eexists; (split; [reflexivity|]);
      simpl; by rewrite !nodes_detach.
Qed.

Lemma last_snoc_inv (l : list nat) c : last l = Some c -> exists init, l = init ++ [c].
Proof.
  intros Hl. destruct (decide (l = [])) as [->|Hne]; [discriminate|].
  destruct (exists_last Hne) as [init [c' ->]]. rewrite last_snoc in Hl.
  injection Hl as ->. by exists init.
Qed.

(** X2. When the before-node-removed hook does not refuse, the clean-up
    loop of the child reconciliation ends within one step per excess
    child, and what it removes is exactly the excess: the live element is
    left with its first children, as many as the reference has, and the
    reference's child list is as before. *)
Theorem cleanup_removes_exactly_the_excess (m : Morph) (element ref : node) (fuel : nat) :
  removalHookPermits (options m) -> element <> ref ->
  forall w,
    NoDup (childNodesOf w element) ->
    Forall (fun c => parentNodeOf w c = Some element) (childNodesOf w element) ->
    length (childNodesOf w element) - length (childNodesOf w ref) < fuel ->
    exists w',
      morphChildNodes_while m fuel element ref w = Ok tt w'
      /\ childNodesOf w' element
         = take (length (childNodesOf w ref)) (childNodesOf w element)
      /\ childNodesOf w' ref = childNodesOf w ref.
Proof.
  intros Hperm Hne. induction fuel as [|k IH]; intros w Hnd Hpar Hfuel; [lia|].
  cbn [morphChildNodes_while]. rewrite bind_read.
  destruct (length (childNodesOf w ref) <? length (childNodesOf w element)) eqn:Hex.
  - apply Nat.ltb_lt in Hex. rewrite bind_read. unfold lastChildOf.
    destruct (last (childNodesOf w element)) as [c|] eqn:Hlast.
    + destruct (last_snoc_inv _ _ Hlast) as [init Hinit].
      destruct (removeNode_permitted m c w Hperm) as [w1 [Hrun Hn1]].
      unfold bind at 1. rewrite Hrun.
      assert (Hpc : parentNodeOf w c = Some element).
      { rewrite Forall_forall in Hpar. apply Hpar. rewrite Hinit.
        apply elem_of_app. right. left. }
      rewrite Hinit in Hnd. apply NoDup_app in Hnd. destruct Hnd as (Hndi & Hdis & _).
      assert (Hci : c ∉ init).
      { intros Hin. apply (Hdis c Hin). left. }
      assert (Hel : childNodesOf w1 element = init).
      { rewrite (childNodesOf_nodes w1 (detach c w)) by exact Hn1.
        rewrite (detach_children_under w c element element Hpc).
        rewrite bool_decide_eq_true_2 by reflexivity. rewrite Hinit.
        rewrite (filter_out_middle c init []) by (exact Hci || apply not_elem_of_nil).
        apply app_nil_r. }
      assert (Href : childNodesOf w1 ref = childNodesOf w ref).
      { rewrite (childNodesOf_nodes w1 (detach c w)) by exact Hn1.
        rewrite (detach_children_under w c element ref Hpc).
        by rewrite bool_decide_eq_false_2 by congruence. }
      destruct (IH w1) as [w' (Hrun' & Hel' & Href')].
      * by rewrite Hel.
      * rewrite Hel. apply Forall_forall. intros y Hy.
        rewrite (parentNodeOf_nodes w1 (detach c w)) by exact Hn1.
        rewrite (detach_parent_under w c element y Hpc) by (intros ->; contradiction).
        rewrite Forall_forall in Hpar. apply Hpar. rewrite Hinit.
        apply elem_of_app. by left.
      * rewrite Hel, Href. rewrite Hinit, length_app in Hfuel, Hex. simpl in Hfuel, Hex. lia.
      * exists w'. split; [exact Hrun'|]. split; [|congruence].
        rewrite Hel', Hel, Href, Hinit. rewrite Hinit, length_app in Hex. simpl in Hex.
        rewrite take_app_le by lia. reflexivity.
    + destruct (childNodesOf w element); [simpl in Hex; lia|].
      by rewrite last_cons in Hlast; destruct (last l).
  - apply Nat.ltb_ge in Hex. exists w. split; [reflexivity|]. split; [|reflexivity].
    by rewrite take_ge.
Qed.

Lemma cleanup_removes_exactly_the_excess_witness :
  exists w',
    morphChildNodes_while (mkMorph allHooks ∅ ∅) 2 1 3 excessChild = Ok tt w'
    /\ childNodesOf w' 1
       = take (length (childNodesOf excessChild 3)) (childNodesOf excessChild 1)
    /\ childNodesOf w' 3 = childNodesOf excessChild 3.
Proof.
  apply (cleanup_removes_exactly_the_excess (mkMorph allHooks ∅ ∅) 1 3 2).
  - intros f Hf w n. injection Hf as <-. reflexivity.
  - lia.
  - apply (bool_decide_unpack _). vm_compute. exact I.
  - apply (bool_decide_unpack _). vm_compute. exact I.
  - vm_compute. lia.
Defined.

(** ** What the pre-passes record *)

Lemma whileCurrent_elements {A : Type} (P : A -> Prop) w root (visit : node -> A -> A) :
  (forall c a, isElement w c = true -> P a -> P (visit c a)) ->
  forall fuel current acc,
    isElement w current = true -> P acc -> P (whileCurrent fuel w root visit current acc).
Proof.
  intros Hvisit. induction fuel as [|k IH]; intros current acc Hel Hacc; [exact Hacc|].
  cbn [whileCurrent]. case_bool_decide; [by apply Hvisit|].
  unfold parentElement. destruct (parentNodeOf w current) as [p|]; [|by apply Hvisit].
  destruct (isElement w p) eqn:Hp; [|by apply Hvisit].
  apply IH; [exact Hp|by apply Hvisit].
Qed.

Lemma fold_left_invariant {A B : Type} (P : A -> Prop) (Q : B -> Prop) (f : A -> B -> A)
    (l : list B) :
  (forall a b, Q b -> P a -> P (f a b)) -> Forall Q l -> forall a, P a -> P (fold_left f l a).
Proof.
  intros Hf Hl. induction Hl as [|b l Hb _ IH]; intros a Ha; [exact Ha|].
  simpl. apply IH. by apply Hf.
Qed.

Lemma querySelectorAll_elements w n sel :
  Forall (fun e => isElement w e = true) (querySelectorAll w n sel).
Proof.
  apply Forall_forall. intros e He. unfold querySelectorAll in He.
  apply list_elem_of_In, filter_In in He. destruct He as [_ He].
  by apply andb_true_iff in He as [He _].
Qed.

Lemma sensivityOf_positive w e : 1 <= sensivityOf w e.
Proof. unfold sensivityOf. destruct (_ || _); lia. Qed.

(** X3. The sensitivity pre-pass only ever records positive scores, and
    only on elements: started from a map with that property (the empty
    map for one), every entry of the resulting map belongs to an element
    and is at least 1. So the test [sensitivity > 0] of [#insertBefore]
    holds exactly of the nodes that have an entry. *)
Theorem mapSensivity_entries_positive (w : World) (root : node) (acc : gmap nat nat) :
  (forall x s, acc !! x = Some s -> isElement w x = true /\ 1 <= s) ->
  forall x s, mapSensivity w root acc !! x = Some s -> isElement w x = true /\ 1 <= s.
Proof.
  intros Hacc. unfold mapSensivity.
  apply (fold_left_invariant
           (fun m : gmap nat nat => forall x s, m !! x = Some s -> isElement w x = true /\ 1 <= s)
           (fun e => isElement w e = true)); [|apply querySelectorAll_elements|exact Hacc].
  intros m e He Hm.
  apply (whileCurrent_elements
           (fun m : gmap nat nat => forall x s, m !! x = Some s -> isElement w x = true /\ 1 <= s));
    [|exact He|exact Hm].
  intros c a Hc Ha x s. destruct (decide (c = x)) as [->|Hne].
  - rewrite lookup_insert_eq. intros E. injection E as <-. split; [exact Hc|].
    pose proof (sensivityOf_positive w e). lia.
  - rewrite lookup_insert_ne by exact Hne. apply Ha.
Qed.

Lemma mapSensivity_entries_positive_witness :
  isElement smallTree 2 = true /\ 1 <= 2.
Proof.
  apply (mapSensivity_entries_positive smallTree 1 ∅).
  - intros x s Hx. rewrite lookup_empty in Hx. discriminate Hx.
  - vm_compute. reflexivity.
Defined.

(** X4. The id-set pre-pass only grows the map it is given, and keeps it
    proper: when every set of the given map is non-empty and free of the
    empty id, so is every set of the result; every entry of the given map
    is still there, with at least the ids it had. This is what lets
    [Morph.morph] run the pass twice, over the live tree and over the
    reference, into one map. *)
Theorem mapIdSets_grows_proper_sets (w : World) (root : node) (acc : gmap nat (gset string)) :
  (forall x ids, acc !! x = Some ids -> ids <> ∅ /\ "" ∉ ids) ->
  (forall x ids, mapIdSets w root acc !! x = Some ids -> ids <> ∅ /\ "" ∉ ids)
  /\ (forall x ids, acc !! x = Some ids ->
        exists ids', mapIdSets w root acc !! x = Some ids' /\ ids ⊆ ids').
Proof.
  intros Hacc. unfold mapIdSets.
  set (P := fun m : gmap nat (gset string) =>
    (forall x ids, m !! x = Some ids -> ids <> ∅ /\ "" ∉ ids)
    /\ (forall x ids, acc !! x = Some ids -> exists ids', m !! x = Some ids' /\ ids ⊆ ids')).
  apply (fold_left_invariant P (fun e => isElement w e = true));
    [|apply querySelectorAll_elements|].
  - intros m e He Hm. case_bool_decide as Hid; [exact Hm|].
    apply (whileCurrent_elements P); [|exact He|exact Hm].
    intros c a _ [Ha1 Ha2]. split.
    + intros x ids. destruct (a !! c) as [idSet|] eqn:Hc.
      * destruct (decide (c = x)) as [->|Hne].
        -- rewrite lookup_insert_eq. intros E. injection E as <-.
           destruct (Ha1 x idSet Hc) as [_ Hno]. split; [set_solver|].
           rewrite elem_of_union, elem_of_singleton. intros [?|?]; [contradiction|congruence].
        -- rewrite lookup_insert_ne by exact Hne. apply Ha1.
      * destruct (decide (c = x)) as [->|Hne].
        -- rewrite lookup_insert_eq. intros E. injection E as <-. split; [set_solver|].
           rewrite elem_of_singleton. congruence.
        -- rewrite lookup_insert_ne by exact Hne. apply Ha1.
    + intros x ids Hx. destruct (Ha2 x ids Hx) as [ids' [Hx' Hsub]].
      destruct (a !! c) as [idSet|] eqn:Hc.
      * destruct (decide (c = x)) as [->|Hne].
        -- rewrite lookup_insert_eq. exists (idSet ∪ {[idOf w e]}). split; [reflexivity|].
           rewrite Hx' in Hc. injection Hc as <-. set_solver.
        -- rewrite lookup_insert_ne by exact Hne. by exists ids'.
      * destruct (decide (c = x)) as [->|Hne]; [congruence|].
        rewrite lookup_insert_ne by exact Hne. by exists ids'.
  - split; [exact Hacc|]. intros x ids Hx. by exists ids.
Qed.

Lemma mapIdSets_grows_proper_sets_witness :
  (forall x ids, mapIdSets swappedList 11 (mapIdSets swappedList 1 ∅) !! x = Some ids ->
     ids <> ∅ /\ "" ∉ ids)
  /\ (forall x ids, mapIdSets swappedList 1 ∅ !! x = Some ids ->
        exists ids', mapIdSets swappedList 11 (mapIdSets swappedList 1 ∅) !! x = Some ids'
                     /\ ids ⊆ ids').
Proof.
  apply (mapIdSets_grows_proper_sets swappedList 11 (mapIdSets swappedList 1 ∅)).
  apply (mapIdSets_grows_proper_sets swappedList 1 ∅).
  intros x ids Hx. rewrite lookup_empty in Hx. discriminate Hx.
Defined.

(** ** The child reconciliation, when it finishes *)

Lemma bind_Ok_inv {A B : Type} (c : M A) (f : A -> M B) w b w' :
  bind c f w = Ok b w' -> exists a w1, c w = Ok a w1 /\ f a w1 = Ok b w'.
Proof. unfold bind. destruct (c w) as [a w1| |]; [by exists a, w1|discriminate|discriminate]. Qed.

Lemma morphChildNodes_while_exit (m : Morph) (element ref : node) (fuel : nat) :
  forall w w',
    morphChildNodes_while m fuel element ref w = Ok tt w' ->
    length (childNodesOf w' element) <= length (childNodesOf w' ref).
Proof.
  induction fuel as [|k IH]; intros w w' Hrun; [discriminate Hrun|].
  cbn [morphChildNodes_while] in Hrun. rewrite bind_read in Hrun.
  destruct (length (childNodesOf w ref) <? length (childNodesOf w element)) eqn:Hex.
  - rewrite bind_read in Hrun. apply bind_Ok_inv in Hrun.
    destruct Hrun as (a & w1 & _ & Hrun). by apply (IH w1).
  - injection Hrun as <-. by apply Nat.ltb_ge in Hex.
Qed.

(** X5. Whenever the child reconciliation finishes, whatever the hooks
    answered and whatever the recursive calls did, the live element has
    no more children than the reference. *)
Theorem morphChildNodes_leaves_no_excess (m : Morph) (fuel : nat)
    (self : node -> node -> M unit) (element ref : node) (w w' : World) :
  morphChildNodes m fuel self element ref w = Ok tt w' ->
  length (childNodesOf w' element) <= length (childNodesOf w' ref).
Proof.
  unfold morphChildNodes. intros Hrun. apply bind_Ok_inv in Hrun.
  destruct Hrun as (a & w1 & _ & Hrun). by apply (morphChildNodes_while_exit m element ref fuel w1).
Qed.

Lemma morphChildNodes_leaves_no_excess_witness :
  length (childNodesOf
            (finalWorld (morphChildNodes (prepared allHooks excessChild 1 3) 5
                           (morphNode (prepared allHooks excessChild 1 3) 5) 1 3 excessChild)) 1)
  <= length (childNodesOf
               (finalWorld (morphChildNodes (prepared allHooks excessChild 1 3) 5
                              (morphNode (prepared allHooks excessChild 1 3) 5) 1 3 excessChild)) 3).
Proof.
  apply (morphChildNodes_leaves_no_excess (prepared allHooks excessChild 1 3) 5
           (morphNode (prepared allHooks excessChild 1 3) 5) 1 3 excessChild).
  vm_compute. reflexivity.
Defined.

(** ** Attribute lists *)

Lemma assoc_setAssoc_eq k v (l : list (string * string)) : assoc k (setAssoc k v l) = Some v.
Proof.
  induction l as [|[k' v'] l IH]; simpl.
  - by rewrite bool_decide_eq_true_2.
  - destruct (decide (k' = k)) as [E|E].
    + rewrite (bool_decide_eq_true_2 (k' = k)) by exact E. simpl.
      by rewrite bool_decide_eq_true_2.
    + rewrite (bool_decide_eq_false_2 (k' = k)) by exact E. simpl.
      by rewrite (bool_decide_eq_false_2 (k' = k)) by exact E.
Qed.

Lemma assoc_setAssoc_ne k k' v (l : list (string * string)) :
  k' <> k -> assoc k' (setAssoc k v l) = assoc k' l.
Proof.
  intros Hne. induction l as [|[k0 v0] l IH]; simpl.
  - by rewrite bool_decide_eq_false_2 by congruence.
  - destruct (decide (k0 = k)) as [E|E].
    + subst k0. rewrite (bool_decide_eq_true_2 (k = k)) by reflexivity. simpl.
      by rewrite !(bool_decide_eq_false_2 (k = k')) by congruence.
    + rewrite (bool_decide_eq_false_2 (k0 = k)) by exact E. simpl. by rewrite IH.
Qed.

Lemma assoc_removeAssoc_ne k k' (l : list (string * string)) :
  k' <> k -> assoc k' (removeAssoc k l) = assoc k' l.
Proof.
  intros Hne. induction l as [|[k0 v0] l IH]; simpl; [reflexivity|].
  destruct (decide (k0 = k)) as [E|E].
  - subst k0. rewrite (bool_decide_eq_true_2 (k = k)) by reflexivity.
    by rewrite (bool_decide_eq_false_2 (k = k')) by congruence.
  - rewrite (bool_decide_eq_false_2 (k0 = k)) by exact E. simpl. by rewrite IH.
Qed.

Lemma assoc_None k (l : list (string * string)) : k ∉ map fst l -> assoc k l = None.
Proof.
  induction l as [|[k0 v0] l IH]; simpl; intros Hk; [reflexivity|].
  apply not_elem_of_cons in Hk. destruct Hk as [Hne Hk].
  rewrite bool_decide_eq_false_2 by congruence. by apply IH.
Qed.

Lemma assoc_removeAssoc_eq k (l : list (string * string)) :
  NoDup (map fst l) -> assoc k (removeAssoc k l) = None.
Proof.
  induction l as [|[k0 v0] l IH]; simpl; intros Hnd; [reflexivity|].
  apply NoDup_cons in Hnd. destruct Hnd as [Hk0 Hnd].
  destruct (decide (k0 = k)) as [E|E].
  - subst k0. rewrite (bool_decide_eq_true_2 (k = k)) by reflexivity. by apply assoc_None.
  - rewrite (bool_decide_eq_false_2 (k0 = k)) by exact E. simpl.
    rewrite (bool_decide_eq_false_2 (k0 = k)) by exact E. by apply IH.
Qed.

Lemma setAssoc_names k v (l : list (string * string)) :
  map fst (setAssoc k v l)
  = if bool_decide (k ∈ map fst l) then map fst l else map fst l ++ [k].
Proof.
  induction l as [|[k0 v0] l IH]; simpl; [reflexivity|].
  destruct (decide (k0 = k)) as [E|E].
  - subst k0. rewrite (bool_decide_eq_true_2 (k = k)) by reflexivity. simpl.
    by rewrite bool_decide_eq_true_2 by left.
  - rewrite (bool_decide_eq_false_2 (k0 = k)) by exact E. simpl.
    rewrite IH. destruct (decide (k ∈ map fst l)) as [Hin|Hnin].
    + rewrite !bool_decide_eq_true_2; [reflexivity|by right|exact Hin].
    + rewrite !bool_decide_eq_false_2; [reflexivity| |exact Hnin].
      rewrite elem_of_cons. intros [?|?]; [congruence|contradiction].
Qed.

Lemma NoDup_setAssoc k v (l : list (string * string)) :
  NoDup (map fst l) -> NoDup (map fst (setAssoc k v l)).
Proof.
  intros Hnd. rewrite setAssoc_names. case_bool_decide as E; [exact Hnd|].
  apply NoDup_app. split; [exact Hnd|]. split; [|apply NoDup_singleton].
  intros x Hx Hx'. apply list_elem_of_singleton in Hx'. by subst x.
Qed.

Lemma attributesOf_updateNode n f w x :
  attributesOf (updateNode n f w) x
  = if bool_decide (n = x)
    then match nodes w !! x with Some d => attributes (f d) | None => [] end
    else attributesOf w x.
Proof.
  unfold attributesOf. rewrite lookup_updateNode.
  case_bool_decide; [|reflexivity]. by destruct (nodes w !! x).
Qed.

Lemma isElement_stored w n : isElement w n = true -> is_Some (nodes w !! n).
Proof.
  unfold isElement, nodeTypeOf. intros H. apply bool_decide_eq_true in H.
  destruct (nodes w !! n); [eauto|discriminate].
Qed.

(** ** The entry point and the busy marker *)

(** X6. Called with an element and a node as reference, the entry point
    returns the scheduled frame with the busy marker already taken off
    again: in the document it leaves, the element has no [aria-busy]
    attribute, whatever it had before, its other attributes and all other
    nodes are as they were, and the only host calls made are the two
    writes of the marker. The mutation pass, which runs later, therefore
    never runs under the marker. *)
Theorem morph_returns_with_busy_marker_cleared
    (parseFragment : string -> M (list node)) (o : Options) (w : World) (n r : node) :
  isElement w n = true -> NoDup (map fst (attributesOf w n)) ->
  exists f w',
    morph parseFragment n (inl r) o w = Ok f w'
    /\ frameNode f = n /\ frameReference f = r
    /\ getAttribute w' n "aria-busy" = None
    /\ (forall k, k <> "aria-busy" -> getAttribute w' n k = getAttribute w n k)
    /\ (forall x, x <> n -> nodes w' !! x = nodes w !! x)
    /\ ops w' = ops w ++ [OpSetAriaBusy n (Some "true"); OpSetAriaBusy n None]
    /\ calls w' = calls w.
Proof.
  intros Hel Hnd. destruct (isElement_stored w n Hel) as [d Hd].
  assert (Hrun : exists f w',
            morph parseFragment n (inl r) o w = Ok f w'
            /\ frameNode f = n /\ frameReference f = r
            /\ nodes w'
               = alter (fun d => with_attributes d (removeAssoc "aria-busy" (attributes d))) n
                   (alter (fun d => with_attributes d (setAssoc "aria-busy" "true" (attributes d)))
                      n (nodes w))
            /\ ops w' = ops w ++ [OpSetAriaBusy n (Some "true"); OpSetAriaBusy n None]
            /\ calls w' = calls w).
  { unfold morph. rewrite (bind_Ok (ret r) _ w r w eq_refl). rewrite bind_read, Hel.
    eexists _, _. split; [reflexivity|]. simpl. rewrite <- app_assoc. by repeat split. }
  destruct Hrun as (f & w' & Hrun & Hf1 & Hf2 & Hn & Hops & Hcalls).
  assert (Hattrs : attributesOf w' n
                   = removeAssoc "aria-busy" (setAssoc "aria-busy" "true" (attributesOf w n))).
  { unfold attributesOf. by rewrite Hn, !lookup_alter_eq, Hd. }
  exists f, w'. split; [exact Hrun|]. split; [exact Hf1|]. split; [exact Hf2|].
  split; [|split; [|split; [|split; [exact Hops|exact Hcalls]]]].
  - unfold getAttribute. rewrite Hattrs. apply assoc_removeAssoc_eq. by apply NoDup_setAssoc.
  - intros k Hk. unfold getAttribute. rewrite Hattrs.
    rewrite assoc_removeAssoc_ne by exact Hk. by apply assoc_setAssoc_ne.
  - intros x Hx. rewrite Hn. by rewrite !lookup_alter_ne by congruence.
Qed.

Lemma morph_returns_with_busy_marker_cleared_witness :
  exists f w',
    morph (fun _ => ret []) 1 (inl 2) noHooks busyDiv = Ok f w'
    /\ frameNode f = 1 /\ frameReference f = 2
    /\ getAttribute w' 1 "aria-busy" = None
    /\ (forall k, k <> "aria-busy" -> getAttribute w' 1 k = getAttribute busyDiv 1 k)
    /\ (forall x, x <> 1 -> nodes w' !! x = nodes busyDiv !! x)
    /\ ops w' = ops busyDiv ++ [OpSetAriaBusy 1 (Some "true"); OpSetAriaBusy 1 None]
    /\ calls w' = calls busyDiv.
Proof.
  apply (morph_returns_with_busy_marker_cleared (fun _ => ret []) noHooks busyDiv 1 2).
  - vm_compute. reflexivity.
  - apply (bool_decide_unpack _). vm_compute. exact I.
Defined.

(** ** Text, comments and other character data *)

Lemma callBefore_permitted (h : option (World -> bool)) (c : HookCall) (w : World) :
  (forall f, h = Some f -> f w = true) ->
  exists w1, callBefore h c w = Ok true w1
    /\ nodes w1 = nodes w /\ activeElement w1 = activeElement w
    /\ nextId w1 = nextId w /\ ops w1 = ops w.
Proof.
  intros Hperm. destruct h as [f|]; simpl.
  - rewrite (Hperm f eq_refl). by eexists.
  - by eexists.
Qed.

Lemma callAfter_done (present : bool) (c : HookCall) (w : World) :
  exists w1, callAfter present c w = Ok tt w1
    /\ nodes w1 = nodes w /\ activeElement w1 = activeElement w
    /\ nextId w1 = nextId w /\ ops w1 = ops w.
Proof. destruct present; simpl; by eexists. Qed.

Lemma nodeValueOf_nodes w w' n : nodes w = nodes w' -> nodeValueOf w n = nodeValueOf w' n.
Proof. unfold nodeValueOf. by intros ->. Qed.

Lemma nodeTypeOf_nodes w w' n : nodes w = nodes w' -> nodeTypeOf w n = nodeTypeOf w' n.
Proof. unfold nodeTypeOf. by intros ->. Qed.

Lemma updateProperty_nodeValue (m : Morph) (n : node) (v : string) (w : World) :
  propertyHookPermits (options m) -> isCharacterData w n = true ->
  exists w',
    updateProperty m n PNodeValue (VStr v) w = Ok tt w'
    /\ nodeValueOf w' n = Some v
    /\ (forall x, x <> n -> nodes w' !! x = nodes w !! x)
    /\ parentNodeOf w' n = parentNodeOf w n
    /\ ops w' = ops w ++ (if bool_decide (nodeValueOf w n = Some v) then []
                          else [OpSetProperty n PNodeValue (VStr v)]).
Proof.
  intros Hperm Hcd.
  assert (Hst : is_Some (nodes w !! n)).
  { unfold isCharacterData, nodeTypeOf in Hcd. apply bool_decide_eq_true in Hcd.
    destruct (nodes w !! n); [eauto|]. exfalso. revert Hcd.
    rewrite !elem_of_cons, elem_of_nil. lia. }
  destruct Hst as [d Hd].
  unfold updateProperty. rewrite bind_read.
  assert (Hget : getProperty w n PNodeValue = optionVal (nodeValue d))
    by (unfold getProperty; by rewrite Hd).
  assert (Hnv : nodeValueOf w n = nodeValue d) by (unfold nodeValueOf; by rewrite Hd).
  rewrite Hget, Hnv. case_bool_decide as Hdiff.
  - destruct (callBefore_permitted
                (option_map (fun f w => f w n PNodeValue (VStr v))
                   (beforePropertyUpdated (options m)))
                (BeforePropertyUpdated n PNodeValue (VStr v)) w)
      as (w1 & Hrun1 & Hn1 & Ha1 & Hi1 & Ho1).
    { intros f Hf. destruct (beforePropertyUpdated (options m)) as [g|] eqn:Hg; [|discriminate].
      injection Hf as <-. by apply (Hperm g). }
    rewrite (bind_Ok _ _ _ _ _ Hrun1).
    assert (Hcd1 : isCharacterData w1 n = true).
    { unfold isCharacterData. by rewrite (nodeTypeOf_nodes w1 w n Hn1). }
    set (w2 := setProperty n PNodeValue (VStr v) w1).
    rewrite (bind_Ok (modify (setProperty n PNodeValue (VStr v))) _ w1 tt w2 eq_refl).
    destruct (callAfter_done (afterPropertyUpdated (options m))
                (AfterPropertyUpdated n PNodeValue (optionVal (nodeValue d))) w2)
      as (w3 & Hrun3 & Hn3 & _ & _ & Ho3).
    exists w3. split; [exact Hrun3|].
    assert (Hn2 : nodes w2 = alter (fun d => with_nodeValue d (Some v)) n (nodes w)).
    { unfold w2, setProperty. rewrite Hcd1. simpl. by rewrite Hn1. }
    split; [|split; [|split]].
    + unfold nodeValueOf. by rewrite Hn3, Hn2, lookup_alter_eq, Hd.
    + intros x Hx. by rewrite Hn3, Hn2, lookup_alter_ne by congruence.
    + unfold parentNodeOf. by rewrite Hn3, Hn2, lookup_alter_eq, Hd.
    + rewrite Ho3. unfold w2, setProperty. rewrite Hcd1. simpl. rewrite Ho1.
      rewrite bool_decide_eq_false_2; [reflexivity|].
      intros E. apply Hdiff. by rewrite E.
  - exists w. split; [reflexivity|].
    assert (Hv : nodeValue d = Some v) by (destruct (nodeValue d); simpl in Hdiff; congruence).
    split; [by rewrite Hnv|]. split; [done|]. split; [done|].
    by rewrite bool_decide_eq_true_2, app_nil_r.
Qed.

(** X7. Morphing a text, comment or other character-data node against a
    reference node of the same kind, the hooks not refusing, keeps the
    live node where it is and gives it the reference's data: afterwards
    its [nodeValue] is the reference's, its parent is unchanged, no other
    node has changed, and the one host call made, if the data differed,
    is the assignment of [nodeValue]. *)
Theorem morphNode_syncs_character_data (m : Morph) (k : nat) (n r : node) (w : World) :
  morphHookPermits (options m) -> propertyHookPermits (options m) ->
  isCharacterData w n = true -> nodeTypeOf w n = nodeTypeOf w r ->
  is_Some (nodeValueOf w n) -> is_Some (nodeValueOf w r) ->
  exists w',
    morphNode m (S k) n r w = Ok tt w'
    /\ nodeValueOf w' n = nodeValueOf w r
    /\ (forall x, x <> n -> nodes w' !! x = nodes w !! x)
    /\ parentNodeOf w' n = parentNodeOf w n
    /\ ops w' = ops w ++ (if bool_decide (nodeValueOf w n = nodeValueOf w r) then []
                          else [OpSetProperty n PNodeValue
                                  (VStr (default "" (nodeValueOf w r)))]).
Proof.
  intros Hmorph Hprop Hcd Hty [vn Hvn] [vr Hvr].
  cbn [morphNode].
  destruct (callBefore_permitted
              (option_map (fun f w => f w n r) (beforeNodeMorphed (options m)))
              (BeforeNodeMorphed n r) w)
    as (w1 & Hrun1 & Hn1 & Ha1 & Hi1 & Ho1).
  { intros f Hf. destruct (beforeNodeMorphed (options m)) as [g|] eqn:Hg; [|discriminate].
    injection Hf as <-. by apply (Hmorph g). }
  rewrite (bind_Ok _ _ _ _ _ Hrun1). cbn [negb]. rewrite bind_read.
  assert (Hnel : isElement w1 n = false).
  { unfold isElement. rewrite (nodeTypeOf_nodes w1 w n Hn1).
    unfold isCharacterData in Hcd. apply bool_decide_eq_true in Hcd.
    apply bool_decide_eq_false. intros E. rewrite E in Hcd. revert Hcd.
    rewrite !elem_of_cons, elem_of_nil. lia. }
  rewrite Hnel. cbn [andb].
  assert (Hget : getProperty w1 r PNodeValue = VStr vr).
  { unfold getProperty. rewrite Hn1. unfold nodeValueOf in Hvr.
    destruct (nodes w !! r) as [dr|]; [|discriminate]. by rewrite Hvr. }
  assert (Hcd1 : isCharacterData w1 n = true).
  { unfold isCharacterData. by rewrite (nodeTypeOf_nodes w1 w n Hn1). }
  destruct (updateProperty_nodeValue m n vr w1 Hprop Hcd1)
    as (w2 & Hrun2 & Hv2 & Hother2 & Hp2 & Ho2).
  assert (Hinner :
    (do textual <-
       read (fun w => bool_decide (nodeTypeOf w n = nodeTypeOf w r)
                      && bool_decide (is_Some (nodeValueOf w n))
                      && bool_decide (is_Some (nodeValueOf w r)));;
     if textual then
       do v <- read (fun w => getProperty w r PNodeValue);;
       updateProperty m n PNodeValue v
     else
       do c <- cloneNode r;;
       replaceNode m n c) w1 = Ok tt w2).
  { rewrite bind_read.
    rewrite (nodeTypeOf_nodes w1 w n Hn1), (nodeTypeOf_nodes w1 w r Hn1).
    rewrite (nodeValueOf_nodes w1 w n Hn1), (nodeValueOf_nodes w1 w r Hn1).
    rewrite (bool_decide_eq_true_2 _ Hty).
    rewrite (bool_decide_eq_true_2 (is_Some (nodeValueOf w n))) by (rewrite Hvn; eauto).
    rewrite (bool_decide_eq_true_2 (is_Some (nodeValueOf w r))) by (rewrite Hvr; eauto).
    cbn [andb]. rewrite bind_read, Hget. exact Hrun2. }
  rewrite (bind_Ok _ _ _ _ _ Hinner).
  destruct (callAfter_done (afterNodeMorphed (options m)) (AfterNodeMorphed n r) w2)
    as (w3 & Hrun3 & Hn3 & _ & _ & Ho3).
  exists w3. split; [exact Hrun3|]. split; [|split; [|split]].
  - rewrite (nodeValueOf_nodes w3 w2 n Hn3). by rewrite Hv2, Hvr.
  - intros x Hx. by rewrite Hn3, Hother2, Hn1.
  - rewrite (parentNodeOf_nodes w3 w2 n Hn3), Hp2. by apply parentNodeOf_nodes.
  - rewrite Ho3, Ho2, Ho1, Hvr. rewrite (nodeValueOf_nodes w1 w n Hn1). reflexivity.
Qed.

Lemma morphNode_syncs_character_data_witness :
  exists w',
    morphNode (mkMorph allHooks ∅ ∅) 1 2 4 textareaPair = Ok tt w'
    /\ nodeValueOf w' 2 = nodeValueOf textareaPair 4
    /\ (forall x, x <> 2 -> nodes w' !! x = nodes textareaPair !! x)
    /\ parentNodeOf w' 2 = parentNodeOf textareaPair 2
    /\ ops w' = ops textareaPair
                ++ (if bool_decide (nodeValueOf textareaPair 2 = nodeValueOf textareaPair 4)
                    then []
                    else [OpSetProperty 2 PNodeValue
                            (VStr (default "" (nodeValueOf textareaPair 4)))]).
Proof.
  apply (morphNode_syncs_character_data (mkMorph allHooks ∅ ∅) 0 2 4 textareaPair).
  - intros f Hf w n r. injection Hf as <-. reflexivity.
  - intros f Hf w n p v. injection Hf as <-. reflexivity.
  - vm_compute. reflexivity.
  - vm_compute. reflexivity.
  - apply (bool_decide_unpack _). vm_compute. exact I.
  - apply (bool_decide_unpack _). vm_compute. exact I.
Defined.

(** ** Attribute reconciliation *)

Lemma gated_update (h : option (World -> bool)) (c c' : HookCall) (present : bool)
    (op : HostOp) (el : node) (f : NodeData -> NodeData) (w : World) :
  exists (ok : bool) (w' : World),
    (do ok' <- callBefore h c;;
     if ok' then (modify (fun w => log_op op (updateNode el f w));; callAfter present c')
     else ret tt) w = Ok tt w'
    /\ nodes w' = (if ok then alter f el (nodes w) else nodes w)
    /\ nextId w' = nextId w
    /\ ((forall g, h = Some g -> g w = true) -> ok = true).
Proof.
  destruct h as [g|]; simpl.
  - unfold bind at 1. destruct (g w) eqn:Hg.
    + exists true. destruct present; eexists; (split; [reflexivity|]); by repeat split.
    + exists false. eexists. split; [reflexivity|]. repeat split.
      intros Hperm. rewrite <- Hg. by apply Hperm.
  - exists true. destruct present; eexists; (split; [reflexivity|]); by repeat split.
Qed.

Lemma attributesOf_nodes w w' n : nodes w = nodes w' -> attributesOf w n = attributesOf w' n.
Proof. unfold attributesOf. by intros ->. Qed.

Lemma attributesOf_alter (f : NodeData -> NodeData) el w w' x :
  nodes w' = alter f el (nodes w) ->
  attributesOf w' x
  = if bool_decide (el = x)
    then match nodes w !! x with Some d => attributes (f d) | None => [] end
    else attributesOf w x.
Proof.
  intros Hn. rewrite <- (attributesOf_updateNode el f w x).
  by apply attributesOf_nodes.
Qed.

Lemma removeAssoc_middle k v (l1 l2 : list (string * string)) :
  k ∉ map fst l1 -> removeAssoc k (l1 ++ (k, v) :: l2) = l1 ++ l2.
Proof.
  induction l1 as [|[k0 v0] l1 IH]; simpl; intros Hk.
  - by rewrite bool_decide_eq_true_2.
  - apply not_elem_of_cons in Hk. destruct Hk as [Hne Hk].
    rewrite bool_decide_eq_false_2 by congruence. by rewrite IH.
Qed.

Lemma lookup_app_head {A : Type} (l1 l2 : list A) : (l1 ++ l2) !! length l1 = head l2.
Proof.
  rewrite lookup_app_r by lia. rewrite Nat.sub_diag. by destruct l2.
Qed.

Lemma excess_skips (m : Morph) (element ref : node) :
  attributeHookPermits (options m) -> element <> ref ->
  forall fuel kept rest w,
    attributesOf w element = kept ++ rest ->
    NoDup (map fst (kept ++ rest)) ->
    (forall k, k ∈ map fst rest -> hasAttribute w ref k = false) ->
    length rest < fuel ->
    exists w',
      morphAttributes_excess m fuel element ref (length kept) w = Ok tt w'
      /\ attributesOf w' element = kept ++ everySecond rest
      /\ (forall x, x <> element -> nodes w' !! x = nodes w !! x).
Proof.
  intros Hperm Hne. induction fuel as [|fuel IH]; intros kept rest w Hattrs Hnd Href Hfuel; [lia|].
  cbn [morphAttributes_excess]. rewrite bind_read, Hattrs, lookup_app_head.
  destruct rest as [|[k v] rest]; [exists w; by rewrite app_nil_r in *|].
  cbn [head]. rewrite bind_read, (Href k) by left. cbn [negb].
  unfold removeAttribute.
  destruct (gated_update
              (option_map (fun f w => f w element k None) (beforeAttributeUpdated (options m)))
              (BeforeAttributeUpdated element k None)
              (AfterAttributeUpdated element k (Some v)) (afterAttributeUpdated (options m))
              (OpRemoveAttribute element k) element
              (fun d => with_attributes d (removeAssoc k (attributes d))) w)
    as (ok & w1 & Hrun & Hn1 & _ & Hok).
  rewrite (bind_Ok _ _ _ _ _ Hrun).
  rewrite Hok in Hn1.
  2:{ intros g Hg. destruct (beforeAttributeUpdated (options m)) as [g'|] eqn:Hg'; [|discriminate].
      injection Hg as <-. by apply (Hperm g'). }
  assert (Hk : k ∉ map fst kept).
  { rewrite map_app in Hnd. apply NoDup_app in Hnd. destruct Hnd as (_ & Hdis & _).
    intros Hin. apply (Hdis k Hin). left. }
  assert (Hattrs1 : attributesOf w1 element = kept ++ rest).
  { rewrite (attributesOf_alter _ element w w1 element Hn1).
    rewrite bool_decide_eq_true_2 by reflexivity.
    unfold attributesOf in Hattrs. destruct (nodes w !! element) as [d|]; simpl.
    - rewrite Hattrs. by apply removeAssoc_middle.
    - by destruct kept. }
  assert (Hother1 : forall x, x <> element -> nodes w1 !! x = nodes w !! x).
  { intros x Hx. rewrite Hn1. by apply lookup_alter_ne. }
  assert (Href1 : forall k', hasAttribute w1 ref k' = hasAttribute w ref k').
  { intros k'. unfold hasAttribute, getAttribute, attributesOf.
    by rewrite Hother1 by congruence. }
  assert (Hnd1 : NoDup (map fst (kept ++ rest))).
  { rewrite map_app in *. apply NoDup_app in Hnd. destruct Hnd as (H1 & H2 & H3).
    simpl in H3. apply NoDup_cons in H3. destruct H3 as [_ H3].
    apply NoDup_app. split; [exact H1|]. split; [|exact H3].
    intros x Hx Hx'. apply (H2 x Hx). by right. }
  destruct rest as [|b rest].
  - destruct fuel as [|fuel]; [simpl in Hfuel; lia|].
    cbn [morphAttributes_excess]. rewrite bind_read, Hattrs1.
    rewrite lookup_ge_None_2 by (rewrite app_nil_r; lia).
    exists w1. split; [reflexivity|]. split; [exact Hattrs1|exact Hother1].
  - destruct (IH (kept ++ [b]) rest w1) as (w' & Hrun' & Hattrs' & Hother').
    + by rewrite <- app_assoc.
    + by rewrite <- app_assoc.
    + intros k' Hk'. rewrite Href1. apply Href. right. by right.
    + simpl in Hfuel. lia.
    + rewrite length_app in Hrun'. simpl in Hrun'. rewrite Nat.add_1_r in Hrun'.
      exists w'. split; [exact Hrun'|]. split.
      * rewrite Hattrs'. by rewrite <- app_assoc.
      * intros x Hx. by rewrite Hother', Hother1.
Qed.

(** X9. The first loop of [#morphAttributes] walks the live attribute
    list by position while it removes from it, so the attribute that
    follows a removed one moves into the position just visited and is
    passed over. When the reference has none of the live element's
    attributes and the attribute hook does not refuse, the loop ends with
    every second attribute of the live element still in place. *)
Theorem morphAttributes_excess_removes_every_other
    (m : Morph) (element ref : node) (fuel : nat) (w : World) :
  attributeHookPermits (options m) -> element <> ref ->
  NoDup (map fst (attributesOf w element)) ->
  Forall (fun k => hasAttribute w ref k = false) (map fst (attributesOf w element)) ->
  length (attributesOf w element) < fuel ->
  exists w',
    morphAttributes_excess m fuel element ref 0 w = Ok tt w'
    /\ attributesOf w' element = everySecond (attributesOf w element)
    /\ (forall x, x <> element -> nodes w' !! x = nodes w !! x).
Proof.
  intros Hperm Hne Hnd Href Hfuel. rewrite Forall_forall in Href.
  by apply (excess_skips m element ref Hperm Hne fuel [] (attributesOf w element) w).
Qed.

Lemma morphAttributes_excess_removes_every_other_witness :
  exists w',
    morphAttributes_excess (mkMorph allHooks ∅ ∅) 4 1 2 0 onlyExcessAttributes = Ok tt w'
    /\ attributesOf w' 1 = everySecond (attributesOf onlyExcessAttributes 1)
    /\ (forall x, x <> 1 -> nodes w' !! x = nodes onlyExcessAttributes !! x).
Proof.
  apply (morphAttributes_excess_removes_every_other (mkMorph allHooks ∅ ∅) 1 2 4
           onlyExcessAttributes).
  - intros f Hf w n a v. injection Hf as <-. reflexivity.
  - lia.
  - apply (bool_decide_unpack _). vm_compute. exact I.
  - apply (bool_decide_unpack _). vm_compute. exact I.
  - vm_compute. lia.
Defined.

Example onlyExcessAttributes_left_over :
  exists w',
    morphNode (mkMorph noHooks ∅ ∅) 3 1 2 onlyExcessAttributes = Ok tt w'
    /\ attributesOf w' 1 = [("b", "2")].
Proof. eexists. split; vm_compute; reflexivity. Qed.

Lemma length_removeAssoc k (l : list (string * string)) :
  length (removeAssoc k l) <= length l.
Proof.
  induction l as [|[k0 v0] l IH]; simpl; [lia|]. case_bool_decide; simpl; lia.
Qed.

(** The first loop ends, whatever the hook answers, and writes to the
    live element only. *)
Lemma excess_total (m : Morph) (element ref : node) :
  forall fuel i w,
    length (attributesOf w element) - i < fuel ->
    exists w',
      morphAttributes_excess m fuel element ref i w = Ok tt w'
      /\ (forall x, x <> element -> nodes w' !! x = nodes w !! x)
      /\ (is_Some (nodes w !! element) -> is_Some (nodes w' !! element))
      /\ nextId w' = nextId w.
Proof.
  induction fuel as [|fuel IH]; intros i w Hfuel; [lia|].
  cbn [morphAttributes_excess]. rewrite bind_read.
  destruct (attributesOf w element !! i) as [[k v]|] eqn:Hi; [|by exists w].
  apply lookup_lt_Some in Hi. rewrite bind_read.
  assert (Hstep : exists w1,
    (if negb (hasAttribute w ref k)
     then
       do ok <- callBefore
                  (option_map (fun f w => f w element k None)
                     (beforeAttributeUpdated (options m)))
                  (BeforeAttributeUpdated element k None);;
       if ok then
         removeAttribute element k;;
         callAfter (afterAttributeUpdated (options m)) (AfterAttributeUpdated element k (Some v))
       else ret tt
     else ret tt) w = Ok tt w1
    /\ (forall x, x <> element -> nodes w1 !! x = nodes w !! x)
    /\ (is_Some (nodes w !! element) -> is_Some (nodes w1 !! element))
    /\ nextId w1 = nextId w
    /\ length (attributesOf w1 element) <= length (attributesOf w element)).
  { destruct (negb _); [|exists w; by repeat split].
    unfold removeAttribute.
    destruct (gated_update
                (option_map (fun f w => f w element k None) (beforeAttributeUpdated (options m)))
                (BeforeAttributeUpdated element k None)
                (AfterAttributeUpdated element k (Some v)) (afterAttributeUpdated (options m))
                (OpRemoveAttribute element k) element
                (fun d => with_attributes d (removeAssoc k (attributes d))) w)
      as (ok & w1 & Hrun & Hn1 & Hi1 & _).
    exists w1. split; [exact Hrun|]. destruct ok.
    - split; [intros x Hx; rewrite Hn1; by apply lookup_alter_ne|].
      split; [intros [d Hd]; rewrite Hn1, lookup_alter_eq, Hd; simpl; eauto|].
      split; [exact Hi1|].
      rewrite (attributesOf_alter _ element w w1 element Hn1).
      rewrite bool_decide_eq_true_2 by reflexivity. unfold attributesOf.
      destruct (nodes w !! element); simpl; [apply length_removeAssoc|lia].
    - split; [intros x Hx; by rewrite Hn1|]. split; [by rewrite Hn1|]. split; [exact Hi1|].
      by rewrite (attributesOf_nodes w1 w element Hn1). }
  destruct Hstep as (w1 & Hrun1 & Ho1 & Hs1 & Hi1 & Hlen1).
  rewrite (bind_Ok _ _ _ _ _ Hrun1).
  destruct (IH (S i) w1) as (w' & Hrun' & Ho' & Hs' & Hi'); [lia|].
  exists w'. split; [exact Hrun'|]. split; [|split; [tauto|congruence]].
  intros x Hx. by rewrite Ho', Ho1.
Qed.

(** The second loop, the hook not refusing. *)
Lemma copy_sets (m : Morph) (element ref : node) :
  attributeHookPermits (options m) -> element <> ref ->
  forall fuel i w,
    is_Some (nodes w !! element) ->
    NoDup (map fst (attributesOf w ref)) ->
    length (attributesOf w ref) - i < fuel ->
    (forall j k v, j < i -> attributesOf w ref !! j = Some (k, v) ->
       getAttribute w element k = Some v) ->
    exists w',
      morphAttributes_copy m fuel element ref i w = Ok tt w'
      /\ (forall k v, (k, v) ∈ attributesOf w ref -> getAttribute w' element k = Some v)
      /\ (forall x, x <> element -> nodes w' !! x = nodes w !! x)
      /\ is_Some (nodes w' !! element)
      /\ nextId w' = nextId w.
Proof.
  intros Hperm Hne.
  induction fuel as [|fuel IH]; intros i w Hst Hnd Hfuel Hdone; [lia|].
  cbn [morphAttributes_copy]. rewrite bind_read.
  destruct (attributesOf w ref !! i) as [[k v]|] eqn:Hi.
  - rewrite bind_read.
    assert (Hstep : exists w1,
      (if bool_decide (getAttribute w element k <> Some v)
       then
         do ok <- callBefore
                    (option_map (fun f w => f w element k (Some v))
                       (beforeAttributeUpdated (options m)))
                    (BeforeAttributeUpdated element k (Some v));;
         if ok then
           setAttribute element k v;;
           callAfter (afterAttributeUpdated (options m))
             (AfterAttributeUpdated element k (getAttribute w element k))
         else ret tt
       else ret tt) w = Ok tt w1
      /\ (forall x, x <> element -> nodes w1 !! x = nodes w !! x)
      /\ is_Some (nodes w1 !! element)
      /\ nextId w1 = nextId w
      /\ getAttribute w1 element k = Some v
      /\ (forall k', k' <> k -> getAttribute w1 element k' = getAttribute w element k')).
    { case_bool_decide as Hdiff.
      - unfold setAttribute.
        destruct (gated_update
                    (option_map (fun f w => f w element k (Some v))
                       (beforeAttributeUpdated (options m)))
                    (BeforeAttributeUpdated element k (Some v))
                    (AfterAttributeUpdated element k (getAttribute w element k))
                    (afterAttributeUpdated (options m))
                    (OpSetAttribute element k v) element
                    (fun d => with_attributes d (setAssoc k v (attributes d))) w)
          as (ok & w1 & Hrun & Hn1 & Hi1 & Hok).
        rewrite Hok in Hn1.
        2:{ intros g Hg.
            destruct (beforeAttributeUpdated (options m)) as [g'|] eqn:Hg'; [|discriminate].
            injection Hg as <-. by apply (Hperm g'). }
        exists w1. split; [exact Hrun|]. destruct Hst as [d Hd].
        assert (Ha1 : attributesOf w1 element = setAssoc k v (attributesOf w element)).
        { rewrite (attributesOf_alter _ element w w1 element Hn1).
          rewrite bool_decide_eq_true_2 by reflexivity. unfold attributesOf. by rewrite Hd. }
        split; [intros x Hx; rewrite Hn1; by apply lookup_alter_ne|].
        split; [rewrite Hn1, lookup_alter_eq, Hd; simpl; eauto|].
        split; [exact Hi1|]. unfold getAttribute. rewrite Ha1.
        split; [apply assoc_setAssoc_eq|]. intros k' Hk'. by apply assoc_setAssoc_ne.
      - exists w. split; [reflexivity|]. split; [done|]. split; [exact Hst|].
        split; [reflexivity|]. split; [|done].
        destruct (decide (getAttribute w element k = Some v)); [done|contradiction]. }
    destruct Hstep as (w1 & Hrun1 & Ho1 & Hs1 & Hi1 & Hk1 & Hk1').
    rewrite (bind_Ok _ _ _ _ _ Hrun1).
    assert (Href1 : attributesOf w1 ref = attributesOf w ref).
    { unfold attributesOf. by rewrite Ho1 by congruence. }
    destruct (IH (S i) w1) as (w' & Hrun' & Hall' & Ho' & Hs' & Hi').
    + exact Hs1.
    + by rewrite Href1.
    + rewrite Href1. apply lookup_lt_Some in Hi. lia.
    + rewrite Href1. intros j k' v' Hj Hjk.
      destruct (decide (j = i)) as [->|Hji].
      * rewrite Hi in Hjk. injection Hjk as <- <-. exact Hk1.
      * rewrite Hk1'; [apply (Hdone j); [lia|exact Hjk]|].
        intros ->. apply Hji.
        apply (NoDup_lookup (map fst (attributesOf w ref)) j i k Hnd);
          rewrite list_lookup_fmap; [by rewrite Hjk|by rewrite Hi].
    + exists w'. split; [exact Hrun'|]. rewrite Href1 in Hall'.
      split; [exact Hall'|]. split; [|split; [exact Hs'|congruence]].
      intros x Hx. by rewrite Ho', Ho1.
  - exists w. split; [reflexivity|]. split; [|by repeat split].
    intros k v Hkv. apply list_elem_of_lookup_1 in Hkv. destruct Hkv as [j Hj].
    apply (Hdone j); [|exact Hj]. apply lookup_ge_None_1 in Hi. apply lookup_lt_Some in Hj. lia.
Qed.

Lemma attributesOf_updateNode_same n f w x :
  (forall d, attributes (f d) = attributes d) ->
  attributesOf (updateNode n f w) x = attributesOf w x.
Proof.
  intros Hf. rewrite attributesOf_updateNode. case_bool_decide; [|reflexivity].
  unfold attributesOf. destruct (nodes w !! x); [apply Hf|reflexivity].
Qed.

Lemma setField_attributes p v d : attributes (setField p v d) = attributes d.
Proof. by destruct p, v. Qed.

Lemma setTextContent_attributes n s w x :
  x < nextId w ->
  attributesOf (setTextContent n s w) x = attributesOf w x
  /\ nextId w <= nextId (setTextContent n s w).
Proof.
  intros Hx. unfold setTextContent. case_bool_decide.
  - set (w1 := fold_left _ (childNodesOf w n) w).
    set (w2 := match activeElement w with
               | Some a => if bool_decide (a ∈ descendants w n)
                           then with_activeElement w1 None else w1
               | None => w1
               end).
    assert (H2 : nodes w2 = nodes w1 /\ nextId w2 = nextId w1).
    { unfold w2. destruct (activeElement w); [|done]. by case_bool_decide. }
    destruct H2 as [Hn2 Hi2].
    assert (Hi : nextId w2 = nextId w) by (rewrite Hi2; apply orphan_nextId).
    assert (Ha2 : attributesOf w2 x = attributesOf w x).
    { unfold attributesOf. rewrite Hn2. unfold w1. rewrite orphan_lookup.
      case_bool_decide; [|reflexivity]. by destruct (nodes w !! x). }
    case_bool_decide.
    + split; [|simpl; lia]. by rewrite attributesOf_updateNode_same.
    + split; [|simpl; lia]. rewrite attributesOf_updateNode_same by done.
      unfold attributesOf at 1. simpl. rewrite lookup_insert_ne by lia. exact Ha2.
  - destruct (isCharacterData w n); [|split; [reflexivity|lia]].
    split; [|simpl; lia]. by apply attributesOf_updateNode_same.
Qed.

Lemma setProperty_attributes n p v w x :
  x < nextId w ->
  attributesOf (setProperty n p v w) x = attributesOf w x
  /\ nextId w <= nextId (setProperty n p v w).
Proof.
  intros Hx.
  assert (Hplain : attributesOf (updateNode n (setField p v) (log_op (OpSetProperty n p v) w)) x
                   = attributesOf w x
                   /\ nextId w <= nextId (updateNode n (setField p v)
                                            (log_op (OpSetProperty n p v) w))).
  { split; [|simpl; lia]. rewrite attributesOf_updateNode_same by apply setField_attributes.
    reflexivity. }
  assert (Htext : forall s,
            attributesOf (setTextContent n s (log_op (OpSetProperty n p v) w)) x
            = attributesOf w x
            /\ nextId w <= nextId (setTextContent n s (log_op (OpSetProperty n p v) w))).
  { intros s. by apply (setTextContent_attributes n s (log_op (OpSetProperty n p v) w) x). }
  unfold setProperty. destruct p; try exact Hplain.
  - destruct v; try (split; [reflexivity|simpl; lia]).
    destruct (isCharacterData w n); [|split; [reflexivity|simpl; lia]].
    split; [|simpl; lia]. by rewrite attributesOf_updateNode_same.
  - destruct v; try (split; [reflexivity|simpl; lia]); apply Htext.
Qed.

(** [#updateProperty] always returns, and leaves every attribute of every
    existing node alone. *)
Lemma updateProperty_attributes (m : Morph) n p v w x :
  x < nextId w ->
  exists w',
    updateProperty m n p v w = Ok tt w'
    /\ attributesOf w' x = attributesOf w x /\ nextId w <= nextId w'.
Proof.
  intros Hx. unfold updateProperty. rewrite bind_read.
  case_bool_decide; [|exists w; by repeat split].
  destruct (beforePropertyUpdated (options m)) as [g|]; simpl.
  - unfold bind at 1. destruct (g w n p v).
    + destruct (setProperty_attributes n p v
                  (log_call (BeforePropertyUpdated n p v) w) x Hx) as [Ha Hi].
      destruct (afterPropertyUpdated (options m)); simpl; eexists;
        (split; [reflexivity|]); by split.
    + eexists. split; [reflexivity|]. by split.
  - destruct (setProperty_attributes n p v w x Hx) as [Ha Hi].
    destruct (afterPropertyUpdated (options m)); simpl; eexists;
      (split; [reflexivity|]); by split.
Qed.

Lemma sync_attributes (m : Morph) element ref p q w x :
  x < nextId w ->
  exists w',
    (do v <- read (fun w => getProperty w ref q);; updateProperty m element p v) w = Ok tt w'
    /\ attributesOf w' x = attributesOf w x /\ nextId w <= nextId w'.
Proof. intros Hx. rewrite bind_read. by apply updateProperty_attributes. Qed.

Lemma morphAttributes_state_attributes (m : Morph) element ref w x :
  x < nextId w ->
  exists w',
    morphAttributes_state m element ref w = Ok tt w'
    /\ attributesOf w' x = attributesOf w x.
Proof.
  intros Hx. unfold morphAttributes_state. rewrite bind_read.
  destruct (_ && _).
  - destruct (sync_attributes m element ref PChecked PChecked w x Hx) as (w1 & R1 & A1 & I1).
    rewrite (bind_Ok _ _ _ _ _ R1).
    destruct (sync_attributes m element ref PDisabled PDisabled w1 x) as (w2 & R2 & A2 & I2);
      [lia|].
    rewrite (bind_Ok _ _ _ _ _ R2).
    destruct (sync_attributes m element ref PIndeterminate PIndeterminate w2 x)
      as (w3 & R3 & A3 & I3); [lia|].
    rewrite (bind_Ok _ _ _ _ _ R3). rewrite bind_read.
    destruct (inputValueGate m w3 element ref).
    + destruct (sync_attributes m element ref PValue PValue w3 x) as (w4 & R4 & A4 & I4);
        [lia|].
      exists w4. split; [exact R4|congruence].
    + exists w3. split; [reflexivity|congruence].
  - rewrite bind_read. destruct (_ && _).
    + destruct (sync_attributes m element ref PSelected PSelected w x Hx) as (w1 & R1 & A1 & I1).
      exists w1. by split.
    + rewrite bind_read. destruct (_ && _); [|exists w; by split].
      destruct (sync_attributes m element ref PValue PValue w x Hx) as (w1 & R1 & A1 & I1).
      rewrite (bind_Ok _ _ _ _ _ R1). rewrite bind_read.
      destruct (firstElementChildOf w1 element) as [t|]; [|exists w1; by split].
      destruct (sync_attributes m t ref PTextContent PValue w1 x) as (w2 & R2 & A2 & I2);
        [lia|].
      exists w2. split; [exact R2|congruence].
Qed.

(** X8. After [#morphAttributes], the attribute hook not refusing, the
    live element carries every attribute of the reference with the
    reference's value, whatever else it had and whatever the property
    hooks answered. *)
Theorem morphAttributes_copies_reference (m : Morph) (element ref : node) (w : World) :
  attributeHookPermits (options m) -> element <> ref ->
  is_Some (nodes w !! element) -> element < nextId w ->
  NoDup (map fst (attributesOf w ref)) ->
  exists w',
    morphAttributes m element ref w = Ok tt w'
    /\ forall k v, (k, v) ∈ attributesOf w ref -> getAttribute w' element k = Some v.
Proof.
  intros Hperm Hne Hst Hold Hnd. unfold morphAttributes.
  destruct (excess_total m element ref (S (length (attributesOf w element))) 0 w)
    as (w1 & R1 & O1 & S1 & I1); [lia|].
  assert (R1' : (do n <- read (fun w => length (attributesOf w element));;
                 morphAttributes_excess m (S n) element ref 0) w = Ok tt w1)
    by (by rewrite bind_read).
  rewrite (bind_Ok _ _ _ _ _ R1').
  assert (Href1 : attributesOf w1 ref = attributesOf w ref).
  { unfold attributesOf. by rewrite O1 by congruence. }
  destruct (copy_sets m element ref Hperm Hne (S (length (attributesOf w1 ref))) 0 w1)
    as (w2 & R2 & A2 & O2 & S2 & I2).
  - by apply S1.
  - by rewrite Href1.
  - lia.
  - intros j k v Hj. lia.
  - assert (R2' : (do n <- read (fun w => length (attributesOf w ref));;
                   morphAttributes_copy m (S n) element ref 0) w1 = Ok tt w2)
      by (by rewrite bind_read).
    rewrite (bind_Ok _ _ _ _ _ R2').
    destruct (morphAttributes_state_attributes m element ref w2 element) as (w3 & R3 & A3).
    { rewrite I2, I1. exact Hold. }
    exists w3. split; [exact R3|]. intros k v Hkv. unfold getAttribute. rewrite A3.
    apply A2. by rewrite Href1.
Qed.

Lemma morphAttributes_copies_reference_witness :
  exists w',
    morphAttributes (mkMorph allHooks ∅ ∅) 1 2 strayAttributes = Ok tt w'
    /\ forall k v, (k, v) ∈ attributesOf strayAttributes 2 -> getAttribute w' 1 k = Some v.
Proof.
  apply (morphAttributes_copies_reference (mkMorph allHooks ∅ ∅) 1 2 strayAttributes).
  - intros f Hf w n a v. injection Hf as <-. reflexivity.
  - lia.
  - apply (bool_decide_unpack _). vm_compute. exact I.
  - vm_compute. lia.
  - apply (bool_decide_unpack _). vm_compute. exact I.
Defined.

(** ** What is left when every change is refused *)

Lemma onlyRelocations_refl w w' : ops w' = ops w -> onlyRelocations w w'.
Proof. intros E. exists []. by rewrite app_nil_r. Qed.

Lemma onlyRelocations_trans w1 w2 w3 :
  onlyRelocations w1 w2 -> onlyRelocations w2 w3 -> onlyRelocations w1 w3.
Proof.
  intros [l1 [E1 F1]] [l2 [E2 F2]]. exists (l1 ++ l2). split.
  - by rewrite E2, E1, app_assoc.
  - by apply Forall_app.
Qed.

Lemma relocates_bind {A B : Type} (c : M A) (f : A -> M B) w :
  relocates c w -> (forall a w', c w = Ok a w' -> relocates (f a) w') -> relocates (bind c f) w.
Proof.
  unfold relocates, bind. intros Hc Hf. destruct (c w) as [a w1|msg w1|w1] eqn:E; simpl in *.
  - apply (onlyRelocations_trans w w1); [exact Hc|]. by apply Hf.
  - exact Hc.
  - exact Hc.
Qed.

Lemma relocates_ret {A : Type} (a : A) w : relocates (ret a) w.
Proof. by apply onlyRelocations_refl. Qed.

Lemma relocates_timeout {A : Type} w : relocates (@timeout A) w.
Proof. by apply onlyRelocations_refl. Qed.

Lemma relocates_read {A B : Type} (g : World -> A) (f : A -> M B) w :
  relocates (f (g w)) w -> relocates (bind (read g) f) w.
Proof. intros H. exact H. Qed.

Lemma relocates_callBefore h c w : relocates (callBefore h c) w.
Proof. destruct h; by apply onlyRelocations_refl. Qed.

Lemma relocates_callAfter present c w : relocates (callAfter present c) w.
Proof. destruct present; by apply onlyRelocations_refl. Qed.

Lemma relocates_seq {A B : Type} (c : M A) (f : A -> M B) w :
  relocates c w -> (forall a w', relocates (f a) w') -> relocates (bind c f) w.
Proof. intros Hc Hf. apply relocates_bind; [exact Hc|]. intros. apply Hf. Qed.

Lemma ops_attach parent x b w : ops (attach parent x b w) = ops w.
Proof. unfold attach. simpl. apply ops_detach. Qed.

Lemma relocates_hostInsertBefore parent x b w : relocates (hostInsertBefore parent x b) w.
Proof.
  unfold relocates, hostInsertBefore.
  assert (H : forall w', ops w' = ops (log_op (OpInsertBefore parent x b) w) ->
            onlyRelocations w w').
  { intros w' E. exists [OpInsertBefore parent x b]. split; [exact E|].
    constructor; [exact I|constructor]. }
  destruct b as [b'|]; [case_bool_decide|]; simpl; apply H; try reflexivity;
    by rewrite ops_attach.
Qed.

Lemma ops_cloneF fuel : forall src parent w, ops (snd (cloneF fuel src parent w)) = ops w.
Proof.
  induction fuel as [|k IH]; intros src parent w; cbn [cloneF]; [reflexivity|].
  assert (Hfold : forall l acc wc,
            ops (snd (fold_left
                        (fun '(acc, w') c =>
                           let '(c', w'') := cloneF k c (Some (nextId w)) w' in
                           (acc ++ [c'], w''))
                        l (acc, wc))) = ops wc).
  { induction l as [|c l IHl]; intros acc wc; [reflexivity|]. simpl.
    specialize (IH c (Some (nextId w)) wc).
    destruct (cloneF k c (Some (nextId w)) wc) as [c' wc']. simpl in IH.
    by rewrite IHl. }
  specialize (Hfold (childNodes (default blankData (nodes w !! src))) []
                (with_nextId w (S (nextId w)))).
  destruct (fold_left _ _ _) as [kids w1]. simpl in *. exact Hfold.
Qed.

Lemma relocates_cloneNode src w : relocates (cloneNode src) w.
Proof.
  unfold relocates, cloneNode. pose proof (ops_cloneF (size (nodes w)) src None w) as H.
  destruct (cloneF _ _ _ _) as [c w']. by apply onlyRelocations_refl.
Qed.

Section Refused.
Variable m : Morph.
Hypothesis refused : refusesEveryChange (options m).

Lemma relocates_updateProperty n p v w : relocates (updateProperty m n p v) w.
Proof.
  unfold updateProperty. apply relocates_read. case_bool_decide; [|apply relocates_ret].
  destruct refused as (_ & _ & _ & f & Hf & Hno). rewrite Hf. simpl.
  unfold relocates, bind. rewrite Hno. by apply onlyRelocations_refl.
Qed.

Lemma relocates_replaceNode n c w : relocates (replaceNode m n c) w.
Proof.
  unfold replaceNode. destruct refused as (_ & (f & Hf & Hno) & _). rewrite Hf. simpl.
  unfold relocates, bind. rewrite Hno. by apply onlyRelocations_refl.
Qed.

Lemma relocates_appendChild n c w : relocates (appendChild m n c) w.
Proof.
  unfold appendChild. destruct refused as ((f & Hf & Hno) & _). rewrite Hf. simpl.
  unfold relocates, bind. rewrite Hno. by apply onlyRelocations_refl.
Qed.

Lemma relocates_removeNode n w : relocates (removeNode m n) w.
Proof.
  unfold removeNode. destruct refused as (_ & (f & Hf & Hno) & _). rewrite Hf. simpl.
  unfold relocates, bind. rewrite Hno. by apply onlyRelocations_refl.
Qed.

Lemma relocates_insertBefore_while fuel :
  forall parent n insertionPoint sensitivity previousNode w,
    relocates (insertBefore_while m fuel parent n insertionPoint sensitivity previousNode) w.
Proof.
  induction fuel as [|k IH]; intros parent n ip sens prev w;
    destruct prev as [previous|]; cbn [insertBefore_while];
    try apply relocates_ret; try apply relocates_timeout.
  destruct (_ <? _); [|apply relocates_ret].
  apply relocates_read. apply relocates_seq; [apply relocates_hostInsertBefore|].
  intros _ w1. case_bool_decide; [apply relocates_ret|].
  apply relocates_read. apply IH.
Qed.

Lemma relocates_insertBefore fuel parent n insertionPoint w :
  relocates (insertBefore m fuel parent n insertionPoint) w.
Proof.
  unfold insertBefore. case_bool_decide; [apply relocates_ret|].
  apply relocates_read. apply relocates_seq.
  - destruct (isElement w n); [|apply relocates_ret].
    destruct (0 <? _); [|apply relocates_ret].
    apply relocates_read. apply relocates_insertBefore_while.
  - intros returned w1. destruct returned; [apply relocates_ret|].
    apply relocates_hostInsertBefore.
Qed.

Lemma relocates_morphAttributes_excess fuel :
  forall element ref i w, relocates (morphAttributes_excess m fuel element ref i) w.
Proof.
  induction fuel as [|k IH]; intros element ref i w; cbn [morphAttributes_excess];
    [apply relocates_timeout|].
  apply relocates_read. destruct (attributesOf w element !! i) as [[attr v]|];
    [|apply relocates_ret].
  apply relocates_read. apply relocates_seq; [|intros; apply IH].
  destruct (negb _); [|apply relocates_ret].
  destruct refused as (_ & _ & (f & Hf & Hno) & _). rewrite Hf. simpl.
  unfold relocates, bind. rewrite Hno. by apply onlyRelocations_refl.
Qed.

Lemma relocates_morphAttributes_copy fuel :
  forall element ref i w, relocates (morphAttributes_copy m fuel element ref i) w.
Proof.
  induction fuel as [|k IH]; intros element ref i w; cbn [morphAttributes_copy];
    [apply relocates_timeout|].
  apply relocates_read. destruct (attributesOf w ref !! i) as [[attr v]|];
    [|apply relocates_ret].
  apply relocates_read. apply relocates_seq; [|intros; apply IH].
  case_bool_decide; [|apply relocates_ret].
  destruct refused as (_ & _ & (f & Hf & Hno) & _). rewrite Hf. simpl.
  unfold relocates, bind. rewrite Hno. by apply onlyRelocations_refl.
Qed.

Lemma relocates_sync element ref p q w :
  relocates (do v <- read (fun w => getProperty w ref q);; updateProperty m element p v) w.
Proof. apply relocates_read. apply relocates_updateProperty. Qed.

Lemma relocates_morphAttributes_state element ref w :
  relocates (morphAttributes_state m element ref) w.
Proof.
  unfold morphAttributes_state. apply relocates_read. destruct (_ && _).
  - apply relocates_seq; [apply relocates_sync|]. intros _ w1.
    apply relocates_seq; [apply relocates_sync|]. intros _ w2.
    apply relocates_seq; [apply relocates_sync|]. intros _ w3.
    apply relocates_read. destruct (inputValueGate _ _ _ _); [|apply relocates_ret].
    apply relocates_sync.
  - apply relocates_read. destruct (_ && _); [apply relocates_sync|].
    apply relocates_read. destruct (_ && _); [|apply relocates_ret].
    apply relocates_seq; [apply relocates_sync|]. intros _ w1.
    apply relocates_read. destruct (firstElementChildOf w1 element); [|apply relocates_ret].
    apply relocates_sync.
Qed.

Lemma relocates_morphAttributes element ref w : relocates (morphAttributes m element ref) w.
Proof.
  unfold morphAttributes.
  apply relocates_seq; [apply relocates_read; apply relocates_morphAttributes_excess|].
  intros _ w1.
  apply relocates_seq; [apply relocates_read; apply relocates_morphAttributes_copy|].
  intros _ w2. apply relocates_morphAttributes_state.
Qed.

Lemma relocates_morphHead_live fuel :
  forall n i pending w, relocates (morphHead_live m fuel n i pending) w.
Proof.
  induction fuel as [|k IH]; intros n i pending w; cbn [morphHead_live];
    [apply relocates_timeout|].
  apply relocates_read. destruct (childrenOf w n !! i) as [child|]; [|apply relocates_ret].
  apply relocates_read. destruct (mapGet _ _); [apply IH|].
  apply relocates_seq; [apply relocates_removeNode|intros; apply IH].
Qed.

Lemma relocates_clone_append n src w :
  relocates (do c <- cloneNode src;; appendChild m n c) w.
Proof. apply relocates_seq; [apply relocates_cloneNode|]. intros. apply relocates_appendChild. Qed.

Lemma relocates_morphHead_append n pending : forall w, relocates (morphHead_append m n pending) w.
Proof.
  induction pending as [|refChild rest IH]; intros w; cbn [morphHead_append];
    [apply relocates_ret|].
  apply relocates_seq; [apply relocates_clone_append|]. intros; apply IH.
Qed.

Lemma relocates_morphHead n ref w : relocates (morphHead m n ref) w.
Proof.
  unfold morphHead. apply relocates_read. apply relocates_read.
  apply relocates_seq; [apply relocates_morphHead_live|].
  intros. apply relocates_morphHead_append.
Qed.

Lemma relocates_morphChildElement_while fuel (self : node -> node -> M unit) :
  (forall a b w, relocates (self a b) w) ->
  forall child ref parent refSetArray currentNode nextMatchByTagName w,
    relocates (morphChildElement_while m fuel self child ref parent refSetArray
                 currentNode nextMatchByTagName) w.
Proof.
  intros Hself.
  induction fuel as [|k IH]; intros child ref parent arr current nmt w;
    destruct current as [current|]; cbn [morphChildElement_while];
    try apply relocates_timeout; try apply relocates_ret.
  assert (Hcontinue : forall nm w,
    relocates (do next <- read (fun w => nextSiblingOf w current);;
               morphChildElement_while m k self child ref parent arr next nm) w).
  { intros nm w1. apply relocates_read. apply IH. }
  assert (Hmatch : forall w,
    relocates (insertBefore m (S k) parent current child;;
               self current ref;; ret (@None (option node))) w).
  { intros w1. apply relocates_seq; [apply relocates_insertBefore|]. intros _ w2.
    apply relocates_seq; [apply Hself|]. intros. apply relocates_ret. }
  apply relocates_read. destruct (isElement w current); [|apply Hcontinue].
  apply relocates_read. apply relocates_read.
  destruct (negb _); [|apply Hcontinue].
  apply relocates_read. case_bool_decide; [apply Hmatch|].
  destruct (idMap m !! current); [|apply Hcontinue].
  destruct (existsb _ _); [apply Hmatch|apply Hcontinue].
Qed.

Lemma relocates_morphChildElement fuel (self : node -> node -> M unit) child ref parent w :
  (forall a b w, relocates (self a b) w) ->
  relocates (morphChildElement m fuel self child ref parent) w.
Proof.
  intros Hself. unfold morphChildElement.
  apply relocates_seq; [apply relocates_callBefore|]. intros ok w1.
  destruct (negb ok); [apply relocates_ret|].
  apply relocates_seq; [by apply relocates_morphChildElement_while|].
  intros outcome w2. destruct outcome as [nm|]; [|apply relocates_ret].
  apply relocates_seq; [|intros; apply relocates_callAfter].
  destruct nm as [nm|].
  - apply relocates_seq; [apply relocates_insertBefore|]. intros; apply Hself.
  - apply relocates_seq; [apply relocates_cloneNode|]. intros c w3.
    apply relocates_seq; [apply relocates_callBefore|]. intros ok' w4.
    destruct ok'; [|apply relocates_ret].
    apply relocates_seq; [apply relocates_insertBefore|]. intros; apply relocates_callAfter.
Qed.
Lemma relocates_morphChildNodes_for fuel (self : node -> node -> M unit) :
  (forall a b w, relocates (self a b) w) ->
  forall element ref i w, relocates (morphChildNodes_for m fuel self element ref i) w.
Proof.
  intros Hself.
  induction fuel as [|k IH]; intros element ref i w; cbn [morphChildNodes_for];
    [apply relocates_timeout|].
  apply relocates_read. destruct (_ <? _); [|apply relocates_ret].
  apply relocates_read. apply relocates_read.
  apply relocates_seq; [|intros; apply IH].
  destruct (childNodesOf w element !! i) as [c|], (childNodesOf w ref !! i) as [rc|].
  - apply relocates_read. destruct (_ && _); [|apply Hself].
    apply relocates_read. destruct (isHead w c); [apply relocates_morphHead|].
    by apply relocates_morphChildElement.
  - apply relocates_removeNode.
  - apply relocates_clone_append.
  - apply relocates_ret.
Qed.

Lemma relocates_morphChildNodes_while fuel :
  forall element ref w, relocates (morphChildNodes_while m fuel element ref) w.
Proof.
  induction fuel as [|k IH]; intros element ref w; cbn [morphChildNodes_while];
    [apply relocates_timeout|].
  apply relocates_read. destruct (_ <? _); [|apply relocates_ret].
  apply relocates_read. apply relocates_seq; [|intros; apply IH].
  destruct (lastChildOf w element); [apply relocates_removeNode|apply relocates_ret].
Qed.

Lemma relocates_morphNode fuel : forall n ref w, relocates (morphNode m fuel n ref) w.
Proof.
  induction fuel as [|k IH]; intros n ref w; cbn [morphNode]; [apply relocates_timeout|].
  apply relocates_seq; [apply relocates_callBefore|]. intros ok w1.
  destruct (negb ok); [apply relocates_ret|].
  apply relocates_read.
  apply relocates_seq; [|intros; apply relocates_callAfter].
  destruct (_ && _).
  - apply relocates_seq.
    { apply relocates_read. destruct (_ || _); [apply relocates_morphAttributes|apply relocates_ret]. }
    intros _ w2. apply relocates_read. destruct (isHead w2 n); [apply relocates_morphHead|].
    apply relocates_read. destruct (_ || _); [|apply relocates_ret].
    unfold morphChildNodes. apply relocates_seq.
    + apply relocates_morphChildNodes_for. apply IH.
    + intros. apply relocates_morphChildNodes_while.
  - apply relocates_read. destruct (_ && _).
    + apply relocates_read. apply relocates_updateProperty.
    + apply relocates_seq; [apply relocates_cloneNode|]. intros. apply relocates_replaceNode.
Qed.

End Refused.

(** X10. The hooks gate every change but one. With hooks that refuse
    every added node, removed node, attribute update and property update,
    the pre-passes and the mutation pass still may move nodes: for every
    pair of nodes, every budget and every outcome, the host calls made
    are [insertBefore] calls and nothing else; no attribute or property is
    written, nothing is appended, replaced or removed. *)
Theorem morph_refused_only_relocates (o : Options) (n r : node) (fuel : nat) (w : World) :
  refusesEveryChange o ->
  onlyRelocations w (finalWorld (morphThenFrame fuel o n r w)).
Proof.
  intros Hrefuse.
  set (maps := if isParentNode w n && isParentNode w r
               then (mapIdSets w r (mapIdSets w n ∅), mapSensivity w n ∅)
               else (∅, ∅)).
  exact (relocates_morphNode (mkMorph o (fst maps) (snd maps)) Hrefuse fuel n r w).
Qed.

Lemma morph_refused_only_relocates_witness :
  onlyRelocations swappedList (finalWorld (morphThenFrame 20 refuseChanges 1 11 swappedList)).
Proof.
  apply (morph_refused_only_relocates refuseChanges 1 11 20 swappedList).
  split; [|split; [|split]]; eexists; (split; [reflexivity|]); reflexivity.
Defined.

Example swappedList_refused_still_moves :
  exists w',
    morphThenFrame 20 refuseChanges 1 11 swappedList = Ok tt w'
    /\ ops w' = [OpInsertBefore 1 3 (Some 2)]
    /\ childNodesOf w' 1 = [3; 2].
Proof. eexists. split; [vm_compute; reflexivity|]. split; vm_compute; reflexivity. Qed.

(** ** The head, walked while it shrinks *)

Lemma nodeTypeOf_detach x w y : nodeTypeOf (detach x w) y = nodeTypeOf w y.
Proof.
  unfold nodeTypeOf. rewrite nodes_detach. destruct (parentNodeOf w x) as [p|]; [|reflexivity].
  rewrite <- !nodes_updateNode, !lookup_updateNode.
  destruct (nodes w !! y) as [d|]; simpl; by repeat case_bool_decide.
Qed.

Lemma filter_all {A : Type} (f : A -> bool) (l : list A) :
  Forall (fun x => f x = true) l -> List.filter f l = l.
Proof. induction 1 as [|x l Hx _ IH]; simpl; [reflexivity|]. by rewrite Hx, IH. Qed.

Lemma head_live_skips (m : Morph) (n : node) :
  removalHookPermits (options m) ->
  forall fuel kept rest w,
    childNodesOf w n = kept ++ rest ->
    NoDup (kept ++ rest) ->
    Forall (fun c => parentNodeOf w c = Some n /\ isElement w c = true) (kept ++ rest) ->
    length rest < fuel ->
    exists w',
      morphHead_live m fuel n (length kept) [] w = Ok [] w'
      /\ childNodesOf w' n = kept ++ everySecond rest.
Proof.
  intros Hperm. induction fuel as [|fuel IH]; intros kept rest w Hkids Hnd Hall Hfuel; [lia|].
  cbn [morphHead_live]. rewrite bind_read.
  assert (Hchildren : childrenOf w n = kept ++ rest).
  { unfold childrenOf. rewrite Hkids. apply filter_all.
    eapply Forall_impl; [exact Hall|]. by intros c [_ Hc]. }
  rewrite Hchildren, lookup_app_head.
  destruct rest as [|c rest]; [exists w; split; [reflexivity|by rewrite Hkids]|].
  cbn [head]. rewrite bind_read. cbn [mapGet].
  destruct (removeNode_permitted m c w Hperm) as [w1 [Hrun Hn1]].
  rewrite (bind_Ok _ _ _ _ _ Hrun).
  assert (Hpc : parentNodeOf w c = Some n).
  { rewrite Forall_forall in Hall. apply Hall. apply elem_of_app. right. left. }
  apply NoDup_app in Hnd as Hnd'. destruct Hnd' as (Hndk & Hdis & Hndr).
  apply NoDup_cons in Hndr. destruct Hndr as [Hcr Hndr].
  assert (Hck : c ∉ kept) by (intros Hin; apply (Hdis c Hin); left).
  assert (Hkids1 : childNodesOf w1 n = kept ++ rest).
  { rewrite (childNodesOf_nodes w1 (detach c w)) by exact Hn1.
    rewrite (detach_children_under w c n n Hpc).
    rewrite bool_decide_eq_true_2 by reflexivity. rewrite Hkids.
    by apply filter_out_middle. }
  assert (Hnd1 : NoDup (kept ++ rest)).
  { apply NoDup_app. split; [exact Hndk|]. split; [|exact Hndr].
    intros x Hx Hx'. apply (Hdis x Hx). by right. }
  assert (Hall1 : Forall (fun c => parentNodeOf w1 c = Some n /\ isElement w1 c = true)
                    (kept ++ rest)).
  { apply Forall_forall. intros y Hy.
    assert (Hyc : y <> c).
    { intros ->. apply elem_of_app in Hy. destruct Hy; contradiction. }
    assert (Hy' : y ∈ kept ++ c :: rest).
    { apply elem_of_app in Hy. apply elem_of_app. destruct Hy; [by left|right; by right]. }
    rewrite Forall_forall in Hall. destruct (Hall y Hy') as [Hp He]. split.
    - rewrite (parentNodeOf_nodes w1 (detach c w)) by exact Hn1.
      by rewrite (detach_parent_under w c n y Hpc Hyc).
    - unfold isElement. rewrite (nodeTypeOf_nodes w1 (detach c w)) by exact Hn1.
      by rewrite nodeTypeOf_detach. }
  destruct rest as [|b rest].
  - destruct fuel as [|fuel]; [simpl in Hfuel; lia|].
    cbn [morphHead_live]. rewrite bind_read.
    assert (Hchildren1 : childrenOf w1 n = kept ++ []).
    { unfold childrenOf. rewrite Hkids1. apply filter_all.
      eapply Forall_impl; [exact Hall1|]. by intros y [_ Hy]. }
    rewrite Hchildren1, lookup_ge_None_2 by (rewrite app_nil_r; lia).
    exists w1. by split.
  - destruct (IH (kept ++ [b]) rest w1) as (w' & Hrun' & Hkids').
    + by rewrite <- app_assoc.
    + by rewrite <- app_assoc.
    + by rewrite <- app_assoc.
    + simpl in Hfuel. lia.
    + rewrite length_app in Hrun'. simpl in Hrun'. rewrite Nat.add_1_r in Hrun'.
      exists w'. split; [exact Hrun'|]. rewrite Hkids'. by rewrite <- app_assoc.
Qed.

(** X11. [#morphHead] walks the live list of element children by
    position while it removes from it, so the child that follows a
    removed one is passed over. When the reference head has no element
    child and removal is not refused, a live head that holds elements
    only is left with every second of them. *)
Theorem morphHead_removes_every_other (m : Morph) (n ref : node) (w : World) :
  removalHookPermits (options m) ->
  childrenOf w ref = [] ->
  NoDup (childNodesOf w n) ->
  Forall (fun c => parentNodeOf w c = Some n /\ isElement w c = true) (childNodesOf w n) ->
  exists w',
    morphHead m n ref w = Ok tt w'
    /\ childNodesOf w' n = everySecond (childNodesOf w n).
Proof.
  intros Hperm Href Hnd Hall. unfold morphHead. rewrite bind_read, Href. cbn [fold_left].
  rewrite bind_read.
  assert (Hchildren : childrenOf w n = childNodesOf w n).
  { unfold childrenOf. apply filter_all. eapply Forall_impl; [exact Hall|]. by intros c [_ Hc]. }
  rewrite Hchildren.
  destruct (head_live_skips m n Hperm (S (length (childNodesOf w n))) []
              (childNodesOf w n) w eq_refl Hnd Hall) as (w' & Hrun & Hkids); [lia|].
  simpl in Hrun. rewrite (bind_Ok _ _ _ _ _ Hrun). exists w'. by split.
Qed.

Lemma morphHead_removes_every_other_witness :
  exists w',
    morphHead (mkMorph allHooks ∅ ∅) 1 11 crowdedHead = Ok tt w'
    /\ childNodesOf w' 1 = everySecond (childNodesOf crowdedHead 1).
Proof.
  apply (morphHead_removes_every_other (mkMorph allHooks ∅ ∅) 1 11 crowdedHead).
  - intros f Hf w n. injection Hf as <-. reflexivity.
  - vm_compute. reflexivity.
  - apply (bool_decide_unpack _). vm_compute. exact I.
  - apply (bool_decide_unpack _). vm_compute. exact I.
Defined.

Example crowdedHead_left_over :
  exists w',
    morphThenFrame 20 noHooks 1 11 crowdedHead = Ok tt w'
    /\ childNodesOf w' 1 = [3].
Proof. eexists. split; vm_compute; reflexivity. Qed.

(** ** Replacing a node by a copy of the reference *)

Lemma Inv_plain w : document w -> Inv w (fun _ => False) (fun _ => False) w.
Proof.
  intros Hdoc. constructor; try done.
  - intros p c. by apply document_child.
  - intros p. by apply document_NoDup.
  - intros x Hx. destruct (nodes w !! x) as [d|] eqn:Hd; [|reflexivity].
    assert (x < nextId w) by (apply document_old; eauto). lia.
Qed.

Lemma clone_root_data fuel src parent w :
  exists kids,
    nodes (snd (cloneF fuel src parent w)) !! fst (cloneF fuel src parent w)
    = Some (cloneData (default blankData (nodes w !! src)) parent kids).
Proof.
  destruct fuel as [|k]; cbn [cloneF].
  - eexists. simpl. by rewrite lookup_insert_eq.
  - destruct (fold_left _ _ _) as [kids w1]. exists kids. simpl. by rewrite lookup_insert_eq.
Qed.

(** What [cloneNode] gives in a document: a new parentless node with the
    data of its source, every node that existed being left as it was. *)
Lemma cloneNode_effect src w :
  document w ->
  exists w',
    cloneNode src w = Ok (nextId w) w'
    /\ nextId w < nextId w'
    /\ parentNodeOf w' (nextId w) = None
    /\ (forall y, y < nextId w -> nodes w' !! y = nodes w !! y)
    /\ Inv w (fun _ => False) (fun _ => False) w'
    /\ nodeTypeOf w' (nextId w) = nodeTypeOf w src
    /\ localNameOf w' (nextId w) = localNameOf w src
    /\ attributesOf w' (nextId w) = attributesOf w src
    /\ nodeValueOf w' (nextId w) = nodeValueOf w src.
Proof.
  intros Hdoc. unfold cloneNode.
  destruct (cloneF_cloned w (fun _ => False) (fun _ => False) (fun _ H => H)
              (size (nodes w)) src None w (Inv_plain w Hdoc))
    as (H1 & H2 & H3 & H4 & H5 & H6); [discriminate|].
  destruct (clone_root_data (size (nodes w)) src None w) as [kids Hdata].
  destruct (cloneF (size (nodes w)) src None w) as [c w']. simpl in *. subst c.
  exists w'. split; [reflexivity|]. split; [exact H3|]. split; [exact H4|].
  split; [exact H6|]. split; [exact H1|].
  unfold nodeTypeOf, localNameOf, attributesOf, nodeValueOf. rewrite Hdata.
  by destruct (nodes w !! src).
Qed.

Lemma nodes_hostReplaceWith x new p w :
  parentNodeOf w x = Some p -> parentNodeOf w new = None -> x <> new ->
  nodes (finalWorld (hostReplaceWith x new w))
  = alter (fun d => with_parentNode d None) x
      (alter (fun d => with_parentNode d (Some p)) new
         (alter (fun d => with_childNodes d (replaceIn x new (childNodes d))) p (nodes w))).
Proof.
  intros Hp Hnew Hne. unfold hostReplaceWith, modify. cbn [finalWorld]. rewrite Hp.
  rewrite bool_decide_eq_false_2 by exact Hne.
  assert (Hd : detach new (log_op (OpReplaceWith x new) w) = log_op (OpReplaceWith x new) w).
  { unfold detach.
    change (parentNodeOf (log_op (OpReplaceWith x new) w) new) with (parentNodeOf w new).
    by rewrite Hnew. }
  rewrite Hd. destruct (activeElement w) as [a|]; [|reflexivity].
  by destruct (bool_decide (a ∈ x :: descendants w x)).
Qed.

Lemma replaceNode_permitted (m : Morph) (n c : node) (w : World) :
  removalHookPermits (options m) -> additionHookPermits (options m) ->
  exists w', replaceNode m n c w = Ok tt w'
    /\ nodes w' = nodes (finalWorld (hostReplaceWith n c w)).
Proof.
  intros Hrem Hadd. unfold replaceNode.
  destruct (callBefore_permitted
              (option_map (fun f w => f w n) (beforeNodeRemoved (options m)))
              (BeforeNodeRemoved n) w) as (w1 & R1 & N1 & A1 & _ & _).
  { intros f Hf. destruct (beforeNodeRemoved (options m)) as [g|] eqn:Hg; [|discriminate].
    injection Hf as <-. by apply (Hrem g). }
  rewrite (bind_Ok _ _ _ _ _ R1).
  destruct (callBefore_permitted
              (option_map (fun f w => f w c) (beforeNodeAdded (options m)))
              (BeforeNodeAdded c) w1) as (w2 & R2 & N2 & A2 & _ & _).
  { intros f Hf. destruct (beforeNodeAdded (options m)) as [g|] eqn:Hg; [|discriminate].
    injection Hf as <-. by apply (Hadd g). }
  rewrite (bind_Ok _ _ _ _ _ R2).
  set (w3 := finalWorld (hostReplaceWith n c w2)).
  rewrite (bind_Ok (hostReplaceWith n c) _ w2 tt w3 eq_refl).
  destruct (callAfter_done (afterNodeAdded (options m)) (AfterNodeAdded c) w3)
    as (w4 & R4 & N4 & _).
  rewrite (bind_Ok _ _ _ _ _ R4).
  destruct (callAfter_done (afterNodeRemoved (options m)) (AfterNodeRemoved n) w4)
    as (w5 & R5 & N5 & _).
  exists w5. split; [exact R5|]. rewrite N5, N4. unfold w3.
  assert (Hn : nodes w2 = nodes w) by congruence.
  assert (Ha : activeElement w2 = activeElement w) by congruence.
  unfold hostReplaceWith, modify. cbn [finalWorld].
  assert (Hp : forall y, parentNodeOf w2 y = parentNodeOf w y)
    by (intros y; by apply parentNodeOf_nodes).
  rewrite Hp, Ha. destruct (parentNodeOf w n) as [p|]; [|exact Hn].
  case_bool_decide; [exact Hn|].
  assert (Hcore : forall wa wb : World, nodes wa = nodes wb ->
    nodes (updateNode n (fun d => with_parentNode d None)
             (updateNode c (fun d => with_parentNode d (Some p))
                (updateNode p (fun d => with_childNodes d (replaceIn n c (childNodes d)))
                   (detach c wa))))
    = nodes (updateNode n (fun d => with_parentNode d None)
               (updateNode c (fun d => with_parentNode d (Some p))
                  (updateNode p (fun d => with_childNodes d (replaceIn n c (childNodes d)))
                     (detach c wb))))).
  { intros wa wb E. rewrite !nodes_updateNode, !nodes_detach.
    rewrite (parentNodeOf_nodes wa wb c E). by rewrite E. }
  specialize (Hcore (log_op (OpReplaceWith n c) w2) (log_op (OpReplaceWith n c) w) Hn).
  destruct (activeElement w) as [a|]; [|exact Hcore].
  destruct (bool_decide (a ∈ n :: descendants w2 n)),
           (bool_decide (a ∈ n :: descendants w n)); exact Hcore.
Qed.

Lemma localNameOf_nodes w w' n : nodes w = nodes w' -> localNameOf w n = localNameOf w' n.
Proof. unfold localNameOf. by intros ->. Qed.

Lemma document_ext w w' :
  nodes w' = nodes w -> nextId w' = nextId w -> document w -> document w'.
Proof.
  intros Hn Hi Hdoc. unfold document. rewrite Hn. intros x d Hd.
  destruct (Hdoc x d Hd) as (H1 & H2 & H3 & H4). unfold linked. rewrite Hi.
  split; [exact H1|]. split; [exact H2|]. split.
  - eapply Forall_impl; [exact H3|]. intros c Hc. cbv beta in *.
    by rewrite (parentNodeOf_nodes w' w c Hn).
  - destruct (parentNode d) as [q|]; [|exact I]. simpl in *.
    by rewrite (childNodesOf_nodes w' w q Hn).
Qed.

(** X12. A live node that the reference does not match, neither as an
    element of the same name nor as character data of the same kind, is
    replaced: with the morphed, removal and addition hooks not refusing,
    in a document where the node has a parent, a new node with the
    reference's kind, name, attributes and data takes the node's place in
    the parent's child list, and the node itself is left without a
    parent. *)
Theorem morphNode_replaces_unlike_node (m : Morph) (k : nat) (n r p : node) (w : World) :
  morphHookPermits (options m) -> removalHookPermits (options m) ->
  additionHookPermits (options m) ->
  document w -> parentNodeOf w n = Some p ->
  isElement w n && isElement w r && bool_decide (localNameOf w n = localNameOf w r) = false ->
  bool_decide (nodeTypeOf w n = nodeTypeOf w r)
    && bool_decide (is_Some (nodeValueOf w n))
    && bool_decide (is_Some (nodeValueOf w r)) = false ->
  exists w',
    morphNode m (S k) n r w = Ok tt w'
    /\ childNodesOf w' p = replaceIn n (nextId w) (childNodesOf w p)
    /\ parentNodeOf w' n = None
    /\ parentNodeOf w' (nextId w) = Some p
    /\ nodeTypeOf w' (nextId w) = nodeTypeOf w r
    /\ localNameOf w' (nextId w) = localNameOf w r
    /\ attributesOf w' (nextId w) = attributesOf w r
    /\ nodeValueOf w' (nextId w) = nodeValueOf w r.
Proof.
  intros Hmorph Hrem Hadd Hdoc Hp Hunlike Hnotext.
  cbn [morphNode].
  destruct (callBefore_permitted
              (option_map (fun f w => f w n r) (beforeNodeMorphed (options m)))
              (BeforeNodeMorphed n r) w)
    as (w1 & R1 & N1 & A1 & I1 & O1).
  { intros f Hf. destruct (beforeNodeMorphed (options m)) as [g|] eqn:Hg; [|discriminate].
    injection Hf as <-. by apply (Hmorph g). }
  rewrite (bind_Ok _ _ _ _ _ R1). cbn [negb]. rewrite bind_read.
  assert (Hdoc1 : document w1) by by apply (document_ext w).
  destruct (cloneNode_effect r w1 Hdoc1)
    as (w2 & R2 & I2 & P2 & Old2 & _ & T2 & L2 & At2 & V2).
  rewrite I1 in *.
  assert (Hsn : is_Some (nodes w !! n)) by by apply (in_store_of_parent w n p).
  assert (Hsp : is_Some (nodes w !! p)) by (apply stored_parent; [exact Hdoc|by exists n]).
  assert (Hn_old : n < nextId w) by by apply document_old.
  assert (Hp_old : p < nextId w) by by apply document_old.
  assert (Hp2 : parentNodeOf w2 n = Some p).
  { unfold parentNodeOf. rewrite Old2 by exact Hn_old. rewrite N1. exact Hp. }
  destruct (replaceNode_permitted m n (nextId w) w2 Hrem Hadd) as (w3 & R3 & N3).
  rewrite (nodes_hostReplaceWith n (nextId w) p w2 Hp2 P2) in N3 by lia.
  unfold isElement at 1 2.
  rewrite !(nodeTypeOf_nodes w1 w _ N1), !(localNameOf_nodes w1 w _ N1).
  fold (isElement w n). fold (isElement w r). rewrite Hunlike.
  assert (Hinner :
    (do textual <-
       read (fun w => bool_decide (nodeTypeOf w n = nodeTypeOf w r)
                      && bool_decide (is_Some (nodeValueOf w n))
                      && bool_decide (is_Some (nodeValueOf w r)));;
     if textual then
       do v <- read (fun w => getProperty w r PNodeValue);;
       updateProperty m n PNodeValue v
     else
       do c <- cloneNode r;;
       replaceNode m n c) w1 = Ok tt w3).
  { rewrite bind_read.
    rewrite !(nodeTypeOf_nodes w1 w _ N1), !(nodeValueOf_nodes w1 w _ N1), Hnotext.
    rewrite (bind_Ok _ _ _ _ _ R2). exact R3. }
  rewrite (bind_Ok _ _ _ _ _ Hinner).
  destruct (callAfter_done (afterNodeMorphed (options m)) (AfterNodeMorphed n r) w3)
    as (w4 & R4 & N4 & _).
  exists w4. split; [exact R4|].
  set (W := updateNode n (fun d => with_parentNode d None)
              (updateNode (nextId w) (fun d => with_parentNode d (Some p))
                 (updateNode p
                    (fun d => with_childNodes d (replaceIn n (nextId w) (childNodes d))) w2))).
  assert (HW : nodes w4 = nodes W) by (rewrite N4, N3; reflexivity).
  assert (Hlook : forall y, nodes W !! y
            = (fun d =>
                 let d1 := if bool_decide (p = y)
                           then with_childNodes d (replaceIn n (nextId w) (childNodes d))
                           else d in
                 let d2 := if bool_decide (nextId w = y)
                           then with_parentNode d1 (Some p) else d1 in
                 if bool_decide (n = y) then with_parentNode d2 None else d2)
              <$> nodes w2 !! y).
  { intros y. unfold W. rewrite !lookup_updateNode.
    destruct (nodes w2 !! y) as [d|]; simpl; by repeat case_bool_decide. }
  assert (Hc : is_Some (nodes w2 !! nextId w)).
  { unfold nodeTypeOf in T2. unfold parentNodeOf in P2.
    destruct (clone_root_data (size (nodes w1)) r None w1) as [kids Hdata].
    unfold cloneNode in R2. destruct (cloneF (size (nodes w1)) r None w1) as [c' w2'].
    injection R2 as -> ->. simpl in Hdata. eauto. }
  destruct Hc as [dc Hdc]. destruct Hsp as [dp Hdp]. destruct Hsn as [dn Hdn].
  assert (Hdp2 : nodes w2 !! p = Some dp) by (rewrite Old2 by exact Hp_old; by rewrite N1).
  assert (Hdn2 : nodes w2 !! n = Some dn) by (rewrite Old2 by exact Hn_old; by rewrite N1).
  split; [|split; [|split; [|split; [|split; [|split]]]]].
  - rewrite (childNodesOf_nodes w4 W p HW). unfold childNodesOf. rewrite Hlook, Hdp2, Hdp.
    simpl. rewrite (bool_decide_eq_true_2 (p = p)) by reflexivity.
    rewrite (bool_decide_eq_false_2 (nextId w = p)) by lia.
    by destruct (bool_decide (n = p)).
  - rewrite (parentNodeOf_nodes w4 W n HW). unfold parentNodeOf. rewrite Hlook, Hdn2.
    simpl. by rewrite (bool_decide_eq_true_2 (n = n)).
  - rewrite (parentNodeOf_nodes w4 W _ HW). unfold parentNodeOf. rewrite Hlook, Hdc.
    simpl. rewrite (bool_decide_eq_false_2 (n = nextId w)) by lia.
    by rewrite (bool_decide_eq_true_2 (nextId w = nextId w)).
  - rewrite <- (nodeTypeOf_nodes w1 w r N1), <- T2.
    rewrite (nodeTypeOf_nodes w4 W _ HW). unfold nodeTypeOf. rewrite Hlook, Hdc.
    simpl. by destruct (bool_decide (p = nextId w)), (bool_decide (nextId w = nextId w)),
                       (bool_decide (n = nextId w)).
  - rewrite <- (localNameOf_nodes w1 w r N1), <- L2.
    rewrite (localNameOf_nodes w4 W _ HW). unfold localNameOf. rewrite Hlook, Hdc.
    simpl. by destruct (bool_decide (p = nextId w)), (bool_decide (nextId w = nextId w)),
                       (bool_decide (n = nextId w)).
  - rewrite <- (attributesOf_nodes w1 w r N1), <- At2.
    rewrite (attributesOf_nodes w4 W _ HW). unfold attributesOf. rewrite Hlook, Hdc.
    simpl. by destruct (bool_decide (p = nextId w)), (bool_decide (nextId w = nextId w)),
                       (bool_decide (n = nextId w)).
  - rewrite <- (nodeValueOf_nodes w1 w r N1), <- V2.
    rewrite (nodeValueOf_nodes w4 W _ HW). unfold nodeValueOf. rewrite Hlook, Hdc.
    simpl. by destruct (bool_decide (p = nextId w)), (bool_decide (nextId w = nextId w)),
                       (bool_decide (n = nextId w)).
Qed.

Lemma morphNode_replaces_unlike_node_witness :
  exists w',
    morphNode (mkMorph allHooks ∅ ∅) 1 2 12 unlikeChild = Ok tt w'
    /\ childNodesOf w' 1 = replaceIn 2 (nextId unlikeChild) (childNodesOf unlikeChild 1)
    /\ parentNodeOf w' 2 = None
    /\ parentNodeOf w' (nextId unlikeChild) = Some 1
    /\ nodeTypeOf w' (nextId unlikeChild) = nodeTypeOf unlikeChild 12
    /\ localNameOf w' (nextId unlikeChild) = localNameOf unlikeChild 12
    /\ attributesOf w' (nextId unlikeChild) = attributesOf unlikeChild 12
    /\ nodeValueOf w' (nextId unlikeChild) = nodeValueOf unlikeChild 12.
Proof.
  apply (morphNode_replaces_unlike_node (mkMorph allHooks ∅ ∅) 0 2 12 1 unlikeChild).
  - intros f Hf w n r. injection Hf as <-. reflexivity.
  - intros f Hf w n. injection Hf as <-. reflexivity.
  - intros f Hf w n. injection Hf as <-. reflexivity.
  - apply (bool_decide_unpack _). vm_compute. exact I.
  - vm_compute. reflexivity.
  - vm_compute. reflexivity.
  - vm_compute. reflexivity.
Defined.

(** ** Filling an element that has no children *)

Lemma copies_lookup w1 w2 y : nodes w1 !! y = nodes w2 !! y -> copies w1 y w2 y.
Proof.
  intros E. unfold copies, nodeTypeOf, localNameOf, attributesOf, nodeValueOf. by rewrite E.
Qed.

Lemma copies_trans w1 c w2 x w3 y : copies w1 c w2 x -> copies w2 x w3 y -> copies w1 c w3 y.
Proof. intros (A1 & A2 & A3 & A4) (B1 & B2 & B3 & B4). repeat split; congruence. Qed.

Lemma copies_fmap (f : NodeData -> NodeData) w1 w2 y :
  (forall d, nodeType (f d) = nodeType d /\ localName (f d) = localName d
             /\ attributes (f d) = attributes d /\ nodeValue (f d) = nodeValue d) ->
  nodes w1 !! y = f <$> nodes w2 !! y -> copies w1 y w2 y.
Proof.
  intros Hf E. unfold copies, nodeTypeOf, localNameOf, attributesOf, nodeValueOf. rewrite E.
  destruct (nodes w2 !! y) as [d|]; simpl; [|done]. destruct (Hf d) as (H1 & H2 & H3 & H4).
  by repeat split.
Qed.

Lemma attachData_fields parent x b y d :
  nodeType (attachData parent x b y d) = nodeType d
  /\ localName (attachData parent x b y d) = localName d
  /\ attributes (attachData parent x b y d) = attributes d
  /\ nodeValue (attachData parent x b y d) = nodeValue d.
Proof. unfold attachData. by destruct (bool_decide (y = x)), (bool_decide (y = parent)). Qed.

Section Filling.
Variable w0 : World.

Local Abbreviation WF := (Inv w0 (fun _ => False) (fun _ => False)).

Lemma cloneNode_effect_wf src w :
  WF w ->
  exists w',
    cloneNode src w = Ok (nextId w) w'
    /\ nextId w < nextId w'
    /\ parentNodeOf w' (nextId w) = None
    /\ is_Some (nodes w' !! nextId w)
    /\ (forall y, y < nextId w -> nodes w' !! y = nodes w !! y)
    /\ WF w'
    /\ copies w' (nextId w) w src.
Proof.
  intros Hwf. unfold cloneNode.
  destruct (cloneF_cloned w0 (fun _ => False) (fun _ => False) (fun _ H => H)
              (size (nodes w)) src None w Hwf)
    as (H1 & H2 & H3 & H4 & H5 & H6); [discriminate|].
  destruct (clone_root_data (size (nodes w)) src None w) as [kids Hdata].
  destruct (cloneF (size (nodes w)) src None w) as [c w']. simpl in *. subst c.
  exists w'. split; [reflexivity|]. split; [exact H3|]. split; [exact H4|].
  split; [exact H5|]. split; [exact H6|]. split; [exact H1|].
  unfold copies, nodeTypeOf, localNameOf, attributesOf, nodeValueOf. rewrite Hdata.
  by destruct (nodes w !! src).
Qed.

Lemma appendChild_effect (m : Morph) element c w :
  additionHookPermits (options m) -> WF w ->
  parentNodeOf w c = None -> is_Some (nodes w !! c) ->
  exists w',
    appendChild m element c w = Ok tt w'
    /\ WF w' /\ nextId w' = nextId w
    /\ (forall y, copies w' y w y)
    /\ (forall y, childNodesOf w' y
          = if bool_decide (y = element)
            then match nodes w !! y with Some d => childNodes d ++ [c] | None => [] end
            else childNodesOf w y)
    /\ (forall y, parentNodeOf w' y
          = if bool_decide (y = c) then Some element else parentNodeOf w y)
    /\ (forall y, is_Some (nodes w !! y) -> is_Some (nodes w' !! y)).
Proof.
  intros Hadd Hwf Hpc Hsc. unfold appendChild.
  destruct (callBefore_permitted
              (option_map (fun f w => f w c) (beforeNodeAdded (options m)))
              (BeforeNodeAdded c) w) as (w1 & R1 & N1 & _ & I1 & _).
  { intros f Hf. destruct (beforeNodeAdded (options m)) as [g|] eqn:Hg; [|discriminate].
    injection Hf as <-. by apply (Hadd g). }
  rewrite (bind_Ok _ _ _ _ _ R1).
  set (w2 := attach element c None (log_op (OpAppendChild element c) w1)).
  rewrite (bind_Ok (hostAppendChild element c) _ w1 tt w2 eq_refl).
  destruct (callAfter_done (afterNodeAdded (options m)) (AfterNodeAdded c) w2)
    as (w3 & R3 & N3 & _ & I3 & _).
  exists w3. split; [exact R3|].
  assert (Hwf1 : WF (log_op (OpAppendChild element c) w1)).
  { apply Inv_log_op. by apply (Inv_ext w0 _ _ w). }
  assert (Hlook : forall y, nodes w3 !! y = attachData element c None y <$> nodes w !! y).
  { intros y. rewrite N3. unfold w2.
    rewrite (attach_lookup w0 _ _ _ element c None y Hwf1). simpl. by rewrite N1. }
  assert (Hnotin : forall y d, nodes w !! y = Some d ->
            List.filter (fun z => negb (bool_decide (z = c))) (childNodes d) = childNodes d).
  { intros y d Hd. apply filter_out_notin. intros Hin.
    assert (Hin' : c ∈ childNodesOf w y) by (unfold childNodesOf; by rewrite Hd).
    apply (inv_parent _ _ _ _ Hwf) in Hin'. congruence. }
  split; [|split; [|split; [|split; [|split]]]].
  6:{ intros y [d Hd]. rewrite Hlook, Hd. simpl. eauto. }
  - apply (Inv_ext w0 _ _ w2); [exact N3|exact I3|].
    apply Inv_attach; [by intros []|tauto|tauto|simpl; by rewrite N1|exact Hwf1].
  - rewrite I3. unfold w2. rewrite nextId_attach. simpl. exact I1.
  - intros y. apply (copies_fmap (attachData element c None y)); [|apply Hlook].
    apply attachData_fields.
  - intros y. unfold childNodesOf. rewrite Hlook.
    destruct (nodes w !! y) as [d|] eqn:Hd; simpl; [|by case_bool_decide].
    unfold attachData. rewrite (Hnotin y d Hd).
    destruct (bool_decide (y = c)), (bool_decide (y = element)); reflexivity.
  - intros y. unfold parentNodeOf. rewrite Hlook.
    destruct (decide (y = c)) as [->|Hne].
    + rewrite bool_decide_eq_true_2 by reflexivity. destruct Hsc as [d Hd]. rewrite Hd. simpl.
      unfold attachData. by rewrite bool_decide_eq_true_2.
    + rewrite bool_decide_eq_false_2 by exact Hne.
      destruct (nodes w !! y) as [d|]; simpl; [|reflexivity].
      unfold attachData. rewrite bool_decide_eq_false_2 by exact Hne.
      by destruct (bool_decide (y = element)).
Qed.

End Filling.

Section FillingLoop.
Variable m : Morph.
Variable self : node -> node -> M unit.
Variables element ref : node.
Variable w : World.
Hypothesis permitted : additionHookPermits (options m).
Hypothesis distinct : element <> ref.
Hypothesis element_old : element < nextId w.
Hypothesis ref_old : ref < nextId w.
Hypothesis children_old : Forall (fun rc => rc < nextId w) (childNodesOf w ref).

Local Abbreviation WF := (Inv w (fun _ => False) (fun _ => False)).
Local Abbreviation placed wi c rc :=
  (nextId w <= c /\ c < nextId wi /\ parentNodeOf wi c = Some element /\ copies wi c w rc).

Lemma fill_loop :
  forall fuel i wi,
    WF wi -> nextId w <= nextId wi ->
    (forall y, y < nextId w -> copies wi y w y) ->
    childNodesOf wi ref = childNodesOf w ref ->
    is_Some (nodes wi !! element) ->
    length (childNodesOf wi element) = i ->
    Forall2 (fun c rc => placed wi c rc) (childNodesOf wi element) (take i (childNodesOf w ref)) ->
    length (childNodesOf w ref) - i < fuel -> i <= length (childNodesOf w ref) ->
    exists w',
      morphChildNodes_for m fuel self element ref i wi = Ok tt w'
      /\ childNodesOf w' ref = childNodesOf w ref
      /\ Forall2 (fun c rc => placed w' c rc) (childNodesOf w' element) (childNodesOf w ref).
Proof.
  induction fuel as [|fuel IH]; intros i wi Hwf Hnext Hkeep Href Hst Hlen Hdone Hfuel Hi; [lia|].
  cbn [morphChildNodes_for]. rewrite bind_read, Href.
  destruct (i <? length (childNodesOf w ref)) eqn:Hlt.
  - apply Nat.ltb_lt in Hlt. rewrite !bind_read.
    rewrite (lookup_ge_None_2 (childNodesOf wi element) i) by lia.
    rewrite Href.
    destruct (lookup_lt_is_Some_2 (childNodesOf w ref) i Hlt) as [rc Hrc]. rewrite Hrc.
    assert (Hrc_old : rc < nextId w).
    { rewrite Forall_forall in children_old. apply children_old.
      by apply list_elem_of_lookup_2 in Hrc. }
    destruct (cloneNode_effect_wf w rc wi Hwf) as (w2 & R2 & I2 & P2 & S2 & Old2 & Hwf2 & C2).
    destruct (appendChild_effect w m element (nextId wi) w2 permitted Hwf2 P2 S2)
      as (w4 & R4 & Hwf4 & I4 & C4 & K4 & Par4 & St4).
    assert (Hbody : (do c <- cloneNode rc;; appendChild m element c) wi = Ok tt w4)
      by (by rewrite (bind_Ok _ _ _ _ _ R2)).
    rewrite (bind_Ok _ _ _ _ _ Hbody).
    assert (Hel2 : nodes w2 !! element = nodes wi !! element) by (apply Old2; lia).
    assert (Holder : forall y, y < nextId wi -> copies w4 y wi y).
    { intros y Hy. apply (copies_trans _ _ w2 y); [apply C4|].
      apply copies_lookup. by apply Old2. }
    destruct (IH (S i) w4) as (w' & R' & Href' & Hall'); try lia.
    + exact Hwf4.
    + intros y Hy. apply (copies_trans _ _ wi y); [apply Holder; lia|by apply Hkeep].
    + rewrite K4, bool_decide_eq_false_2 by congruence.
      rewrite <- Href. unfold childNodesOf. by rewrite Old2 by lia.
    + apply St4. by rewrite Hel2.
    + rewrite K4, bool_decide_eq_true_2 by reflexivity. rewrite Hel2.
      destruct Hst as [d Hd]. rewrite Hd. rewrite length_app. simpl.
      unfold childNodesOf in Hlen. rewrite Hd in Hlen. lia.
    + rewrite K4, bool_decide_eq_true_2 by reflexivity. rewrite Hel2.
      destruct Hst as [d Hd]. rewrite Hd.
      rewrite (take_S_r _ _ _ Hrc). apply Forall2_app.
      * unfold childNodesOf in Hdone. rewrite Hd in Hdone.
        eapply Forall2_impl; [exact Hdone|]. intros c0 rc0 (A1 & A2 & A3 & A4). cbv beta.
        split; [exact A1|]. split; [lia|]. split.
        -- rewrite Par4, bool_decide_eq_false_2 by lia.
           unfold parentNodeOf. rewrite Old2 by exact A2. exact A3.
        -- apply (copies_trans _ _ wi c0); [by apply Holder|exact A4].
      * constructor; [|constructor]. split; [exact Hnext|]. split; [lia|]. split.
        -- by rewrite Par4, bool_decide_eq_true_2.
        -- apply (copies_trans _ _ w2 (nextId wi)); [apply C4|].
           apply (copies_trans _ _ wi rc); [exact C2|]. by apply Hkeep.
    + exists w'. by split.
  - apply Nat.ltb_ge in Hlt. exists wi. split; [reflexivity|]. split; [exact Href|].
    rewrite take_ge in Hdone by lia. exact Hdone.
Qed.

End FillingLoop.

(** X13. An element without children is filled with copies, never with
    the reference's own nodes. In a document, with the addition hook not
    refusing, reconciling the children of an empty live element against
    a reference element ends with as many live children as the reference
    has, in the same order, each a new node whose parent is the live
    element and whose kind, name, attributes and data are those of the
    reference's child at the same place. *)
Theorem morphChildNodes_fills_empty_element (m : Morph) (self : node -> node -> M unit)
    (element ref : node) (fuel : nat) (w : World) :
  additionHookPermits (options m) -> document w -> element <> ref ->
  is_Some (nodes w !! element) -> is_Some (nodes w !! ref) ->
  childNodesOf w element = [] ->
  length (childNodesOf w ref) < fuel ->
  exists w',
    morphChildNodes m fuel self element ref w = Ok tt w'
    /\ Forall2 (fun c rc => nextId w <= c /\ parentNodeOf w' c = Some element
                            /\ copies w' c w rc)
         (childNodesOf w' element) (childNodesOf w ref).
Proof.
  intros Hadd Hdoc Hne Hse Hsr Hempty Hfuel.
  assert (Hold : Forall (fun rc => rc < nextId w) (childNodesOf w ref)).
  { apply Forall_forall. intros rc Hrc. apply document_old; [exact Hdoc|].
    apply (in_store_of_parent w rc ref). by apply document_child. }
  destruct (fill_loop m self element ref w Hadd Hne
              (document_old w element Hdoc Hse) (document_old w ref Hdoc Hsr) Hold
              fuel 0 w) as (w1 & R1 & Href1 & Hall1); try lia.
  - by apply Inv_plain.
  - intros y _. by apply copies_lookup.
  - reflexivity.
  - exact Hse.
  - by rewrite Hempty.
  - rewrite Hempty. constructor.
  - unfold morphChildNodes. rewrite (bind_Ok _ _ _ _ _ R1).
    exists w1. split.
    + destruct fuel as [|k]; [lia|]. cbn [morphChildNodes_while]. rewrite bind_read.
      rewrite Href1, (Forall2_length _ _ _ Hall1), Nat.ltb_irrefl. reflexivity.
    + eapply Forall2_impl; [exact Hall1|]. intros c rc (A1 & _ & A3 & A4).
      split; [exact A1|]. split; [exact A3|exact A4].
Qed.

Lemma morphChildNodes_fills_empty_element_witness :
  exists w',
    morphChildNodes (mkMorph allHooks ∅ ∅) 3 (morphNode (mkMorph allHooks ∅ ∅) 3) 3 1
      excessChild = Ok tt w'
    /\ Forall2 (fun c rc => nextId excessChild <= c /\ parentNodeOf w' c = Some 3
                            /\ copies w' c excessChild rc)
         (childNodesOf w' 3) (childNodesOf excessChild 1).
Proof.
  apply (morphChildNodes_fills_empty_element (mkMorph allHooks ∅ ∅)
           (morphNode (mkMorph allHooks ∅ ∅) 3) 3 1 3 excessChild).
  - intros f Hf w n. injection Hf as <-. reflexivity.
  - apply (bool_decide_unpack _). vm_compute. exact I.
  - lia.
  - apply (bool_decide_unpack _). vm_compute. exact I.
  - apply (bool_decide_unpack _). vm_compute. exact I.
  - vm_compute. reflexivity.
  - vm_compute. lia.
Defined.

(** ** A sibling found by its id is moved, not copied *)

Lemma idOf_nodes w w' n : nodes w = nodes w' -> idOf w n = idOf w' n.
Proof. intros E. unfold idOf, getAttribute. by rewrite (attributesOf_nodes w w' n E). Qed.

Lemma isElement_nodes w w' n : nodes w = nodes w' -> isElement w n = isElement w' n.
Proof. intros E. unfold isElement. by rewrite (nodeTypeOf_nodes w w' n E). Qed.

Lemma siblingsOf_nodes w w' parent l :
  nodes w = nodes w' -> siblingsOf w parent l -> siblingsOf w' parent l.
Proof.
  intros E (H1 & H2 & H3 & H4). split; [by rewrite <- (childNodesOf_nodes w w' parent E)|].
  split; [exact H2|]. split; [exact H3|]. intros c Hc.
  rewrite <- (parentNodeOf_nodes w w' c E). by apply H4.
Qed.

Lemma passedOver_nodes m w w' ref y :
  nodes w = nodes w' -> passedOver m w ref y -> passedOver m w' ref y.
Proof.
  intros E. unfold passedOver.
  by rewrite <- (isElement_nodes w w' y E), <- !(idOf_nodes w w' _ E).
Qed.

Lemma id_search_finds (m : Morph) (self : node -> node -> M unit)
    (child ref parent x : node) (post : list node) (w : World) :
  isElement w x = true -> idOf w x <> "" -> idOf w x = idOf w ref ->
  default 0 (sensivityMap m !! x) = 0 ->
  forall fuel scanned pre nm,
    siblingsOf w parent (pre ++ scanned ++ x :: post) ->
    Forall (passedOver m w ref) scanned ->
    length scanned < fuel ->
    morphChildElement_while m fuel self child ref parent
      match idMap m !! ref with Some refIdSet => elements refIdSet | None => [] end
      (head (scanned ++ [x])) nm w
    = ((if bool_decide (x = child) then ret tt
        else hostInsertBefore parent x (Some child));;
       self x ref;; ret None) w.
Proof.
  intros Hel Hid Hsame Hsens.
  induction fuel as [|k IH]; intros scanned pre nm Hsib Hpass Hfuel; [lia|].
  destruct scanned as [|y scanned].
  - cbn [app head morphChildElement_while]. rewrite bind_read, Hel. rewrite !bind_read.
    rewrite (bool_decide_eq_false_2 (idOf w x = "")) by exact Hid. cbn [negb].
    rewrite bind_read, (bool_decide_eq_true_2 _ Hsame).
    assert (Hins : insertBefore m (S k) parent x child w
                   = (if bool_decide (x = child) then ret tt
                      else hostInsertBefore parent x (Some child)) w).
    { unfold insertBefore. destruct (bool_decide (x = child)); [reflexivity|].
      rewrite bind_read, Hel, Hsens. reflexivity. }
    unfold bind at 1. rewrite Hins. reflexivity.
  - cbn [app head morphChildElement_while].
    apply Forall_cons in Hpass. destruct Hpass as [Hy Hpass].
    assert (Hnext : nextSiblingOf w y = head (scanned ++ [x])).
    { destruct (siblingsOf_middle w parent pre (scanned ++ x :: post) y Hsib) as (Hp & Hy1 & _).
      unfold nextSiblingOf. rewrite Hp. destruct Hsib as [Hch _]. rewrite Hch.
      change (pre ++ (y :: scanned) ++ x :: post) with (pre ++ y :: (scanned ++ x :: post)).
      rewrite (after_middle y pre _ Hy1). by destruct scanned. }
    assert (Hcont : forall nm',
      (do next <- read (fun w => nextSiblingOf w y);;
       morphChildElement_while m k self child ref parent
         match idMap m !! ref with Some refIdSet => elements refIdSet | None => [] end
         next nm') w
      = ((if bool_decide (x = child) then ret tt
          else hostInsertBefore parent x (Some child));;
         self x ref;; ret None) w).
    { intros nm'. rewrite bind_read, Hnext. apply (IH scanned (pre ++ [y]) nm').
      - by rewrite <- app_assoc.
      - exact Hpass.
      - simpl in Hfuel. lia. }
    rewrite bind_read. destruct (isElement w y) eqn:Hely; [|apply Hcont].
    rewrite !bind_read. destruct Hy as [Hy|[Hy|[Hy1 Hy2]]]; [congruence| |].
    + rewrite (bool_decide_eq_true_2 _ Hy). cbn [negb]. apply Hcont.
    + destruct (bool_decide (idOf w y = "")); cbn [negb]; [apply Hcont|].
      rewrite bind_read, (bool_decide_eq_false_2 _ Hy1).
      destruct (idMap m !! y) as [s|]; [|apply Hcont].
      unfold from_option in Hy2. rewrite Hy2. apply Hcont.
Qed.

(** X14. A sibling that carries the reference's id is reused: when the
    first sibling at or after the child that the id search does not pass
    over is an element with the reference's (non-empty) id, and it is not
    sensitive, [#morphChildElement] moves that very node to the child's
    place with one host call (none if it is the child itself) and goes on
    to morph it against the reference; nothing is cloned, and the
    function returns right after that morph. *)
Theorem morphChildElement_reuses_id_match (m : Morph) (self : node -> node -> M unit)
    (child ref parent x : node) (pre scanned post : list node) (fuel : nat) (w : World) :
  morphHookPermits (options m) ->
  siblingsOf w parent (pre ++ scanned ++ x :: post) ->
  head (scanned ++ [x]) = Some child ->
  Forall (passedOver m w ref) scanned ->
  isElement w x = true -> idOf w x <> "" -> idOf w x = idOf w ref ->
  default 0 (sensivityMap m !! x) = 0 ->
  length scanned < fuel ->
  exists w1,
    morphChildElement m fuel self child ref parent w = (self x ref;; ret tt) w1
    /\ siblingsOf w1 parent (pre ++ x :: scanned ++ post)
    /\ ops w1 = ops w ++ (if bool_decide (x = child) then []
                          else [OpInsertBefore parent x (Some child)])
    /\ (forall y, nodeTypeOf w1 y = nodeTypeOf w y).
Proof.
  intros Hmorph Hsib Hhead Hpass Hel Hid Hsame Hsens Hfuel.
  unfold morphChildElement.
  destruct (callBefore_permitted
              (option_map (fun f w => f w child ref) (beforeNodeMorphed (options m)))
              (BeforeNodeMorphed child ref) w)
    as (w0 & R0 & N0 & _ & _ & O0).
  { intros f Hf. destruct (beforeNodeMorphed (options m)) as [g|] eqn:Hg; [|discriminate].
    injection Hf as <-. by apply (Hmorph g). }
  rewrite (bind_Ok _ _ _ _ _ R0). cbn [negb].
  assert (Hsib0 : siblingsOf w0 parent (pre ++ scanned ++ x :: post))
    by by apply (siblingsOf_nodes w).
  assert (Hscan :
    morphChildElement_while m fuel self child ref parent
      match idMap m !! ref with Some refIdSet => elements refIdSet | None => [] end
      (Some child) None w0
    = ((if bool_decide (x = child) then ret tt
        else hostInsertBefore parent x (Some child));;
       self x ref;; ret None) w0).
  { assert (Hel0 : isElement w0 x = true) by by rewrite (isElement_nodes w0 w x N0).
    assert (Hid0 : idOf w0 x <> "") by by rewrite (idOf_nodes w0 w x N0).
    assert (Hsame0 : idOf w0 x = idOf w0 ref) by by rewrite !(idOf_nodes w0 w _ N0).
    assert (Hpass0 : Forall (passedOver m w0 ref) scanned).
    { eapply Forall_impl; [exact Hpass|]. intros y. by apply passedOver_nodes. }
    pose proof (id_search_finds m self child ref parent x post w0 Hel0 Hid0 Hsame0 Hsens
                  fuel scanned pre None Hsib0 Hpass0 Hfuel) as Hfound.
    rewrite Hhead in Hfound. exact Hfound. }
  assert (Hmove : exists w1,
    (if bool_decide (x = child) then ret tt
     else hostInsertBefore parent x (Some child)) w0 = Ok tt w1
    /\ siblingsOf w1 parent (pre ++ x :: scanned ++ post)
    /\ ops w1 = ops w0 ++ (if bool_decide (x = child) then []
                           else [OpInsertBefore parent x (Some child)])
    /\ (forall y, nodeTypeOf w1 y = nodeTypeOf w0 y)).
  { destruct scanned as [|y scanned].
    - simpl in Hhead. injection Hhead as <-.
      rewrite !bool_decide_eq_true_2 by reflexivity.
      exists w0. split; [reflexivity|]. split; [exact Hsib0|]. by rewrite app_nil_r.
    - simpl in Hhead. injection Hhead as ->.
      destruct (siblingsOf_middle w0 parent pre (scanned ++ x :: post) child Hsib0)
        as (_ & Hc1 & Hc2).
      assert (Hxc : x <> child).
      { intros ->. apply Hc2. apply elem_of_app. right. left. }
      rewrite !bool_decide_eq_false_2 by exact Hxc.
      destruct (hostInsertBefore_sibling w0 parent x (Some child)
                  (pre ++ child :: scanned) post) as (w1 & R1 & S1 & O1 & _ & T1).
      + by rewrite <- app_assoc.
      + intros b' Hb'. injection Hb' as <-. rewrite <- app_assoc.
        apply elem_of_app. right. left.
      + exists w1. split; [exact R1|]. split; [|by split].
        simpl in S1. rewrite <- !app_assoc in S1. simpl in S1.
        rewrite (insertAt_middle x child pre (scanned ++ post) Hc1) in S1. exact S1. }
  destruct Hmove as (w1 & R1 & S1 & O1 & T1).
  exists w1. split.
  - unfold bind at 1. rewrite Hscan. unfold bind at 1 2. rewrite R1.
    unfold bind. by destruct (self x ref w1).
  - split; [exact S1|]. split; [by rewrite O1, O0|].
    intros y. rewrite T1. by apply nodeTypeOf_nodes.
Qed.

Lemma morphChildElement_reuses_id_match_witness :
  exists w1,
    morphChildElement (prepared allHooks swappedList 1 11) 5
      (morphNode (prepared allHooks swappedList 1 11) 5) 2 12 1 swappedList
    = (morphNode (prepared allHooks swappedList 1 11) 5 3 12;; ret tt) w1
    /\ siblingsOf w1 1 ([] ++ 3 :: [2] ++ [])
    /\ ops w1 = ops swappedList ++ (if bool_decide (3 = 2) then []
                                    else [OpInsertBefore 1 3 (Some 2)])
    /\ (forall y, nodeTypeOf w1 y = nodeTypeOf swappedList y).
Proof.
  apply (morphChildElement_reuses_id_match (prepared allHooks swappedList 1 11)
           (morphNode (prepared allHooks swappedList 1 11) 5) 2 12 1 3 [] [2] [] 5 swappedList).
  - intros f Hf w n r. vm_compute in Hf. injection Hf as <-. reflexivity.
  - split; [vm_compute; reflexivity|]. split; [apply (bool_decide_unpack _); vm_compute; exact I|].
    split; [apply (bool_decide_unpack _); vm_compute; exact I|].
    intros c Hc. simpl in Hc.
    repeat (apply elem_of_cons in Hc; destruct Hc as [->|Hc]; [vm_compute; reflexivity|]).
    by apply elem_of_nil in Hc.
  - reflexivity.
  - apply (bool_decide_unpack _). vm_compute. exact I.
  - vm_compute. reflexivity.
  - apply (bool_decide_unpack _). vm_compute. exact I.
  - vm_compute. reflexivity.
  - vm_compute. reflexivity.
  - simpl. lia.
Defined.

(** ** The tag-name fallback of the best-match search *)

Lemma tag_search_falls_through (m : Morph) (self : node -> node -> M unit)
    (child ref parent : node) (w : World) :
  forall fuel scanned pre nm,
    siblingsOf w parent (pre ++ scanned) ->
    Forall (passedOver m w ref) scanned ->
    length scanned < fuel ->
    morphChildElement_while m fuel self child ref parent
      match idMap m !! ref with Some refIdSet => elements refIdSet | None => [] end
      (head scanned) nm w
    = Ok (Some match nm with
               | Some t => Some t
               | None => List.find (sameTagElement w ref) scanned
               end) w.
Proof.
  induction fuel as [|k IH]; intros scanned pre nm Hsib Hpass Hfuel; [lia|].
  destruct scanned as [|y scanned].
  - cbn [head morphChildElement_while]. by destruct nm.
  - cbn [head morphChildElement_while].
    apply Forall_cons in Hpass. destruct Hpass as [Hy Hpass].
    assert (Hnext : nextSiblingOf w y = head scanned).
    { destruct (siblingsOf_middle w parent pre scanned y Hsib) as (Hp & Hy1 & _).
      unfold nextSiblingOf. rewrite Hp. destruct Hsib as [Hch _]. rewrite Hch.
      by rewrite (after_middle y pre _ Hy1). }
    assert (Hcont : forall nm',
      (do next <- read (fun w => nextSiblingOf w y);;
       morphChildElement_while m k self child ref parent
         match idMap m !! ref with Some refIdSet => elements refIdSet | None => [] end
         next nm') w
      = Ok (Some match nm' with
                 | Some t => Some t
                 | None => List.find (sameTagElement w ref) scanned
                 end) w).
    { intros nm'. rewrite bind_read, Hnext. apply (IH scanned (pre ++ [y]) nm').
      - by rewrite <- app_assoc.
      - exact Hpass.
      - simpl in Hfuel. lia. }
    cbn [List.find]. unfold sameTagElement at 1.
    rewrite bind_read. destruct (isElement w y) eqn:Hely; cbn [andb].
    + rewrite !bind_read.
      assert (Hgoal : forall nm', nm' = match nm with
                                        | None => if bool_decide (localNameOf w y = localNameOf w ref)
                                                  then Some y else None
                                        | Some t => Some t
                                        end ->
        Ok (Some match nm' with
                 | Some t => Some t
                 | None => List.find (sameTagElement w ref) scanned
                 end) w
        = Ok (Some match nm with
                   | Some t => Some t
                   | None => if bool_decide (localNameOf w y = localNameOf w ref) then Some y
                             else List.find (sameTagElement w ref) scanned
                   end) w).
      { intros nm' ->. destruct nm; [reflexivity|].
        by destruct (bool_decide (localNameOf w y = localNameOf w ref)). }
      destruct Hy as [Hy|[Hy|[Hy1 Hy2]]]; [congruence| |].
      * rewrite (bool_decide_eq_true_2 _ Hy). cbn [negb]. rewrite Hcont. by apply Hgoal.
      * destruct (bool_decide (idOf w y = "")); cbn [negb];
          [rewrite Hcont; by apply Hgoal|].
        rewrite bind_read, (bool_decide_eq_false_2 _ Hy1).
        destruct (idMap m !! y) as [s|]; [|rewrite Hcont; by apply Hgoal].
        unfold from_option in Hy2. rewrite Hy2. rewrite Hcont. by apply Hgoal.
    + apply Hcont.
Qed.

Lemma find_pointwise {A : Type} (f g : A -> bool) (l : list A) :
  (forall y, f y = g y) -> List.find f l = List.find g l.
Proof. intros E. induction l as [|y l IH]; simpl; [reflexivity|]. by rewrite E, IH. Qed.

Lemma find_sameTag_elem w ref (l : list node) t :
  List.find (sameTagElement w ref) l = Some t -> t ∈ l /\ isElement w t = true.
Proof.
  intros H. apply find_some in H. destruct H as [Hin Ht]. split; [by apply list_elem_of_In|].
  unfold sameTagElement in Ht. by apply andb_true_iff in Ht as [Ht _].
Qed.

(** X15. Without an id match the search falls back on the tag name: when
    the id search passes over the child and every sibling after it, the
    first of them that is an element with the reference's tag name, if it
    is not sensitive, is moved to the child's place with one host call
    (none if it is the child itself) and morphed against the reference,
    and then the after-morphed hook is called for the child. *)
Theorem morphChildElement_falls_back_on_tag (m : Morph) (self : node -> node -> M unit)
    (child ref parent t : node) (pre scanned : list node) (fuel : nat) (w : World) :
  morphHookPermits (options m) ->
  siblingsOf w parent (pre ++ scanned) ->
  head scanned = Some child ->
  Forall (passedOver m w ref) scanned ->
  List.find (sameTagElement w ref) scanned = Some t ->
  default 0 (sensivityMap m !! t) = 0 ->
  length scanned < fuel ->
  exists w1,
    morphChildElement m fuel self child ref parent w
    = (self t ref;;
       callAfter (afterNodeMorphed (options m)) (AfterNodeMorphed child ref)) w1
    /\ siblingsOf w1 parent
         (pre ++ t :: List.filter (fun y => negb (bool_decide (y = t))) scanned)
    /\ ops w1 = ops w ++ (if bool_decide (t = child) then []
                          else [OpInsertBefore parent t (Some child)]).
Proof.
  intros Hmorph Hsib Hhead Hpass Hfind Hsens Hfuel.
  unfold morphChildElement.
  destruct (callBefore_permitted
              (option_map (fun f w => f w child ref) (beforeNodeMorphed (options m)))
              (BeforeNodeMorphed child ref) w)
    as (w0 & R0 & N0 & _ & _ & O0).
  { intros f Hf. destruct (beforeNodeMorphed (options m)) as [g|] eqn:Hg; [|discriminate].
    injection Hf as <-. by apply (Hmorph g). }
  rewrite (bind_Ok _ _ _ _ _ R0). cbn [negb].
  assert (Hsib0 : siblingsOf w0 parent (pre ++ scanned)) by by apply (siblingsOf_nodes w).
  assert (Hfind0 : List.find (sameTagElement w0 ref) scanned = Some t).
  { rewrite <- Hfind. apply find_pointwise. intros y. unfold sameTagElement.
    by rewrite (isElement_nodes w0 w y N0), !(localNameOf_nodes w0 w _ N0). }
  assert (Hpass0 : Forall (passedOver m w0 ref) scanned).
  { eapply Forall_impl; [exact Hpass|]. intros y. by apply passedOver_nodes. }
  pose proof (tag_search_falls_through m self child ref parent w0 fuel scanned pre None
                Hsib0 Hpass0 Hfuel) as Hscan.
  rewrite Hhead, Hfind0 in Hscan. rewrite (bind_Ok _ _ _ _ _ Hscan).
  destruct (find_sameTag_elem w0 ref scanned t Hfind0) as [Hin Hel].
  destruct scanned as [|c rest]; [discriminate|]. simpl in Hhead. injection Hhead as ->.
  assert (Hnd : NoDup (child :: rest)).
  { destruct Hsib0 as (_ & Hnd & _). apply NoDup_app in Hnd. tauto. }
  apply NoDup_cons in Hnd as Hnd'. destruct Hnd' as [Hcr Hndr].
  assert (Hmove : exists w1,
    insertBefore m fuel parent t child w0 = Ok tt w1
    /\ siblingsOf w1 parent
         (pre ++ t :: List.filter (fun y => negb (bool_decide (y = t))) (child :: rest))
    /\ ops w1 = ops w0 ++ (if bool_decide (t = child) then []
                           else [OpInsertBefore parent t (Some child)])).
  { unfold insertBefore. destruct (decide (t = child)) as [->|Hne].
    - rewrite !bool_decide_eq_true_2 by reflexivity. exists w0. split; [reflexivity|].
      split; [|by rewrite app_nil_r]. simpl.
      rewrite bool_decide_eq_true_2 by reflexivity. simpl.
      by rewrite filter_out_notin.
    - rewrite !bool_decide_eq_false_2 by exact Hne. rewrite bind_read, Hel, Hsens.
      apply elem_of_cons in Hin. destruct Hin as [->|Hin]; [contradiction|].
      apply list_elem_of_split in Hin. destruct Hin as (a & b & ->).
      destruct (hostInsertBefore_sibling w0 parent t (Some child)
                  (pre ++ child :: a) b) as (w1 & R1 & S1 & O1 & _).
      + by rewrite <- app_assoc.
      + intros b' Hb'. injection Hb' as <-. rewrite <- app_assoc.
        apply elem_of_app. right. left.
      + exists w1. split; [exact R1|]. split; [|exact O1].
        assert (Hc1 : child ∉ pre).
        { by destruct (siblingsOf_middle w0 parent pre (a ++ t :: b) child Hsib0) as (_ & H & _). }
        apply NoDup_app in Hndr. destruct Hndr as (Hnda & Hdis & Hndb).
        apply NoDup_cons in Hndb. destruct Hndb as [Htb _].
        assert (Hta : t ∉ a) by (intros H; apply (Hdis t H); left).
        simpl in S1. rewrite <- !app_assoc in S1. simpl in S1.
        rewrite (insertAt_middle t child pre (a ++ b) Hc1) in S1.
        simpl. rewrite (bool_decide_eq_false_2 (child = t)) by congruence. simpl.
        by rewrite (filter_out_middle t a b Hta Htb). }
  destruct Hmove as (w1 & R1 & S1 & O1).
  exists w1. split.
  - unfold bind at 1 2. rewrite R1. reflexivity.
  - split; [exact S1|]. by rewrite O1, O0.
Qed.

Lemma morphChildElement_falls_back_on_tag_witness :
  exists w1,
    morphChildElement (prepared allHooks tagAhead 1 11) 5
      (morphNode (prepared allHooks tagAhead 1 11) 5) 2 12 1 tagAhead
    = (morphNode (prepared allHooks tagAhead 1 11) 5 2 12;;
       callAfter (afterNodeMorphed (options (prepared allHooks tagAhead 1 11)))
         (AfterNodeMorphed 2 12)) w1
    /\ siblingsOf w1 1
         ([] ++ 2 :: List.filter (fun y => negb (bool_decide (y = 2))) [2; 3; 4])
    /\ ops w1 = ops tagAhead ++ (if bool_decide (2 = 2) then []
                                 else [OpInsertBefore 1 2 (Some 2)]).
Proof.
  apply (morphChildElement_falls_back_on_tag (prepared allHooks tagAhead 1 11)
           (morphNode (prepared allHooks tagAhead 1 11) 5) 2 12 1 2 [] [2; 3; 4] 5 tagAhead).
  - intros f Hf w n r. vm_compute in Hf. injection Hf as <-. reflexivity.
  - split; [vm_compute; reflexivity|]. split; [apply (bool_decide_unpack _); vm_compute; exact I|].
    split; [apply (bool_decide_unpack _); vm_compute; exact I|].
    intros c Hc. simpl in Hc.
    repeat (apply elem_of_cons in Hc; destruct Hc as [->|Hc]; [vm_compute; reflexivity|]).
    by apply elem_of_nil in Hc.
  - reflexivity.
  - apply (bool_decide_unpack _). vm_compute. exact I.
  - vm_compute. reflexivity.
  - vm_compute. reflexivity.
  - simpl. lia.
Defined.

Lemma search_keeps_candidate (m : Morph) (self : node -> node -> M unit)
    (child ref parent : node) (refSetArray : list string) :
  forall fuel currentNode nm w a w',
    (nm <> None \/ exists c, currentNode = Some c /\ sameTagElement w ref c = true) ->
    morphChildElement_while m fuel self child ref parent refSetArray currentNode nm w
    = Ok a w' ->
    a = None \/ exists t, a = Some (Some t).
Proof.
  induction fuel as [|k IH]; intros current nm w a w' Hcand Hrun;
    destruct current as [c|]; cbn [morphChildElement_while] in Hrun; try discriminate Hrun.
  - cbv [ret] in Hrun. inversion Hrun; subst.
    destruct Hcand as [Hnm|(c & Hc & _)]; [|discriminate].
    right. destruct nm as [t|]; [by exists t|contradiction].
  - assert (Hmatch : forall f,
      (insertBefore m f parent c child;; self c ref;; ret (@None (option node))) w = Ok a w' ->
      a = None \/ exists t, a = Some (Some t)).
    { intros f H. apply bind_Ok_inv in H. destruct H as (u & w1 & _ & H).
      apply bind_Ok_inv in H. destruct H as (u' & w2 & _ & H). injection H as <- _. by left. }
    assert (Hcont : forall nm', nm' <> None ->
      (do next <- read (fun w => nextSiblingOf w c);;
       morphChildElement_while m k self child ref parent refSetArray next nm') w = Ok a w' ->
      a = None \/ exists t, a = Some (Some t)).
    { intros nm' Hnm' H. rewrite bind_read in H. apply (IH (nextSiblingOf w c) nm' w a w'); [by left|exact H]. }
    rewrite bind_read in Hrun. destruct (isElement w c) eqn:Hel.
    + rewrite !bind_read in Hrun.
      assert (Hnm' : match nm with
                     | None => if bool_decide (localNameOf w c = localNameOf w ref)
                               then Some c else None
                     | Some x => Some x
                     end <> None).
      { destruct nm as [t|]; [discriminate|].
        destruct Hcand as [Hnm|(c' & Hc' & Hsame)]; [contradiction|].
        injection Hc' as <-. unfold sameTagElement in Hsame.
        apply andb_true_iff in Hsame. destruct Hsame as [_ Hsame]. by rewrite Hsame. }
      destruct (negb _); [|by apply (Hcont _ Hnm')].
      rewrite bind_read in Hrun. destruct (bool_decide _); [by apply (Hmatch (S k))|].
      destruct (idMap m !! c); [|by apply (Hcont _ Hnm')].
      destruct (existsb _ _); [by apply (Hmatch (S k))|by apply (Hcont _ Hnm')].
    + destruct Hcand as [Hnm|(c' & Hc' & Hsame)]; [by apply (Hcont nm Hnm)|].
      injection Hc' as <-. unfold sameTagElement in Hsame. rewrite Hel in Hsame. discriminate.
  - cbv [ret] in Hrun. inversion Hrun; subst.
    destruct Hcand as [Hnm|(c & Hc & _)]; [|discriminate].
    right. destruct nm as [t|]; [by exists t|contradiction].
Qed.

(** X16. Called the way [#morphChildNodes] calls it, on a child that is
    an element with the reference's tag name, the best-match search never
    comes back empty-handed: it either returns from inside the loop,
    having morphed an id match, or hands over a candidate by tag name. So
    the branch of [#morphChildElement] that inserts a copy of the
    reference is not reached from there. *)
Theorem morphChildElement_search_finds_candidate (m : Morph) (self : node -> node -> M unit)
    (child ref parent : node) (refSetArray : list string) (fuel : nat)
    (w w' : World) (a : option (option node)) :
  sameTagElement w ref child = true ->
  morphChildElement_while m fuel self child ref parent refSetArray (Some child) None w
  = Ok a w' ->
  a = None \/ exists t, a = Some (Some t).
Proof.
  intros Hsame Hrun.
  apply (search_keeps_candidate m self child ref parent refSetArray fuel (Some child) None
           w a w'); [|exact Hrun].
  right. by exists child.
Qed.

Lemma morphChildElement_search_finds_candidate_witness :
  Some (Some 2) = None \/ exists t, Some (Some 2) = Some (Some t).
Proof.
  apply (morphChildElement_search_finds_candidate (prepared allHooks tagAhead 1 11)
           (morphNode (prepared allHooks tagAhead 1 11) 5) 2 12 1 [] 5 tagAhead tagAhead).
  - vm_compute. reflexivity.
  - vm_compute. reflexivity.
Defined.

(** ** Input state through [#morphNode] *)




(** A field other than the attribute list reads the same. *)
Lemma stateOf_read {A : Type} (r : NodeData -> A) (dflt : A) w w' x :
  stateOf w' x = stateOf w x ->
  (forall d a, r (with_attributes d a) = r d) ->
  readNode r dflt w' x = readNode r dflt w x.
Proof.
  unfold stateOf, readNode. intros Hs Hr.
  destruct (nodes w' !! x) as [d'|], (nodes w !! x) as [d|];
    [|discriminate Hs|discriminate Hs|reflexivity].
  change (Some (with_attributes d' []) = Some (with_attributes d [])) in Hs.
  rewrite <- (Hr d' []), <- (Hr d []). congruence.
Qed.










(** ** Idempotence through the entry point *)

Lemma removeAssoc_setAssoc k v (l : list (string * string)) :
  assoc k l = None -> removeAssoc k (setAssoc k v l) = l.
Proof.
  induction l as [|[k0 v0] l IH]; simpl.
  - intros _. by rewrite bool_decide_eq_true_2.
  - destruct (decide (k0 = k)) as [E|E].
    + by rewrite (bool_decide_eq_true_2 (k0 = k)) by exact E.
    + rewrite (bool_decide_eq_false_2 (k0 = k)) by exact E. intros Hk. simpl.
      rewrite (bool_decide_eq_false_2 (k0 = k)) by exact E. by rewrite IH.
Qed.

Lemma fold_left_pointwise {A B : Type} (f g : A -> B -> A) (l : list B) (a : A) :
  (forall a b, f a b = g a b) -> fold_left f l a = fold_left g l a.
Proof.
  intros Hfg. revert a. induction l as [|b l IH]; intros a; [reflexivity|].
  simpl. by rewrite Hfg, IH.
Qed.

Section OtherAttributes.
(** Two documents that differ at most in attributes other than [id]. *)
Variables w w' : World.
Hypothesis same_state : forall x, stateOf w' x = stateOf w x.
Hypothesis same_id : forall x, getAttribute w' x "id" = getAttribute w x "id".

Lemma other_childNodes x : childNodesOf w' x = childNodesOf w x.
Proof.
  change (readNode childNodes [] w' x = readNode childNodes [] w x).
  by apply stateOf_read.
Qed.

Lemma other_parentNode x : parentNodeOf w' x = parentNodeOf w x.
Proof.
  change (readNode parentNode None w' x = readNode parentNode None w x).
  by apply stateOf_read.
Qed.

Lemma other_nodeType x : nodeTypeOf w' x = nodeTypeOf w x.
Proof.
  change (readNode nodeType 0%Z w' x = readNode nodeType 0%Z w x).
  by apply stateOf_read.
Qed.

Lemma other_size : size (nodes w') = size (nodes w).
Proof.
  rewrite <- (size_dom (D := gset nat) (nodes w')), <- (size_dom (D := gset nat) (nodes w)).
  f_equal. apply set_eq. intros x. rewrite !elem_of_dom.
  pose proof (same_state x) as Hx. unfold stateOf in Hx.
  destruct (nodes w' !! x), (nodes w !! x); try discriminate Hx;
    split; intros [? ?]; eauto; discriminate.
Qed.

Lemma other_descendantsF fuel : forall n, descendantsF fuel w' n = descendantsF fuel w n.
Proof.
  induction fuel as [|k IH]; intros n; [reflexivity|].
  simpl. rewrite other_childNodes. apply flat_map_ext. intros c. by rewrite IH.
Qed.

Lemma other_descendants n : descendants w' n = descendants w n.
Proof. unfold descendants. by rewrite other_size, other_descendantsF. Qed.

Lemma other_isElement x : isElement w' x = isElement w x.
Proof. unfold isElement. by rewrite other_nodeType. Qed.

Lemma other_isParentNode x : isParentNode w' x = isParentNode w x.
Proof. unfold isParentNode. by rewrite other_nodeType. Qed.

Lemma other_parentElement x : parentElement w' x = parentElement w x.
Proof.
  unfold parentElement. rewrite other_parentNode.
  destruct (parentNodeOf w x); [by rewrite other_isElement|reflexivity].
Qed.

Lemma other_whileCurrent {A : Type} (root : node) (visit : node -> A -> A) fuel :
  forall current acc,
    whileCurrent fuel w' root visit current acc = whileCurrent fuel w root visit current acc.
Proof.
  induction fuel as [|k IH]; intros current acc; [reflexivity|].
  simpl. rewrite other_parentElement. destruct (bool_decide (current = root)); [reflexivity|].
  destruct (parentElement w current); [apply IH|reflexivity].
Qed.

(** The id pre-pass gives the same map on both. *)
Lemma other_mapIdSets root im : mapIdSets w' root im = mapIdSets w root im.
Proof.
  unfold mapIdSets.
  assert (Hsel : querySelectorAll w' root (SelHasAttribute "id")
                 = querySelectorAll w root (SelHasAttribute "id")).
  { unfold querySelectorAll. rewrite other_descendants. apply filter_ext. intros e.
    rewrite other_isElement. unfold matchesSelector, hasAttribute. by rewrite same_id. }
  rewrite Hsel, other_size. apply fold_left_pointwise. intros im' e.
  unfold idOf. rewrite same_id. destruct (bool_decide _); [reflexivity|].
  apply other_whileCurrent.
Qed.

End OtherAttributes.

(** The log of host calls is never read. *)
Lemma descendantsF_withOps k w os n :
  descendantsF k (withOps w os) n = descendantsF k w n.
Proof.
  revert n. induction k as [|k IH]; intros n; [reflexivity|].
  simpl. change (childNodesOf (withOps w os) n) with (childNodesOf w n).
  apply flat_map_ext. intros c. by rewrite IH.
Qed.

Lemma descendants_withOps w os n : descendants (withOps w os) n = descendants w n.
Proof. unfold descendants. apply descendantsF_withOps. Qed.

Lemma serializeF_withOps k w os raw n :
  serializeF k (withOps w os) raw n = serializeF k w raw n.
Proof.
  revert raw n. induction k as [|k IH]; intros raw n; [reflexivity|].
  cbn [serializeF].
  change (nodeTypeOf (withOps w os) n) with (nodeTypeOf w n).
  change (localNameOf (withOps w os) n) with (localNameOf w n).
  change (attributesOf (withOps w os) n) with (attributesOf w n).
  change (nodeValueOf (withOps w os) n) with (nodeValueOf w n).
  change (childNodesOf (withOps w os) n) with (childNodesOf w n).
  rewrite (map_ext (serializeF k (withOps w os) (bool_decide (localNameOf w n ∈ rawTextElements)))
             (serializeF k w (bool_decide (localNameOf w n ∈ rawTextElements))))
    by (intros c; apply IH).
  reflexivity.
Qed.

Lemma sameTree_withOps k w os : forall n r, sameTree k w n r -> sameTree k (withOps w os) n r.
Proof.
  induction k as [|k IH]; intros n r; [intros []|].
  intros (d & dr & Hd & Hdr & Hs & Hch). exists d, dr.
  split; [exact Hd|]. split; [exact Hdr|]. split; [exact Hs|].
  eapply Forall2_impl; [exact Hch|]. intros c c' Hc. by apply IH.
Qed.

Lemma tree_withOps k w os : forall n, tree k w n -> tree k (withOps w os) n.
Proof.
  induction k as [|k IH]; intros n; [intros []|].
  intros [Hel Hch]. split; [exact Hel|].
  change (childNodesOf (withOps w os) n) with (childNodesOf w n).
  eapply Forall_impl; [exact Hch|]. intros c [Hp Hc]. split; [exact Hp|by apply IH].
Qed.

Lemma plainNode_withOps w os x : plainNode w x -> plainNode (withOps w os) x.
Proof.
  intros (H1 & H2 & H3 & H4). split; [exact H1|]. split; [exact H2|]. split; [exact H3|].
  intros Hhead. change (childrenOf (withOps w os) x) with (childrenOf w x).
  rewrite (map_ext (outerHTML (withOps w os)) (outerHTML w)); [by apply H4|].
  intros c. apply serializeF_withOps.
Qed.

Lemma idsSound_withOps w os im : idsSound w im -> idsSound (withOps w os) im.
Proof.
  intros Hs x ids i Hx Hi. destruct (Hs x ids i Hx Hi) as (e & He & Hrest).
  exists e. rewrite descendants_withOps. by split.
Qed.

(** What the entry point hands to the scheduler when the root is an
    element without the busy marker: the id sets are those of the
    document as it was, and the document is as it was but for the two
    writes of the marker. *)
Lemma morph_entry_unmarked (parseFragment : string -> M (list node)) (o : Options)
    (w : World) (n r : node) :
  isElement w n = true -> getAttribute w n "aria-busy" = None ->
  exists sm,
    morph parseFragment n (inl r) o w
    = Ok (mkFrame
            (mkMorph o
               (if isParentNode w n && isParentNode w r
                then mapIdSets w r (mapIdSets w n ∅) else ∅) sm) n r)
         (mkWorld (nodes w) (activeElement w) (nextId w) (calls w)
            (ops w ++ [OpSetAriaBusy n (Some "true"); OpSetAriaBusy n None])).
Proof.
  intros Hel Hbusy.
  set (f1 := fun d => with_attributes d (setAssoc "aria-busy" "true" (attributes d))).
  set (f2 := fun d => with_attributes d (removeAssoc "aria-busy" (attributes d))).
  set (w1 := log_op (OpSetAriaBusy n (Some "true")) (updateNode n f1 w)).
  set (maps := if isParentNode w1 n && isParentNode w1 r
               then (mapIdSets w1 r (mapIdSets w1 n ∅), mapSensivity w1 n ∅)
               else (∅, ∅)).
  assert (Hrun : morph parseFragment n (inl r) o w
                 = Ok (mkFrame (mkMorph o (fst maps) (snd maps)) n r)
                      (log_op (OpSetAriaBusy n None) (updateNode n f2 w1))).
  { unfold morph. rewrite (bind_Ok (ret r) _ w r w eq_refl). rewrite bind_read, Hel.
    reflexivity. }
  assert (Hstate : forall x, stateOf w1 x = stateOf w x).
  { intros x. unfold stateOf. change (nodes w1) with (alter f1 n (nodes w)).
    destruct (decide (n = x)) as [->|Hne].
    - rewrite lookup_alter_eq. by destruct (nodes w !! x).
    - by rewrite lookup_alter_ne. }
  assert (Hid : forall x, getAttribute w1 x "id" = getAttribute w x "id").
  { intros x. unfold getAttribute, attributesOf. change (nodes w1) with (alter f1 n (nodes w)).
    destruct (decide (n = x)) as [->|Hne].
    - rewrite lookup_alter_eq. destruct (nodes w !! x); [|reflexivity].
      simpl. by apply assoc_setAssoc_ne.
    - by rewrite lookup_alter_ne. }
  assert (Hnodes : alter f2 n (alter f1 n (nodes w)) = nodes w).
  { apply map_eq. intros x. destruct (decide (n = x)) as [->|Hne].
    - rewrite !lookup_alter_eq. unfold getAttribute, attributesOf in Hbusy.
      destruct (nodes w !! x) as [d|]; [|reflexivity]. simpl. f_equal.
      unfold f2, f1. simpl. rewrite removeAssoc_setAssoc by exact Hbusy. by destruct d.
    - by rewrite !lookup_alter_ne. }
  exists (snd maps). rewrite Hrun. f_equal.
  - f_equal. f_equal. unfold maps.
    rewrite !(other_isParentNode w w1 Hstate).
    destruct (isParentNode w n && isParentNode w r); [|reflexivity].
    simpl. by rewrite !(other_mapIdSets w w1 Hstate Hid).
  - unfold log_op, updateNode, with_nodes. simpl. rewrite Hnodes, <- app_assoc. reflexivity.
Qed.

(** C8, as the code has it. Take a well-formed live tree made of elements
    and of nodes that carry text, in which no two elements share a
    non-empty id, no textarea has an element child, and no head-like
    container has two element children with the same markup. Morphing it
    against an equal reference, with any hook set and a sufficient budget,
    finishes, leaves every node and the focus as they were, and calls
    only the before- and after-morphed hooks. The pre-passes and the
    mutation pass make no host call. Through the entry point the same
    holds when the root does not carry the busy marker, the only host
    calls then being the two writes of the marker on an element root. *)
Theorem morph_equal_is_quiet (parseFragment : string -> M (list node)) (o : Options)
    (w : World) (n r : node) (k : nat) :
  sameTree k w n r -> tree k w n -> tree k w r -> k <= size (nodes w) ->
  NoDup (n :: descendants w n) -> NoDup (r :: descendants w r) ->
  Forall (plainNode w) (n :: descendants w n) ->
  uniqueIds w (descendants w n) ->
  forall fuel, 2 * size (nodes w) + 1 <= fuel ->
  (exists w' cs,
     morphThenFrame fuel o n r w = Ok tt w'
     /\ nodes w' = nodes w /\ activeElement w' = activeElement w /\ ops w' = ops w
     /\ calls w' = calls w ++ cs /\ Forall isMorphedCall cs)
  /\ (getAttribute w n "aria-busy" = None ->
      exists w' cs,
        morphEntryThenFrame parseFragment fuel o n r w = Ok tt w'
        /\ nodes w' = nodes w /\ activeElement w' = activeElement w
        /\ ops w' = ops w ++ busyMarkerOps w n
        /\ calls w' = calls w ++ cs /\ Forall isMorphedCall cs).
Proof.
  intros Hsame Htn Htr Hk Hndn Hndr Hplain Huniq fuel Hfuel.
  pose proof (morphThenFrame_equal_quiet o w n r k Hsame Htn Htr Hk Hndn Hndr Hplain Huniq
                fuel Hfuel) as Hpass.
  split; [exact Hpass|]. intros Hbusy. unfold busyMarkerOps.
  destruct (isElement w n) eqn:Hel.
  - destruct (morph_entry_unmarked parseFragment o w n r Hel Hbusy) as [sm Hentry].
    set (im := if isParentNode w n && isParentNode w r
               then mapIdSets w r (mapIdSets w n ∅) else ∅) in Hentry.
    set (m := mkMorph o im sm) in Hentry.
    set (w2 := mkWorld (nodes w) (activeElement w) (nextId w) (calls w)
                 (ops w ++ [OpSetAriaBusy n (Some "true"); OpSetAriaBusy n None]))
      in Hentry.
    assert (Hsound : idsSound w2 (idMap m)).
    { apply (idsSound_withOps w). unfold m, im. simpl.
      destruct (isParentNode w n && isParentNode w r).
      - apply (idsSound_mapIdSets w r k); try assumption.
        apply (idsSound_mapIdSets w n k); try assumption. apply idsSound_empty.
      - apply idsSound_empty. }
    assert (Hdesc : descendants w2 n = descendants w n) by apply descendants_withOps.
    destruct (morphNode_quiet m w2 (size (nodes w)) Hsound k n r) with
      (fuel := fuel) (cs := calls w) as [a [cs [Hq [Hcs _]]]].
    + by apply (sameTree_withOps k w).
    + by apply (tree_withOps k w).
    + by apply (tree_withOps k w).
    + exact Hk.
    + by rewrite Hdesc.
    + intros x Hx. rewrite Hdesc in Hx. rewrite Forall_forall in Hplain.
      split; [by apply (plainNode_withOps w), Hplain|].
      apply (children_le_size w k x); [|exact Hk|by apply (NoDup_subtree w k n x)].
      apply elem_of_cons in Hx. destruct Hx as [->|Hx]; [exact Htn|].
      by apply (tree_descendant w (size (nodes w)) k n x).
    + rewrite Hdesc. exact Huniq.
    + lia.
    + exists (withCalls w2 (calls w ++ cs)), cs. split; [|by repeat split].
      unfold morphEntryThenFrame.
      rewrite (bind_Ok _ _ _ _ _ Hentry). destruct a. exact Hq.
  - assert (Hm : morph parseFragment n (inl r) o w = Morph_morph o n r w).
    { unfold morph. rewrite (bind_Ok (ret r) _ w r w eq_refl). by rewrite bind_read, Hel. }
    assert (Heq : morphEntryThenFrame parseFragment fuel o n r w = morphThenFrame fuel o n r w).
    { unfold morphEntryThenFrame, morphThenFrame, bind. by rewrite Hm. }
    destruct Hpass as (w' & cs & Hrun & Hn & Ha & Ho & Hc & Hcs).
    exists w', cs. rewrite Heq, app_nil_r. by repeat split.
Qed.

Lemma morph_equal_is_quiet_witness :
  (exists w' cs,
     morphThenFrame 17 allHooks 1 11 equalPair = Ok tt w'
     /\ nodes w' = nodes equalPair /\ activeElement w' = activeElement equalPair
     /\ ops w' = ops equalPair
     /\ calls w' = calls equalPair ++ cs /\ Forall isMorphedCall cs)
  /\ (exists w' cs,
        morphEntryThenFrame (fun _ => ret []) 17 allHooks 1 11 equalPair = Ok tt w'
        /\ nodes w' = nodes equalPair /\ activeElement w' = activeElement equalPair
        /\ ops w' = ops equalPair ++ busyMarkerOps equalPair 1
        /\ calls w' = calls equalPair ++ cs /\ Forall isMorphedCall cs).
Proof.
  assert (H : sameTree 3 equalPair 1 11) by (apply sameTreeb_sound; vm_compute; reflexivity).
  destruct (morph_equal_is_quiet (fun _ => ret []) allHooks equalPair 1 11 3 H) with (fuel := 17)
    as [Hpass Hentry].
  - apply treeb_sound. vm_compute. reflexivity.
  - apply treeb_sound. vm_compute. reflexivity.
  - vm_compute. lia.
  - apply (bool_decide_unpack _). vm_compute. exact I.
  - apply (bool_decide_unpack _). vm_compute. exact I.
  - apply (bool_decide_unpack _). vm_compute. exact I.
  - apply (bool_decide_unpack _). vm_compute. exact I.
  - vm_compute. lia.
  - split; [exact Hpass|]. apply Hentry. vm_compute. reflexivity.
Defined.

(** Through the entry point a root that carries the busy marker is not
    left alone, although the reference equals it: the marker is taken off
    before the mutation pass runs, which then puts it back, through the
    attribute hooks and at the end of the attribute list. *)
Example busyEqual_marker_rewritten :
  sameTree 1 busyEqual 1 11
  /\ exists w',
       morphEntryThenFrame (fun _ => ret []) 3 allHooks 1 11 busyEqual = Ok tt w'
       /\ calls w' = [BeforeNodeMorphed 1 11;
                      BeforeAttributeUpdated 1 "aria-busy" (Some "true");
                      AfterAttributeUpdated 1 "aria-busy" None;
                      AfterNodeMorphed 1 11]
       /\ attributesOf busyEqual 1 = [("aria-busy", "true"); ("class", "c")]
       /\ attributesOf w' 1 = [("class", "c"); ("aria-busy", "true")]
       /\ ops w' = [OpSetAriaBusy 1 (Some "true"); OpSetAriaBusy 1 None;
                    OpSetAttribute 1 "aria-busy" "true"].
Proof.
  split; [apply sameTreeb_sound; vm_compute; reflexivity|].
  eexists. split; [vm_compute; reflexivity|]. repeat split.
Qed.
